(** * mini-owl: lane scheduler, tool-calling loop, run tracker

  A shallow embedding of the orchestration core of mini-owl
  (src/agent/lanes.ts, src/agent/runner.ts, src/agent/daemon.ts and
  src/session/session-manager.ts) together with the properties its
  specification states about it.

  Conventions.  A JavaScript string is the list of its UTF-16 code
  units.  Asynchronous code is cut at its [await] points: every
  piece between two suspension points is one atomic transition on an
  explicit state.  External collaborators (the model backend, the
  tools, the event subscribers, the clock) are inputs of the model. *)

From Stdlib Require Import ZArith NArith List Lia Bool.
From Stdlib Require Import Strings.String Strings.Ascii.
From Stdlib Require Import Numbers.DecimalN Numbers.DecimalFacts.
From stdpp Require Import base option list gmap.

Local Open Scope Z_scope.

(** ** JavaScript strings *)

Module JS.

(** One UTF-16 code unit. *)
Definition code_unit := N.

Abbreviation js_string := (list N).

(** A literal of the source, written with ASCII characters. *)
Definition str (s : string) : js_string :=
  map N_of_ascii (list_ascii_of_string s).

(** [hay.startsWith(needle)] *)
Fixpoint startsWith (hay needle : js_string) {struct needle} : bool :=
  match needle with
  | [] => true
  | c :: needle' =>
      match hay with
      | [] => false
      | d :: hay' => N.eqb c d && startsWith hay' needle'
      end
  end.

(** [hay.includes(needle)] *)
Fixpoint includes (hay needle : js_string) : bool :=
  startsWith hay needle ||
  match hay with
  | [] => false
  | _ :: hay' => includes hay' needle
  end.

(** [a === b] on strings *)
Fixpoint eqb (a b : js_string) : bool :=
  match a, b with
  | [], [] => true
  | c :: a', d :: b' => N.eqb c d && eqb a' b'
  | _, _ => false
  end.

(** [x || ""] for an optional string *)
Definition or_empty (x : option js_string) : js_string :=
  match x with
  | Some s => s
  | None => []
  end.

(** The decimal digits of a non-negative integer, as [String(n)] and a
    template literal print it. *)
Definition digit_unit (d : N) : code_unit := (48 + d)%N.

Fixpoint uint_units (d : Decimal.uint) : js_string :=
  match d with
  | Decimal.Nil => []
  | Decimal.D0 d => digit_unit 0 :: uint_units d
  | Decimal.D1 d => digit_unit 1 :: uint_units d
  | Decimal.D2 d => digit_unit 2 :: uint_units d
  | Decimal.D3 d => digit_unit 3 :: uint_units d
  | Decimal.D4 d => digit_unit 4 :: uint_units d
  | Decimal.D5 d => digit_unit 5 :: uint_units d
  | Decimal.D6 d => digit_unit 6 :: uint_units d
  | Decimal.D7 d => digit_unit 7 :: uint_units d
  | Decimal.D8 d => digit_unit 8 :: uint_units d
  | Decimal.D9 d => digit_unit 9 :: uint_units d
  end.

Definition number_to_string (n : N) : js_string :=
  uint_units (N.to_uint n).

(** [xs.slice(start)] for an integer [start]: a negative [start]
    counts from the end, and both ends are clamped. *)
Definition slice_from {A} (xs : list A) (start : Z) : list A :=
  let len := Z.of_nat (length xs) in
  let k := if start <? 0 then Z.max (len + start) 0 else Z.min start len in
  drop (Z.to_nat k) xs.

End JS.

Import JS.

(** ** Core types (src/types.ts) *)

Inductive Provider := anthropic | openai | bedrock.

Inductive MessageRole := user | assistant | system.

(** Structured tool arguments are opaque to the loop; they are carried
  as their JSON text. *)
Record ToolCall := {
  tc_id : js_string;
  tc_name : js_string;
  tc_arguments : js_string
}.

Record ToolResult := {
  tr_toolCallId : js_string;
  tr_content : js_string;
  tr_isError : option bool
}.

Record Message := {
  role : MessageRole;
  content : js_string;
  toolCalls : option (list ToolCall);
  toolResults : option (list ToolResult)
}.

Record ToolExecutionResult := {
  ter_content : js_string;
  ter_isError : option bool
}.

(** ** Session manager (src/session/session-manager.ts) *)

Module SessionManager.

(** The class [[a-zA-Z0-9-_]] of the sanitising expression. *)
Definition safe_unit (c : code_unit) : bool :=
  ((97 <=? c) && (c <=? 122) ||
   (65 <=? c) && (c <=? 90) ||
   (48 <=? c) && (c <=? 57) ||
   (c =? 45) || (c =? 95))%N.

(** [sessionId.replace(/[^a-zA-Z0-9-_]/g, "_")]: the expression has no
    [u] flag, so it visits code units one by one. *)
Definition sanitize (sessionId : js_string) : js_string :=
  map (fun c => if safe_unit c then c else 95%N) sessionId.

Section ResolveSessionFile.
(** [path.join] of the Node runtime. *)
Variable path_join : js_string -> js_string -> js_string.

Definition resolveSessionFile (sessionsDir sessionId : js_string) : js_string :=
  let safeId := sanitize sessionId in
  path_join sessionsDir (safeId ++ str ".jsonl").
End ResolveSessionFile.

Section LimitHistory.
Context {A : Type}.
(** What reading [messages[0]] of an empty array yields. *)
Variable undefined : A.

Definition limitHistoryTurns (messages : list A) (maxTurns : Z) : list A :=
  if Z.of_nat (length messages) <=? maxTurns then messages
  else
    let firstMessage := nth 0 messages undefined in
    let recentMessages := slice_from messages (- (maxTurns - 1)) in
    firstMessage :: recentMessages.
End LimitHistory.

End SessionManager.


(** ** Computations on a state that may throw *)

Module Eff.

Inductive Completion (A : Type) :=
| Normal (a : A)
| Throw (message : js_string).
Arguments Normal {A} a.
Arguments Throw {A} message.

Definition M (S A : Type) : Type := S -> S * Completion A.

Section Monad.
Context {S : Type}.

Definition ret {A} (a : A) : M S A := fun s => (s, Normal a).

Definition throw {A} (message : js_string) : M S A :=
  fun s => (s, Throw message).

Definition bind {A B} (m : M S A) (k : A -> M S B) : M S B :=
  fun s =>
    match m s with
    | (s', Normal a) => k a s'
    | (s', Throw message) => (s', Throw message)
    end.

(** [try { body } catch (e) { handler(e.message) }] *)
Definition try_catch {A} (body : M S A) (handler : js_string -> M S A)
  : M S A :=
  fun s =>
    match body s with
    | (s', Normal a) => (s', Normal a)
    | (s', Throw message) => handler message s'
    end.

(** [try { body } finally { cleanup }] *)
Definition try_finally {A} (body : M S A) (cleanup : M S unit) : M S A :=
  fun s =>
    match body s with
    | (s', completion) =>
        match cleanup s' with
        | (s'', Normal _) => (s'', completion)
        | (s'', Throw message) => (s'', Throw message)
        end
    end.

End Monad.

Notation "'let*' x ':=' m 'in' k" := (bind m (fun x => k))
  (at level 10, x name, m at level 100, k at level 200).
Notation "m '>>' k" := (bind m (fun _ => k))
  (at level 100, k at level 200, right associativity).

End Eff.

Import Eff.

(** ** Agent runner (runner.ts, the second half of src/agent/daemon.ts) *)

Module Runner.

Definition MAX_TOOL_ITERATIONS : nat := 25.
Definition MAX_HISTORY_TURNS : Z := 50.

Record ToolContext := {
  workspaceDir : js_string;
  abortSignal : option bool
}.

(** *** What a run does to the outside

    The calls made to the observer callbacks (those that are set, and
    they return normally), the requests sent to the backend with their
    position in the run, and the files. *)

Inductive Observed :=
| PartialReply (text : js_string)
| ToolExecution (toolName args : js_string)
| ToolResultSeen (toolName result : js_string).

(** What the model of a run is at run time.  [resolveModel] is typed to
    return a string and returns what the look-up in its table yields:
    for a name of which every object inherits a property, that
    property, which is a built-in function or, for [__proto__], the
    prototype object itself. *)
Inductive ModelValue :=
| ModelName (name : js_string)
| NativeFunction (name : js_string)
| EmptyObject.

(** [`${model}`] *)
Definition model_text (m : ModelValue) : js_string :=
  match m with
  | ModelName name => name
  | NativeFunction name =>
      str "function " ++ name ++ str "() { [native code] }"
  | EmptyObject => str "[object Object]"
  end.

(** What [JSON.stringify] keeps of the property [model] of the
    metadata: a property whose value is a function is left out, and an
    object without enumerable properties is written as [{}]. *)
Definition model_json (m : ModelValue) : option ModelValue :=
  match m with
  | NativeFunction _ => None
  | _ => Some m
  end.

Record SessionMetadata := {
  md_model : option ModelValue;
  md_provider : option Provider
}.

(** The two timestamps of the metadata take no part in any decision and
    are left out. *)
Record SessionData := {
  sd_sessionId : js_string;
  sd_messages : list Message;
  sd_metadata : SessionMetadata
}.

(** A file, as [loadSession] reads it: the session its lines hold, or
    the error the reading ends with (a line that is not JSON, a read
    error other than [ENOENT]).  A path without an entry has no file,
    or a blank one. *)
Inductive Stored :=
| Holds (session : SessionData)
| Unreadable (error : js_string).

Abbreviation Files := (gmap js_string Stored).

(** [execute] may read and write files, those of the sessions
    included, before it resolves with a result or rejects with an
    error, of which the loop reads the message. *)
Record Tool := {
  name : js_string;
  execute : js_string -> ToolContext -> Files ->
            Files * (ToolExecutionResult + js_string)
}.

(** Where a write that fails has stopped.  [fs.writeFile] opens the
    file with the flag [w], which empties it, and then writes: the
    file is as it was when [fs.mkdir] or the opening rejects; past
    that point it holds the lines written in full, or ends inside a
    line, on which [JSON.parse] throws when the file is read back. *)
Inductive Remains :=
| Untouched
| CompleteLines (lines : nat)
| BrokenLine (error : js_string).

Record WriteError := {
  we_message : js_string;
  we_remains : Remains
}.

Record World := {
  observed : list Observed;
  requests : list (nat * list Message);
  files : Files;
  disk_error : option WriteError
}.

Definition add_observed (o : Observed) (w : World) : World :=
  {| observed := observed w ++ [o]; requests := requests w;
     files := files w; disk_error := disk_error w |}.

Definition add_request (i : nat) (req : list Message) (w : World) : World :=
  {| observed := observed w; requests := requests w ++ [(i, req)];
     files := files w; disk_error := disk_error w |}.

Definition set_files (fs : Files) (w : World) : World :=
  {| observed := observed w; requests := requests w;
     files := fs; disk_error := disk_error w |}.

Definition write_file (f : js_string) (d : SessionData) (w : World) : World :=
  set_files (<[f := Holds d]> (files w)) w.

Abbreviation M := (Eff.M World).

Definition observe (o : Observed) : M unit :=
  fun w => (add_observed o w, Normal tt).

Record RunContext := {
  tools : list Tool;
  toolContext : ToolContext;
  sessionId : js_string;
  model : ModelValue;
  provider : Provider
}.

(** *** executeTool *)

Definition unknown_tool_message (toolName : js_string) : js_string :=
  str "Error: Unknown tool " ++ [34%N] ++ toolName ++ [34%N].

(** [await tool.execute(args, ctx.toolContext)]: the files are as the
    tool leaves them, whether it resolves or rejects. *)
Definition call_tool (tool : Tool) (args : js_string) (context : ToolContext)
  : M (ToolExecutionResult + js_string) :=
  fun w =>
    let (fs, settled) := execute tool args context (files w) in
    (set_files fs w, Normal settled).

Definition executeTool (ctx : RunContext) (toolName args : js_string)
  : M ToolExecutionResult :=
  match find (fun t => eqb (name t) toolName) (tools ctx) with
  | None =>
      ret {| ter_content := unknown_tool_message toolName;
             ter_isError := Some true |}
  | Some tool =>
      observe (ToolExecution toolName args) >>
      let* settled := call_tool tool args (toolContext ctx) in
      match settled with
      | inl result =>
          observe (ToolResultSeen toolName (ter_content result)) >>
          ret result
      | inr message =>
          let errorMessage :=
            str "Error executing tool " ++ toolName ++ str ": " ++ message in
          observe (ToolResultSeen toolName errorMessage) >>
          ret {| ter_content := errorMessage; ter_isError := Some true |}
      end
  end.

(** The [for (const toolCall of ...)] loop of both turn functions. *)
Fixpoint executeTools (ctx : RunContext) (calls : list ToolCall)
  : M (list ToolResult) :=
  match calls with
  | [] => ret []
  | toolCall :: rest =>
      let* result := executeTool ctx (tc_name toolCall) (tc_arguments toolCall) in
      let* toolResults := executeTools ctx rest in
      ret ({| tr_toolCallId := tc_id toolCall;
              tr_content := ter_content result;
              tr_isError := ter_isError result |} :: toolResults)
  end.

(** *** State of a turn *)

Record LoopState := {
  totalInputTokens : Z;
  totalOutputTokens : Z;
  newMessages : list Message;
  finalResponse : js_string;
  iterations : nat
}.

Definition initial_loop_state : LoopState :=
  {| totalInputTokens := 0; totalOutputTokens := 0; newMessages := [];
     finalResponse := []; iterations := 0 |}.

Inductive Next := Break | Continue.

Record Usage := {
  inputTokens : Z;
  outputTokens : Z
}.

Record TurnResult := {
  response : js_string;
  turn_newMessages : list Message;
  usage : Usage
}.

Definition turn_result (st : LoopState) : TurnResult :=
  {| response := finalResponse st;
     turn_newMessages := newMessages st;
     usage := {| inputTokens := totalInputTokens st;
                 outputTokens := totalOutputTokens st |} |}.

Definition assistant_message (text : js_string) (calls : list ToolCall) : Message :=
  {| role := assistant; content := text;
     toolCalls := match calls with [] => None | _ => Some calls end;
     toolResults := None |}.

Definition carrier_message (toolResults : list ToolResult) : Message :=
  {| role := user; content := []; toolCalls := None;
     toolResults := Some toolResults |}.

(** *** The Anthropic dialect *)

Inductive ContentBlock :=
| TextBlock (text : js_string)
| ToolUseBlock (id name input : js_string).

Record FinalMessage := {
  fm_content : list ContentBlock;
  fm_stop_reason : option js_string;
  fm_input_tokens : Z;
  fm_output_tokens : Z
}.

(** A streamed reply: the text events, then the final message, or the
    error with which [stream.finalMessage()] rejects. *)
Record AnthropicStream := {
  text_events : list js_string;
  final_message : FinalMessage + js_string
}.

(** The backend answers the n-th request of a run.  It is handed the
    canonical conversation the request is built from. *)
Definition AnthropicBackend : Type := nat -> list Message -> AnthropicStream.

Definition anthropic_failure (s : AnthropicStream) : option js_string :=
  match final_message s with
  | inl _ => None
  | inr message => Some message
  end.

(** [stream.on("text", ...)]: append and forward every delta. *)
Fixpoint on_text (events : list js_string) (currentText : js_string)
  : M js_string :=
  match events with
  | [] => ret currentText
  | text :: events' =>
      observe (PartialReply text) >>
      on_text events' (currentText ++ text)
  end.

Definition send_anthropic (client : AnthropicBackend) (i : nat)
  (req : list Message) : M AnthropicStream :=
  fun w => (add_request i req w, Normal (client i req)).

Definition await_final (s : AnthropicStream) : M FinalMessage :=
  match final_message s with
  | inl response => ret response
  | inr message => throw message
  end.

Definition tool_use_calls (blocks : list ContentBlock) : list ToolCall :=
  flat_map
    (fun block =>
       match block with
       | ToolUseBlock id name input =>
           [{| tc_id := id; tc_name := name; tc_arguments := input |}]
       | TextBlock _ => []
       end)
    blocks.

Definition is_end_turn (stop_reason : option js_string) : bool :=
  match stop_reason with
  | Some r => eqb r (str "end_turn")
  | None => false
  end.

(** One pass through the body of the [while] loop. *)
Definition anthropic_iteration (client : AnthropicBackend) (ctx : RunContext)
  (messages : list Message) (st : LoopState) : M (Next * LoopState) :=
  let i := iterations st in
  let* stream := send_anthropic client i (messages ++ newMessages st) in
  let* currentText := on_text (text_events stream) [] in
  let* response := await_final stream in
  let totalIn := totalInputTokens st + fm_input_tokens response in
  let totalOut := totalOutputTokens st + fm_output_tokens response in
  let toolCalls := tool_use_calls (fm_content response) in
  let newMessages1 := newMessages st ++ [assistant_message currentText toolCalls] in
  match toolCalls with
  | [] =>
      ret (Break,
           {| totalInputTokens := totalIn; totalOutputTokens := totalOut;
              newMessages := newMessages1; finalResponse := currentText;
              iterations := S i |})
  | _ :: _ =>
      let* toolResults := executeTools ctx toolCalls in
      let newMessages2 := newMessages1 ++ [carrier_message toolResults] in
      if is_end_turn (fm_stop_reason response) then
        ret (Break,
             {| totalInputTokens := totalIn; totalOutputTokens := totalOut;
                newMessages := newMessages2; finalResponse := currentText;
                iterations := S i |})
      else
        ret (Continue,
             {| totalInputTokens := totalIn; totalOutputTokens := totalOut;
                newMessages := newMessages2; finalResponse := finalResponse st;
                iterations := S i |})
  end.

(** [while (iterations < max)]: [budget] is [max - iterations]. *)
Fixpoint anthropic_loop (client : AnthropicBackend) (ctx : RunContext)
  (messages : list Message) (budget : nat) (st : LoopState) : M LoopState :=
  match budget with
  | O => ret st
  | S budget' =>
      let* step := anthropic_iteration client ctx messages st in
      match step with
      | (Break, st') => ret st'
      | (Continue, st') => anthropic_loop client ctx messages budget' st'
      end
  end.

Definition runAnthropicAgentTurnWith (max : nat) (client : AnthropicBackend)
  (ctx : RunContext) (messages : list Message) : M TurnResult :=
  let* st := anthropic_loop client ctx messages max initial_loop_state in
  ret (turn_result st).

Definition runAnthropicAgentTurn : AnthropicBackend -> RunContext ->
  list Message -> M TurnResult :=
  runAnthropicAgentTurnWith MAX_TOOL_ITERATIONS.

(** *** The OpenAI dialect *)

(** The index of a tool-call fragment is a position in the reply, a
    natural number. *)
Record ToolCallDelta := {
  tcd_index : option nat;
  tcd_id : option js_string;
  tcd_name : option js_string;
  tcd_arguments : option js_string
}.

Record Delta := {
  delta_content : option js_string;
  delta_tool_calls : option (list ToolCallDelta)
}.

Record ChunkUsage := {
  prompt_tokens : option Z;
  completion_tokens : option Z
}.

(** [chunk_delta] is [chunk.choices[0]?.delta]; [chunk_finish_reason]
    is [chunk.choices[0]?.finish_reason], the completion signal of this
    dialect. *)
Record Chunk := {
  chunk_usage : option ChunkUsage;
  chunk_delta : option Delta;
  chunk_finish_reason : option js_string
}.

(** The chunks that arrive, then the end of the stream or the error
    that interrupts it. *)
Record OpenAIStream := {
  chunks : list Chunk;
  stream_error : option js_string
}.

(** [client.chat.completions.create] resolves with a stream or rejects. *)
Definition OpenAIBackend : Type := nat -> list Message -> OpenAIStream + js_string.

Definition openai_failure (r : OpenAIStream + js_string) : option js_string :=
  match r with
  | inl s => stream_error s
  | inr message => Some message
  end.

Record PartialCall := {
  pc_id : js_string;
  pc_name : js_string;
  pc_arguments : js_string
}.

(** [xs[i] = x] on an array: writing past the end leaves holes. *)
Definition array_set {A} (i : nat) (x : A) (xs : list (option A))
  : list (option A) :=
  if (i <? length xs)%nat then <[i := Some x]> xs
  else xs ++ replicate (i - length xs) None ++ [Some x].

Definition undefined_property (prop : string) : js_string :=
  str "Cannot read properties of undefined (reading '" ++ str prop ++ str "')".

Record StreamState := {
  ss_totalInputTokens : Z;
  ss_totalOutputTokens : Z;
  ss_currentText : js_string;
  ss_toolCalls : list (option PartialCall);
  ss_currentToolCallIndex : option nat
}.

(** One fragment of [delta.tool_calls]. *)
Definition on_tool_call_delta (tc : ToolCallDelta)
  (acc : list (option PartialCall) * option nat)
  : M (list (option PartialCall) * option nat) :=
  let (toolCalls, currentToolCallIndex) := acc in
  match tcd_index tc with
  | None => ret acc
  | Some index =>
      if bool_decide (Some index = currentToolCallIndex) then
        match toolCalls !! index with
        | Some (Some pc) =>
            let pc' :=
              {| pc_id := match or_empty (tcd_id tc) with
                          | [] => pc_id pc
                          | id => id
                          end;
                 pc_name := pc_name pc ++ or_empty (tcd_name tc);
                 pc_arguments := pc_arguments pc ++ or_empty (tcd_arguments tc) |} in
            ret (<[index := Some pc']> toolCalls, currentToolCallIndex)
        | _ =>
            match or_empty (tcd_id tc), or_empty (tcd_name tc),
                  or_empty (tcd_arguments tc) with
            | [], [], [] => ret acc
            | [], [], _ :: _ => throw (undefined_property "arguments")
            | [], _ :: _, _ => throw (undefined_property "name")
            | _ :: _, _, _ =>
                throw (str "Cannot set properties of undefined (setting 'id')")
            end
        end
      else
        ret (array_set index
               {| pc_id := or_empty (tcd_id tc);
                  pc_name := or_empty (tcd_name tc);
                  pc_arguments := or_empty (tcd_arguments tc) |}
               toolCalls,
             Some index)
  end.

Fixpoint on_tool_call_deltas (tcs : list ToolCallDelta)
  (acc : list (option PartialCall) * option nat)
  : M (list (option PartialCall) * option nat) :=
  match tcs with
  | [] => ret acc
  | tc :: tcs' =>
      let* acc' := on_tool_call_delta tc acc in
      on_tool_call_deltas tcs' acc'
  end.

Definition or_zero (x : option Z) : Z :=
  match x with
  | Some n => n
  | None => 0
  end.

(** The body of [for await (const chunk of stream)]. *)
Definition on_chunk (chunk : Chunk) (ss : StreamState) : M StreamState :=
  let (totalIn, totalOut) :=
    match chunk_usage chunk with
    | Some u =>
        (ss_totalInputTokens ss + or_zero (prompt_tokens u),
         ss_totalOutputTokens ss + or_zero (completion_tokens u))
    | None => (ss_totalInputTokens ss, ss_totalOutputTokens ss)
    end in
  match chunk_delta chunk with
  | None =>
      ret {| ss_totalInputTokens := totalIn; ss_totalOutputTokens := totalOut;
             ss_currentText := ss_currentText ss;
             ss_toolCalls := ss_toolCalls ss;
             ss_currentToolCallIndex := ss_currentToolCallIndex ss |}
  | Some delta =>
      let* currentText :=
        match or_empty (delta_content delta) with
        | [] => ret (ss_currentText ss)
        | text => observe (PartialReply text) >> ret (ss_currentText ss ++ text)
        end in
      let* acc :=
        match delta_tool_calls delta with
        | None => ret (ss_toolCalls ss, ss_currentToolCallIndex ss)
        | Some tcs =>
            on_tool_call_deltas tcs (ss_toolCalls ss, ss_currentToolCallIndex ss)
        end in
      ret {| ss_totalInputTokens := totalIn; ss_totalOutputTokens := totalOut;
             ss_currentText := currentText;
             ss_toolCalls := fst acc;
             ss_currentToolCallIndex := snd acc |}
  end.

Fixpoint on_chunks (cs : list Chunk) (ss : StreamState) : M StreamState :=
  match cs with
  | [] => ret ss
  | chunk :: cs' =>
      let* ss' := on_chunk chunk ss in
      on_chunks cs' ss'
  end.

Definition consume_stream (stream : OpenAIStream) (ss : StreamState)
  : M StreamState :=
  let* ss' := on_chunks (chunks stream) ss in
  match stream_error stream with
  | None => ret ss'
  | Some message => throw message
  end.

Definition send_openai (client : OpenAIBackend) (i : nat)
  (req : list Message) : M OpenAIStream :=
  fun w =>
    (add_request i req w,
     match client i req with
     | inl stream => Normal stream
     | inr message => Throw message
     end).

Section Run.

(** [JSON.parse]: the parsed value, or the message of the SyntaxError. *)
Variable JSON_parse : js_string -> js_string + js_string.

(** [toolCalls.map(...)] keeps the holes of the array and parses the
    arguments of the other entries in order. *)
Fixpoint parse_tool_calls (toolCalls : list (option PartialCall))
  : M (list (option ToolCall)) :=
  match toolCalls with
  | [] => ret []
  | None :: rest =>
      let* parsed := parse_tool_calls rest in
      ret (None :: parsed)
  | Some tc :: rest =>
      let* arguments :=
        match pc_arguments tc with
        | [] => ret (str "{}")
        | text =>
            match JSON_parse text with
            | inl value => ret value
            | inr message => throw message
            end
        end in
      let* parsed := parse_tool_calls rest in
      ret (Some {| tc_id := pc_id tc; tc_name := pc_name tc;
                   tc_arguments := arguments |} :: parsed)
  end.

(** The entries in front of the first hole, and whether there is one. *)
Fixpoint until_hole {A} (xs : list (option A)) : list A * bool :=
  match xs with
  | [] => ([], false)
  | None :: _ => ([], true)
  | Some x :: rest => let (ys, hole) := until_hole rest in (x :: ys, hole)
  end.

Definition openai_iteration (client : OpenAIBackend) (ctx : RunContext)
  (messages : list Message) (st : LoopState) : M (Next * LoopState) :=
  let i := iterations st in
  let* stream := send_openai client i (messages ++ newMessages st) in
  let* ss :=
    consume_stream stream
      {| ss_totalInputTokens := totalInputTokens st;
         ss_totalOutputTokens := totalOutputTokens st;
         ss_currentText := [];
         ss_toolCalls := [];
         ss_currentToolCallIndex := None |} in
  let currentText := ss_currentText ss in
  let* parsedToolCalls := parse_tool_calls (ss_toolCalls ss) in
  match parsedToolCalls with
  | [] =>
      ret (Break,
           {| totalInputTokens := ss_totalInputTokens ss;
              totalOutputTokens := ss_totalOutputTokens ss;
              newMessages := newMessages st ++ [assistant_message currentText []];
              finalResponse := currentText;
              iterations := S i |})
  | _ :: _ =>
      let (calls, hole) := until_hole parsedToolCalls in
      let* toolResults := executeTools ctx calls in
      if hole then throw (undefined_property "name")
      else
        ret (Continue,
             {| totalInputTokens := ss_totalInputTokens ss;
                totalOutputTokens := ss_totalOutputTokens ss;
                newMessages :=
                  newMessages st ++ [assistant_message currentText calls;
                                     carrier_message toolResults];
                finalResponse := finalResponse st;
                iterations := S i |})
  end.

Fixpoint openai_loop (client : OpenAIBackend) (ctx : RunContext)
  (messages : list Message) (budget : nat) (st : LoopState) : M LoopState :=
  match budget with
  | O => ret st
  | S budget' =>
      let* step := openai_iteration client ctx messages st in
      match step with
      | (Break, st') => ret st'
      | (Continue, st') => openai_loop client ctx messages budget' st'
      end
  end.

Definition runOpenAIAgentTurnWith (max : nat) (client : OpenAIBackend)
  (ctx : RunContext) (messages : list Message) : M TurnResult :=
  let* st := openai_loop client ctx messages max initial_loop_state in
  ret (turn_result st).

Definition runOpenAIAgentTurn : OpenAIBackend -> RunContext ->
  list Message -> M TurnResult :=
  runOpenAIAgentTurnWith MAX_TOOL_ITERATIONS.

(** *** runAgent *)

Definition DEFAULT_MODELS (p : Provider) : js_string :=
  match p with
  | anthropic => str "claude-sonnet-4-20250514"
  | openai => str "gpt-4o"
  | bedrock => str "us.anthropic.claude-sonnet-4-20250514-v1:0"
  end.

(** The entries of the table. *)
Definition BEDROCK_MODEL_MAP : list (js_string * js_string) :=
  [ (str "claude-sonnet-4", str "us.anthropic.claude-sonnet-4-20250514-v1:0");
    (str "claude-opus-4", str "us.anthropic.claude-opus-4-20250514-v1:0");
    (str "claude-3.5-sonnet", str "us.anthropic.claude-3-5-sonnet-20241022-v2:0");
    (str "claude-3.5-haiku", str "us.anthropic.claude-3-5-haiku-20241022-v1:0");
    (str "claude-3-opus", str "us.anthropic.claude-3-opus-20240229-v1:0");
    (str "claude-3-sonnet", str "us.anthropic.claude-3-sonnet-20240229-v1:0");
    (str "claude-3-haiku", str "us.anthropic.claude-3-haiku-20240307-v1:0") ].

(** The table is an object literal: what it does not hold itself it
    inherits from [Object.prototype], whose properties these are. *)
Definition OBJECT_PROTOTYPE : list (js_string * ModelValue) :=
  [ (str "constructor", NativeFunction (str "Object"));
    (str "__defineGetter__", NativeFunction (str "__defineGetter__"));
    (str "__defineSetter__", NativeFunction (str "__defineSetter__"));
    (str "hasOwnProperty", NativeFunction (str "hasOwnProperty"));
    (str "__lookupGetter__", NativeFunction (str "__lookupGetter__"));
    (str "__lookupSetter__", NativeFunction (str "__lookupSetter__"));
    (str "isPrototypeOf", NativeFunction (str "isPrototypeOf"));
    (str "propertyIsEnumerable", NativeFunction (str "propertyIsEnumerable"));
    (str "toString", NativeFunction (str "toString"));
    (str "valueOf", NativeFunction (str "valueOf"));
    (str "__proto__", EmptyObject);
    (str "toLocaleString", NativeFunction (str "toLocaleString")) ].

(** [BEDROCK_MODEL_MAP[model]] *)
Definition bedrock_lookup (model : js_string) : option ModelValue :=
  match find (fun entry => eqb (fst entry) model) BEDROCK_MODEL_MAP with
  | Some (_, mapped) => Some (ModelName mapped)
  | None =>
      match find (fun entry => eqb (fst entry) model) OBJECT_PROTOTYPE with
      | Some (_, inherited) => Some inherited
      | None => None
      end
  end.

(** What [if (mapped)] takes for true, for a value that is not
    [undefined]. *)
Definition truthy (v : ModelValue) : bool :=
  match v with
  | ModelName [] => false
  | _ => true
  end.

Definition resolveModel (model : option js_string) (provider : Provider)
  : ModelValue :=
  match or_empty model with
  | [] => ModelName (DEFAULT_MODELS provider)
  | m =>
      match provider with
      | bedrock =>
          if includes m (str "anthropic.claude") then ModelName m
          else
            match bedrock_lookup m with
            | Some mapped => if truthy mapped then mapped else ModelName m
            | None => ModelName m
            end
      | _ => ModelName m
      end
  end.

Record AgentRunParams := {
  p_sessionId : js_string;
  p_prompt : js_string;
  p_sessionFile : option js_string;
  p_workspaceDir : js_string;
  p_model : option js_string;
  p_provider : option Provider;
  p_tools : option (list Tool);
  p_abortSignal : option bool
}.

Record RunError := {
  kind : js_string;
  message : js_string
}.

Record AgentRunResult := {
  r_response : js_string;
  r_messages : list Message;
  r_usage : option Usage;
  r_error : option RunError
}.

(** The clients [createClient] builds for the three providers. *)
Record Clients := {
  anthropic_api : AnthropicBackend;
  bedrock_api : AnthropicBackend;
  openai_api : OpenAIBackend
}.

Variable path_join : js_string -> js_string -> js_string.
Variable clients : Clients.
(** [createCodingTools()] *)
Variable codingTools : list Tool.
(** What reading the first element of an empty message array yields. *)
Variable undefined_message : Message.

(** [loadSession] resolves with null for a file that is missing or
    blank, and rejects when the file cannot be read. *)
Definition loadSession (sessionFile : js_string) : M (option SessionData) :=
  fun w =>
    match files w !! sessionFile with
    | None => (w, Normal None)
    | Some (Holds session) => (w, Normal (Some session))
    | Some (Unreadable error) => (w, Throw error)
    end.

(** The session as the lines written for it read back. *)
Definition written (session : SessionData) : SessionData :=
  {| sd_sessionId := sd_sessionId session;
     sd_messages := sd_messages session;
     sd_metadata :=
       {| md_model := md_model (sd_metadata session) ≫= model_json;
          md_provider := md_provider (sd_metadata session) |} |}.

(** What a file holds once a write of [session] has failed: the first
    line is that of the metadata, and each later line is a message. *)
Definition remains_of (session : SessionData) (r : Remains)
  (before : option Stored) : option Stored :=
  match r with
  | Untouched => before
  | CompleteLines O => None
  | CompleteLines (S n) =>
      Some (Holds {| sd_sessionId := sd_sessionId (written session);
                     sd_messages := take n (sd_messages session);
                     sd_metadata := sd_metadata (written session) |})
  | BrokenLine error => Some (Unreadable error)
  end.

Definition saveSession (sessionFile : js_string) (session : SessionData)
  : M unit :=
  fun w =>
    match disk_error w with
    | Some error =>
        (set_files
           (match remains_of session (we_remains error)
                    (files w !! sessionFile) with
            | Some stored => <[sessionFile := stored]> (files w)
            | None => delete sessionFile (files w)
            end) w,
         Throw (we_message error))
    | None => (write_file sessionFile (written session) w, Normal tt)
    end.

Definition createSession (sessionId : js_string) (model : ModelValue)
  (provider : Provider) : SessionData :=
  {| sd_sessionId := sessionId; sd_messages := [];
     sd_metadata := {| md_model := Some model; md_provider := Some provider |} |}.

(** The [catch] block: the taxonomy of failures. *)
Definition classify (err_message : js_string) (model : ModelValue)
  (provider : Provider) : RunError :=
  let provider_name :=
    match provider with
    | anthropic => str "anthropic"
    | openai => str "openai"
    | bedrock => str "bedrock"
    end in
  if includes err_message (str "context_length_exceeded")
     || includes err_message (str "too many tokens") then
    {| kind := str "context_overflow";
       message := str "Context length exceeded. Try starting a new session or using a smaller prompt." |}
  else if includes err_message (str "rate_limit")
          || includes err_message (str "ThrottlingException") then
    {| kind := str "rate_limit";
       message := str "Rate limit exceeded. Please wait before trying again." |}
  else if includes err_message (str "AccessDeniedException")
          || includes err_message (str "UnauthorizedException") then
    {| kind := str "auth_error";
       message := str "Authentication failed for " ++ provider_name
                  ++ str ". Check your credentials." |}
  else if includes err_message (str "ResourceNotFoundException")
          || includes err_message (str "model not found") then
    {| kind := str "model_not_found";
       message := str "Model " ++ [34%N] ++ model_text model ++ [34%N]
                  ++ str " not found or not enabled for " ++ provider_name
                  ++ str "." |}
  else
    {| kind := str "unknown"; message := err_message |}.

Definition failed_result (session : SessionData) (model : ModelValue)
  (provider : Provider) (err_message : js_string) : M AgentRunResult :=
  ret {| r_response := []; r_messages := sd_messages session;
         r_usage := None;
         r_error := Some (classify err_message model provider) |}.

Definition run_turn (provider : Provider) (ctx : RunContext)
  (messages : list Message) : M TurnResult :=
  match provider with
  | openai => runOpenAIAgentTurn (openai_api clients) ctx messages
  | bedrock => runAnthropicAgentTurn (bedrock_api clients) ctx messages
  | anthropic => runAnthropicAgentTurn (anthropic_api clients) ctx messages
  end.

Definition runAgent (params : AgentRunParams) : M AgentRunResult :=
  let provider := default anthropic (p_provider params) in
  let model := resolveModel (p_model params) provider in
  let sessionsDir := p_workspaceDir params ++ str "/.agent/sessions" in
  let sessionFile :=
    match or_empty (p_sessionFile params) with
    | [] => SessionManager.resolveSessionFile path_join sessionsDir
              (p_sessionId params)
    | f => f
    end in
  let* loaded := loadSession sessionFile in
  let session :=
    match loaded with
    | Some s => s
    | None => createSession (p_sessionId params) model provider
    end in
  let tools := default codingTools (p_tools params) in
  let limitedHistory :=
    SessionManager.limitHistoryTurns undefined_message (sd_messages session)
      MAX_HISTORY_TURNS in
  let userMessage :=
    {| role := user; content := p_prompt params; toolCalls := None;
       toolResults := None |} in
  let messages := limitedHistory ++ [userMessage] in
  let ctx :=
    {| tools := tools;
       toolContext := {| workspaceDir := p_workspaceDir params;
                         abortSignal := p_abortSignal params |};
       sessionId := p_sessionId params; model := model;
       provider := provider |} in
  try_catch
    (let* result := run_turn provider ctx messages in
     let session' :=
       {| sd_sessionId := sd_sessionId session;
          sd_messages := limitedHistory ++ [userMessage]
                         ++ turn_newMessages result;
          sd_metadata := {| md_model := Some model;
                            md_provider := md_provider (sd_metadata session) |} |} in
     try_catch
       (saveSession sessionFile session' >>
        ret {| r_response := response result;
               r_messages := sd_messages session';
               r_usage := Some (usage result);
               r_error := None |})
       (failed_result session' model provider))
    (failed_result session model provider).

End Run.

End Runner.

(** ** Notions used to state the properties of the runner *)

Module RunnerSpec.

Import Runner.

(** A tool name no registered tool answers to. *)
Definition unregistered (ctx : RunContext) (toolName : js_string) : Prop :=
  forall t, t ∈ tools ctx -> name t <> toolName.

(** The part of the world only the backend calls, the tools and the
    session store touch. *)
Definition same_outside (w w' : World) : Prop :=
  requests w' = requests w /\ files w' = files w
  /\ disk_error w' = disk_error w.

(** A tool that leaves every file as it is. *)
Definition keeps_files (t : Tool) : Prop :=
  forall args context fs, fst (execute t args context fs) = fs.

Definition quiet_tools (ctx : RunContext) : Prop :=
  Forall keeps_files (tools ctx).

(** What the execution of tools leaves as it is: the requests and the
    state of the disk, and the files when no tool writes any. *)
Definition after_tools (ctx : RunContext) (w w' : World) : Prop :=
  requests w' = requests w
  /\ (quiet_tools ctx -> files w' = files w)
  /\ disk_error w' = disk_error w.

Definition unknown_tool_result (toolCall : ToolCall) : ToolResult :=
  {| tr_toolCallId := tc_id toolCall;
     tr_content := unknown_tool_message (tc_name toolCall);
     tr_isError := Some true |}.

(** Where an iteration leaves the loop once the reply is complete and
    the requested tools have run. *)
Definition anthropic_outcome (st : LoopState) (currentText : js_string)
  (response : FinalMessage) (toolResults : list ToolResult)
  : Next * LoopState :=
  let toolCalls := tool_use_calls (fm_content response) in
  let totalIn := totalInputTokens st + fm_input_tokens response in
  let totalOut := totalOutputTokens st + fm_output_tokens response in
  match toolCalls with
  | [] =>
      (Break,
       {| totalInputTokens := totalIn; totalOutputTokens := totalOut;
          newMessages := newMessages st ++ [assistant_message currentText []];
          finalResponse := currentText; iterations := S (iterations st) |})
  | _ :: _ =>
      let newMessages2 :=
        (newMessages st ++ [assistant_message currentText toolCalls])
        ++ [carrier_message toolResults] in
      if is_end_turn (fm_stop_reason response) then
        (Break,
         {| totalInputTokens := totalIn; totalOutputTokens := totalOut;
            newMessages := newMessages2; finalResponse := currentText;
            iterations := S (iterations st) |})
      else
        (Continue,
         {| totalInputTokens := totalIn; totalOutputTokens := totalOut;
            newMessages := newMessages2; finalResponse := finalResponse st;
            iterations := S (iterations st) |})
  end.

(** A reply that asks for at least one tool and does not signal the end
    of the turn. *)
Definition keeps_going (stream : AnthropicStream) : Prop :=
  exists response,
    final_message stream = inl response
    /\ tool_use_calls (fm_content response) <> []
    /\ is_end_turn (fm_stop_reason response) = false.

(** The tool calls a reply asks for, and the assistant message the
    loop makes of a reply: the text streamed, with these calls. *)
Definition reply_calls (stream : AnthropicStream) : list ToolCall :=
  match final_message stream with
  | inl response => tool_use_calls (fm_content response)
  | inr _ => []
  end.

Definition reply_message (stream : AnthropicStream) : Message :=
  assistant_message (concat (text_events stream)) (reply_calls stream).

(** The index of the fragment being accumulated always designates an
    entry of the array. *)
Definition index_ok (acc : list (option PartialCall) * option nat) : Prop :=
  forall index, snd acc = Some index ->
    exists pc, fst acc !! index = Some (Some pc).

Definition stream_ok (ss : StreamState) : Prop :=
  index_ok (ss_toolCalls ss, ss_currentToolCallIndex ss).

(** A chunk that carries no indexed tool-call fragment. *)
Definition no_tool_call (chunk : Chunk) : Prop :=
  forall delta tcs,
    chunk_delta chunk = Some delta -> delta_tool_calls delta = Some tcs ->
    Forall (fun tc => tcd_index tc = None) tcs.

(** The text a chunk contributes. *)
Definition chunk_text (chunk : Chunk) : js_string :=
  match chunk_delta chunk with
  | Some delta => or_empty (delta_content delta)
  | None => []
  end.

Definition fresh_stream (st : LoopState) : StreamState :=
  {| ss_totalInputTokens := totalInputTokens st;
     ss_totalOutputTokens := totalOutputTokens st;
     ss_currentText := [];
     ss_toolCalls := [];
     ss_currentToolCallIndex := None |}.

(** The same reply with other completion signals. *)
Definition relabel (f : Chunk -> option js_string) (chunk : Chunk) : Chunk :=
  {| chunk_usage := chunk_usage chunk; chunk_delta := chunk_delta chunk;
     chunk_finish_reason := f chunk |}.

Definition relabel_client (f : Chunk -> option js_string)
  (client : OpenAIBackend) : OpenAIBackend :=
  fun i req =>
    match client i req with
    | inl stream =>
        inl {| chunks := map (relabel f) (chunks stream);
               stream_error := stream_error stream |}
    | inr message => inr message
    end.

Section Backends.

Variable JSON_parse : js_string -> js_string + js_string.
Variable path_join : js_string -> js_string -> js_string.
Variable clients : Clients.

(** A request the Anthropic backend answers. *)
Definition anthropic_ok (client : AnthropicBackend)
  (entry : nat * list Message) : Prop :=
  anthropic_failure (client (fst entry) (snd entry)) = None.

(** A request the OpenAI backend answers. *)
Definition openai_ok (client : OpenAIBackend)
  (entry : nat * list Message) : Prop :=
  openai_failure (client (fst entry) (snd entry)) = None.

Variable ctx : RunContext.

(** What the iteration does once the stream has been read to its end. *)
Definition openai_decide (st : LoopState) (ss : StreamState)
  : M (Next * LoopState) :=
  let i := iterations st in
  let currentText := ss_currentText ss in
  let* parsedToolCalls := parse_tool_calls JSON_parse (ss_toolCalls ss) in
  match parsedToolCalls with
  | [] =>
      ret (Break,
           {| totalInputTokens := ss_totalInputTokens ss;
              totalOutputTokens := ss_totalOutputTokens ss;
              newMessages := newMessages st ++ [assistant_message currentText []];
              finalResponse := currentText;
              iterations := S i |})
  | _ :: _ =>
      let (calls, hole) := until_hole parsedToolCalls in
      let* toolResults := executeTools ctx calls in
      if hole then throw (undefined_property "name")
      else
        ret (Continue,
             {| totalInputTokens := ss_totalInputTokens ss;
                totalOutputTokens := ss_totalOutputTokens ss;
                newMessages :=
                  newMessages st ++ [assistant_message currentText calls;
                                     carrier_message toolResults];
                finalResponse := finalResponse st;
                iterations := S i |})
  end.

(** The error with which the backend of the provider fails a request,
    if it does. *)
Definition call_failure (provider : Provider) (entry : nat * list Message)
  : option js_string :=
  match provider with
  | openai => openai_failure (openai_api clients (fst entry) (snd entry))
  | bedrock => anthropic_failure (bedrock_api clients (fst entry) (snd entry))
  | anthropic =>
      anthropic_failure (anthropic_api clients (fst entry) (snd entry))
  end.

Definition run_provider (params : AgentRunParams) : Provider :=
  default anthropic (p_provider params).

Definition run_model (params : AgentRunParams) : ModelValue :=
  resolveModel (p_model params) (run_provider params).

Definition session_file (params : AgentRunParams) : js_string :=
  match or_empty (p_sessionFile params) with
  | [] => SessionManager.resolveSessionFile path_join
            (p_workspaceDir params ++ str "/.agent/sessions")
            (p_sessionId params)
  | f => f
  end.

(** The history the session file holds when the run starts. *)
Definition stored_messages (params : AgentRunParams) (w : World)
  : list Message :=
  match files w !! session_file params with
  | Some (Holds session) => sd_messages session
  | _ => []
  end.

Definition user_message (params : AgentRunParams) : Message :=
  {| role := user; content := p_prompt params; toolCalls := None;
     toolResults := None |}.

(** The error with which the session file of the run cannot be read,
    if it cannot. *)
Definition load_failure (params : AgentRunParams) (w : World)
  : option js_string :=
  match files w !! session_file params with
  | Some (Unreadable error) => Some error
  | _ => None
  end.

(** The session a run starts from: the one its file holds, or a new
    one. *)
Definition start_session (params : AgentRunParams) (w : World)
  : SessionData :=
  match files w !! session_file params with
  | Some (Holds session) => session
  | _ => createSession (p_sessionId params) (run_model params)
           (run_provider params)
  end.

(** The session a run hands to [saveSession] once its turn has
    returned [new]. *)
Definition end_session (undefined_message : Message)
  (params : AgentRunParams) (w : World) (new : list Message) : SessionData :=
  {| sd_sessionId := sd_sessionId (start_session params w);
     sd_messages :=
       SessionManager.limitHistoryTurns undefined_message
         (stored_messages params w) MAX_HISTORY_TURNS
       ++ [user_message params] ++ new;
     sd_metadata :=
       {| md_model := Some (run_model params);
          md_provider := md_provider (sd_metadata (start_session params w)) |} |}.

(** The files after a write of [session] to [f] that fails with
    [error]. *)
Definition failed_write (f : js_string) (session : SessionData)
  (error : WriteError) (fs : Files) : Files :=
  match remains_of session (we_remains error) (fs !! f) with
  | Some stored => <[f := stored]> fs
  | None => delete f fs
  end.

End Backends.

End RunnerSpec.

(** ** Agent daemon (the first half of src/agent/daemon.ts) *)

Module Daemon.

Import Runner.

Record DaemonConfig := {
  cfg_workspaceDir : js_string;
  cfg_defaultModel : option js_string;
  cfg_provider : option Provider;
  cfg_tools : option (list Tool)
}.

Record RunOptions := {
  o_sessionId : js_string;
  o_prompt : js_string;
  o_model : option js_string;
  o_provider : option Provider
}.

(** [ar_aborted] is the flag of the run's AbortController. *)
Record ActiveRun := {
  ar_sessionId : js_string;
  ar_startedAt : N;
  ar_aborted : bool;
  ar_provider : Provider
}.

Inductive DaemonEvent :=
| RunStart (runId sessionId : js_string) (provider : Provider)
| RunEnd (runId sessionId : js_string) (result : AgentRunResult)
| RunError (runId sessionId error : js_string)
| RunCancelled (runId sessionId : js_string).

(** A JavaScript [Map] keeps its entries in insertion order and holds a
    key at most once; [set] on a key already present replaces the value
    in place. *)
Fixpoint map_get {V} (k : js_string) (m : list (js_string * V)) : option V :=
  match m with
  | [] => None
  | (k', v) :: m' => if eqb k' k then Some v else map_get k m'
  end.

Fixpoint map_set {V} (k : js_string) (v : V) (m : list (js_string * V))
  : list (js_string * V) :=
  match m with
  | [] => [(k, v)]
  | (k', v') :: m' =>
      if eqb k' k then (k', v) :: m' else (k', v') :: map_set k v m'
  end.

Fixpoint map_delete {V} (k : js_string) (m : list (js_string * V))
  : list (js_string * V) :=
  match m with
  | [] => []
  | (k', v') :: m' =>
      if eqb k' k then map_delete k m' else (k', v') :: map_delete k m'
  end.

Record State := {
  activeRuns : list (js_string * ActiveRun);
  emitted : list DaemonEvent
}.

Definition initial : State := {| activeRuns := []; emitted := [] |}.

Abbreviation D := (Eff.M State).

Definition modify_runs
  (f : list (js_string * ActiveRun) -> list (js_string * ActiveRun)) : D unit :=
  fun d => ({| activeRuns := f (activeRuns d); emitted := emitted d |}, Normal tt).

Section Daemon.

Variable config : DaemonConfig.

(** The subscribers: [Some message] when one of the listeners of the
    event throws, which [emit] lets through to its caller. *)
Variable listener_throws : DaemonEvent -> option js_string.

Definition emit (e : DaemonEvent) : D unit :=
  fun d =>
    ({| activeRuns := activeRuns d; emitted := emitted d ++ [e] |},
     match listener_throws e with
     | Some message => Throw message
     | None => Normal tt
     end).

Definition effective_provider (options : RunOptions) : Provider :=
  match o_provider options, cfg_provider config with
  | Some p, _ => p
  | None, Some p => p
  | None, None => anthropic
  end.

Definition effective_model (options : RunOptions) : option js_string :=
  match or_empty (o_model options) with
  | [] => cfg_defaultModel config
  | m => Some m
  end.

(** [`${sessionId}:${Date.now()}`] *)
Definition make_runId (sessionId : js_string) (now : N) : js_string :=
  sessionId ++ [58%N] ++ number_to_string now.

Definition make_params (options : RunOptions) : AgentRunParams :=
  {| p_sessionId := o_sessionId options;
     p_prompt := o_prompt options;
     p_sessionFile := None;
     p_workspaceDir := cfg_workspaceDir config;
     p_model := effective_model options;
     p_provider := Some (effective_provider options);
     p_tools := cfg_tools config;
     p_abortSignal := Some false |}.

(** The lane task of [run], up to the call of [runAgent]: the run is
    registered and announced.  [now] is what [Date.now()] reads and
    [startedAt] what [new Date()] reads. *)
Definition run_begin (options : RunOptions) (now startedAt : N) : D js_string :=
  let sessionId := o_sessionId options in
  let runId := make_runId sessionId now in
  modify_runs
    (map_set runId
       {| ar_sessionId := sessionId; ar_startedAt := startedAt;
          ar_aborted := false;
          ar_provider := effective_provider options |}) >>
  emit (RunStart runId sessionId (effective_provider options)) >>
  ret runId.

(** The [try]/[catch]/[finally] around [await runAgent(params)]. *)
Definition run_guarded (runId sessionId : js_string)
  (agent : D AgentRunResult) : D AgentRunResult :=
  try_finally
    (try_catch
       (let* result := agent in
        emit (RunEnd runId sessionId result) >>
        ret result)
       (fun error =>
          emit (RunError runId sessionId error) >>
          throw error))
    (modify_runs (map_delete runId)).

(** The whole lane task.  [agent] is the awaited [runAgent] call: it
    resolves or rejects, and while it is pending other code may act on
    the daemon. *)
Definition run_task (options : RunOptions) (now startedAt : N)
  (agent : AgentRunParams -> D AgentRunResult) : D AgentRunResult :=
  let* runId := run_begin options now startedAt in
  run_guarded runId (o_sessionId options) (agent (make_params options)).

Fixpoint abort_first (sessionId : js_string) (runs : list (js_string * ActiveRun))
  : option (js_string * list (js_string * ActiveRun)) :=
  match runs with
  | [] => None
  | (runId, run) :: rest =>
      if eqb (ar_sessionId run) sessionId then
        Some (runId,
              (runId, {| ar_sessionId := ar_sessionId run;
                         ar_startedAt := ar_startedAt run;
                         ar_aborted := true;
                         ar_provider := ar_provider run |}) :: rest)
      else
        match abort_first sessionId rest with
        | Some (found, rest') => Some (found, (runId, run) :: rest')
        | None => None
        end
  end.

Definition cancelRun (sessionId : js_string) : D bool :=
  fun d =>
    match abort_first sessionId (activeRuns d) with
    | Some (runId, runs') =>
        (emit (RunCancelled runId sessionId) >> ret true)
          {| activeRuns := runs'; emitted := emitted d |}
    | None => (d, Normal false)
    end.

End Daemon.

End Daemon.

(** ** Notions used to state the properties of the daemon *)

Module DaemonSpec.

Import Runner Daemon.

(** The entry [run] records for a run. *)
Definition registered (config : DaemonConfig) (options : RunOptions)
  (startedAt : N) : ActiveRun :=
  {| ar_sessionId := o_sessionId options; ar_startedAt := startedAt;
     ar_aborted := false;
     ar_provider := effective_provider config options |}.

End DaemonSpec.

(** ** Lane scheduler (src/agent/lanes.ts)

    Lane objects live in a store and are referred to by address, since
    an activation of [processLane] keeps the object it fetched while it
    is suspended.  An entry of a queue stands for the three closures
    [task], [resolve] and [reject] of one call of [enqueueInLane]; it is
    named by the number of the promise that call returns.  The trace
    records when a task is enqueued, started, finished, and what its
    caller's promise is settled with. *)

Module Lanes.

Record LaneState := {
  queue : list nat;
  running : bool
}.

(** An activation of [processLane] parked at [await item.task()]. *)
Record Activation := {
  act_laneKey : js_string;
  act_lane : nat;
  act_item : nat
}.

Section Lanes.

(** What tasks resolve with. *)
Context {V : Type}.

Inductive Event :=
| Enqueued (laneKey : js_string) (p : nat)
| Started (laneKey : js_string) (p : nat)
| Finished (laneKey : js_string) (p : nat)
| Resolved (p : nat) (value : V)
| Rejected (p : nat) (error : js_string).

Record State := {
  heap : gmap nat LaneState;
  next_lane : nat;
  lanes : gmap js_string nat;
  suspended : list Activation;
  next_promise : nat;
  trace : list Event
}.

Definition initial : State :=
  {| heap := ∅; next_lane := 0; lanes := ∅; suspended := [];
     next_promise := 0; trace := [] |}.

Definition log (e : Event) (s : State) : State :=
  {| heap := heap s; next_lane := next_lane s; lanes := lanes s;
     suspended := suspended s; next_promise := next_promise s;
     trace := trace s ++ [e] |}.

Definition set_lane (l : nat) (lane : LaneState) (s : State) : State :=
  {| heap := <[l := lane]> (heap s); next_lane := next_lane s;
     lanes := lanes s; suspended := suspended s;
     next_promise := next_promise s; trace := trace s |}.

Definition set_lanes (m : gmap js_string nat) (s : State) : State :=
  {| heap := heap s; next_lane := next_lane s; lanes := m;
     suspended := suspended s; next_promise := next_promise s;
     trace := trace s |}.

Definition set_suspended (acts : list Activation) (s : State) : State :=
  {| heap := heap s; next_lane := next_lane s; lanes := lanes s;
     suspended := acts; next_promise := next_promise s; trace := trace s |}.

Definition getLane (laneKey : js_string) (s : State) : nat * State :=
  match lanes s !! laneKey with
  | Some l => (l, s)
  | None =>
      let l := next_lane s in
      (l,
       {| heap := <[l := {| queue := []; running := false |}]> (heap s);
          next_lane := S l;
          lanes := <[laneKey := l]> (lanes s);
          suspended := suspended s; next_promise := next_promise s;
          trace := trace s |})
  end.

(** [processLane] from the head of its [while] loop, for the activation
    that holds the lane object [l]: either the next entry is taken off
    the queue and its task called, and the activation parks at the
    [await]; or the loop ends, the flag is lowered and the lane is
    removed from the map. *)
Definition drain (laneKey : js_string) (l : nat) (s : State) : State :=
  match heap s !! l with
  | None => s
  | Some lane =>
      match queue lane with
      | item :: rest =>
          let s1 := set_lane l {| queue := rest; running := running lane |} s in
          let s2 := log (Started laneKey item) s1 in
          set_suspended
            (suspended s2 ++
             [{| act_laneKey := laneKey; act_lane := l; act_item := item |}])
            s2
      | [] =>
          let s1 := set_lane l {| queue := []; running := false |} s in
          match queue <$> heap s1 !! l with
          | Some [] => set_lanes (delete laneKey (lanes s1)) s1
          | _ => s1
          end
      end
  end.

Definition processLane (laneKey : js_string) (s : State) : State :=
  let (l, s1) := getLane laneKey s in
  match heap s1 !! l with
  | None => s1
  | Some lane =>
      if running lane then s1
      else drain laneKey l
             (set_lane l {| queue := queue lane; running := true |} s1)
  end.

(** Returns the promise handed to the caller. *)
Definition enqueueInLane (laneKey : js_string) (s : State) : nat * State :=
  let p := next_promise s in
  let (l, s1) := getLane laneKey s in
  match heap s1 !! l with
  | None => (p, s1)
  | Some lane =>
      let s2 :=
        {| heap := <[l := {| queue := queue lane ++ [p];
                             running := running lane |}]> (heap s1);
           next_lane := next_lane s1; lanes := lanes s1;
           suspended := suspended s1; next_promise := S p;
           trace := trace s1 ++ [Enqueued laneKey p] |} in
      (p, processLane laneKey s2)
  end.

Definition getSessionLaneKey (sessionId : js_string) : js_string :=
  str "session:" ++ sessionId.

Definition enqueueInSessionLane (sessionId : js_string) (s : State)
  : nat * State :=
  enqueueInLane (getSessionLaneKey sessionId) s.

(** The awaited task settles: the [try]/[catch] hands the outcome to the
    entry's own [resolve] or [reject], and the loop goes on. *)
Definition resume (a : Activation) (outcome : Completion V) (s : State)
  : State :=
  let s1 := log (Finished (act_laneKey a) (act_item a)) s in
  let s2 :=
    match outcome with
    | Normal result => log (Resolved (act_item a) result) s1
    | Throw error => log (Rejected (act_item a) error) s1
    end in
  drain (act_laneKey a) (act_lane a) s2.

Fixpoint unpark (p : nat) (acts : list Activation)
  : option (Activation * list Activation) :=
  match acts with
  | [] => None
  | a :: acts' =>
      if (act_item a =? p)%nat then Some (a, acts')
      else
        match unpark p acts' with
        | Some (found, rest) => Some (found, a :: rest)
        | None => None
        end
  end.

(** What happens to the scheduler: a caller enqueues a task, or the
    task of a running entry settles. *)
Inductive Input :=
| Enqueue (laneKey : js_string)
| Settle (p : nat) (outcome : Completion V).

Definition step (i : Input) (s : State) : option State :=
  match i with
  | Enqueue laneKey => Some (snd (enqueueInLane laneKey s))
  | Settle p outcome =>
      match unpark p (suspended s) with
      | Some (a, rest) => Some (resume a outcome (set_suspended rest s))
      | None => None
      end
  end.

Fixpoint run (inputs : list Input) (s : State) : option State :=
  match inputs with
  | [] => Some s
  | i :: inputs' =>
      match step i s with
      | Some s' => run inputs' s'
      | None => None
      end
  end.

(** *** Reading a trace *)

Definition enqueued_in (laneKey : js_string) (tr : list Event) : list nat :=
  omap (fun e => match e with
                 | Enqueued k p => if decide (k = laneKey) then Some p else None
                 | _ => None
                 end) tr.

Definition started_in (laneKey : js_string) (tr : list Event) : list nat :=
  omap (fun e => match e with
                 | Started k p => if decide (k = laneKey) then Some p else None
                 | _ => None
                 end) tr.

Definition finished_in (laneKey : js_string) (tr : list Event) : list nat :=
  omap (fun e => match e with
                 | Finished k p => if decide (k = laneKey) then Some p else None
                 | _ => None
                 end) tr.

(** The promises handed out, in order. *)
Definition promises_of (tr : list Event) : list nat :=
  omap (fun e => match e with
                 | Enqueued _ p => Some p
                 | _ => None
                 end) tr.

Definition settlements (tr : list Event) : list (nat * Completion V) :=
  omap (fun e => match e with
                 | Resolved p v => Some (p, Normal v)
                 | Rejected p err => Some (p, Throw err)
                 | _ => None
                 end) tr.

(** No two tasks of a lane overlap: when one starts, every task of the
    lane that started before it has finished. *)
Definition no_overlap (laneKey : js_string) (tr : list Event) : Prop :=
  forall i j p q,
    (i < j)%nat ->
    tr !! i = Some (Started laneKey p) ->
    tr !! j = Some (Started laneKey q) ->
    exists m, (i < m < j)%nat /\ tr !! m = Some (Finished laneKey p).

(** A monitor of one lane: it follows the trace with the task that is
    running and the tasks that wait, and gives up as soon as a task
    starts while another runs, starts out of turn, or finishes without
    running. *)
Definition monitor_step (laneKey : js_string)
  (st : option (option nat * list nat)) (e : Event)
  : option (option nat * list nat) :=
  match st with
  | None => None
  | Some (cur, waiting) =>
      match e with
      | Enqueued k p =>
          if decide (k = laneKey) then Some (cur, waiting ++ [p])
          else Some (cur, waiting)
      | Started k p =>
          if decide (k = laneKey) then
            match cur, waiting with
            | None, next :: rest =>
                if decide (next = p) then Some (Some p, rest) else None
            | _, _ => None
            end
          else Some (cur, waiting)
      | Finished k p =>
          if decide (k = laneKey) then
            match cur with
            | Some q => if decide (q = p) then Some (None, waiting) else None
            | None => None
            end
          else Some (cur, waiting)
      | Resolved _ _ | Rejected _ _ => Some (cur, waiting)
      end
  end.

Definition monitor (laneKey : js_string) (tr : list Event)
  : option (option nat * list nat) :=
  fold_left (monitor_step laneKey) tr (Some (None, [])).

(** *** Reading a state *)

Fixpoint activation_of (laneKey : js_string) (acts : list Activation)
  : option Activation :=
  match acts with
  | [] => None
  | a :: acts' =>
      if decide (act_laneKey a = laneKey) then Some a
      else activation_of laneKey acts'
  end.

Definition queue_at (l : nat) (s : State) : list nat :=
  match heap s !! l with
  | Some lane => queue lane
  | None => []
  end.

(** The task of a lane that is running, and those that wait. *)
Definition current (laneKey : js_string) (s : State) : option nat :=
  act_item <$> activation_of laneKey (suspended s).

Definition pending (laneKey : js_string) (s : State) : list nat :=
  match activation_of laneKey (suspended s) with
  | Some a => queue_at (act_lane a) s
  | None => []
  end.

(** The tasks that have not finished: for every activation, the task it
    awaits and the tasks in the queue of its lane. *)
Fixpoint unfinished (h : gmap nat LaneState) (acts : list Activation)
  : list nat :=
  match acts with
  | [] => []
  | a :: acts' =>
      (act_item a ::
       match h !! act_lane a with
       | Some lane => queue lane
       | None => []
       end) ++ unfinished h acts'
  end.

(** What the scheduler keeps true. *)
Record invariant (s : State) : Prop := {
  inv_lanes :
    forall k, lanes s !! k = act_lane <$> activation_of k (suspended s);
  inv_keys : NoDup (act_laneKey <$> suspended s);
  inv_objects : NoDup (act_lane <$> suspended s);
  inv_running :
    forall a, a ∈ suspended s ->
      (act_lane a < next_lane s)%nat
      /\ exists q, heap s !! act_lane a = Some {| queue := q; running := true |};
  inv_monitor :
    forall k, monitor k (trace s) = Some (current k s, pending k s);
  inv_promises : promises_of (trace s) = seq 0 (next_promise s)
}.

(** *** Notions used in the proofs *)

Definition settle_event (p : nat) (outcome : Completion V) : Event :=
  match outcome with
  | Normal result => Resolved p result
  | Throw error => Rejected p error
  end.

(** What follows from the monitor reaching the end of a trace. *)
Record monitored (k : js_string) (tr : list Event) (cur : option nat) (waiting : list nat) : Prop := {
  mon_fifo : enqueued_in k tr = started_in k tr ++ waiting;
  mon_running : started_in k tr = finished_in k tr ++ option_list cur;
  mon_serial : no_overlap k tr;
  mon_open :
    forall i p, tr !! i = Some (Started k p) ->
      (exists m, (i < m)%nat /\ tr !! m = Some (Finished k p)) \/ cur = Some p
}.

(** The activation a settlement resumes, among the others. *)
Record unparked (s : State) (p : nat) (a : Activation) (rest : list Activation) : Prop := {
  unp_item : act_item a = p;
  unp_elem : a ∈ suspended s;
  unp_rest : forall b, b ∈ rest -> b ∈ suspended s;
  unp_keys : NoDup (act_laneKey <$> rest);
  unp_objects : NoDup (act_lane <$> rest);
  unp_key : act_laneKey a ∉ act_laneKey <$> rest;
  unp_object : act_lane a ∉ act_lane <$> rest;
  unp_self : activation_of (act_laneKey a) (suspended s) = Some a;
  unp_gone : activation_of (act_laneKey a) rest = None;
  unp_others :
    forall k : js_string, k <> act_laneKey a ->
      activation_of k rest = activation_of k (suspended s)
}.

End Lanes.

Arguments Event : clear implicits.
Arguments State : clear implicits.
Arguments Input : clear implicits.

End Lanes.

(** ** Scenarios *)

Module Scenarios.

Import Runner Daemon.

Definition empty_world : World :=
  {| observed := []; requests := []; files := ∅; disk_error := None |}.

(** A run context without any registered tool. *)
Definition bare_context : RunContext :=
  {| tools := [];
     toolContext := {| workspaceDir := str "/work"; abortSignal := None |};
     sessionId := str "s1"; model := ModelName (str "m");
     provider := anthropic |}.

Definition nope_call : ToolCall :=
  {| tc_id := str "t1"; tc_name := str "nope"; tc_arguments := str "{}" |}.

(** A backend that says "working" and asks for a tool, every time. *)
Definition busy_backend : AnthropicBackend :=
  fun _ _ =>
    {| text_events := [str "working"];
       final_message :=
         inl {| fm_content := [TextBlock (str "working");
                               ToolUseBlock (str "t1") (str "nope") (str "{}")];
                fm_stop_reason := Some (str "tool_use");
                fm_input_tokens := 1; fm_output_tokens := 1 |} |}.

(** A backend that answers its first request like [busy_backend] and
    fails every later one. *)
Definition flaky_backend : AnthropicBackend :=
  fun i req =>
    match i with
    | O => busy_backend i req
    | S _ => {| text_events := [];
                final_message := inr (str "429 rate_limit_error") |}
    end.

Definition down_backend : AnthropicBackend :=
  fun _ _ => {| text_events := [];
                final_message := inr (str "429 rate_limit_error") |}.

(** An OpenAI reply that carries a text, a tool call and the finish
    reason [stop]. *)
Definition stop_chunk : Chunk :=
  {| chunk_usage := None;
     chunk_delta :=
       Some {| delta_content := Some (str "done");
               delta_tool_calls :=
                 Some [{| tcd_index := Some 0%nat; tcd_id := Some (str "c1");
                          tcd_name := Some (str "nope");
                          tcd_arguments := Some (str "{}") |}] |};
     chunk_finish_reason := Some (str "stop") |}.

Definition stopping_backend : OpenAIBackend :=
  fun _ _ => inl {| chunks := [stop_chunk]; stream_error := None |}.

Definition parse_any (text : js_string) : js_string + js_string := inl text.

Definition join_with_slash (dir file : js_string) : js_string :=
  dir ++ [47%N] ++ file.

Definition no_message : Message :=
  {| role := user; content := []; toolCalls := None; toolResults := None |}.

Definition clients_with (backend : AnthropicBackend) : Clients :=
  {| anthropic_api := backend; bedrock_api := backend;
     openai_api := stopping_backend |}.

Definition hello : AgentRunParams :=
  {| p_sessionId := str "s1"; p_prompt := str "hi"; p_sessionFile := None;
     p_workspaceDir := str "/work"; p_model := None; p_provider := None;
     p_tools := Some []; p_abortSignal := None |}.

Definition run_hello (backend : AnthropicBackend)
  : World * Completion AgentRunResult :=
  runAgent parse_any join_with_slash (clients_with backend) [] no_message
    hello empty_world.

Definition quiet (e : DaemonEvent) : option js_string := None.

(** A subscriber of [run:start] that throws. *)
Definition start_hater (e : DaemonEvent) : option js_string :=
  match e with
  | RunStart _ _ _ => Some (str "listener failed")
  | _ => None
  end.

Definition plain_config : DaemonConfig :=
  {| cfg_workspaceDir := str "/work"; cfg_defaultModel := None;
     cfg_provider := None; cfg_tools := None |}.

Definition hello_options : RunOptions :=
  {| o_sessionId := str "s1"; o_prompt := str "hi"; o_model := None;
     o_provider := None |}.

Definition fine_result : AgentRunResult :=
  {| r_response := str "ok"; r_messages := []; r_usage := None;
     r_error := None |}.

(** Two lanes, and a task that fails. *)
Definition lane_inputs : list (Lanes.Input nat) :=
  [Lanes.Enqueue (str "a"); Lanes.Enqueue (str "a"); Lanes.Enqueue (str "b");
   Lanes.Settle 0 (Throw (str "boom"))].

(** A session of sixty messages, numbered, in the file of session
    [s1]. *)
Definition sixty_messages : list Message :=
  map (fun n => {| role := user; content := number_to_string (N.of_nat n);
                   toolCalls := None; toolResults := None |})
    (seq 0 60).

Definition long_world : World :=
  {| observed := []; requests := [];
     files :=
       {[ str "/work/.agent/sessions/s1.jsonl" :=
            Holds {| sd_sessionId := str "s1"; sd_messages := sixty_messages;
                     sd_metadata := {| md_model := None;
                                       md_provider := None |} |} ]};
     disk_error := None |}.

Definition three_messages : list Message :=
  [ {| role := user; content := str "1"; toolCalls := None;
       toolResults := None |};
    {| role := assistant; content := str "2"; toolCalls := None;
       toolResults := None |};
    {| role := user; content := str "3"; toolCalls := None;
       toolResults := None |} ].

End Scenarios.

(** ** Lane statistics and lane keys (src/agent/lanes.ts) *)

Module LaneStats.

Import Lanes.

Record Stats := {
  activeLanes : nat;
  totalQueuedTasks : nat
}.

(** [getGlobalLaneKey] *)
Definition getGlobalLaneKey : js_string := str "global".

Section LaneStats.

Context {V : Type}.

(** [getLaneStats]: the loop over [lanes.values()] adds up the lengths
    of the queues; the order of the visit does not change the sum. *)
Definition getLaneStats (s : State V) : Stats :=
  {| activeLanes := size (lanes s);
     totalQueuedTasks :=
       map_fold (fun _ l total => (total + length (queue_at l s))%nat) 0%nat
         (lanes s) |}.

(** The tasks started, finished and settled in a trace, over all lanes. *)
Definition started_all (tr : list (Event V)) : list nat :=
  omap (fun e => match e with Started _ p => Some p | _ => None end) tr.

Definition finished_all (tr : list (Event V)) : list nat :=
  omap (fun e => match e with Finished _ p => Some p | _ => None end) tr.

Definition settled (tr : list (Event V)) : list nat :=
  (settlements tr).*1.

(** Every promise is accounted for: it is settled or it is unfinished. *)
Definition conserved (s : State V) : Prop :=
  settled (trace s) ++ unfinished (heap s) (suspended s)
  ≡ₚ seq 0 (next_promise s).

Definition counted (s : State V) : Prop :=
  length (started_all (trace s))
  = (length (finished_all (trace s)) + length (suspended s))%nat
  /\ length (finished_all (trace s)) = length (settled (trace s)).

End LaneStats.

End LaneStats.

(** ** The daemon's queries (src/agent/daemon.ts) *)

Module DaemonQueries.

Import Runner Daemon.

(** [s.endsWith(suffix)] *)
Definition endsWith (s suffix : js_string) : bool :=
  (length suffix <=? length s)%nat
  && eqb (drop (length s - length suffix) s) suffix.

(** [s.replace(pattern, "")] with a string for pattern: the first
    occurrence is removed. *)
Fixpoint remove_first (s pattern : js_string) : js_string :=
  if startsWith s pattern then drop (length pattern) s
  else
    match s with
    | [] => []
    | c :: s' => c :: remove_first s' pattern
    end.

Record RunInfo := {
  ri_runId : js_string;
  ri_sessionId : js_string;
  ri_startedAt : N;
  ri_provider : Provider
}.

Record DaemonStats := {
  st_activeRuns : nat;
  st_provider : Provider;
  st_activeLanes : nat;
  st_totalQueuedTasks : nat
}.

(** A run whose AbortController has been triggered. *)
Definition aborted (run : ActiveRun) : ActiveRun :=
  {| ar_sessionId := ar_sessionId run; ar_startedAt := ar_startedAt run;
     ar_aborted := true; ar_provider := ar_provider run |}.

(** The name of the file of a session inside the sessions directory. *)
Definition session_file_name (sessionId : js_string) : js_string :=
  SessionManager.sanitize sessionId ++ str ".jsonl".

Section Queries.

Variable config : DaemonConfig.
Variable path_join : js_string -> js_string -> js_string.

(** [`${config.workspaceDir}/.agent/sessions`] *)
Definition sessionsDir : js_string :=
  cfg_workspaceDir config ++ str "/.agent/sessions".

Definition getProvider : Provider :=
  match cfg_provider config with
  | Some p => p
  | None => anthropic
  end.

Definition getSession (sessionId : js_string) : Runner.M (option SessionData) :=
  let sessionFile :=
    SessionManager.resolveSessionFile path_join sessionsDir sessionId in
  loadSession sessionFile.

(** [readdir] is what [fs.readdir(this.sessionsDir)] yields: the names
    in the directory, or the error it rejects with. *)
Definition listSessions (readdir : list js_string + js_string)
  : list js_string :=
  match readdir with
  | inl files =>
      map (fun f => remove_first f (str ".jsonl"))
        (List.filter (fun f => endsWith f (str ".jsonl")) files)
  | inr _ => []
  end.

Definition getActiveRuns (d : State) : list RunInfo :=
  map (fun entry =>
         let '(runId, run) := entry in
         {| ri_runId := runId; ri_sessionId := ar_sessionId run;
            ri_startedAt := ar_startedAt run;
            ri_provider := ar_provider run |})
    (activeRuns d).

Definition getStats {V} (d : State) (s : Lanes.State V) : DaemonStats :=
  let laneStats := LaneStats.getLaneStats s in
  {| st_activeRuns := length (activeRuns d);
     st_provider := getProvider;
     st_activeLanes := LaneStats.activeLanes laneStats;
     st_totalQueuedTasks := LaneStats.totalQueuedTasks laneStats |}.

End Queries.

End DaemonQueries.

(** ** Notions used to state the properties of a whole turn *)

Module TurnSpec.

Import Runner.

(** One round of the loop: the text of a reply, the tool calls it asks
    for and the results of running them. *)
Record Round := {
  rd_text : js_string;
  rd_calls : list ToolCall;
  rd_results : list ToolResult
}.

(** The two messages a round leaves in the loop buffer. *)
Definition round_messages (r : Round) : list Message :=
  [assistant_message (rd_text r) (rd_calls r); carrier_message (rd_results r)].

(** The results answer the calls one for one, in order. *)
Definition answers (calls : list ToolCall) (results : list ToolResult) : bool :=
  bool_decide (map tr_toolCallId results = map tc_id calls).

Definition round_ok (r : Round) : Prop :=
  rd_calls r <> [] /\ answers (rd_calls r) (rd_results r) = true.

(** The messages of a turn are well paired: an assistant message that
    holds tool calls is followed at once by a carrier message whose
    results answer these calls, and an assistant message without tool
    calls is the last message. *)
Fixpoint paired (ms : list Message) : bool :=
  match ms with
  | [] => true
  | m :: rest =>
      match role m, toolCalls m, toolResults m with
      | assistant, None, None =>
          match rest with
          | [] => true
          | _ :: _ => false
          end
      | assistant, Some (c :: calls), None =>
          match rest with
          | carrier :: rest' =>
              match role carrier, toolCalls carrier, toolResults carrier with
              | user, None, Some results =>
                  answers (c :: calls) results && paired rest'
              | _, _, _ => false
              end
          | [] => false
          end
      | _, _, _ => false
      end
  end.

Definition total {A} (f : A -> Z) (l : list A) : Z :=
  foldr (fun x acc => f x + acc) 0 l.

(** The token counts an Anthropic reply reports. *)
Definition anthropic_usage (client : AnthropicBackend)
  (entry : nat * list Message) : Usage :=
  match final_message (client (fst entry) (snd entry)) with
  | inl response =>
      {| inputTokens := fm_input_tokens response;
         outputTokens := fm_output_tokens response |}
  | inr _ => {| inputTokens := 0; outputTokens := 0 |}
  end.

Definition chunk_prompt_tokens (chunk : Chunk) : Z :=
  match chunk_usage chunk with
  | Some u => or_zero (prompt_tokens u)
  | None => 0
  end.

Definition chunk_completion_tokens (chunk : Chunk) : Z :=
  match chunk_usage chunk with
  | Some u => or_zero (completion_tokens u)
  | None => 0
  end.

(** The token counts the chunks of an OpenAI reply report. *)
Definition openai_usage (client : OpenAIBackend)
  (entry : nat * list Message) : Usage :=
  match client (fst entry) (snd entry) with
  | inl stream =>
      {| inputTokens := total chunk_prompt_tokens (chunks stream);
         outputTokens := total chunk_completion_tokens (chunks stream) |}
  | inr _ => {| inputTokens := 0; outputTokens := 0 |}
  end.

Definition call_usage (clients : Clients) (provider : Provider)
  (entry : nat * list Message) : Usage :=
  match provider with
  | openai => openai_usage (openai_api clients) entry
  | bedrock => anthropic_usage (bedrock_api clients) entry
  | anthropic => anthropic_usage (anthropic_api clients) entry
  end.

(** The requests of a turn that starts at iteration [start] with [base]
    in its loop buffer: the [k]-th one carries the conversation of the
    turn, the buffer and the messages of the first [k] rounds. *)
Definition requests_of_rounds (messages base : list Message) (start : nat)
  (rounds : list Round) (new : list (nat * list Message)) : Prop :=
  forall k entry,
    new !! k = Some entry ->
    entry = ((start + k)%nat,
             messages ++ base ++ flat_map round_messages (take k rounds)).

(** What a loop that has ended normally leaves: the rounds, then
    possibly a reply without tool calls. *)
Definition loop_result (usage_of : nat * list Message -> Usage)
  (st : LoopState) (rounds : list Round) (new : list (nat * list Message))
  (st' : LoopState) : Prop :=
  (exists tail,
     newMessages st' = newMessages st ++ flat_map round_messages rounds ++ tail
     /\ (tail = [] \/ exists text, tail = [assistant_message text []]))
  /\ totalInputTokens st'
     = totalInputTokens st + total (fun e => inputTokens (usage_of e)) new
  /\ totalOutputTokens st'
     = totalOutputTokens st + total (fun e => outputTokens (usage_of e)) new.

End TurnSpec.

(** ** Notions used to state the properties of a whole run *)

Module RunSpec.

Import Runner RunnerSpec.

(** The kinds of the taxonomy of failures. *)
Definition error_kinds : list js_string :=
  [str "context_overflow"; str "rate_limit"; str "auth_error";
   str "model_not_found"; str "unknown"].

Section RunSpec.

Variable path_join : js_string -> js_string -> js_string.
Variable codingTools : list Tool.
Variable undefined_message : Message.

(** The context [runAgent] hands to the turn. *)
Definition run_context (params : AgentRunParams) : RunContext :=
  {| tools := default codingTools (p_tools params);
     toolContext := {| workspaceDir := p_workspaceDir params;
                       abortSignal := p_abortSignal params |};
     sessionId := p_sessionId params;
     model := run_model params;
     provider := run_provider params |}.

(** The conversation [runAgent] hands to the turn: the stored history
    within its bound, then the prompt. *)
Definition run_conversation (params : AgentRunParams) (w : World)
  : list Message :=
  SessionManager.limitHistoryTurns undefined_message
    (stored_messages path_join params w) MAX_HISTORY_TURNS
  ++ [user_message params].

End RunSpec.

(** A backend that answers every request with a text and no tool
    call. *)
Definition answering_backend : AnthropicBackend :=
  fun _ _ =>
    {| text_events := [str "hello"];
       final_message :=
         inl {| fm_content := [TextBlock (str "hello")];
                fm_stop_reason := Some (str "end_turn");
                fm_input_tokens := 3; fm_output_tokens := 2 |} |}.

(** A disk that fills up once the session file has been opened for
    writing. *)
Definition no_space : WriteError :=
  {| we_message := str "ENOSPC: no space left on device";
     we_remains := CompleteLines 0 |}.

(** The session of sixty messages on such a disk. *)
Definition full_disk : World :=
  {| observed := []; requests := []; files := files Scenarios.long_world;
     disk_error := Some no_space |}.

End RunSpec.

(** ** Notions used to state what a run reads *)

Module SignalSpec.

Import Runner.

(** The same parameters with another abort signal. *)
Definition with_signal (signal : option bool) (params : AgentRunParams)
  : AgentRunParams :=
  {| p_sessionId := p_sessionId params; p_prompt := p_prompt params;
     p_sessionFile := p_sessionFile params;
     p_workspaceDir := p_workspaceDir params; p_model := p_model params;
     p_provider := p_provider params; p_tools := p_tools params;
     p_abortSignal := signal |}.

Definition with_context_signal (signal : option bool) (ctx : RunContext)
  : RunContext :=
  {| tools := tools ctx;
     toolContext := {| workspaceDir := workspaceDir (toolContext ctx);
                       abortSignal := signal |};
     sessionId := sessionId ctx; model := model ctx;
     provider := provider ctx |}.

(** A tool that does not look at the abort signal it is handed. *)
Definition ignores_signal (t : Tool) : Prop :=
  forall args dir signal signal' fs,
    execute t args {| workspaceDir := dir; abortSignal := signal |} fs
    = execute t args {| workspaceDir := dir; abortSignal := signal' |} fs.

(** A tool that returns its arguments. *)
Definition echo_tool : Tool :=
  {| name := str "echo";
     execute := fun args _ fs =>
       (fs, inl {| ter_content := args; ter_isError := None |}) |}.

(** The fields a tool-call fragment contributes. *)
Definition fragment (tc : ToolCallDelta) : PartialCall :=
  {| pc_id := or_empty (tcd_id tc); pc_name := or_empty (tcd_name tc);
     pc_arguments := or_empty (tcd_arguments tc) |}.

Definition name_and_arguments (index : nat)
  (fragments : list (js_string * js_string)) : list ToolCallDelta :=
  map (fun f => {| tcd_index := Some index; tcd_id := None;
                   tcd_name := Some (fst f); tcd_arguments := Some (snd f) |})
    fragments.

End SignalSpec.

(** ** The wire formats of the two dialects (runner.ts) *)

Module Wire.

Import Runner.

Inductive AnthropicBlock :=
| WireText (text : js_string)
| WireToolUse (id name input : js_string)
| WireToolResult (tool_use_id content : js_string) (is_error : option bool).

(** The content of a message parameter is a string or a list of
    blocks. *)
Record AnthropicParam := {
  ap_role : MessageRole;
  ap_content : js_string + list AnthropicBlock
}.

Definition is_system (r : MessageRole) : bool :=
  match r with
  | system => true
  | _ => false
  end.

(** The body of the [map] of [toAnthropicMessages]. *)
Definition anthropic_param (m : Message) : AnthropicParam :=
  match role m, toolCalls m with
  | assistant, Some (c :: calls) =>
      {| ap_role := assistant;
         ap_content :=
           inr (match content m with
                | [] => []
                | text => [WireText text]
                end
                ++ map (fun toolCall =>
                          WireToolUse (tc_id toolCall) (tc_name toolCall)
                            (tc_arguments toolCall))
                     (c :: calls)) |}
  | _, _ =>
      match role m, toolResults m with
      | user, Some (r :: results) =>
          {| ap_role := user;
             ap_content :=
               inr (map (fun tr =>
                           WireToolResult (tr_toolCallId tr)
                             (tr_content tr) (tr_isError tr))
                      (r :: results)) |}
      | _, _ => {| ap_role := role m; ap_content := inl (content m) |}
      end
  end.

Definition toAnthropicMessages (messages : list Message)
  : list AnthropicParam :=
  map anthropic_param
    (List.filter (fun m => negb (is_system (role m))) messages).

Record OpenAIToolCall := {
  otc_id : js_string;
  otc_name : js_string;
  otc_arguments : js_string
}.

Inductive OpenAIParam :=
| SystemParam (content : js_string)
| AssistantCallsParam (content : option js_string)
    (tool_calls : list OpenAIToolCall)
| ToolParam (tool_call_id content : js_string)
| TextParam (role : MessageRole) (content : js_string).

Section OpenAIWire.

(** [JSON.stringify] on the arguments of a call. *)
Variable JSON_stringify : js_string -> js_string.

(** The body of the loop of [toOpenAIMessages]: what one message
    adds to the result. *)
Definition openai_params (m : Message) : list OpenAIParam :=
  if is_system (role m) then []
  else
    match role m, toolCalls m with
    | assistant, Some (c :: calls) =>
        [AssistantCallsParam
           (match content m with
            | [] => None
            | text => Some text
            end)
           (map (fun tc =>
                   {| otc_id := tc_id tc; otc_name := tc_name tc;
                      otc_arguments := JSON_stringify (tc_arguments tc) |})
              (c :: calls))]
    | _, _ =>
        match role m, toolResults m with
        | user, Some (r :: results) =>
            map (fun tr => ToolParam (tr_toolCallId tr) (tr_content tr))
              (r :: results)
        | _, _ => [TextParam (role m) (content m)]
        end
    end.

Definition toOpenAIMessages (messages : list Message)
  (systemPrompt : js_string) : list OpenAIParam :=
  SystemParam systemPrompt :: flat_map openai_params messages.

End OpenAIWire.

(** *** Calls and their answers on the wire *)

Definition use_ids (p : AnthropicParam) : list js_string :=
  match ap_content p with
  | inr blocks =>
      omap (fun b => match b with
                     | WireToolUse id _ _ => Some id
                     | _ => None
                     end) blocks
  | inl _ => []
  end.

Definition result_ids (p : AnthropicParam) : option (list js_string) :=
  match ap_role p, ap_content p with
  | user, inr blocks =>
      mapM (fun b => match b with
                     | WireToolResult id _ _ => Some id
                     | _ => None
                     end) blocks
  | _, _ => None
  end.

(** Every message with [tool_use] blocks is followed at once by a user
    message made of the [tool_result] blocks for these ids, in order. *)
Fixpoint anthropic_answered (ps : list AnthropicParam) : bool :=
  match ps with
  | [] => true
  | p :: rest =>
      match use_ids p with
      | [] => anthropic_answered rest
      | ids =>
          match rest with
          | q :: _ =>
              bool_decide (result_ids q = Some ids) && anthropic_answered rest
          | [] => false
          end
      end
  end.

Definition tool_id (p : OpenAIParam) : option js_string :=
  match p with
  | ToolParam id _ => Some id
  | _ => None
  end.

(** Every assistant message with tool calls is followed at once by one
    [tool] message per call, with the ids of the calls in order. *)
Fixpoint openai_answered (ps : list OpenAIParam) : bool :=
  match ps with
  | [] => true
  | p :: rest =>
      match p with
      | AssistantCallsParam _ calls =>
          bool_decide (mapM tool_id (take (length calls) rest)
                       = Some (map otc_id calls))
          && bool_decide (length calls <= length rest)%nat
          && openai_answered rest
      | _ => openai_answered rest
      end
  end.

End Wire.

(** ** The daemon on top of the lanes (AgentDaemon.run) *)

Module Orchestrator.

Import Runner Daemon.

(** Where the lane task of a run stands: not started; parked at
    [await runAgent(params)] under its run id; or settled, its promise
    not yet picked up by the lane. *)
Inductive Status :=
| Waiting
| Awaiting (runId : js_string)
| Settled (outcome : Completion AgentRunResult).

(** The closure handed to the lane by a call of [run]. *)
Record Task := {
  t_options : RunOptions;
  t_status : Status
}.

(** The lanes, the daemon, and the tasks by the promise of their lane
    entry. *)
Record System := {
  sched : Lanes.State AgentRunResult;
  daemon : Daemon.State;
  tasks : gmap nat Task
}.

Definition initial_system : System :=
  {| sched := Lanes.initial; daemon := Daemon.initial; tasks := ∅ |}.

(** What happens to the daemon: [run] is called; the [runAgent] call of
    a task settles; the lane picks up the promise of a settled task;
    [cancelRun] is called.  The calls in which a task may start carry
    what [Date.now()] and [new Date()] read then. *)
Inductive Call :=
| CallRun (options : RunOptions) (now startedAt : N)
| AgentSettles (p : nat) (outcome : Completion AgentRunResult)
| TaskSettled (p : nat) (now startedAt : N)
| CallCancel (sessionId : js_string).

(** The task the lanes have started between two states. *)
Definition started_by (before after : Lanes.State AgentRunResult)
  : option nat :=
  head (omap (fun e => match e with
                       | Lanes.Started _ p => Some p
                       | _ => None
                       end)
          (drop (length (Lanes.trace before)) (Lanes.trace after))).

Section Orchestrator.

Variable config : DaemonConfig.
Variable listener_throws : DaemonEvent -> option js_string.

(** [item.task()] is called: the task runs up to its first [await]. *)
Definition start_task (p : nat) (now startedAt : N) (sys : System) : System :=
  match tasks sys !! p with
  | Some task =>
      let (d, completion) :=
        run_begin config listener_throws (t_options task) now startedAt
          (daemon sys) in
      {| sched := sched sys; daemon := d;
         tasks :=
           <[p := {| t_options := t_options task;
                     t_status := match completion with
                                 | Normal runId => Awaiting runId
                                 | Throw message => Settled (Throw message)
                                 end |}]> (tasks sys) |}
  | None => sys
  end.

Definition after_lanes (before : Lanes.State AgentRunResult)
  (now startedAt : N) (sys : System) : System :=
  match started_by before (sched sys) with
  | Some p => start_task p now startedAt sys
  | None => sys
  end.

Definition step (c : Call) (sys : System) : option System :=
  match c with
  | CallRun options now startedAt =>
      let (p, s) := Lanes.enqueueInSessionLane (o_sessionId options)
                      (sched sys) in
      Some (after_lanes (sched sys) now startedAt
              {| sched := s; daemon := daemon sys;
                 tasks := <[p := {| t_options := options;
                                    t_status := Waiting |}]> (tasks sys) |})
  | AgentSettles p outcome =>
      match tasks sys !! p with
      | Some task =>
          match t_status task with
          | Awaiting runId =>
              let (d, completion) :=
                run_guarded listener_throws runId
                  (o_sessionId (t_options task))
                  (fun d => (d, outcome)) (daemon sys) in
              Some {| sched := sched sys; daemon := d;
                      tasks := <[p := {| t_options := t_options task;
                                         t_status := Settled completion |}]>
                                 (tasks sys) |}
          | _ => None
          end
      | None => None
      end
  | TaskSettled p now startedAt =>
      match tasks sys !! p with
      | Some task =>
          match t_status task with
          | Settled completion =>
              match Lanes.step (Lanes.Settle p completion) (sched sys) with
              | Some s =>
                  Some (after_lanes (sched sys) now startedAt
                          {| sched := s; daemon := daemon sys;
                             tasks := delete p (tasks sys) |})
              | None => None
              end
          | _ => None
          end
      | None => None
      end
  | CallCancel sessionId =>
      Some {| sched := sched sys;
              daemon := fst (cancelRun listener_throws sessionId (daemon sys));
              tasks := tasks sys |}
  end.

Fixpoint run_system (calls : list Call) (sys : System) : option System :=
  match calls with
  | [] => Some sys
  | c :: calls' =>
      match step c sys with
      | Some sys' => run_system calls' sys'
      | None => None
      end
  end.

End Orchestrator.

(** *** Notions used to state its properties *)

(** No listener of [run:start] throws. *)
Definition quiet_start (listener_throws : DaemonEvent -> option js_string)
  : Prop :=
  forall runId sessionId provider,
    listener_throws (RunStart runId sessionId provider) = None.

Definition lane_key (task : Task) : js_string :=
  Lanes.getSessionLaneKey (o_sessionId (t_options task)).

(** The run ids and sessions of the registered runs, in the order of the
    map. *)
Definition registered_runs (d : Daemon.State)
  : list (js_string * js_string) :=
  (fun entry => (entry.1, ar_sessionId entry.2)) <$> activeRuns d.

Definition awaited (ts : gmap nat Task) (a : Lanes.Activation)
  : option (js_string * js_string) :=
  match ts !! Lanes.act_item a with
  | Some task =>
      match t_status task with
      | Awaiting runId => Some (runId, o_sessionId (t_options task))
      | _ => None
      end
  | None => None
  end.

(** The run ids and sessions of the tasks parked at their call of
    [runAgent], in the order in which the tasks started. *)
Definition expected_runs (sys : System) : list (js_string * js_string) :=
  omap (awaited (tasks sys)) (Lanes.suspended (sched sys)).

Record consistent (sys : System) : Prop := {
  con_lanes : Lanes.invariant (sched sys);
  con_running :
    forall a, a ∈ Lanes.suspended (sched sys) ->
      exists task,
        tasks sys !! Lanes.act_item a = Some task
        /\ Lanes.act_laneKey a = lane_key task
        /\ t_status task <> Waiting;
  con_queued :
    forall a q, a ∈ Lanes.suspended (sched sys) ->
      q ∈ Lanes.queue_at (Lanes.act_lane a) (sched sys) ->
      exists task,
        tasks sys !! q = Some task
        /\ Lanes.act_laneKey a = lane_key task
        /\ t_status task = Waiting;
  con_queues :
    forall a, a ∈ Lanes.suspended (sched sys) ->
      NoDup (Lanes.queue_at (Lanes.act_lane a) (sched sys));
  con_runs : registered_runs (daemon sys) = expected_runs sys;
  con_ids :
    forall p task runId,
      tasks sys !! p = Some task -> t_status task = Awaiting runId ->
      exists now, runId = make_runId (o_sessionId (t_options task)) now;
  con_started :
    forall p task,
      tasks sys !! p = Some task -> t_status task <> Waiting ->
      exists a, a ∈ Lanes.suspended (sched sys) /\ Lanes.act_item a = p;
  con_fresh :
    forall p task,
      tasks sys !! p = Some task -> (p < Lanes.next_promise (sched sys))%nat
}.

End Orchestrator.

(** ** Notions used to relate the events of the daemon to its promises *)

Module OrchestratorSpec.

Import Runner Daemon Orchestrator.

(** What [Date.now()] read in a call in which a task may start. *)
Definition clock (c : Call) : option N :=
  match c with
  | CallRun _ now _ | TaskSettled _ now _ => Some now
  | AgentSettles _ _ | CallCancel _ => None
  end.

(** The tasks started in a trace, across the lanes. *)
Definition started_all (tr : list (Lanes.Event AgentRunResult)) : list nat :=
  omap (fun e => match e with
                 | Lanes.Started _ p => Some p
                 | _ => None
                 end) tr.

(** The task the lanes have started between two states, with the clock
    reading of the call. *)
Definition begun (now : option N)
  (before after : Lanes.State AgentRunResult) : list (nat * N) :=
  match now, started_by before after with
  | Some reading, Some p => [(p, reading)]
  | _, _ => []
  end.

(** The tasks that the calls have started, each with what [Date.now()]
    read when it started: the run of the task has the id made of its
    session and of this reading. *)
Fixpoint starts (config : DaemonConfig)
  (listener_throws : DaemonEvent -> option js_string)
  (calls : list Call) (sys : System) : list (nat * N) :=
  match calls with
  | [] => []
  | c :: calls' =>
      match step config listener_throws c sys with
      | Some sys' =>
          begun (clock c) (sched sys) (sched sys')
          ++ starts config listener_throws calls' sys'
      | None => []
      end
  end.

(** What stands behind the outcome of the lane task of the run that a
    session started at the clock reading [now]: the events of that
    run, under its run id and in the order of their emission.  A task
    that resolves has announced its start and then its end, with the
    result it resolves with.  A task that rejects has announced its
    start; it rejects with the error a listener of that [run:start]
    threw, or it has then emitted [run:error] and rejects with the
    cause announced, unless a listener of that [run:error] threw
    another error. *)
Definition justified (listener_throws : DaemonEvent -> option js_string)
  (d : Daemon.State) (sessionId : js_string) (now : N)
  (outcome : Completion AgentRunResult) : Prop :=
  exists provider,
    let runId := make_runId sessionId now in
    let start := RunStart runId sessionId provider in
    match outcome with
    | Normal result =>
        [start; RunEnd runId sessionId result] `sublist_of` emitted d
    | Throw error =>
        (start ∈ emitted d /\ listener_throws start = Some error)
        \/ (exists cause,
              [start; RunError runId sessionId cause] `sublist_of` emitted d
              /\ (cause = error
                  \/ listener_throws (RunError runId sessionId cause)
                     = Some error))
    end.

(** The promise [p] was returned by a call of [run] for the session. *)
Definition run_of (sys : System) (p : nat) (sessionId : js_string) : Prop :=
  Lanes.Enqueued (Lanes.getSessionLaneKey sessionId) p
  ∈ Lanes.trace (sched sys).

(** [started] lists the tasks started so far with their clock
    readings. *)
Record announced (config : DaemonConfig)
  (listener_throws : DaemonEvent -> option js_string)
  (started : list (nat * N)) (sys : System) : Prop := {
  ann_lanes : Lanes.invariant (sched sys);
  ann_session :
    forall p task,
      tasks sys !! p = Some task ->
      run_of sys p (o_sessionId (t_options task));
  ann_awaiting :
    forall p task runId,
      tasks sys !! p = Some task -> t_status task = Awaiting runId ->
      exists now,
        runId = make_runId (o_sessionId (t_options task)) now
        /\ (p, now) ∈ started
        /\ RunStart runId (o_sessionId (t_options task))
             (effective_provider config (t_options task))
           ∈ emitted (daemon sys);
  ann_settled :
    forall p task outcome,
      tasks sys !! p = Some task -> t_status task = Settled outcome ->
      exists now,
        (p, now) ∈ started
        /\ justified listener_throws (daemon sys)
             (o_sessionId (t_options task)) now outcome;
  ann_trace :
    forall p outcome,
      (p, outcome) ∈ Lanes.settlements (Lanes.trace (sched sys)) ->
      exists sessionId now,
        run_of sys p sessionId
        /\ (p, now) ∈ started
        /\ justified listener_throws (daemon sys) sessionId now outcome
}.

End OrchestratorSpec.

(** ** Context files (src/prompts/system-prompt.ts) *)

Module SystemPrompt.

(** White space and line terminators, which [String.prototype.trim]
    removes at both ends. *)
Definition is_space (c : code_unit) : bool :=
  ((c =? 9) || (c =? 10) || (c =? 11) || (c =? 12) || (c =? 13) || (c =? 32)
   || (c =? 160) || (c =? 5760) || ((8192 <=? c) && (c <=? 8202))
   || (c =? 8232) || (c =? 8233) || (c =? 8239) || (c =? 8287)
   || (c =? 12288) || (c =? 65279))%N.

Fixpoint trimStart (s : js_string) : js_string :=
  match s with
  | [] => []
  | c :: s' => if is_space c then trimStart s' else s
  end.

Definition trimEnd (s : js_string) : js_string := rev (trimStart (rev s)).

(** [s.trim()] *)
Definition trim (s : js_string) : js_string := trimEnd (trimStart s).

Record ContextFile := {
  cf_path : js_string;
  cf_content : js_string
}.

(** The files to load, each with the name of its kind. *)
Definition filesToLoad : list (js_string * js_string) :=
  [ (str "INSTRUCTIONS.md", str "INSTRUCTIONS");
    (str "SOUL.md", str "SOUL");
    (str "MEMORY.md", str "MEMORY");
    (str ".mini-owl/INSTRUCTIONS.md", str "INSTRUCTIONS");
    (str ".mini-owl/SOUL.md", str "SOUL");
    (str ".mini-owl/MEMORY.md", str "MEMORY") ].

Section Load.

(** [fs.readFile(filepath, "utf-8")]: the content, or [None] when the
    read rejects. *)
Variable readFile : js_string -> option js_string.
Variable workspaceDir : js_string.

(** [loadedNames.has(name)] *)
Definition has (loadedNames : list js_string) (name : js_string) : bool :=
  existsb (fun n => eqb n name) loadedNames.

(** The [for] loop over the files, with the array and the set it
    fills. *)
Fixpoint load_loop (files : list (js_string * js_string))
  (contextFiles : list ContextFile) (loadedNames : list js_string)
  : list ContextFile :=
  match files with
  | [] => contextFiles
  | (path, name) :: rest =>
      if has loadedNames name then load_loop rest contextFiles loadedNames
      else
        match readFile (workspaceDir ++ str "/" ++ path) with
        | Some content =>
            match trim content with
            | [] => load_loop rest contextFiles loadedNames
            | trimmed =>
                load_loop rest
                  (contextFiles ++ [{| cf_path := path; cf_content := trimmed |}])
                  (name :: loadedNames)
            end
        | None => load_loop rest contextFiles loadedNames
        end
  end.

Definition loadContextFiles : list ContextFile :=
  load_loop filesToLoad [] [].

(** A file that can be read and is not blank. *)
Definition usable (path : js_string) : Prop :=
  exists content,
    readFile (workspaceDir ++ str "/" ++ path) = Some content
    /\ trim content <> [].

End Load.

End SystemPrompt.

(** ** The session file (src/session/session-manager.ts) *)

Module SessionFile.

Import SystemPrompt.

(** [s.split("\n")] *)
Fixpoint split_lines (s : js_string) : list js_string :=
  match s with
  | [] => [[]]
  | c :: s' =>
      if (c =? 10)%N then [] :: split_lines s'
      else
        match split_lines s' with
        | line :: lines => (c :: line) :: lines
        | [] => [[c]]
        end
  end.

(** [lines.join("\n")] *)
Fixpoint join_lines (lines : list js_string) : js_string :=
  match lines with
  | [] => []
  | [line] => line
  | line :: rest => line ++ [10%N] ++ join_lines rest
  end.

(** [Boolean] as the predicate of [filter], on strings. *)
Definition nonempty (s : js_string) : bool :=
  match s with
  | [] => false
  | _ :: _ => true
  end.

(** The object of the first line of the file. *)
Record Metadata := {
  md_sessionId : js_string;
  md_createdAt : js_string;
  md_updatedAt : js_string;
  md_model : option js_string;
  md_provider : option js_string
}.

Record FsError := {
  fe_code : js_string;
  fe_message : js_string
}.

Section SessionFile.

(** What the messages of a session are. *)
Context {Msg : Type}.

Record SessionData := {
  sessionId : js_string;
  messages : list Msg;
  createdAt : js_string;
  updatedAt : js_string;
  model : option js_string;
  provider : option js_string
}.

(** [JSON.stringify] on the metadata object and on a message, and
    [JSON.parse] on a line read as the one and as the other: the value,
    or the error thrown. *)
Variable stringify_metadata : Metadata -> js_string.
Variable stringify_message : Msg -> js_string.
Variable parse_metadata : js_string -> Completion Metadata.
Variable parse_message : js_string -> Completion Msg.

(** [lines.slice(1).map((line) => JSON.parse(line))] *)
Fixpoint parse_messages (lines : list js_string) : Completion (list Msg) :=
  match lines with
  | [] => Normal []
  | line :: rest =>
      match parse_message line with
      | Normal message =>
          match parse_messages rest with
          | Normal parsed => Normal (message :: parsed)
          | Throw error => Throw error
          end
      | Throw error => Throw error
      end
  end.

(** [loadSession] once the file has been read. *)
Definition parse_session (content : js_string)
  : Completion (option SessionData) :=
  let lines := List.filter nonempty (split_lines (trim content)) in
  match lines with
  | [] => Normal None
  | first :: rest =>
      match parse_metadata first with
      | Normal metadata =>
          match parse_messages rest with
          | Normal parsed =>
              Normal (Some {| sessionId := md_sessionId metadata;
                              messages := parsed;
                              createdAt := md_createdAt metadata;
                              updatedAt := md_updatedAt metadata;
                              model := md_model metadata;
                              provider := md_provider metadata |})
          | Throw error => Throw error
          end
      | Throw error => Throw error
      end
  end.

(** [read] is what [fs.readFile] yields. *)
Definition loadSession (read : js_string + FsError)
  : Completion (option SessionData) :=
  match read with
  | inl content => parse_session content
  | inr error =>
      if eqb (fe_code error) (str "ENOENT") then Normal None
      else Throw (fe_message error)
  end.

(** What [saveSession] writes; [now] is [new Date().toISOString()]. *)
Definition session_content (session : SessionData) (now : js_string)
  : js_string :=
  let metadataLine :=
    stringify_metadata
      {| md_sessionId := sessionId session;
         md_createdAt := createdAt session;
         md_updatedAt := now;
         md_model := model session;
         md_provider := provider session |} in
  let messageLines := map stringify_message (messages session) in
  join_lines (metadataLine :: messageLines) ++ [10%N].

(** What the file holds after [appendMessage]. *)
Definition appended_content (content : js_string) (message : Msg)
  : js_string :=
  content ++ (stringify_message message ++ [10%N]).

(** A line as [JSON.stringify] prints an object: not empty, without a
    line feed, and with no white space at either end. *)
Definition clean (line : js_string) : Prop :=
  line <> [] /\ (10%N ∉ line)
  /\ (forall c, head line = Some c -> is_space c = false)
  /\ (forall c, last line = Some c -> is_space c = false).

(** The parser reads back what was printed for a value. *)
Definition prints_metadata (metadata : Metadata) : Prop :=
  clean (stringify_metadata metadata)
  /\ parse_metadata (stringify_metadata metadata) = Normal metadata.

Definition prints_message (message : Msg) : Prop :=
  clean (stringify_message message)
  /\ parse_message (stringify_message message) = Normal message.

End SessionFile.

Arguments SessionData : clear implicits.

End SessionFile.

(** ** A toy JSON codec for the examples *)

Module ToyCodec.

Import SessionFile.

(** A string between braces. *)
Definition brace (s : js_string) : js_string := [123%N] ++ s ++ [125%N].

Definition unbrace (line : js_string) : Completion js_string :=
  match line with
  | 123%N :: rest =>
      match rev rest with
      | 125%N :: body => Normal (rev body)
      | _ => Throw (str "Unexpected end of JSON input")
      end
  | _ => Throw (str "Unexpected token")
  end.

(** Of the metadata only the session id is printed; the rest is what
    the example session has. *)
Definition print_metadata (metadata : Metadata) : js_string :=
  brace (md_sessionId metadata).

Definition read_metadata (line : js_string) : Completion Metadata :=
  match unbrace line with
  | Normal id =>
      Normal {| md_sessionId := id; md_createdAt := str "t0";
                md_updatedAt := str "t1"; md_model := None;
                md_provider := None |}
  | Throw error => Throw error
  end.

Definition example_session : SessionData js_string :=
  {| sessionId := str "s1"; messages := [str "hello"];
     createdAt := str "t0"; updatedAt := str "t0";
     model := None; provider := None |}.

End ToyCodec.

(** ** The coding tools (src/tools/index.ts) *)

Module CodingTools.

Import Runner.

Record ToolOptions := {
  allowlist : option (list js_string);
  denylist : option (list js_string)
}.

(** [new Set(names).has(name)] *)
Definition set_has (names : list js_string) (name : js_string) : bool :=
  existsb (fun n => eqb n name) names.

Section CodingTools.

(** [String.prototype.toLowerCase] *)
Variable toLowerCase : js_string -> js_string.

(** The [execute] functions of the six tool modules. *)
Variables read_execute write_execute edit_execute exec_execute ls_execute
  grep_execute : js_string -> ToolContext -> Files ->
                 Files * (ToolExecutionResult + js_string).

Definition readTool : Tool := {| name := str "read"; execute := read_execute |}.
Definition writeTool : Tool :=
  {| name := str "write"; execute := write_execute |}.
Definition editTool : Tool := {| name := str "edit"; execute := edit_execute |}.
Definition execTool : Tool := {| name := str "exec"; execute := exec_execute |}.
Definition lsTool : Tool := {| name := str "ls"; execute := ls_execute |}.
Definition grepTool : Tool := {| name := str "grep"; execute := grep_execute |}.

Definition allTools : list Tool :=
  [readTool; writeTool; editTool; execTool; lsTool; grepTool].

Definition createCodingTools (options : option ToolOptions) : list Tool :=
  let tools := allTools in
  let tools :=
    match options ≫= allowlist with
    | Some names =>
        let allowed := map toLowerCase names in
        List.filter (fun t => set_has allowed (toLowerCase (name t))) tools
    | None => tools
    end in
  match options ≫= denylist with
  | Some names =>
      let denied := map toLowerCase names in
      List.filter (fun t => negb (set_has denied (toLowerCase (name t)))) tools
  | None => tools
  end.

End CodingTools.

End CodingTools.

(** * Properties *)

(** ** Strings *)

Module JSFacts.

Lemma eqb_eq (a b : js_string) : eqb a b = true <-> a = b.
Proof.
  revert b; induction a as [|c a IH]; intros [|d b]; simpl; try easy.
  rewrite andb_true_iff, N.eqb_eq, IH.
  split; [intros [-> ->]; reflexivity | intros [= -> ->]; auto].
Qed.

Lemma eqb_refl (a : js_string) : eqb a a = true.
Proof. apply eqb_eq; reflexivity. Qed.


Lemma startsWith_app (a b : js_string) : startsWith (a ++ b) a = true.
Proof.
  induction a as [|c a IH]; simpl; [reflexivity|].
  rewrite N.eqb_refl; exact IH.
Qed.

Lemma includes_startsWith (hay needle : js_string) :
  startsWith hay needle = true -> includes hay needle = true.
Proof. intros H. destruct hay; simpl; rewrite H; reflexivity. Qed.

Lemma includes_app (a b c : js_string) : includes (a ++ b ++ c) b = true.
Proof.
  induction a as [|x a IH].
  - apply includes_startsWith. exact (startsWith_app b c).
  - cbn [app includes]. rewrite IH. apply orb_true_r.
Qed.

(** A decimal numeral holds digits only. *)
Lemma uint_units_digits (d : Decimal.uint) :
  Forall (fun c => (48 <= c <= 57)%N) (uint_units d).
Proof.
  induction d; simpl; constructor; auto; unfold digit_unit; lia.
Qed.

Lemma uint_units_inj (d d' : Decimal.uint) :
  uint_units d = uint_units d' -> d = d'.
Proof.
  revert d'; induction d; intros d'; destruct d'; simpl;
    unfold digit_unit; intros H; try discriminate H; try reflexivity;
    injection H as H; try lia; f_equal; auto.
Qed.

Lemma number_to_string_inj (n m : N) :
  number_to_string n = number_to_string m -> n = m.
Proof.
  intros H. apply DecimalN.Unsigned.to_uint_inj, uint_units_inj, H.
Qed.

Lemma number_to_string_no_colon (n : N) : 58%N ∉ number_to_string n.
Proof.
  intros Hin.
  pose proof (uint_units_digits (N.to_uint n)) as Hd.
  rewrite Forall_forall in Hd.
  specialize (Hd _ Hin). lia.
Qed.

(** Splitting at the last occurrence of a separator is unambiguous. *)
Lemma split_at_last (sep : N) (a b x y : js_string) :
  sep ∉ x -> sep ∉ y ->
  a ++ [sep] ++ x = b ++ [sep] ++ y -> a = b /\ x = y.
Proof.
  intros Hx Hy. revert b.
  induction a as [|c a IH]; intros [|d b]; simpl; intros H.
  - injection H as H. auto.
  - injection H as <- H. exfalso. apply Hx. rewrite H.
    apply elem_of_app. right. left.
  - injection H as -> H. exfalso. apply Hy. rewrite <- H.
    apply elem_of_app. right. left.
  - injection H as -> H. destruct (IH b H) as [-> ->]. auto.
Qed.

Lemma slice_from_last {A} (xs : list A) (k : nat) :
  (0 < k <= length xs)%nat ->
  slice_from xs (- Z.of_nat k) = drop (length xs - k) xs.
Proof.
  intros Hk. unfold slice_from.
  destruct (Z.ltb_spec (- Z.of_nat k) 0) as [_|Hge]; [|lia].
  f_equal. lia.
Qed.

End JSFacts.

(** ** Session files and history *)

Module SessionManagerFacts.

Import SessionManager JSFacts.

Lemma sanitize_safe (sessionId : js_string) :
  Forall (fun c => safe_unit c = true) (sanitize sessionId).
Proof.
  unfold sanitize. apply Forall_map, Forall_forall. intros c _. simpl.
  destruct (safe_unit c) eqn:E; [exact E | reflexivity].
Qed.

Lemma safe_unit_not_separator (c : N) :
  safe_unit c = true -> c <> 47%N /\ c <> 92%N /\ c <> 46%N.
Proof.
  unfold safe_unit. intros H.
  repeat split; intros ->; discriminate H.
Qed.

(** C9: the session file is [path.join] of the sessions directory and a
    file name made of as many units of [[a-zA-Z0-9-_]] as the session id
    has code units, followed by [.jsonl]; the file name holds no path
    separator and is not a dot segment, so the file stays in the
    directory; and distinct session ids can resolve to one file. *)
Theorem resolveSessionFile_confined
  (path_join : js_string -> js_string -> js_string)
  (sessionsDir sessionId : js_string) :
  exists safeId : js_string,
    resolveSessionFile path_join sessionsDir sessionId
      = path_join sessionsDir (safeId ++ str ".jsonl")
    /\ length safeId = length sessionId
    /\ Forall (fun c => safe_unit c = true) safeId
    /\ (47%N ∉ safeId ++ str ".jsonl")
    /\ (92%N ∉ safeId ++ str ".jsonl")
    /\ safeId ++ str ".jsonl" <> str "."
    /\ safeId ++ str ".jsonl" <> str ".."
    /\ str "a/b" <> str "a_b"
    /\ resolveSessionFile path_join sessionsDir (str "a/b")
       = resolveSessionFile path_join sessionsDir (str "a_b").
Proof.
  exists (sanitize sessionId).
  pose proof (sanitize_safe sessionId) as Hsafe.
  assert (Hsep : forall sep, (sep = 47 \/ sep = 92)%N ->
            sep ∉ sanitize sessionId ++ str ".jsonl").
  { intros sep Hsep Hin. apply elem_of_app in Hin as [Hin|Hin].
    - rewrite Forall_forall in Hsafe.
      destruct (safe_unit_not_separator _ (Hsafe _ Hin)) as (? & ? & ?).
      destruct Hsep; congruence.
    - vm_compute in Hin. repeat (apply elem_of_cons in Hin as [->|Hin];
        [destruct Hsep; discriminate|]). inversion Hin. }
  assert (Hlen : forall s : js_string, (length s < 6)%nat ->
            sanitize sessionId ++ str ".jsonl" <> s).
  { intros s Hs Heq. apply (f_equal length) in Heq.
    rewrite length_app in Heq. change (length (str ".jsonl")) with 6%nat in Heq.
    lia. }
  repeat split.
  - unfold sanitize. apply length_map.
  - exact Hsafe.
  - apply Hsep; auto.
  - apply Hsep; auto.
  - apply Hlen. simpl. lia.
  - apply Hlen. simpl. lia.
  - discriminate.
Qed.

Section LimitHistoryFacts.
Context {A : Type} (undefined : A).

Lemma limitHistoryTurns_short (messages : list A) (maxTurns : Z) :
  Z.of_nat (length messages) <= maxTurns ->
  limitHistoryTurns undefined messages maxTurns = messages.
Proof.
  intros H. unfold limitHistoryTurns.
  destruct (Z.leb_spec (Z.of_nat (length messages)) maxTurns); [reflexivity|lia].
Qed.

Lemma limitHistoryTurns_long (messages : list A) (maxTurns : Z) :
  2 <= maxTurns -> maxTurns < Z.of_nat (length messages) ->
  exists first rest,
    messages = first :: rest
    /\ limitHistoryTurns undefined messages maxTurns
       = first :: drop (length messages - Z.to_nat (maxTurns - 1)) messages
    /\ Z.of_nat (length (limitHistoryTurns undefined messages maxTurns))
       = maxTurns.
Proof.
  intros H2 Hlong. unfold limitHistoryTurns.
  destruct (Z.leb_spec (Z.of_nat (length messages)) maxTurns); [lia|].
  destruct messages as [|first rest]; [simpl in Hlong; lia|].
  exists first, rest. split; [reflexivity|].
  replace (- (maxTurns - 1)) with (- Z.of_nat (Z.to_nat (maxTurns - 1))) by lia.
  rewrite slice_from_last by lia.
  split; [reflexivity|].
  cbn [length] in *. rewrite length_drop. cbn [length]. lia.
Qed.

End LimitHistoryFacts.

End SessionManagerFacts.

(** ** Sequencing *)

Module EffFacts.

Section Bind.
Context {S A B : Type}.

Lemma bind_normal (m : M S A) (k : A -> M S B) (s s' : S) (a : A) :
  m s = (s', Normal a) -> bind m k s = k a s'.
Proof. intros H. unfold bind. rewrite H. reflexivity. Qed.

Lemma bind_throw (m : M S A) (k : A -> M S B) (s s' : S)
  (message : js_string) :
  m s = (s', Throw message) -> bind m k s = (s', Throw message).
Proof. intros H. unfold bind. rewrite H. reflexivity. Qed.

End Bind.



End EffFacts.

(** ** The tool-calling loop *)

Module RunnerFacts.

Import Runner RunnerSpec JSFacts EffFacts.



Lemma same_outside_refl (w : World) : same_outside w w.
Proof. repeat split. Qed.

Lemma same_outside_trans (w1 w2 w3 : World) :
  same_outside w1 w2 -> same_outside w2 w3 -> same_outside w1 w3.
Proof.
  intros (? & ? & ?) (? & ? & ?). repeat split; congruence.
Qed.

Lemma same_outside_observed (o : Observed) (w : World) :
  same_outside w (add_observed o w).
Proof. repeat split. Qed.

Lemma after_tools_same (ctx : RunContext) (w w' : World) :
  same_outside w w' -> after_tools ctx w w'.
Proof. intros (? & ? & ?). repeat split; auto. Qed.

Lemma after_tools_trans (ctx : RunContext) (w1 w2 w3 : World) :
  after_tools ctx w1 w2 -> after_tools ctx w2 w3 -> after_tools ctx w1 w3.
Proof.
  intros (Hr & Hf & Hd) (Hr' & Hf' & Hd'). repeat split; try congruence.
  intros Hq. rewrite Hf', Hf; auto.
Qed.

Create HintDb runner.
#[local] Hint Resolve same_outside_refl same_outside_observed
  after_tools_same : runner.

Ltac run_monad :=
  unfold bind, ret, throw, observe, try_catch in *; cbn beta iota in *.

Lemma find_unregistered (ctx : RunContext) (toolName : js_string) :
  unregistered ctx toolName <->
  find (fun t => eqb (name t) toolName) (tools ctx) = None.
Proof.
  unfold unregistered. split.
  - intros H. destruct (find _ _) as [t|] eqn:E; [|reflexivity].
    apply find_some in E as [Hin Heq].
    apply eqb_eq in Heq. apply list_elem_of_In in Hin.
    destruct (H t Hin Heq).
  - intros H t Hin Heq. apply list_elem_of_In in Hin.
    pose proof (find_none _ _ H t Hin) as Hf. cbn beta in Hf.
    rewrite Heq, eqb_refl in Hf. discriminate.
Qed.

Lemma executeTool_unknown (ctx : RunContext) (toolName args : js_string)
  (w : World) :
  unregistered ctx toolName ->
  executeTool ctx toolName args w
  = (w, Normal {| ter_content := unknown_tool_message toolName;
                  ter_isError := Some true |}).
Proof.
  intros H. apply find_unregistered in H.
  unfold executeTool. rewrite H. reflexivity.
Qed.

Lemma unknown_tool_message_names (toolName : js_string) :
  includes (unknown_tool_message toolName) toolName = true.
Proof.
  unfold unknown_tool_message.
  rewrite (app_assoc (str "Error: Unknown tool ")).
  apply includes_app.
Qed.

(** A tool call always yields a result: a failure inside the tool is
    turned into an error-flagged result. *)
Lemma executeTool_total (ctx : RunContext) (toolName args : js_string)
  (w : World) :
  exists w' result,
    executeTool ctx toolName args w = (w', Normal result)
    /\ after_tools ctx w w'.
Proof.
  unfold executeTool.
  destruct (find _ _) as [tool|] eqn:Hfind; [|eauto with runner].
  assert (Hkeeps : quiet_tools ctx ->
                   fst (execute tool args (toolContext ctx) (files w))
                   = files w).
  { intros Hq. apply find_some in Hfind as [Hin _].
    apply list_elem_of_In in Hin.
    unfold quiet_tools in Hq. rewrite Forall_forall in Hq.
    apply (Hq tool Hin). }
  unfold call_tool. run_monad.
  change (files (add_observed (ToolExecution toolName args) w))
    with (files w).
  destruct (execute tool args (toolContext ctx) (files w))
    as [fs [result|msg]]; cbn [fst] in Hkeeps;
    eexists _, _; (split; [reflexivity|]); repeat split; exact Hkeeps.
Qed.


Lemma executeTools_total (ctx : RunContext) (calls : list ToolCall)
  (w : World) :
  exists w' toolResults,
    executeTools ctx calls w = (w', Normal toolResults)
    /\ after_tools ctx w w'
    /\ length toolResults = length calls
    /\ forall k toolCall,
         calls !! k = Some toolCall ->
         unregistered ctx (tc_name toolCall) ->
         toolResults !! k = Some (unknown_tool_result toolCall).
Proof.
  revert w. induction calls as [|c calls IH]; intros w.
  - exists w, []. repeat split. intros k tc Hk. discriminate.
  - cbn [executeTools]. unfold bind at 1.
    destruct (executeTool_total ctx (tc_name c) (tc_arguments c) w)
      as (w1 & r & Hr & Hw1).
    rewrite Hr. unfold bind at 1.
    destruct (IH w1) as (w2 & rs & Hrs & Hw2 & Hlen & Hunk).
    rewrite Hrs. eexists _, _. split; [reflexivity|].
    split; [eapply after_tools_trans; eauto|].
    split; [simpl; congruence|].
    intros [|k] tc Hk Hun; simpl in Hk.
    + injection Hk as <-.
      rewrite (executeTool_unknown _ _ _ _ Hun) in Hr.
      injection Hr as _ <-. reflexivity.
    + simpl. eauto.
Qed.

Lemma on_text_total (events : list js_string) (currentText : js_string)
  (w : World) :
  exists w',
    on_text events currentText w = (w', Normal (currentText ++ concat events))
    /\ same_outside w w'.
Proof.
  revert currentText w. induction events as [|text events IH]; intros cur w.
  - exists w. simpl. rewrite app_nil_r. eauto with runner.
  - cbn [on_text]. run_monad.
    destruct (IH (cur ++ text) (add_observed (PartialReply text) w))
      as (w' & Hw' & Hs).
    exists w'. rewrite Hw'. cbn [concat]. rewrite app_assoc.
    split; [reflexivity|].
    eapply same_outside_trans; eauto with runner.
Qed.

(** *** One iteration of the Anthropic loop *)


Section Anthropic.

Variables (client : AnthropicBackend) (ctx : RunContext)
  (messages : list Message).

Lemma anthropic_iteration_spec (st : LoopState) (w : World) :
  let i := iterations st in
  let req := messages ++ newMessages st in
  let stream := client i req in
  exists w' toolResults,
    requests w' = requests w ++ [(i, req)]
    /\ (quiet_tools ctx -> files w' = files w)
    /\ disk_error w' = disk_error w
    /\ match final_message stream with
       | inr message =>
           anthropic_iteration client ctx messages st w = (w', Throw message)
       | inl response =>
           length toolResults
             = length (tool_use_calls (fm_content response))
           /\ (forall k toolCall,
                 tool_use_calls (fm_content response) !! k = Some toolCall ->
                 unregistered ctx (tc_name toolCall) ->
                 toolResults !! k = Some (unknown_tool_result toolCall))
           /\ anthropic_iteration client ctx messages st w
              = (w', Normal (anthropic_outcome st (concat (text_events stream))
                               response toolResults))
       end.
Proof.
  intros i req stream.
  unfold anthropic_iteration. fold i req.
  erewrite bind_normal by (unfold send_anthropic; reflexivity).
  fold stream.
  destruct (on_text_total (text_events stream) [] (add_request i req w))
    as (w1 & Htext & (Hr1 & Hf1 & Hd1)).
  erewrite bind_normal by exact Htext.
  simpl in Hr1, Hf1, Hd1. unfold await_final.
  destruct (final_message stream) as [response|message] eqn:Hfinal.
  2:{ exists w1, []. repeat split; auto. }
  erewrite bind_normal by reflexivity.
  unfold anthropic_outcome.
  destruct (tool_use_calls (fm_content response)) as [|c calls] eqn:Hcalls.
  { exists w1, []. repeat split; auto. intros k tc Hk. discriminate. }
  destruct (executeTools_total ctx (c :: calls) w1)
    as (w2 & rs & Hrs & (Hr2 & Hf2 & Hd2) & Hlen & Hunk).
  exists w2, rs. erewrite bind_normal by exact Hrs.
  split; [congruence|].
  split; [intros Hq; rewrite Hf2 by exact Hq; exact Hf1|].
  split; [congruence|].
  split; [exact Hlen|]. split; [exact Hunk|].
  destruct (is_end_turn (fm_stop_reason response)); reflexivity.
Qed.


(** The requests of a turn: each one is sent only after all the earlier
    ones were answered, and the turn throws exactly when the last one
    fails. *)
Lemma anthropic_loop_requests (budget : nat) (st : LoopState) (w : World) :
  exists new,
    requests (fst (anthropic_loop client ctx messages budget st w))
      = requests w ++ new
    /\ (quiet_tools ctx ->
        files (fst (anthropic_loop client ctx messages budget st w)) = files w)
    /\ disk_error (fst (anthropic_loop client ctx messages budget st w))
       = disk_error w
    /\ match snd (anthropic_loop client ctx messages budget st w) with
       | Normal _ => Forall (anthropic_ok client) new
       | Throw message =>
           exists answered last,
             new = answered ++ [last]
             /\ Forall (anthropic_ok client) answered
             /\ anthropic_failure (client (fst last) (snd last)) = Some message
       end.
Proof.
  revert st w. induction budget as [|budget IH]; intros st w.
  - exists []. simpl. rewrite app_nil_r. repeat split. constructor.
  - cbn [anthropic_loop]. unfold bind.
    destruct (anthropic_iteration_spec st w)
      as (w1 & rs & Hreq & Hfiles & Hdisk & Hit).
    destruct (final_message _) as [response|message] eqn:Hfinal.
    + destruct Hit as (_ & _ & Hit). rewrite Hit.
      assert (Hok : anthropic_ok client (iterations st, messages ++ newMessages st)).
      { unfold anthropic_ok, anthropic_failure. simpl. rewrite Hfinal.
        reflexivity. }
      destruct (anthropic_outcome _ _ _ _) as [[|] st'].
      * exists [(iterations st, messages ++ newMessages st)]. simpl.
        repeat split; auto.
      * destruct (IH st' w1) as (new & Hn & Hf & Hd & Hc).
        exists ((iterations st, messages ++ newMessages st) :: new).
        rewrite Hn, Hd, Hreq, <- app_assoc.
        split; [reflexivity|].
        split; [intros Hq; rewrite Hf by exact Hq; auto|].
        split; [exact Hdisk|].
        destruct (snd _).
        -- constructor; auto.
        -- destruct Hc as (answered & last & -> & Hans & Hlast).
           exists ((iterations st, messages ++ newMessages st) :: answered),
             last.
           repeat split; auto.
    + rewrite Hit. simpl.
      exists [(iterations st, messages ++ newMessages st)].
      repeat split; auto.
      exists [], (iterations st, messages ++ newMessages st).
      repeat split; auto. simpl.
      unfold anthropic_failure. rewrite Hfinal. reflexivity.
Qed.

End Anthropic.

(** *** One iteration of the OpenAI loop *)


Lemma array_set_lookup {A} (i : nat) (x : A) (xs : list (option A)) :
  array_set i x xs !! i = Some (Some x).
Proof.
  unfold array_set. destruct (Nat.ltb_spec i (length xs)).
  - apply list_lookup_insert_eq. assumption.
  - rewrite lookup_app_r by lia.
    rewrite lookup_app_r by (rewrite length_replicate; lia).
    rewrite length_replicate.
    replace (i - length xs - (i - length xs))%nat with 0%nat by lia.
    reflexivity.
Qed.

Lemma array_set_not_nil {A} (i : nat) (x : A) (xs : list (option A)) :
  array_set i x xs <> [].
Proof.
  intros H. pose proof (array_set_lookup i x xs) as Hl.
  rewrite H in Hl. discriminate.
Qed.

Lemma on_tool_call_delta_total (tc : ToolCallDelta)
  (acc : list (option PartialCall) * option nat) (w : World) :
  index_ok acc ->
  exists acc',
    on_tool_call_delta tc acc w = (w, Normal acc')
    /\ index_ok acc'
    /\ (tcd_index tc = None -> acc' = acc)
    /\ (fst acc <> [] -> fst acc' <> []).
Proof.
  intros Hok. destruct acc as [toolCalls cur].
  unfold on_tool_call_delta.
  destruct (tcd_index tc) as [index|]; [|exists (toolCalls, cur); auto].
  case_bool_decide as Hcur.
  - destruct (Hok index) as [pc Hpc]; [simpl; congruence|].
    simpl in Hpc. rewrite Hpc.
    eexists. split; [reflexivity|]. split; [|split; [discriminate|]].
    + intros j Hj. simpl in *. assert (j = index) as -> by congruence.
      eexists. apply list_lookup_insert_eq.
      eapply lookup_lt_Some; eauto.
    + simpl. intros Hne Hnil.
      apply (f_equal length) in Hnil. rewrite length_insert in Hnil.
      destruct toolCalls; [congruence|discriminate].
  - eexists. split; [reflexivity|]. split; [|split; [discriminate|]].
    + intros j Hj. simpl in *. injection Hj as <-.
      eexists. apply array_set_lookup.
    + intros _. apply array_set_not_nil.
Qed.

Lemma on_tool_call_deltas_total (tcs : list ToolCallDelta)
  (acc : list (option PartialCall) * option nat) (w : World) :
  index_ok acc ->
  exists acc',
    on_tool_call_deltas tcs acc w = (w, Normal acc')
    /\ index_ok acc'
    /\ (Forall (fun tc => tcd_index tc = None) tcs -> acc' = acc)
    /\ (fst acc <> [] -> fst acc' <> []).
Proof.
  revert acc. induction tcs as [|tc tcs IH]; intros acc Hok.
  - exists acc. repeat split; auto.
  - cbn [on_tool_call_deltas].
    destruct (on_tool_call_delta_total tc acc w Hok)
      as (acc1 & H1 & Hok1 & Hid1 & Hne1).
    erewrite bind_normal by exact H1.
    destruct (IH acc1 Hok1) as (acc2 & H2 & Hok2 & Hid2 & Hne2).
    exists acc2. repeat split; auto.
    intros Hall. inversion Hall; subst. rewrite Hid2, Hid1; auto.
Qed.




Lemma on_chunk_total (chunk : Chunk) (ss : StreamState) (w : World) :
  stream_ok ss ->
  exists w' ss',
    on_chunk chunk ss w = (w', Normal ss')
    /\ same_outside w w'
    /\ stream_ok ss'
    /\ ss_currentText ss' = ss_currentText ss ++ chunk_text chunk
    /\ (no_tool_call chunk -> ss_toolCalls ss' = ss_toolCalls ss)
    /\ (ss_toolCalls ss <> [] -> ss_toolCalls ss' <> []).
Proof.
  intros Hok. unfold on_chunk, chunk_text, no_tool_call.
  destruct (match chunk_usage chunk with Some _ => _ | None => _ end)
    as [totalIn totalOut].
  destruct (chunk_delta chunk) as [delta|].
  2:{ eexists _, _. split; [reflexivity|]. simpl.
      rewrite app_nil_r. repeat split; auto. }
  assert (Htext : exists w1,
    (match or_empty (delta_content delta) with
     | [] => ret (ss_currentText ss)
     | text => observe (PartialReply text) >> ret (ss_currentText ss ++ text)
     end) w
    = (w1, Normal (ss_currentText ss ++ or_empty (delta_content delta)))
    /\ same_outside w w1).
  { destruct (or_empty (delta_content delta)) as [|c text].
    - exists w. rewrite app_nil_r. split; [reflexivity|]. repeat split.
    - exists (add_observed (PartialReply (c :: text)) w).
      split; [reflexivity|]. repeat split. }
  destruct Htext as (w1 & Htext & Hsame).
  erewrite bind_normal by exact Htext.
  destruct (delta_tool_calls delta) as [tcs|] eqn:Htcs.
  - destruct (on_tool_call_deltas_total tcs
                (ss_toolCalls ss, ss_currentToolCallIndex ss) w1 Hok)
      as ([l o] & Hacc & Hok' & Hid & Hne).
    erewrite bind_normal by exact Hacc.
    eexists _, _. split; [reflexivity|]. cbn [fst snd] in *.
    split; [exact Hsame|]. split; [exact Hok'|].
    split; [reflexivity|]. split; [|exact Hne].
    intros H. cbn [ss_toolCalls].
    specialize (Hid (H delta tcs eq_refl Htcs)). congruence.
  - erewrite bind_normal by reflexivity.
    eexists _, _. split; [reflexivity|].
    split; [exact Hsame|]. split; [exact Hok|].
    split; [reflexivity|]. split; auto.
Qed.

Lemma on_chunks_total (cs : list Chunk) (ss : StreamState) (w : World) :
  stream_ok ss ->
  exists w' ss',
    on_chunks cs ss w = (w', Normal ss')
    /\ same_outside w w'
    /\ ss_currentText ss' = ss_currentText ss ++ concat (map chunk_text cs)
    /\ (Forall no_tool_call cs -> ss_toolCalls ss' = ss_toolCalls ss)
    /\ (ss_toolCalls ss <> [] -> ss_toolCalls ss' <> []).
Proof.
  revert ss w. induction cs as [|chunk cs IH]; intros ss w Hok.
  - exists w, ss. simpl. rewrite app_nil_r. repeat split; auto.
  - cbn [on_chunks].
    destruct (on_chunk_total chunk ss w Hok)
      as (w1 & ss1 & H1 & Hs1 & Hok1 & Ht1 & Hn1 & Hne1).
    erewrite bind_normal by exact H1.
    destruct (IH ss1 w1 Hok1) as (w2 & ss2 & H2 & Hs2 & Ht2 & Hn2 & Hne2).
    exists w2, ss2. split; [exact H2|].
    split; [eapply same_outside_trans; eauto|].
    split; [rewrite Ht2, Ht1; simpl; rewrite app_assoc; reflexivity|].
    split; [|auto].
    intros Hall. inversion Hall; subst. rewrite Hn2, Hn1; auto.
Qed.

Lemma parse_tool_calls_world (JSON_parse : js_string -> js_string + js_string)
  (toolCalls : list (option PartialCall)) (w : World) :
  fst (parse_tool_calls JSON_parse toolCalls w) = w
  /\ (forall parsed,
        snd (parse_tool_calls JSON_parse toolCalls w) = Normal parsed ->
        length parsed = length toolCalls).
Proof.
  induction toolCalls as [|[tc|] rest [IHw IHl]]; cbn [parse_tool_calls].
  - split; [reflexivity|]. intros parsed [= <-]. reflexivity.
  - assert (Hargs : forall m : M js_string,
              (exists v, m w = (w, Normal v)) \/ (exists e, m w = (w, Throw e)) ->
              fst (bind m (fun arguments =>
                     let* parsed := parse_tool_calls JSON_parse rest in
                     ret (Some {| tc_id := pc_id tc; tc_name := pc_name tc;
                                  tc_arguments := arguments |} :: parsed)) w) = w
              /\ forall parsed,
                   snd (bind m (fun arguments =>
                     let* parsed := parse_tool_calls JSON_parse rest in
                     ret (Some {| tc_id := pc_id tc; tc_name := pc_name tc;
                                  tc_arguments := arguments |} :: parsed)) w)
                   = Normal parsed ->
                   length parsed = S (length rest)).
    { intros m [[v Hm]|[e Hm]].
      - erewrite bind_normal by exact Hm. unfold bind, ret.
        destruct (parse_tool_calls JSON_parse rest w) as [w' [parsed|e]];
          simpl in *; subst; split; auto.
        + intros ? [= <-]. simpl. f_equal. auto.
        + discriminate.
      - erewrite bind_throw by exact Hm. split; [reflexivity|discriminate]. }
    apply Hargs.
    destruct (pc_arguments tc) as [|c text]; [left; eexists; reflexivity|].
    destruct (JSON_parse (c :: text)) as [v|e];
      [left|right]; eexists; reflexivity.
  - unfold bind, ret.
    destruct (parse_tool_calls JSON_parse rest w) as [w' [parsed|e]];
      simpl in *; subst; split; auto.
    + intros ? [= <-]. simpl. f_equal. auto.
    + discriminate.
Qed.


Lemma fresh_stream_ok (st : LoopState) : stream_ok (fresh_stream st).
Proof. intros index H. discriminate H. Qed.



Lemma on_chunks_relabel (f : Chunk -> option js_string) (cs : list Chunk)
  (ss : StreamState) (w : World) :
  on_chunks (map (relabel f) cs) ss w = on_chunks cs ss w.
Proof.
  revert ss w. induction cs as [|chunk cs IH]; intros ss w; [reflexivity|].
  cbn [map on_chunks]. unfold bind.
  change (on_chunk (relabel f chunk) ss w) with (on_chunk chunk ss w).
  destruct (on_chunk chunk ss w) as [w' [ss'|e]]; auto.
Qed.

Section OpenAIFacts.

Variable JSON_parse : js_string -> js_string + js_string.
Variables (client : OpenAIBackend) (ctx : RunContext)
  (messages : list Message).



Lemma openai_decide_world (st : LoopState) (ss : StreamState) (w : World) :
  after_tools ctx w (fst (openai_decide JSON_parse ctx st ss w)).
Proof.
  unfold openai_decide.
  destruct (parse_tool_calls_world JSON_parse (ss_toolCalls ss) w) as [Hw _].
  unfold bind at 1.
  destruct (parse_tool_calls JSON_parse (ss_toolCalls ss) w)
    as [w1 [parsed|e]]; simpl in Hw; subst w1;
    [|apply after_tools_same, same_outside_refl].
  destruct parsed as [|p parsed];
    [apply after_tools_same, same_outside_refl|].
  destruct (until_hole (p :: parsed)) as [calls hole].
  destruct (executeTools_total ctx calls w) as (w2 & rs & Hrs & Hs & _).
  erewrite bind_normal by exact Hrs.
  destruct hole; exact Hs.
Qed.

Lemma openai_iteration_unfold (st : LoopState) (w : World) :
  let i := iterations st in
  let req := messages ++ newMessages st in
  match client i req with
  | inr message =>
      openai_iteration JSON_parse client ctx messages st w
      = (add_request i req w, Throw message)
  | inl stream =>
      exists w1 ss,
        on_chunks (chunks stream) (fresh_stream st) (add_request i req w)
          = (w1, Normal ss)
        /\ same_outside (add_request i req w) w1
        /\ ss_currentText ss = concat (map chunk_text (chunks stream))
        /\ (Forall no_tool_call (chunks stream) -> ss_toolCalls ss = [])
        /\ openai_iteration JSON_parse client ctx messages st w
           = match stream_error stream with
             | Some message => (w1, Throw message)
             | None => openai_decide JSON_parse ctx st ss w1
             end
  end.
Proof.
  intros i req. unfold openai_iteration. fold i req.
  destruct (client i req) as [stream|message] eqn:Hc.
  2:{ erewrite bind_throw; [reflexivity|].
      unfold send_openai. rewrite Hc. reflexivity. }
  erewrite bind_normal by (unfold send_openai; rewrite Hc; reflexivity).
  destruct (on_chunks_total (chunks stream) (fresh_stream st)
              (add_request i req w) (fresh_stream_ok st))
    as (w1 & ss & Hss & Hs & Htext & Hnone & _).
  exists w1, ss. split; [exact Hss|]. split; [exact Hs|].
  split; [exact Htext|]. split; [exact Hnone|].
  assert (Hcons : consume_stream stream (fresh_stream st)
                    (add_request i req w)
                  = (w1, match stream_error stream with
                         | Some message => Throw message
                         | None => Normal ss
                         end)).
  { unfold consume_stream. erewrite bind_normal by exact Hss.
    destruct (stream_error stream); reflexivity. }
  unfold fresh_stream in Hcons.
  destruct (stream_error stream) as [message|].
  - erewrite bind_throw by exact Hcons. reflexivity.
  - erewrite bind_normal by exact Hcons. reflexivity.
Qed.

Lemma openai_iteration_requests (st : LoopState) (w : World) :
  let i := iterations st in
  let req := messages ++ newMessages st in
  let r := openai_iteration JSON_parse client ctx messages st w in
  requests (fst r) = requests w ++ [(i, req)]
  /\ (quiet_tools ctx -> files (fst r) = files w)
  /\ disk_error (fst r) = disk_error w
  /\ match snd r with
     | Normal _ => openai_ok client (i, req)
     | Throw message =>
         openai_failure (client i req) = Some message \/ openai_ok client (i, req)
     end.
Proof.
  intros i req r. subst r.
  pose proof (openai_iteration_unfold st w) as H. cbv zeta in H.
  fold i req in H. unfold openai_ok, openai_failure. cbn [fst snd].
  destruct (client i req) as [stream|message].
  2:{ rewrite H. simpl. auto. }
  destruct H as (w1 & ss & _ & (Hr & Hf & Hd) & _ & _ & ->).
  simpl in Hr, Hf, Hd.
  destruct (stream_error stream) as [message|].
  { simpl. auto. }
  destruct (openai_decide_world st ss w1) as (Hr' & Hf' & Hd').
  split; [congruence|].
  split; [intros Hq; rewrite Hf' by exact Hq; exact Hf|].
  split; [congruence|].
  destruct (snd _); auto.
Qed.

(** The requests of a turn: a request is sent only after all the earlier
    ones were answered; when one fails the turn throws its error. *)
Lemma openai_loop_requests (budget : nat) (st : LoopState) (w : World) :
  let r := openai_loop JSON_parse client ctx messages budget st w in
  exists new,
    requests (fst r) = requests w ++ new
    /\ (quiet_tools ctx -> files (fst r) = files w)
    /\ disk_error (fst r) = disk_error w
    /\ (Forall (openai_ok client) new
        \/ exists answered last message,
             new = answered ++ [last]
             /\ Forall (openai_ok client) answered
             /\ openai_failure (client (fst last) (snd last)) = Some message
             /\ snd r = Throw message).
Proof.
  revert st w. induction budget as [|budget IH]; intros st w; cbv zeta.
  - exists []. simpl. rewrite app_nil_r. repeat split. left. constructor.
  - cbn [openai_loop]. unfold bind.
    pose proof (openai_iteration_requests st w) as H. cbv zeta in H.
    destruct (openai_iteration JSON_parse client ctx messages st w)
      as [w1 [[next st']|message]]; cbn [fst snd] in H;
      destruct H as (Hr & Hf & Hd & Hc).
    + destruct next.
      * exists [(iterations st, messages ++ newMessages st)].
        cbn [fst snd]. repeat split; auto.
      * specialize (IH st' w1). cbv zeta in IH.
        destruct IH as (new & Hn & Hf' & Hd' & Hcase).
        exists ((iterations st, messages ++ newMessages st) :: new).
        rewrite Hn, Hd', Hr, <- app_assoc.
        split; [reflexivity|].
        split; [intros Hq; rewrite Hf' by exact Hq; auto|].
        split; [exact Hd|].
        destruct Hcase as [Hall|(answered & last & message & -> & Hans & Hl & Ht)].
        -- left. constructor; auto.
        -- right.
           exists ((iterations st, messages ++ newMessages st) :: answered),
             last, message.
           repeat split; auto.
    + exists [(iterations st, messages ++ newMessages st)].
      cbn [fst snd]. repeat split; auto.
      destruct Hc as [Hfail|Hok]; [right|left; auto].
      exists [], (iterations st, messages ++ newMessages st), message.
      repeat split; auto.
Qed.

Lemma openai_loop_relabel (f : Chunk -> option js_string) (budget : nat)
  (st : LoopState) (w : World) :
  openai_loop JSON_parse (relabel_client f client) ctx messages budget st w
  = openai_loop JSON_parse client ctx messages budget st w.
Proof.
  revert st w. induction budget as [|budget IH]; intros st w; [reflexivity|].
  cbn [openai_loop].
  assert (Hit : openai_iteration JSON_parse (relabel_client f client) ctx
                  messages st w
                = openai_iteration JSON_parse client ctx messages st w).
  { unfold openai_iteration, send_openai, relabel_client, bind at 1 5.
    destruct (client (iterations st) (messages ++ newMessages st))
      as [stream|message]; [|reflexivity].
    unfold bind at 1 3. unfold consume_stream, bind at 1 4. cbn [chunks].
    rewrite on_chunks_relabel. reflexivity. }
  unfold bind. rewrite Hit.
  destruct (openai_iteration JSON_parse client ctx messages st w)
    as [w1 [[[|] st']|message]]; auto.
Qed.

End OpenAIFacts.

(** *** The iteration cap *)


Lemma anthropic_loop_S (client : AnthropicBackend) (ctx : RunContext)
  (messages : list Message) (budget : nat) (st : LoopState) (w : World) :
  anthropic_loop client ctx messages (S budget) st w
  = match anthropic_iteration client ctx messages st w with
    | (w1, Normal (Break, st')) => (w1, Normal st')
    | (w1, Normal (Continue, st')) =>
        anthropic_loop client ctx messages budget st' w1
    | (w1, Throw message) => (w1, Throw message)
    end.
Proof.
  cbn [anthropic_loop]. unfold bind.
  destruct (anthropic_iteration client ctx messages st w)
    as [w1 [[[|] st']|message]]; reflexivity.
Qed.

Lemma anthropic_loop_capped (client : AnthropicBackend) (ctx : RunContext)
  (messages : list Message) (budget : nat) (st : LoopState) (w : World) :
  (forall i req, (iterations st <= i < iterations st + budget)%nat ->
     keeps_going (client i req)) ->
  exists w' st' new added,
    anthropic_loop client ctx messages budget st w = (w', Normal st')
    /\ requests w' = requests w ++ new
    /\ length new = budget
    /\ finalResponse st' = finalResponse st
    /\ newMessages st' = newMessages st ++ added
    /\ length added = (2 * budget)%nat
    /\ (forall k, (k < budget)%nat ->
          exists req results,
            new !! k = Some ((iterations st + k)%nat, req)
            /\ added !! (2 * k)%nat
               = Some (reply_message (client (iterations st + k)%nat req))
            /\ added !! (2 * k + 1)%nat = Some (carrier_message results)
            /\ length results
               = length (reply_calls (client (iterations st + k)%nat req)))
    /\ iterations st' = (iterations st + budget)%nat.
Proof.
  revert st w. induction budget as [|budget IH]; intros st w Hgo.
  - exists w, st, [], []. simpl. rewrite !app_nil_r.
    split; [reflexivity|]. split; [reflexivity|]. split; [reflexivity|].
    split; [reflexivity|]. split; [reflexivity|]. split; [reflexivity|].
    split; [intros k Hk; lia|lia].
  - rewrite anthropic_loop_S.
    destruct (anthropic_iteration_spec client ctx messages st w)
      as (w1 & rs & Hreq & _ & _ & Hit).
    destruct (Hgo (iterations st) (messages ++ newMessages st))
      as (response & Hfinal & Hcalls & Hstop); [lia|].
    rewrite Hfinal in Hit. destruct Hit as (Hrs & _ & Hit).
    rewrite Hit. unfold anthropic_outcome.
    destruct (tool_use_calls (fm_content response)) as [|c calls] eqn:Htools;
      [congruence|].
    rewrite Hstop.
    match goal with |- context [anthropic_loop _ _ _ _ ?s _] =>
      destruct (IH s w1)
        as (w2 & st2 & new & added & Hloop & Hnew & Hlen & Hresp & Hadded
            & Hlen' & Hrounds & Hiter)
    end.
    { cbn [iterations]. intros i req Hi. apply Hgo. lia. }
    cbn [iterations newMessages finalResponse] in *.
    set (req0 := messages ++ newMessages st) in *.
    exists w2, st2, ((iterations st, req0) :: new),
      ([reply_message (client (iterations st) req0); carrier_message rs]
       ++ added).
    split; [exact Hloop|].
    split; [rewrite Hnew, Hreq, <- app_assoc; reflexivity|].
    split; [cbn [length]; lia|]. split; [exact Hresp|].
    split.
    { rewrite Hadded, <- !app_assoc. unfold reply_message, reply_calls.
      rewrite Hfinal, Htools. reflexivity. }
    split; [rewrite length_app; cbn [length]; lia|].
    split; [|lia].
    intros [|k] Hk.
    + exists req0, rs. rewrite Nat.add_0_r.
      split; [reflexivity|]. split; [reflexivity|]. split; [reflexivity|].
      unfold reply_calls. rewrite Hfinal, Htools. exact Hrs.
    + destruct (Hrounds k) as (req & results & Hk1 & Hk2 & Hk3 & Hk4); [lia|].
      replace (S (iterations st) + k)%nat with (iterations st + S k)%nat
        in Hk1, Hk2, Hk4 by lia.
      exists req, results. split; [exact Hk1|].
      replace (2 * S k)%nat with (S (S (2 * k))) by lia.
      replace (S (S (2 * k)) + 1)%nat with (S (S (2 * k + 1))) by lia.
      split; [exact Hk2|]. split; [exact Hk3|exact Hk4].
Qed.

(** C2 (as the code has it): when every reply of the backend asks for
    at least one tool and none signals the end of the turn, the loop
    sends exactly [max] requests, numbered from 0, does not throw, and
    returns the empty string as the response, whatever text the
    replies carried.  The texts are not lost: the turn leaves two
    messages per iteration, the assistant message with the text
    streamed in the reply and the tool calls it asks for, then the
    carrier message with one result per call.  The cap of the runner
    is 25. *)
Theorem anthropic_turn_capped (max : nat) (client : AnthropicBackend)
  (ctx : RunContext) (messages : list Message) (w : World) :
  (forall i req, (i < max)%nat -> keeps_going (client i req)) ->
  exists w' result new,
    runAnthropicAgentTurnWith max client ctx messages w = (w', Normal result)
    /\ requests w' = requests w ++ new
    /\ length new = max
    /\ response result = []
    /\ length (turn_newMessages result) = (2 * max)%nat
    /\ (forall k, (k < max)%nat ->
          exists req results,
            new !! k = Some (k, req)
            /\ turn_newMessages result !! (2 * k)%nat
               = Some (reply_message (client k req))
            /\ turn_newMessages result !! (2 * k + 1)%nat
               = Some (carrier_message results)
            /\ length results = length (reply_calls (client k req)))
    /\ runAnthropicAgentTurn = runAnthropicAgentTurnWith 25.
Proof.
  intros Hgo.
  destruct (anthropic_loop_capped client ctx messages max initial_loop_state w)
    as (w' & st' & new & added & Hloop & Hreq & Hlen & Hresp & Hadded & Hlen'
        & Hrounds & _).
  { intros i req Hi. apply Hgo. simpl in Hi. lia. }
  cbn [newMessages initial_loop_state app] in Hadded.
  exists w', (turn_result st'), new. unfold runAnthropicAgentTurnWith.
  erewrite bind_normal by exact Hloop.
  cbn [turn_result response turn_newMessages]. rewrite Hadded.
  split; [reflexivity|]. split; [exact Hreq|]. split; [exact Hlen|].
  split; [exact Hresp|]. split; [exact Hlen'|]. split; [|reflexivity].
  exact Hrounds.
Qed.

(** *** Unknown tools *)

Lemma until_hole_lookup {A} (xs : list (option A)) (ys : list A) (k : nat)
  (y : A) :
  until_hole xs = (ys, false) -> ys !! k = Some y -> xs <> [].
Proof.
  intros H Hk ->. simpl in H. injection H as <-. discriminate.
Qed.

(** C7: executing a call of a tool that is not registered returns,
    without throwing, an error-flagged result whose text contains the
    name asked for; in both loops the result is appended with the others
    of the iteration and the loop goes on to its next request. *)
Theorem unknown_tool_recovered (ctx : RunContext) (toolCall : ToolCall) :
  unregistered ctx (tc_name toolCall) ->
  (forall w,
     executeTool ctx (tc_name toolCall) (tc_arguments toolCall) w
     = (w, Normal {| ter_content := unknown_tool_message (tc_name toolCall);
                     ter_isError := Some true |}))
  /\ includes (unknown_tool_message (tc_name toolCall)) (tc_name toolCall)
     = true
  /\ (forall client messages st w response k budget,
        final_message (client (iterations st) (messages ++ newMessages st))
          = inl response ->
        tool_use_calls (fm_content response) !! k = Some toolCall ->
        is_end_turn (fm_stop_reason response) = false ->
        exists w' st' toolResults text,
          anthropic_iteration client ctx messages st w
            = (w', Normal (Continue, st'))
          /\ toolResults !! k = Some (unknown_tool_result toolCall)
          /\ newMessages st'
             = newMessages st
               ++ [assistant_message text
                     (tool_use_calls (fm_content response));
                   carrier_message toolResults]
          /\ anthropic_loop client ctx messages (S budget) st w
             = anthropic_loop client ctx messages budget st' w')
  /\ (forall JSON_parse client messages st w stream w1 ss parsed calls k
        budget,
        client (iterations st) (messages ++ newMessages st) = inl stream ->
        stream_error stream = None ->
        on_chunks (chunks stream) (fresh_stream st)
          (add_request (iterations st) (messages ++ newMessages st) w)
          = (w1, Normal ss) ->
        parse_tool_calls JSON_parse (ss_toolCalls ss) w1
          = (w1, Normal parsed) ->
        until_hole parsed = (calls, false) ->
        calls !! k = Some toolCall ->
        exists w' st' toolResults,
          openai_iteration JSON_parse client ctx messages st w
            = (w', Normal (Continue, st'))
          /\ toolResults !! k = Some (unknown_tool_result toolCall)
          /\ newMessages st'
             = newMessages st
               ++ [assistant_message (ss_currentText ss) calls;
                   carrier_message toolResults]
          /\ openai_loop JSON_parse client ctx messages (S budget) st w
             = openai_loop JSON_parse client ctx messages budget st' w').
Proof.
  intros Hun. split; [|split; [|split]].
  - intros w. apply executeTool_unknown, Hun.
  - apply unknown_tool_message_names.
  - intros client messages st w response k budget Hfinal Hk Hstop.
    destruct (anthropic_iteration_spec client ctx messages st w)
      as (w' & rs & _ & _ & _ & Hit).
    rewrite Hfinal in Hit. destruct Hit as (_ & Hunk & Hit).
    unfold anthropic_outcome in Hit.
    destruct (tool_use_calls (fm_content response)) as [|c calls] eqn:Hcalls;
      [discriminate|].
    rewrite Hstop in Hit.
    eexists w', _, rs, _. split; [exact Hit|].
    split; [eauto|]. split; [cbn [newMessages]; rewrite <- app_assoc; reflexivity|].
    cbn [anthropic_loop]. erewrite bind_normal by exact Hit. reflexivity.
  - intros JSON_parse client messages st w stream w1 ss parsed calls k budget
      Hc Herr Hss Hparse Hhole Hk.
    pose proof (openai_iteration_unfold JSON_parse client ctx messages st w)
      as Hit. cbv zeta in Hit. rewrite Hc in Hit.
    destruct Hit as (w1' & ss' & Hss' & _ & _ & _ & Hit).
    rewrite Hss in Hss'. injection Hss' as <- <-.
    rewrite Herr in Hit. unfold openai_decide in Hit.
    erewrite bind_normal in Hit by exact Hparse.
    pose proof (until_hole_lookup _ _ _ _ Hhole Hk) as Hne.
    destruct parsed as [|p parsed]; [congruence|].
    rewrite Hhole in Hit.
    destruct (executeTools_total ctx calls w1)
      as (w2 & rs & Hrs & _ & _ & Hunk).
    erewrite bind_normal in Hit by exact Hrs.
    eexists w2, _, rs. split; [exact Hit|].
    split; [eauto|]. split; [reflexivity|].
    cbn [openai_loop]. erewrite bind_normal by exact Hit. reflexivity.
Qed.

(** *** Completion signals *)

(** C4 (as the code has it): in both dialects an iteration in which no
    tool call was emitted ends the loop with the accumulated text as the
    response.  The Anthropic loop also ends, after running the requested
    tools, when the reply's stop reason is [end_turn].  The OpenAI loop
    never reads the finish reason of a chunk: replies that differ only
    in it lead to the same turn. *)
Theorem completion_signals :
  (forall client ctx messages st w response,
     final_message (client (iterations st) (messages ++ newMessages st))
       = inl response ->
     tool_use_calls (fm_content response) = []
     \/ is_end_turn (fm_stop_reason response) = true ->
     exists w' st',
       anthropic_iteration client ctx messages st w
         = (w', Normal (Break, st'))
       /\ finalResponse st'
          = concat (text_events
                      (client (iterations st) (messages ++ newMessages st))))
  /\ (forall JSON_parse client ctx messages st w stream,
        client (iterations st) (messages ++ newMessages st) = inl stream ->
        stream_error stream = None ->
        Forall no_tool_call (chunks stream) ->
        exists w' st',
          openai_iteration JSON_parse client ctx messages st w
            = (w', Normal (Break, st'))
          /\ finalResponse st' = concat (map chunk_text (chunks stream)))
  /\ (forall f JSON_parse client ctx messages max w,
        runOpenAIAgentTurnWith JSON_parse max (relabel_client f client) ctx
          messages w
        = runOpenAIAgentTurnWith JSON_parse max client ctx messages w).
Proof.
  split; [|split].
  - intros client ctx messages st w response Hfinal Hdone.
    destruct (anthropic_iteration_spec client ctx messages st w)
      as (w' & rs & _ & _ & _ & Hit).
    rewrite Hfinal in Hit. destruct Hit as (_ & _ & Hit).
    unfold anthropic_outcome in Hit.
    destruct (tool_use_calls (fm_content response)) as [|c calls].
    { eexists _, _. split; [exact Hit|reflexivity]. }
    destruct Hdone as [Hnil|Hstop]; [discriminate|].
    rewrite Hstop in Hit.
    eexists _, _. split; [exact Hit|reflexivity].
  - intros JSON_parse client ctx messages st w stream Hc Herr Hnone.
    pose proof (openai_iteration_unfold JSON_parse client ctx messages st w)
      as Hit. cbv zeta in Hit. rewrite Hc in Hit.
    destruct Hit as (w1 & ss & _ & _ & Htext & Hcalls & Hit).
    rewrite Herr in Hit. unfold openai_decide in Hit.
    rewrite (Hcalls Hnone) in Hit.
    erewrite bind_normal in Hit by reflexivity.
    eexists _, _. split; [exact Hit|]. exact Htext.
  - intros f JSON_parse client ctx messages max w.
    unfold runOpenAIAgentTurnWith, bind.
    rewrite openai_loop_relabel. reflexivity.
Qed.

(** *** Failures of the backend and the saved session *)

Section RunAgentFacts.

Variable JSON_parse : js_string -> js_string + js_string.
Variable path_join : js_string -> js_string -> js_string.
Variable clients : Clients.
Variable codingTools : list Tool.
Variable undefined_message : Message.







Lemma turn_of_loop {A} (loop : M A) (f : A -> TurnResult) (w : World) :
  fst (bind loop (fun st => ret (f st)) w) = fst (loop w)
  /\ match snd (loop w) with
     | Normal st => snd (bind loop (fun st => ret (f st)) w) = Normal (f st)
     | Throw message =>
         snd (bind loop (fun st => ret (f st)) w) = Throw message
     end.
Proof.
  unfold bind, ret. destruct (loop w) as [w' [st|message]]; split; reflexivity.
Qed.

Lemma run_turn_requests (provider : Provider) (ctx : RunContext)
  (messages : list Message) (w : World) :
  let r := run_turn JSON_parse clients provider ctx messages w in
  exists new,
    requests (fst r) = requests w ++ new
    /\ (quiet_tools ctx -> files (fst r) = files w)
    /\ disk_error (fst r) = disk_error w
    /\ (Forall (fun entry => call_failure clients provider entry = None) new
        \/ exists answered last message,
             new = answered ++ [last]
             /\ Forall (fun entry => call_failure clients provider entry = None)
                  answered
             /\ call_failure clients provider last = Some message
             /\ snd r = Throw message).
Proof.
  assert (Hanth : forall client,
    let r := runAnthropicAgentTurn client ctx messages w in
    exists new,
      requests (fst r) = requests w ++ new
      /\ (quiet_tools ctx -> files (fst r) = files w)
      /\ disk_error (fst r) = disk_error w
      /\ (Forall (anthropic_ok client) new
          \/ exists answered last message,
               new = answered ++ [last]
               /\ Forall (anthropic_ok client) answered
               /\ anthropic_failure (client (fst last) (snd last))
                  = Some message
               /\ snd r = Throw message)).
  { intros client r. subst r.
    unfold runAnthropicAgentTurn, runAnthropicAgentTurnWith.
    destruct (anthropic_loop_requests client ctx messages
                MAX_TOOL_ITERATIONS initial_loop_state w)
      as (new & Hr & Hf & Hd & Hc).
    destruct (turn_of_loop
                (anthropic_loop client ctx messages MAX_TOOL_ITERATIONS
                   initial_loop_state) turn_result w) as [Hfst Hsnd].
    exists new. rewrite Hfst. repeat split; auto.
    destruct (snd (anthropic_loop _ _ _ _ _ _)); [left; exact Hc|].
    right. destruct Hc as (answered & last & -> & Hans & Hlast).
    exists answered, last, message0. auto. }
  unfold run_turn, call_failure.
  destruct provider; [apply Hanth| |apply Hanth].
  cbv zeta. unfold runOpenAIAgentTurn, runOpenAIAgentTurnWith.
  pose proof (openai_loop_requests JSON_parse (openai_api clients) ctx
                messages MAX_TOOL_ITERATIONS initial_loop_state w) as H.
  cbv zeta in H. destruct H as (new & Hr & Hf & Hd & Hc).
  destruct (turn_of_loop
              (openai_loop JSON_parse (openai_api clients) ctx messages
                 MAX_TOOL_ITERATIONS initial_loop_state) turn_result w)
    as [Hfst Hsnd].
  exists new. rewrite Hfst. repeat split; auto.
  destruct Hc as [Hall|(answered & last & message0 & -> & Hans & Hl & Ht)];
    [left; exact Hall|right].
  exists answered, last, message0. rewrite Ht in Hsnd. auto.
Qed.

Lemma stored_start (params : AgentRunParams) (w : World) :
  sd_messages (start_session path_join params w)
  = stored_messages path_join params w.
Proof.
  unfold start_session, stored_messages.
  destruct (files w !! session_file path_join params) as [[session|error]|];
    reflexivity.
Qed.

Lemma runAgent_unfold (params : AgentRunParams) (w : World) :
  let provider := run_provider params in
  let model := run_model params in
  let f := session_file path_join params in
  let limitedHistory :=
    SessionManager.limitHistoryTurns undefined_message
      (stored_messages path_join params w) MAX_HISTORY_TURNS in
  let ctx :=
    {| tools := default codingTools (p_tools params);
       toolContext := {| workspaceDir := p_workspaceDir params;
                         abortSignal := p_abortSignal params |};
       sessionId := p_sessionId params; model := model;
       provider := provider |} in
  let turn :=
    run_turn JSON_parse clients provider ctx
      (limitedHistory ++ [user_message params]) w in
  runAgent JSON_parse path_join clients codingTools undefined_message params w
  = match load_failure path_join params w with
    | Some error => (w, Throw error)
    | None =>
        match snd turn with
        | Throw message =>
            (fst turn,
             Normal {| r_response := [];
                       r_messages := stored_messages path_join params w;
                       r_usage := None;
                       r_error := Some (classify message model provider) |})
        | Normal result =>
            let session :=
              end_session path_join undefined_message params w
                (turn_newMessages result) in
            match disk_error (fst turn) with
            | Some error =>
                (set_files (failed_write f session error (files (fst turn)))
                   (fst turn),
                 Normal {| r_response := [];
                           r_messages := sd_messages session;
                           r_usage := None;
                           r_error := Some (classify (we_message error) model
                                              provider) |})
            | None =>
                (write_file f (written session) (fst turn),
                 Normal {| r_response := response result;
                           r_messages := sd_messages session;
                           r_usage := Some (usage result); r_error := None |})
            end
        end
    end.
Proof.
  cbv zeta. unfold runAgent, load_failure, end_session.
  rewrite <- stored_start. unfold start_session.
  fold (session_file path_join params) (run_provider params) (run_model params)
    (user_message params).
  unfold loadSession, bind at 1.
  destruct (files w !! session_file path_join params) as [[session|error]|];
    [|reflexivity|].
  all: unfold try_catch at 1; unfold bind at 1.
  all: destruct (run_turn _ _ _ _ _ _) as [w1 [result|message]]; cbn [fst snd];
    [|reflexivity].
  all: unfold try_catch, bind, saveSession, failed_result, ret, failed_write.
  all: destruct (disk_error w1); reflexivity.
Qed.

Lemma openai_loop_S (client : OpenAIBackend) (ctx : RunContext)
  (messages : list Message) (budget : nat) (st : LoopState) (w : World) :
  openai_loop JSON_parse client ctx messages (S budget) st w
  = match openai_iteration JSON_parse client ctx messages st w with
    | (w1, Normal (Break, st')) => (w1, Normal st')
    | (w1, Normal (Continue, st')) =>
        openai_loop JSON_parse client ctx messages budget st' w1
    | (w1, Throw message) => (w1, Throw message)
    end.
Proof.
  cbn [openai_loop]. unfold bind.
  destruct (openai_iteration JSON_parse client ctx messages st w)
    as [w1 [[[|] st']|message]]; reflexivity.
Qed.

(** A turn begins with the request that carries the conversation it is
    given. *)
Lemma run_turn_first (provider : Provider) (ctx : RunContext)
  (messages : list Message) (w : World) :
  exists rest,
    requests (fst (run_turn JSON_parse clients provider ctx messages w))
    = requests w ++ (0%nat, messages) :: rest.
Proof.
  assert (Hanth : forall client,
    exists rest,
      requests (fst (runAnthropicAgentTurn client ctx messages w))
      = requests w ++ (0%nat, messages) :: rest).
  { intros client.
    unfold runAnthropicAgentTurn, runAnthropicAgentTurnWith.
    destruct (turn_of_loop
                (anthropic_loop client ctx messages MAX_TOOL_ITERATIONS
                   initial_loop_state) turn_result w) as [-> _].
    change MAX_TOOL_ITERATIONS with (S 24). rewrite anthropic_loop_S.
    destruct (anthropic_iteration_spec client ctx messages
                initial_loop_state w) as (w1 & rs & Hreq & _ & _ & Hit).
    cbn [iterations newMessages initial_loop_state] in Hreq, Hit.
    rewrite app_nil_r in Hreq, Hit.
    destruct (final_message (client 0%nat messages)) as [response|message].
    - destruct Hit as (_ & _ & ->).
      destruct (anthropic_outcome _ _ _ _) as [[|] st'].
      + exists []. exact Hreq.
      + destruct (anthropic_loop_requests client ctx messages 24 st' w1)
          as (new & -> & _). exists new. rewrite Hreq, <- app_assoc.
        reflexivity.
    - rewrite Hit. exists []. exact Hreq. }
  unfold run_turn. destruct provider; [apply Hanth| |apply Hanth].
  unfold runOpenAIAgentTurn, runOpenAIAgentTurnWith.
  destruct (turn_of_loop
              (openai_loop JSON_parse (openai_api clients) ctx messages
                 MAX_TOOL_ITERATIONS initial_loop_state) turn_result w)
    as [-> _].
  change MAX_TOOL_ITERATIONS with (S 24). rewrite openai_loop_S.
  pose proof (openai_iteration_requests JSON_parse (openai_api clients) ctx
                messages initial_loop_state w) as H.
  cbv zeta in H. cbn [iterations newMessages initial_loop_state] in H.
  rewrite app_nil_r in H. destruct H as (Hreq & _).
  destruct (openai_iteration JSON_parse (openai_api clients) ctx messages
              initial_loop_state w) as [w1 [[[|] st']|message]];
    cbn [fst] in Hreq.
  - exists []. exact Hreq.
  - pose proof (openai_loop_requests JSON_parse (openai_api clients) ctx
                  messages 24 st' w1) as H.
    cbv zeta in H. destruct H as (new & -> & _).
    exists new. rewrite Hreq, <- app_assoc. reflexivity.
  - exists []. exact Hreq.
Qed.

(** C3 (as the code has it): when a request of the run is failed by the
    backend, that request is the last one of the run and every earlier
    one was answered; the run returns normally with an empty response
    and the failure classified in its error field; and the messages it
    returns are those the session file held before the run. *)
Theorem backend_failure_surfaces (params : AgentRunParams) (w : World)
  (i : nat) (req : list Message) (message : js_string) :
  let r := runAgent JSON_parse path_join clients codingTools
             undefined_message params w in
  (i, req) ∈ drop (length (requests w)) (requests (fst r)) ->
  call_failure clients (run_provider params) (i, req) = Some message ->
  exists answered,
    requests (fst r) = requests w ++ answered ++ [(i, req)]
    /\ Forall (fun entry => call_failure clients (run_provider params) entry = None)
         answered
    /\ snd r
       = Normal {| r_response := [];
                   r_messages := stored_messages path_join params w;
                   r_usage := None;
                   r_error := Some (classify message (run_model params)
                                      (run_provider params)) |}.
Proof.
  cbv zeta. rewrite runAgent_unfold. cbv zeta.
  destruct (load_failure path_join params w) as [error|].
  { cbn [fst]. rewrite drop_ge by lia. intros Hin.
    apply elem_of_nil in Hin. destruct Hin. }
  match goal with |- context [run_turn ?j ?c ?p ?x ?m ?w0] =>
    pose proof (run_turn_requests p x m w0) as H;
    set (turn := run_turn j c p x m w0) in *
  end.
  cbv zeta in H. destruct H as (new & Hr & _ & Hd & Hcase).
  intros Hin Hfail.
  assert (Hnew : (i, req) ∈ new).
  { revert Hin. destruct (snd turn); [destruct (disk_error (fst turn))|];
      cbn [fst]; try (unfold write_file); try (unfold set_files);
      cbn [requests]; rewrite Hr, drop_app_length; auto. }
  destruct Hcase as [Hall|(answered & last & message' & -> & Hans & Hl & Ht)].
  { rewrite Forall_forall in Hall. rewrite (Hall _ Hnew) in Hfail.
    discriminate. }
  assert (last = (i, req)) as ->.
  { apply elem_of_app in Hnew as [Hin'|Hin'].
    - rewrite Forall_forall in Hans. rewrite (Hans _ Hin') in Hfail.
      discriminate.
    - apply list_elem_of_singleton in Hin'. congruence. }
  assert (message' = message) as -> by congruence.
  exists answered. rewrite Ht. cbn [fst snd].
  split; [exact Hr|]. split; [exact Hans|]. reflexivity.
Qed.

(** C10: for a bound of at least two, a history within the bound is
    returned as it is, and a longer one is cut to exactly the bound: its
    first message followed by its last [maxTurns - 1] messages.  The
    runner applies the bound 50 to the stored history before every run:
    unless the session file cannot be read, in which case the run
    rejects at once, the first request of the run carries the cut
    history followed by the new user message.  A run that succeeds
    returns the cut history followed by the new user message and the
    messages of the turn, and the session file then holds exactly these
    messages: what was cut is gone from the file. *)
Theorem history_limited (messages : list Message) (maxTurns : Z) :
  2 <= maxTurns ->
  (Z.of_nat (length messages) <= maxTurns ->
   SessionManager.limitHistoryTurns undefined_message messages maxTurns
   = messages)
  /\ (maxTurns < Z.of_nat (length messages) ->
      exists first rest,
        messages = first :: rest
        /\ SessionManager.limitHistoryTurns undefined_message messages maxTurns
           = first :: drop (length messages - Z.to_nat (maxTurns - 1)) messages
        /\ Z.of_nat
             (length (SessionManager.limitHistoryTurns undefined_message
                        messages maxTurns))
           = maxTurns)
  /\ MAX_HISTORY_TURNS = 50
  /\ (forall params w,
        let r := runAgent JSON_parse path_join clients codingTools
                   undefined_message params w in
        match load_failure path_join params w with
        | Some error => r = (w, Throw error)
        | None =>
            exists rest,
              requests (fst r)
              = requests w
                ++ (0%nat,
                    SessionManager.limitHistoryTurns undefined_message
                      (stored_messages path_join params w) 50
                    ++ [user_message params]) :: rest
        end)
  /\ (forall params w result,
        let r := runAgent JSON_parse path_join clients codingTools
                   undefined_message params w in
        snd r = Normal result ->
        r_error result = None ->
        exists new session,
          r_messages result
          = SessionManager.limitHistoryTurns undefined_message
              (stored_messages path_join params w) 50
            ++ [user_message params] ++ new
          /\ files (fst r) !! session_file path_join params
             = Some (Holds session)
          /\ sd_messages session = r_messages result).
Proof.
  intros H2. split; [|split; [|split; [|split]]].
  - apply SessionManagerFacts.limitHistoryTurns_short.
  - apply SessionManagerFacts.limitHistoryTurns_long. exact H2.
  - reflexivity.
  - intros params w r. subst r. rewrite runAgent_unfold. cbv zeta.
    destruct (load_failure path_join params w) as [error|]; [reflexivity|].
    match goal with |- context [run_turn ?j ?c ?p ?x ?m ?w0] =>
      destruct (run_turn_first p x m w0) as [rest Hrest];
      set (turn := run_turn j c p x m w0) in *
    end.
    exists rest.
    destruct (snd turn); [destruct (disk_error (fst turn))|];
      cbn [fst]; try (unfold write_file); try (unfold set_files);
      cbn [requests]; exact Hrest.
  - intros params w result r. subst r. rewrite runAgent_unfold. cbv zeta.
    destruct (load_failure path_join params w) as [error|];
      [intros [=]|].
    match goal with |- context [run_turn ?j ?c ?p ?x ?m ?w0] =>
      set (turn := run_turn j c p x m w0)
    end.
    destruct (snd turn) as [tr|message]; [|intros [= <-]; discriminate].
    destruct (disk_error (fst turn)); cbn [fst snd];
      [intros [= <-]; discriminate|].
    intros [= <-] _. cbn [r_messages].
    eexists (turn_newMessages tr), _. split; [reflexivity|].
    unfold write_file, set_files. cbn [files].
    rewrite lookup_insert_eq. split; reflexivity.
Qed.

End RunAgentFacts.

End RunnerFacts.

(** ** The run tracker *)

Module DaemonFacts.

Import Runner Daemon DaemonSpec JSFacts EffFacts.

Lemma map_get_set_eq {V} (k : js_string) (v : V) (m : list (js_string * V)) :
  map_get k (map_set k v m) = Some v.
Proof.
  induction m as [|[k' v'] m IH]; simpl.
  - rewrite eqb_refl. reflexivity.
  - destruct (eqb k' k) eqn:E; simpl; rewrite E; auto.
Qed.

Lemma map_get_delete_eq {V} (k : js_string) (m : list (js_string * V)) :
  map_get k (map_delete k m) = None.
Proof.
  induction m as [|[k' v'] m IH]; simpl; [reflexivity|].
  destruct (eqb k' k) eqn:E; simpl; [|rewrite E]; auto.
Qed.

Lemma abort_first_keys (sessionId : js_string)
  (runs runs' : list (js_string * ActiveRun)) (found : js_string) :
  abort_first sessionId runs = Some (found, runs') ->
  forall k, is_Some (map_get k runs) -> is_Some (map_get k runs').
Proof.
  revert runs' found. induction runs as [|[runId run] rest IH];
    intros runs' found H k; simpl in H; [discriminate|].
  destruct (eqb (ar_sessionId run) sessionId).
  - injection H as <- <-. simpl. destruct (eqb runId k); eauto.
  - destruct (abort_first sessionId rest) as [[f rest']|] eqn:E;
      [|discriminate].
    injection H as <- <-. simpl. destruct (eqb runId k); eauto.
Qed.

Lemma make_runId_inj (s1 s2 : js_string) (n1 n2 : N) :
  make_runId s1 n1 = make_runId s2 n2 <-> s1 = s2 /\ n1 = n2.
Proof.
  split; [|intros [-> ->]; reflexivity].
  unfold make_runId. intros H.
  apply split_at_last in H; try apply number_to_string_no_colon.
  destruct H as [-> H]. split; [reflexivity|].
  apply number_to_string_inj, H.
Qed.

Section DaemonFacts.

Variable config : DaemonConfig.
Variable listener_throws : DaemonEvent -> option js_string.


Lemma run_begin_registers (options : RunOptions) (now startedAt : N)
  (d : State) :
  let runId := make_runId (o_sessionId options) now in
  let r := run_begin config listener_throws options now startedAt d in
  map_get runId (activeRuns (fst r)) = Some (registered config options startedAt)
  /\ snd r
     = match listener_throws
               (RunStart runId (o_sessionId options)
                  (effective_provider config options)) with
       | Some message => Throw message
       | None => Normal runId
       end.
Proof.
  cbv zeta. unfold run_begin, modify_runs, emit, bind, ret. cbn [fst snd].
  destruct (listener_throws _); cbn [fst snd activeRuns];
    rewrite map_get_set_eq; split; reflexivity.
Qed.

Lemma run_guarded_unregisters (runId sessionId : js_string)
  (agent : D AgentRunResult) (d : State) :
  map_get runId
    (activeRuns (fst (run_guarded listener_throws runId sessionId
                        agent d)))
  = None.
Proof.
  unfold run_guarded, try_finally.
  destruct (try_catch _ _ d) as [d' c].
  unfold modify_runs. cbn [fst activeRuns].
  apply map_get_delete_eq.
Qed.

(** C6 (as the code has it): the id under which a run is registered is
    the session id, a colon and the reading of the clock at its start.
    Two runs have the same id exactly when they are of the same session
    and read the same time; no counter takes part. *)
Theorem runId_allocation :
  (forall options now startedAt d,
     let r := run_begin config listener_throws options now startedAt d in
     map_get (make_runId (o_sessionId options) now) (activeRuns (fst r))
       = Some (registered config options startedAt)
     /\ forall runId, snd r = Normal runId ->
          runId = make_runId (o_sessionId options) now)
  /\ (forall sessionId1 now1 sessionId2 now2,
        make_runId sessionId1 now1 = make_runId sessionId2 now2
        <-> sessionId1 = sessionId2 /\ now1 = now2).
Proof.
  split.
  - intros options now startedAt d r. subst r.
    destruct (run_begin_registers options now startedAt d) as [Hget Hsnd].
    split; [exact Hget|]. intros runId. rewrite Hsnd.
    destruct (listener_throws _); [discriminate|]. intros [= <-]. reflexivity.
  - intros. apply make_runId_inj.
Qed.

(** The life of an entry on the exits through [runAgent]: when the
    lane task of a request reaches its call of [runAgent], the run is
    registered under its id; whatever the call does to the daemon while
    it is pending and whether it resolves or rejects, no entry is left
    under that id once the task has settled; and cancelling a session
    flags a run without removing any entry. *)
Theorem run_entry_lifecycle (options : RunOptions) (now startedAt : N)
  (d d1 : State) (runId : js_string) :
  run_begin config listener_throws options now startedAt d
    = (d1, Normal runId) ->
  runId = make_runId (o_sessionId options) now
  /\ map_get runId (activeRuns d1)
     = Some (registered config options startedAt)
  /\ (forall agent,
        run_task config listener_throws options now startedAt agent d
        = run_guarded listener_throws runId (o_sessionId options)
            (agent (make_params config options)) d1)
  /\ (forall agent,
        map_get runId
          (activeRuns
             (fst (run_task config listener_throws options now startedAt
                     agent d)))
        = None)
  /\ (forall sessionId d',
        is_Some (map_get runId (activeRuns d')) ->
        is_Some (map_get runId
                   (activeRuns
                      (fst (cancelRun listener_throws sessionId d'))))).
Proof.
  intros Hbegin.
  destruct (run_begin_registers options now startedAt d) as [Hget Hsnd].
  rewrite Hbegin in Hget, Hsnd. cbn [fst snd] in Hget, Hsnd.
  assert (HrunId : runId = make_runId (o_sessionId options) now).
  { destruct (listener_throws _); [discriminate|]. congruence. }
  rewrite <- HrunId in Hget.
  assert (Htask : forall agent,
            run_task config listener_throws options now startedAt agent d
            = run_guarded listener_throws runId (o_sessionId options)
                (agent (make_params config options)) d1).
  { intros agent. unfold run_task.
    erewrite bind_normal by exact Hbegin. reflexivity. }
  split; [exact HrunId|]. split; [exact Hget|].
  split; [exact Htask|]. split.
  - intros agent. rewrite Htask. apply run_guarded_unregisters.
  - intros sessionId d' Hsome. unfold cancelRun.
    destruct (abort_first sessionId (activeRuns d')) as [[found runs']|] eqn:E;
      [|exact Hsome].
    unfold bind, emit, ret.
    destruct (listener_throws (RunCancelled found sessionId));
      cbn [fst activeRuns]; eapply abort_first_keys; eauto.
Qed.

End DaemonFacts.

End DaemonFacts.

(** ** The lane scheduler *)

Module LanesFacts.

Import Lanes JSFacts.

Section Traces.

Context {V : Type}.

Implicit Types (tr : list (Event V)) (k : js_string).

Lemma monitor_snoc k tr (e : Event V) :
  monitor k (tr ++ [e]) = monitor_step k (monitor k tr) e.
Proof. unfold monitor. rewrite fold_left_app. reflexivity. Qed.

Lemma monitor_app k tr (es : list (Event V)) :
  monitor k (tr ++ es) = fold_left (monitor_step k) es (monitor k tr).
Proof. unfold monitor. apply fold_left_app. Qed.


Lemma projections_snoc k tr (e : Event V) :
  enqueued_in k (tr ++ [e])
  = enqueued_in k tr
    ++ match e with
       | Enqueued k' p => if decide (k' = k) then [p] else []
       | _ => []
       end
  /\ started_in k (tr ++ [e])
     = started_in k tr
       ++ match e with
          | Started k' p => if decide (k' = k) then [p] else []
          | _ => []
          end
  /\ finished_in k (tr ++ [e])
     = finished_in k tr
       ++ match e with
          | Finished k' p => if decide (k' = k) then [p] else []
          | _ => []
          end.
Proof.
  unfold enqueued_in, started_in, finished_in. rewrite !omap_app.
  repeat split; f_equal; destruct e; simpl; try case_decide; reflexivity.
Qed.

Lemma no_overlap_snoc_other k tr (e : Event V) :
  (forall p, e <> Started k p) ->
  no_overlap k tr -> no_overlap k (tr ++ [e]).
Proof.
  intros He H i j p q Hij Hi Hj.
  apply lookup_snoc_Some in Hj as [[Hj1 Hj2]|[_ Hj]]; [|destruct (He q Hj)].
  apply lookup_snoc_Some in Hi as [[Hi1 Hi2]|[Hi _]]; [|lia].
  destruct (H i j p q Hij Hi2 Hj2) as (m & Hm & Hlook).
  exists m. split; [exact Hm|]. rewrite lookup_app_l by lia. exact Hlook.
Qed.

Lemma open_snoc_other k tr (e : Event V) (cur : option nat) :
  (forall p, e <> Started k p) ->
  (forall i p, tr !! i = Some (Started k p) ->
     (exists m, (i < m)%nat /\ tr !! m = Some (Finished k p)) \/ cur = Some p) ->
  forall i p, (tr ++ [e]) !! i = Some (Started k p) ->
    (exists m, (i < m)%nat /\ (tr ++ [e]) !! m = Some (Finished k p))
    \/ cur = Some p.
Proof.
  intros He H i p Hi.
  apply lookup_snoc_Some in Hi as [[Hi1 Hi2]|[_ Hi]]; [|destruct (He p Hi)].
  destruct (H i p Hi2) as [(m & Hm & Hlook)|Hcur]; [left|right; exact Hcur].
  exists m. split; [exact Hm|].
  rewrite lookup_app_l; [exact Hlook|]. eapply lookup_lt_Some, Hlook.
Qed.

Lemma monitor_sound k tr (cur : option nat) (waiting : list nat) :
  monitor k tr = Some (cur, waiting) -> monitored k tr cur waiting.
Proof.
  revert cur waiting. induction tr as [|e tr IH] using rev_ind;
    intros cur waiting H.
  { injection H as <- <-. split; try reflexivity.
    - intros i j p q _ Hi. discriminate.
    - intros i p Hi. discriminate. }
  rewrite monitor_snoc in H.
  destruct (monitor k tr) as [[cur0 waiting0]|]; [|discriminate].
  destruct (IH cur0 waiting0 eq_refl) as [Hfifo Hrun Hser Hopen].
  destruct (projections_snoc k tr e) as (He & Hs & Hf).
  destruct e as [k' p|k' p|k' p|p v|p err]; cbn [monitor_step] in H;
    try case_decide; try subst k'.
  - (* Enqueued in this lane *)
    injection H as <- <-. split.
    + rewrite He, Hs, Hfifo, app_nil_r, app_assoc. reflexivity.
    + rewrite Hs, Hf, !app_nil_r. exact Hrun.
    + apply no_overlap_snoc_other; [discriminate|exact Hser].
    + apply open_snoc_other; [discriminate|exact Hopen].
  - injection H as <- <-. split.
    + rewrite He, Hs, !app_nil_r. exact Hfifo.
    + rewrite Hs, Hf, !app_nil_r. exact Hrun.
    + apply no_overlap_snoc_other; [discriminate|exact Hser].
    + apply open_snoc_other; [discriminate|exact Hopen].
  - (* Started in this lane *)
    destruct cur0 as [?|]; [discriminate|].
    destruct waiting0 as [|next rest]; [discriminate|].
    case_decide; [subst next|discriminate]. injection H as <- <-.
    simpl in Hrun. rewrite app_nil_r in Hrun. split.
    + rewrite He, Hs, Hfifo, app_nil_r, <- app_assoc. reflexivity.
    + rewrite Hs, Hf, app_nil_r, Hrun. reflexivity.
    + intros i j p' q Hij Hi Hj.
      apply lookup_snoc_Some in Hi as [[Hi1 Hi2]|[Hi _]].
      2:{ apply lookup_lt_Some in Hj. rewrite length_app in Hj. simpl in Hj.
          lia. }
      apply lookup_snoc_Some in Hj as [[Hj1 Hj2]|[Hj _]].
      * destruct (Hser i j p' q Hij Hi2 Hj2) as (m & Hm & Hlook).
        exists m. split; [exact Hm|]. rewrite lookup_app_l by lia.
        exact Hlook.
      * destruct (Hopen i p' Hi2) as [(m & Hm & Hlook)|?]; [|discriminate].
        exists m. pose proof (lookup_lt_Some _ _ _ Hlook).
        split; [lia|]. rewrite lookup_app_l by lia. exact Hlook.
    + intros i p' Hi.
      apply lookup_snoc_Some in Hi as [[Hi1 Hi2]|[_ Hi]].
      * destruct (Hopen i p' Hi2) as [(m & Hm & Hlook)|?]; [|discriminate].
        left. exists m. split; [exact Hm|].
        rewrite lookup_app_l; [exact Hlook|]. eapply lookup_lt_Some, Hlook.
      * injection Hi as <-. right. reflexivity.
  - injection H as <- <-. split.
    + rewrite He, Hs, !app_nil_r. exact Hfifo.
    + rewrite Hs, Hf, !app_nil_r. exact Hrun.
    + apply no_overlap_snoc_other; [congruence|exact Hser].
    + apply open_snoc_other; [congruence|exact Hopen].
  - (* Finished in this lane *)
    destruct cur0 as [q|]; [|discriminate].
    case_decide; [subst q|discriminate]. injection H as <- <-. split.
    + rewrite He, Hs, !app_nil_r. exact Hfifo.
    + rewrite Hs, Hf, !app_nil_r. exact Hrun.
    + apply no_overlap_snoc_other; [discriminate|exact Hser].
    + intros i p' Hi.
      apply lookup_snoc_Some in Hi as [[Hi1 Hi2]|[_ Hi]]; [|discriminate].
      left. destruct (Hopen i p' Hi2) as [(m & Hm & Hlook)|Hcur].
      * exists m. split; [exact Hm|].
        rewrite lookup_app_l; [exact Hlook|]. eapply lookup_lt_Some, Hlook.
      * injection Hcur as ->. exists (length tr). split; [exact Hi1|].
        rewrite lookup_app_r by lia. rewrite Nat.sub_diag. reflexivity.
  - injection H as <- <-. split.
    + rewrite He, Hs, !app_nil_r. exact Hfifo.
    + rewrite Hs, Hf, !app_nil_r. exact Hrun.
    + apply no_overlap_snoc_other; [congruence|exact Hser].
    + apply open_snoc_other; [congruence|exact Hopen].
  - injection H as <- <-. split.
    + rewrite He, Hs, !app_nil_r. exact Hfifo.
    + rewrite Hs, Hf, !app_nil_r. exact Hrun.
    + apply no_overlap_snoc_other; [discriminate|exact Hser].
    + apply open_snoc_other; [discriminate|exact Hopen].
  - injection H as <- <-. split.
    + rewrite He, Hs, !app_nil_r. exact Hfifo.
    + rewrite Hs, Hf, !app_nil_r. exact Hrun.
    + apply no_overlap_snoc_other; [discriminate|exact Hser].
    + apply open_snoc_other; [discriminate|exact Hopen].
Qed.

End Traces.

(** *** The transitions, spelled out *)

Section Steps.

Context {V : Type}.

Implicit Types (s : State V) (k : js_string) (a : Activation).


Lemma enqueue_idle s k :
  lanes s !! k = None ->
  enqueueInLane k s
  = (next_promise s,
     {| heap := <[next_lane s := {| queue := []; running := true |}]> (heap s);
        next_lane := S (next_lane s);
        lanes := <[k := next_lane s]> (lanes s);
        suspended :=
          suspended s ++ [{| act_laneKey := k; act_lane := next_lane s;
                             act_item := next_promise s |}];
        next_promise := S (next_promise s);
        trace := trace s ++ [Enqueued k (next_promise s);
                             Started k (next_promise s)] |}).
Proof.
  intros Hk. unfold enqueueInLane, getLane. rewrite Hk. cbn.
  rewrite lookup_insert_eq. cbn.
  unfold processLane, getLane. cbn. rewrite lookup_insert_eq. cbn.
  rewrite lookup_insert_eq. cbn.
  unfold drain, set_lane, log, set_suspended. cbn.
  rewrite lookup_insert_eq. cbn.
  rewrite !insert_insert_eq, <- app_assoc. reflexivity.
Qed.

Lemma enqueue_busy s k (l : nat) (q : list nat) :
  lanes s !! k = Some l ->
  heap s !! l = Some {| queue := q; running := true |} ->
  enqueueInLane k s
  = (next_promise s,
     {| heap := <[l := {| queue := q ++ [next_promise s];
                          running := true |}]> (heap s);
        next_lane := next_lane s;
        lanes := lanes s;
        suspended := suspended s;
        next_promise := S (next_promise s);
        trace := trace s ++ [Enqueued k (next_promise s)] |}).
Proof.
  intros Hk Hl. unfold enqueueInLane, getLane. rewrite Hk, Hl. cbn.
  unfold processLane, getLane. cbn. rewrite Hk. cbn.
  rewrite lookup_insert_eq. reflexivity.
Qed.

Lemma resume_next a (outcome : Completion V) s (next : nat) (q : list nat)
  (r : bool) :
  heap s !! act_lane a = Some {| queue := next :: q; running := r |} ->
  resume a outcome s
  = {| heap := <[act_lane a := {| queue := q; running := r |}]> (heap s);
       next_lane := next_lane s;
       lanes := lanes s;
       suspended :=
         suspended s ++ [{| act_laneKey := act_laneKey a;
                            act_lane := act_lane a; act_item := next |}];
       next_promise := next_promise s;
       trace := trace s ++ [Finished (act_laneKey a) (act_item a);
                            settle_event (act_item a) outcome;
                            Started (act_laneKey a) next] |}.
Proof.
  intros Hl. unfold resume, drain.
  destruct outcome; cbn; rewrite Hl; cbn;
    unfold set_suspended, log, set_lane; cbn;
    rewrite <- !app_assoc; reflexivity.
Qed.

Lemma resume_last a (outcome : Completion V) s (r : bool) :
  heap s !! act_lane a = Some {| queue := []; running := r |} ->
  resume a outcome s
  = {| heap := <[act_lane a := {| queue := []; running := false |}]> (heap s);
       next_lane := next_lane s;
       lanes := delete (act_laneKey a) (lanes s);
       suspended := suspended s;
       next_promise := next_promise s;
       trace := trace s ++ [Finished (act_laneKey a) (act_item a);
                            settle_event (act_item a) outcome] |}.
Proof.
  intros Hl. unfold resume, drain.
  destruct outcome; cbn; rewrite Hl; cbn;
    rewrite lookup_insert_eq; cbn;
    unfold set_lanes, log, set_lane; cbn;
    rewrite <- !app_assoc; reflexivity.
Qed.

Lemma unpark_spec (p : nat) (acts rest : list Activation) a :
  unpark p acts = Some (a, rest) ->
  act_item a = p
  /\ exists pre post, acts = pre ++ a :: post /\ rest = pre ++ post.
Proof.
  revert rest. induction acts as [|b acts IH]; intros rest H; [discriminate|].
  simpl in H. destruct (Nat.eqb_spec (act_item b) p) as [Hb|Hb].
  - injection H as <- <-. split; [exact Hb|]. exists [], acts. auto.
  - destruct (unpark p acts) as [[found rest']|]; [|discriminate].
    injection H as <- <-. destruct (IH rest' eq_refl) as (Hp & pre & post & -> & ->).
    split; [exact Hp|]. exists (b :: pre), post. auto.
Qed.

Lemma activation_of_app k (xs ys : list Activation) :
  activation_of k (xs ++ ys)
  = match activation_of k xs with
    | Some a => Some a
    | None => activation_of k ys
    end.
Proof.
  induction xs as [|x xs IH]; simpl; [reflexivity|].
  case_decide; auto.
Qed.

Lemma activation_of_None k (acts : list Activation) :
  activation_of k acts = None <-> k ∉ act_laneKey <$> acts.
Proof.
  induction acts as [|a acts IH]; simpl.
  - split; [intros _ H; inversion H|reflexivity].
  - rewrite not_elem_of_cons. case_decide; split.
    + discriminate.
    + intros [H' _]. congruence.
    + intros H'. split; [congruence|]. apply IH, H'.
    + intros [_ H']. apply IH, H'.
Qed.

Lemma activation_of_Some k (acts : list Activation) a :
  activation_of k acts = Some a -> a ∈ acts /\ act_laneKey a = k.
Proof.
  induction acts as [|b acts IH]; simpl; [discriminate|].
  case_decide.
  - intros [= <-]. split; [left|assumption].
  - intros H'. destruct (IH H'). split; [right|]; assumption.
Qed.

Lemma activation_of_elem (acts : list Activation) a :
  NoDup (act_laneKey <$> acts) -> a ∈ acts ->
  activation_of (act_laneKey a) acts = Some a.
Proof.
  induction acts as [|b acts IH]; intros Hnd Hin; [inversion Hin|].
  rewrite fmap_cons in Hnd. apply NoDup_cons in Hnd as [Hb Hnd].
  simpl. apply elem_of_cons in Hin as [->|Hin].
  - case_decide; congruence.
  - case_decide as Heq; [|auto].
    exfalso. apply Hb. rewrite Heq. apply list_elem_of_fmap. eauto.
Qed.

Lemma same_object (acts : list Activation) a b :
  NoDup (act_lane <$> acts) -> a ∈ acts -> b ∈ acts ->
  act_lane a = act_lane b -> a = b.
Proof.
  induction acts as [|c acts IH]; intros Hnd Ha Hb Heq; [inversion Ha|].
  rewrite fmap_cons in Hnd. apply NoDup_cons in Hnd as [Hc Hnd].
  apply elem_of_cons in Ha as [->|Ha]; apply elem_of_cons in Hb as [->|Hb];
    auto.
  - exfalso. apply Hc. rewrite Heq. apply list_elem_of_fmap. eauto.
  - exfalso. apply Hc. rewrite <- Heq. apply list_elem_of_fmap. eauto.
Qed.

(** *** The invariant holds in every reachable state *)

Lemma invariant_initial : invariant (@initial V).
Proof.
  split; cbn; try constructor; intros; try reflexivity;
    match goal with H : _ ∈ [] |- _ => inversion H end.
Qed.

Lemma live_lane s k (l : nat) :
  invariant s -> lanes s !! k = Some l ->
  exists a q,
    activation_of k (suspended s) = Some a
    /\ a ∈ suspended s /\ act_laneKey a = k /\ act_lane a = l
    /\ heap s !! l = Some {| queue := q; running := true |}.
Proof.
  intros Hinv Hk. rewrite (inv_lanes _ Hinv) in Hk.
  destruct (activation_of k (suspended s)) as [a|] eqn:Ha; [|discriminate].
  injection Hk as Hl. destruct (activation_of_Some _ _ _ Ha) as [Hin Hkey].
  destruct (inv_running _ Hinv a Hin) as [_ [q Hq]]. rewrite Hl in Hq.
  exists a, q. auto.
Qed.

Lemma other_lane_untouched s k k' a a' :
  invariant s ->
  activation_of k (suspended s) = Some a ->
  activation_of k' (suspended s) = Some a' ->
  k <> k' -> act_lane a' <> act_lane a.
Proof.
  intros Hinv Ha Ha' Hne Heq.
  destruct (activation_of_Some _ _ _ Ha) as [Hin Hkey].
  destruct (activation_of_Some _ _ _ Ha') as [Hin' Hkey'].
  pose proof (same_object _ _ _ (inv_objects _ Hinv) Hin' Hin Heq).
  congruence.
Qed.

Ltac monitor_run :=
  repeat progress
    (cbn [fold_left monitor_step fmap option_fmap option_map app
          settle_event queue act_item];
     rewrite ?decide_True, ?decide_False by (auto; congruence)).

Lemma promises_enqueued (tr : list (Event V)) k (p : nat)
  (es : list (Event V)) :
  promises_of (tr ++ Enqueued k p :: es)
  = promises_of tr ++ p :: promises_of es.
Proof. unfold promises_of. rewrite omap_app. reflexivity. Qed.

Lemma invariant_enqueue s k :
  invariant s -> invariant (snd (enqueueInLane k s)).
Proof.
  intros Hinv. destruct (lanes s !! k) as [l|] eqn:Hk.
  - destruct (live_lane s k l Hinv Hk) as (a & q & Ha & Hin & Hkey & Hl & Hq).
    rewrite (enqueue_busy s k l q Hk Hq). cbn [snd].
    split; cbn [heap next_lane lanes suspended next_promise trace].
    + apply (inv_lanes _ Hinv).
    + apply (inv_keys _ Hinv).
    + apply (inv_objects _ Hinv).
    + intros a0 Ha0. destruct (inv_running _ Hinv a0 Ha0) as [Hlt [q0 Hq0]].
      split; [exact Hlt|].
      destruct (decide (act_lane a0 = l)) as [->|Hne].
      * rewrite lookup_insert_eq. eauto.
      * rewrite lookup_insert_ne by auto. eauto.
    + intros k'. rewrite monitor_app, (inv_monitor _ Hinv k').
      cbn [fold_left monitor_step]. unfold current, pending, queue_at.
      cbn [suspended heap]. case_decide as Hkk.
      * subst k'. rewrite Ha, Hl, lookup_insert_eq, Hq. reflexivity.
      * destruct (activation_of k' (suspended s)) as [a'|] eqn:Ha';
          [|reflexivity].
        rewrite lookup_insert_ne; [reflexivity|].
        rewrite <- Hl. intros Heq. symmetry in Heq. revert Heq.
        eapply other_lane_untouched; eauto.
    + rewrite promises_enqueued, (inv_promises _ Hinv), seq_S. reflexivity.
  - rewrite (enqueue_idle s k Hk). cbn [snd].
    assert (Hnone : activation_of k (suspended s) = None).
    { pose proof (inv_lanes _ Hinv k) as H. rewrite Hk in H.
      destruct (activation_of k (suspended s)); [discriminate|reflexivity]. }
    assert (Hfresh : forall a, a ∈ suspended s -> act_lane a <> next_lane s).
    { intros a Ha. destruct (inv_running _ Hinv a Ha) as [Hlt _]. lia. }
    split; cbn [heap next_lane lanes suspended next_promise trace].
    + intros k'. rewrite activation_of_app. cbn [activation_of act_laneKey].
      destruct (decide (k = k')) as [<-|Hne].
      * rewrite lookup_insert_eq, Hnone. reflexivity.
      * rewrite lookup_insert_ne by auto. rewrite (inv_lanes _ Hinv k').
        destruct (activation_of k' (suspended s)); reflexivity.
    + rewrite fmap_app. apply NoDup_app. split; [apply (inv_keys _ Hinv)|].
      split; [|apply NoDup_singleton].
      intros x Hx Hx'. apply list_elem_of_singleton in Hx'. subst x.
      apply activation_of_None in Hnone. contradiction.
    + rewrite fmap_app. apply NoDup_app. split; [apply (inv_objects _ Hinv)|].
      split; [|apply NoDup_singleton].
      intros x Hx Hx'. apply list_elem_of_singleton in Hx'. subst x.
      apply list_elem_of_fmap in Hx as (a & Heq & Ha).
      symmetry in Heq. revert Heq. apply Hfresh, Ha.
    + intros a Ha. apply elem_of_app in Ha as [Ha|Ha].
      * destruct (inv_running _ Hinv a Ha) as [Hlt [q Hq]].
        split; [lia|]. rewrite lookup_insert_ne by (symmetry; auto). eauto.
      * apply list_elem_of_singleton in Ha. subst a. cbn.
        split; [lia|]. rewrite lookup_insert_eq. eauto.
    + intros k'. rewrite monitor_app, (inv_monitor _ Hinv k').
      unfold current, pending, queue_at.
      cbn [suspended heap]. rewrite activation_of_app.
      cbn [activation_of act_laneKey].
      destruct (decide (k = k')) as [<-|Hne].
      * rewrite Hnone. monitor_run.
        rewrite lookup_insert_eq. reflexivity.
      * monitor_run.
        destruct (activation_of k' (suspended s)) as [a'|] eqn:Ha';
          [|reflexivity].
        cbn. rewrite lookup_insert_ne; [reflexivity|].
        symmetry. apply Hfresh. eapply activation_of_Some, Ha'.
    + rewrite (promises_enqueued _ _ _ [_]), (inv_promises _ Hinv), seq_S.
      reflexivity.
Qed.


Lemma unpark_unparked s (p : nat) a (rest : list Activation) :
  invariant s -> unpark p (suspended s) = Some (a, rest) ->
  unparked s p a rest.
Proof.
  intros Hinv H.
  destruct (unpark_spec _ _ _ _ H) as (Hp & pre & post & Hacts & ->).
  assert (Hperm : suspended s ≡ₚ a :: (pre ++ post)).
  { rewrite Hacts. symmetry. apply Permutation_middle. }
  pose proof (inv_keys _ Hinv) as Hkeys.
  pose proof (inv_objects _ Hinv) as Hobjs.
  rewrite Hperm in Hkeys. rewrite Hperm in Hobjs.
  rewrite fmap_cons in Hkeys. rewrite fmap_cons in Hobjs.
  apply NoDup_cons in Hkeys as [Hkey Hkeys].
  apply NoDup_cons in Hobjs as [Hobj Hobjs].
  assert (Hin : a ∈ suspended s).
  { rewrite Hperm. left. }
  split; auto.
  - intros b Hb. rewrite Hperm. right. exact Hb.
  - apply activation_of_elem; [apply (inv_keys _ Hinv)|exact Hin].
  - apply activation_of_None, Hkey.
  - intros k Hk. rewrite Hacts, !activation_of_app. cbn [activation_of].
    rewrite decide_False by congruence. reflexivity.
Qed.

Lemma invariant_settle s (p : nat) (outcome : Completion V) a
  (rest : list Activation) :
  invariant s -> unpark p (suspended s) = Some (a, rest) ->
  invariant (resume a outcome (set_suspended rest s)).
Proof.
  intros Hinv Hunpark.
  destruct (unpark_unparked _ _ _ _ Hinv Hunpark)
    as [Hp Hin Hrest Hkeys Hobjs Hkey Hobj Hself Hgone Hothers].
  destruct (inv_running _ Hinv a Hin) as [Hlt [q Hq]].
  assert (Hother_heap : forall b v,
            b ∈ rest -> <[act_lane a := v]> (heap s) !! act_lane b
                        = heap s !! act_lane b).
  { intros b v Hb. apply lookup_insert_ne. intros Heq. apply Hobj.
    rewrite Heq. apply list_elem_of_fmap. eauto. }
  assert (Hmon : monitor (act_laneKey a) (trace s)
                 = Some (Some (act_item a), q)).
  { rewrite (inv_monitor _ Hinv). unfold current, pending, queue_at.
    rewrite Hself, Hq. reflexivity. }
  assert (Hmon_other : forall k es,
            k <> act_laneKey a ->
            Forall (fun e => match e with
                             | Enqueued k' _ | Started k' _ | Finished k' _ =>
                                 k' = act_laneKey a
                             | _ => True
                             end) es ->
            monitor k (trace s ++ es)
            = Some (act_item <$> activation_of k rest,
                    match activation_of k rest with
                    | Some b => queue_at (act_lane b) s
                    | None => []
                    end)).
  { intros k es Hk Hes. rewrite monitor_app, (inv_monitor _ Hinv k).
    unfold current, pending. rewrite (Hothers k Hk).
    induction Hes as [|e es He _ IH]; [reflexivity|].
    destruct e; cbn [fold_left monitor_step]; try subst;
      rewrite ?decide_False by congruence; exact IH. }
  destruct q as [|next q].
  - rewrite (resume_last a outcome (set_suspended rest s) true Hq).
    split; cbn [heap next_lane lanes suspended next_promise trace
                set_suspended].
    + intros k. destruct (decide (k = act_laneKey a)) as [->|Hk].
      * rewrite lookup_delete_eq, Hgone. reflexivity.
      * rewrite lookup_delete_ne by auto.
        rewrite (Hothers k Hk). apply (inv_lanes _ Hinv).
    + exact Hkeys.
    + exact Hobjs.
    + intros b Hb. rewrite (Hother_heap b _ Hb).
      apply (inv_running _ Hinv), Hrest, Hb.
    + intros k. destruct (decide (k = act_laneKey a)) as [->|Hk].
      * rewrite monitor_app, Hmon. unfold current, pending.
        cbn [suspended]. rewrite Hgone.
        destruct outcome; monitor_run; reflexivity.
      * rewrite Hmon_other; [|exact Hk|].
        2:{ destruct outcome; repeat constructor. }
        unfold current, pending, queue_at. cbn [suspended heap].
        destruct (activation_of k rest) as [b|] eqn:Hb; [|reflexivity].
        rewrite Hother_heap; [reflexivity|].
        eapply activation_of_Some, Hb.
    + unfold promises_of. rewrite omap_app.
      replace (omap _ [_; _]) with (@nil nat)
        by (destruct outcome; reflexivity).
      rewrite app_nil_r. apply (inv_promises _ Hinv).
  - rewrite (resume_next a outcome (set_suspended rest s) next q true Hq).
    split; cbn [heap next_lane lanes suspended next_promise trace
                set_suspended].
    + intros k. rewrite activation_of_app. cbn [activation_of act_laneKey].
      rewrite (inv_lanes _ Hinv).
      destruct (decide (k = act_laneKey a)) as [->|Hk].
      * rewrite Hgone, Hself, decide_True by reflexivity. reflexivity.
      * rewrite (Hothers k Hk), decide_False by congruence.
        destruct (activation_of k (suspended s)); reflexivity.
    + rewrite fmap_app. apply NoDup_app. split; [exact Hkeys|].
      split; [|apply NoDup_singleton].
      intros x Hx Hx'. apply list_elem_of_singleton in Hx'. subst x.
      contradiction.
    + rewrite fmap_app. apply NoDup_app. split; [exact Hobjs|].
      split; [|apply NoDup_singleton].
      intros x Hx Hx'. apply list_elem_of_singleton in Hx'. subst x.
      contradiction.
    + intros b Hb. apply elem_of_app in Hb as [Hb|Hb].
      * rewrite (Hother_heap b _ Hb).
        apply (inv_running _ Hinv), Hrest, Hb.
      * apply list_elem_of_singleton in Hb. subst b. cbn [act_lane].
        split; [exact Hlt|]. rewrite lookup_insert_eq. eauto.
    + intros k. destruct (decide (k = act_laneKey a)) as [->|Hk].
      * rewrite monitor_app, Hmon. unfold current, pending, queue_at.
        cbn [suspended heap]. rewrite activation_of_app, Hgone.
        cbn [activation_of act_laneKey]. rewrite decide_True by reflexivity.
        cbn [act_lane]. rewrite lookup_insert_eq.
        destruct outcome; monitor_run; reflexivity.
      * rewrite Hmon_other; [|exact Hk|].
        2:{ destruct outcome; repeat constructor. }
        unfold current, pending, queue_at. cbn [suspended heap].
        rewrite activation_of_app. cbn [activation_of act_laneKey].
        rewrite decide_False by congruence.
        destruct (activation_of k rest) as [b|] eqn:Hb; [|reflexivity].
        rewrite Hother_heap; [reflexivity|].
        eapply activation_of_Some, Hb.
    + unfold promises_of. rewrite omap_app.
      replace (omap _ [_; _; _]) with (@nil nat)
        by (destruct outcome; reflexivity).
      rewrite app_nil_r. apply (inv_promises _ Hinv).
Qed.

Lemma invariant_step (i : Input V) s s' :
  invariant s -> step i s = Some s' -> invariant s'.
Proof.
  intros Hinv H. destruct i as [k|p outcome]; cbn [step] in H.
  - injection H as <-. apply invariant_enqueue, Hinv.
  - destruct (unpark p (suspended s)) as [[a rest]|] eqn:Hunpark;
      [|discriminate].
    injection H as <-. eapply invariant_settle; eauto.
Qed.

Lemma invariant_run (inputs : list (Input V)) s s' :
  invariant s -> run inputs s = Some s' -> invariant s'.
Proof.
  revert s. induction inputs as [|i inputs IH]; intros s Hinv H;
    cbn [run] in H.
  - injection H as <-. exact Hinv.
  - destruct (step i s) as [s1|] eqn:Hstep; [|discriminate].
    eapply IH; [|exact H]. eapply invariant_step; eauto.
Qed.

(** *** Order and exclusion *)

Lemma enqueued_sublist (tr : list (Event V)) k :
  enqueued_in k tr `sublist_of` promises_of tr.
Proof.
  induction tr as [|e tr IH]; [constructor|].
  destruct e; cbn; try exact IH.
  case_decide; [apply sublist_skip|apply sublist_cons]; exact IH.
Qed.

(** *** Failures *)

Lemma unfinished_insert (h : gmap nat LaneState) (l : nat) (v : LaneState)
  (acts : list Activation) :
  l ∉ act_lane <$> acts ->
  unfinished (<[l := v]> h) acts = unfinished h acts.
Proof.
  induction acts as [|a acts IH]; intros Hl; [reflexivity|].
  rewrite fmap_cons in Hl. apply not_elem_of_cons in Hl as [Hne Hl].
  cbn [unfinished]. rewrite lookup_insert_ne by auto. rewrite IH by auto.
  reflexivity.
Qed.

Lemma unfinished_app (h : gmap nat LaneState) (xs ys : list Activation) :
  unfinished h (xs ++ ys) = unfinished h xs ++ unfinished h ys.
Proof.
  induction xs as [|x xs IH]; [reflexivity|].
  cbn [app unfinished]. rewrite IH, <- !app_assoc. reflexivity.
Qed.

Lemma unfinished_elem (h : gmap nat LaneState) (acts : list Activation) a
  (p : nat) :
  a ∈ acts ->
  p = act_item a
  \/ p ∈ match h !! act_lane a with Some lane => queue lane | None => [] end ->
  p ∈ unfinished h acts.
Proof.
  induction acts as [|b acts IH]; intros Ha Hp; [inversion Ha|].
  cbn [unfinished]. apply elem_of_cons in Ha as [<-|Ha].
  - apply elem_of_app. left. destruct Hp as [->|Hp]; [left|right; exact Hp].
  - apply elem_of_app. right. auto.
Qed.

Lemma settlements_snoc (tr : list (Event V)) (es : list (Event V)) :
  settlements (tr ++ es) = settlements tr ++ settlements es.
Proof. unfold settlements. apply omap_app. Qed.

(** Whatever the tasks that remain do, the scheduler can run them all,
    and hands each its own outcome. *)
Lemma drain_all (outcome : nat -> Completion V) (n : nat) s :
  invariant s ->
  length (unfinished (heap s) (suspended s)) = n ->
  exists settles s' news,
    run settles s = Some s'
    /\ invariant s'
    /\ suspended s' = []
    /\ trace s `prefix_of` trace s'
    /\ settlements (trace s') = settlements (trace s) ++ news
    /\ (forall p, p ∈ unfinished (heap s) (suspended s) ->
          (p, outcome p) ∈ news)
    /\ Forall (fun x => x.2 = outcome x.1) news.
Proof.
  revert s. induction n as [|n IH]; intros s Hinv Hn.
  - destruct (suspended s) as [|a rest] eqn:Hs; [|discriminate].
    exists [], s, []. cbn [run unfinished]. rewrite app_nil_r.
    split; [reflexivity|]. split; [exact Hinv|]. split; [exact Hs|].
    split; [reflexivity|]. split; [reflexivity|].
    split; [intros p Hp; inversion Hp|constructor].
  - destruct (suspended s) as [|a rest] eqn:Hs; [discriminate|].
    assert (Hunpark : unpark (act_item a) (suspended s) = Some (a, rest)).
    { rewrite Hs. cbn. rewrite Nat.eqb_refl. reflexivity. }
    pose proof (invariant_settle s _ (outcome (act_item a)) a rest Hinv
                  Hunpark) as Hinv1.
    destruct (unpark_unparked _ _ _ _ Hinv Hunpark)
      as [_ Hin _ _ _ _ Hobj _ _ _].
    destruct (inv_running _ Hinv a Hin) as [_ [q Hq]].
    cbn [unfinished] in Hn. rewrite Hq in Hn. cbn [queue] in Hn.
    set (s1 := resume a (outcome (act_item a)) (set_suspended rest s)) in *.
    assert (Hstep : step (Settle (act_item a) (outcome (act_item a))) s
                    = Some s1).
    { cbn [step]. rewrite Hunpark. reflexivity. }
    assert (Hs1 : exists es,
              trace s1 = trace s ++ es
              /\ settlements es = [(act_item a, outcome (act_item a))]
              /\ length (unfinished (heap s1) (suspended s1)) = n
              /\ forall p, p ∈ q ++ unfinished (heap s) rest ->
                   p ∈ unfinished (heap s1) (suspended s1)).
    { subst s1. destruct q as [|next q].
      - rewrite (resume_last a _ (set_suspended rest s) true Hq).
        cbn [heap suspended trace set_suspended].
        rewrite unfinished_insert by exact Hobj.
        eexists. split; [reflexivity|].
        split; [destruct (outcome (act_item a)); reflexivity|].
        split; [cbn in Hn; lia|]. intros p Hp. exact Hp.
      - rewrite (resume_next a _ (set_suspended rest s) next q true Hq).
        cbn [heap suspended trace set_suspended].
        rewrite unfinished_app, unfinished_insert by exact Hobj.
        cbn [unfinished act_item act_lane]. rewrite lookup_insert_eq.
        cbn [queue]. rewrite app_nil_r.
        eexists. split; [reflexivity|].
        split; [destruct (outcome (act_item a)); reflexivity|].
        split.
        + rewrite length_app in *. cbn [length app] in *. lia.
        + intros p Hp. apply elem_of_app. apply elem_of_app in Hp.
          tauto. }
    destruct Hs1 as (es & Htr & Hes & Hlen & Hsub).
    destruct (IH s1 Hinv1 Hlen)
      as (settles & s' & news & Hrun & Hinv' & Hdone & Hpre & Hset & Hall
          & Hown).
    exists (Settle (act_item a) (outcome (act_item a)) :: settles), s',
      ((act_item a, outcome (act_item a)) :: news).
    cbn [run]. rewrite Hstep.
    split; [exact Hrun|]. split; [exact Hinv'|]. split; [exact Hdone|].
    split; [|split; [|split]].
    + etransitivity; [|exact Hpre]. rewrite Htr. apply prefix_app_r.
      reflexivity.
    + rewrite Hset, Htr, settlements_snoc, Hes, <- app_assoc. reflexivity.
    + intros p Hp. cbn [unfinished] in Hp. rewrite Hq in Hp.
      cbn [queue app] in Hp. apply elem_of_cons in Hp as [->|Hp]; [left|].
      right. apply Hall, Hsub, Hp.
    + constructor; [reflexivity|exact Hown].
Qed.

(** A promise is enqueued in one lane only. *)
Lemma enqueued_one_lane (tr : list (Event V)) k k' (p : nat) :
  NoDup (promises_of tr) ->
  p ∈ enqueued_in k tr -> p ∈ enqueued_in k' tr -> k = k'.
Proof.
  induction tr as [|e tr IH]; intros Hnd Hk Hk'; [inversion Hk|].
  assert (Hsub : forall key q, q ∈ enqueued_in key tr -> q ∈ promises_of tr).
  { intros key q Hq. eapply elem_of_sublist; [exact Hq|].
    apply enqueued_sublist. }
  destruct e as [key q| | | |]; try (apply IH; assumption).
  assert (Hcons : forall k0,
             enqueued_in k0 (Enqueued key q :: tr)
             = if decide (key = k0) then q :: enqueued_in k0 tr
               else enqueued_in k0 tr).
  { intros k0. unfold enqueued_in. cbn [omap list_omap].
    destruct (decide (key = k0)); reflexivity. }
  rewrite Hcons in Hk, Hk'.
  change (promises_of (Enqueued key q :: tr)) with (q :: promises_of tr) in Hnd.
  apply NoDup_cons in Hnd as [Hq Hnd].
  destruct (decide (key = k)) as [Heq|Hne];
    destruct (decide (key = k')) as [Heq'|Hne']; try congruence.
  - apply elem_of_cons in Hk as [->|Hk]; [|apply IH; assumption].
    destruct Hq. eapply Hsub, Hk'.
  - apply elem_of_cons in Hk' as [->|Hk']; [|apply IH; assumption].
    destruct Hq. eapply Hsub, Hk.
  - apply IH; assumption.
Qed.

(** The task an activation awaits is a task of its lane, started and
    not finished. *)
Lemma awaited_enqueued s a :
  invariant s -> a ∈ suspended s ->
  current (act_laneKey a) s = Some (act_item a)
  /\ act_item a ∈ enqueued_in (act_laneKey a) (trace s).
Proof.
  intros Hinv Hin.
  pose proof (activation_of_elem _ _ (inv_keys _ Hinv) Hin) as Ha.
  assert (Hcur : current (act_laneKey a) s = Some (act_item a))
    by (unfold current; rewrite Ha; reflexivity).
  split; [exact Hcur|].
  destruct (monitor_sound _ _ _ _ (inv_monitor _ Hinv (act_laneKey a)))
    as [Hfifo Hrunning _ _].
  rewrite Hfifo, Hrunning, Hcur.
  apply elem_of_app. left. apply elem_of_app. right.
  apply list_elem_of_singleton. reflexivity.
Qed.

(** No two activations await the same task. *)
Lemma items_unique s a b :
  invariant s -> a ∈ suspended s -> b ∈ suspended s ->
  act_item a = act_item b -> a = b.
Proof.
  intros Hinv Ha Hb Heq.
  destruct (awaited_enqueued s a Hinv Ha) as [_ Hea].
  destruct (awaited_enqueued s b Hinv Hb) as [_ Heb].
  rewrite Heq in Hea.
  assert (Hkey : act_laneKey a = act_laneKey b).
  { eapply enqueued_one_lane; [|exact Hea|exact Heb].
    rewrite (inv_promises _ Hinv). apply NoDup_seq. }
  pose proof (activation_of_elem _ _ (inv_keys _ Hinv) Ha) as Hact.
  pose proof (activation_of_elem _ _ (inv_keys _ Hinv) Hb) as Hact'.
  congruence.
Qed.

(** The running task of a lane is the one a settlement of its promise
    resumes. *)
Lemma unpark_current s k (p : nat) :
  invariant s -> current k s = Some p ->
  exists a rest,
    unpark p (suspended s) = Some (a, rest)
    /\ activation_of k (suspended s) = Some a
    /\ act_laneKey a = k /\ act_item a = p.
Proof.
  intros Hinv Hcur. unfold current in Hcur.
  destruct (activation_of k (suspended s)) as [a|] eqn:Ha; [|discriminate].
  injection Hcur as Hp.
  destruct (activation_of_Some _ _ _ Ha) as [Hin Hkey].
  assert (Hfound : forall acts,
             a ∈ acts -> exists b rest, unpark p acts = Some (b, rest)).
  { induction acts as [|c acts IH]; intros Hc; [inversion Hc|].
    cbn [unpark]. destruct (act_item c =? p)%nat eqn:E; [eauto|].
    apply elem_of_cons in Hc as [->|Hc].
    - rewrite Hp, Nat.eqb_refl in E. discriminate.
    - destruct (IH Hc) as (b & rest & ->). eauto. }
  destruct (Hfound _ Hin) as (b & rest & Hunpark).
  destruct (unpark_unparked _ _ _ _ Hinv Hunpark) as [Hb Hinb _ _ _ _ _ _ _ _].
  assert (b = a) as -> by (apply (items_unique s); auto; congruence).
  exists a, rest. auto.
Qed.

(** C1: in every state the scheduler can reach, the tasks of a lane
    have started in the order in which they were enqueued, each under a
    promise of its own; none of them started before all those started
    earlier in the lane had finished; and a task enqueued in a lane all
    of whose tasks have finished starts within the call that enqueues
    it, whatever runs or waits in the lanes of other keys.  The lane
    does run its tasks: as long as one of them has not finished, one
    is running, the first of those that have not finished; when the
    running task settles, with a result or with an error, the task
    enqueued next starts in the same step; and the tasks that remain
    can all be run, each settling with the outcome chosen for it,
    which starts every task enqueued in the lane, in the order of the
    enqueues. *)
Theorem lane_fifo_serial (inputs : list (Input V)) s k :
  run inputs initial = Some s ->
  started_in k (trace s) `prefix_of` enqueued_in k (trace s)
  /\ NoDup (enqueued_in k (trace s))
  /\ no_overlap k (trace s)
  /\ (enqueued_in k (trace s) = finished_in k (trace s) ->
      trace (snd (enqueueInLane k s))
      = trace s ++ [Enqueued k (next_promise s);
                    Started k (next_promise s)])
  /\ (enqueued_in k (trace s) <> finished_in k (trace s) ->
      exists p,
        current k s = Some p
        /\ started_in k (trace s) = finished_in k (trace s) ++ [p]
        /\ enqueued_in k (trace s) = started_in k (trace s) ++ pending k s)
  /\ (forall p outcome,
        current k s = Some p ->
        exists s',
          step (Settle p outcome) s = Some s'
          /\ finished_in k (trace s') = finished_in k (trace s) ++ [p]
          /\ enqueued_in k (trace s') = enqueued_in k (trace s)
          /\ match pending k s with
             | next :: waiting =>
                 started_in k (trace s') = started_in k (trace s) ++ [next]
                 /\ current k s' = Some next
                 /\ pending k s' = waiting
             | [] =>
                 started_in k (trace s') = started_in k (trace s)
                 /\ current k s' = None
             end)
  /\ (forall outcome : nat -> Completion V,
        exists settles s',
          run settles s = Some s'
          /\ enqueued_in k (trace s) `prefix_of` started_in k (trace s')
          /\ finished_in k (trace s') = started_in k (trace s')
          /\ exists news,
               settlements (trace s') = settlements (trace s) ++ news
               /\ Forall (fun x => x.2 = outcome x.1) news).
Proof.
  intros Hrun.
  pose proof (invariant_run inputs _ _ invariant_initial Hrun) as Hinv.
  destruct (monitor_sound _ _ _ _ (inv_monitor _ Hinv k))
    as [Hfifo Hrunning Hserial _].
  split; [|split; [|split; [|split; [|split; [|split]]]]].
  - rewrite Hfifo. apply prefix_app_r. reflexivity.
  - eapply sublist_NoDup; [|apply enqueued_sublist].
    rewrite (inv_promises _ Hinv). apply NoDup_seq.
  - exact Hserial.
  - intros Hdone. rewrite Hfifo, Hrunning in Hdone.
    rewrite <- app_assoc in Hdone.
    rewrite <- (app_nil_r (finished_in k (trace s))) in Hdone at 2.
    apply app_inv_head in Hdone. apply app_eq_nil in Hdone as [Hcur _].
    unfold current in Hcur.
    assert (Hk : lanes s !! k = None).
    { rewrite (inv_lanes _ Hinv).
      destruct (activation_of k (suspended s)); [discriminate|reflexivity]. }
    rewrite (enqueue_idle s k Hk). reflexivity.
  - intros Hleft. destruct (current k s) as [p|] eqn:Hcur.
    + exists p. auto.
    + destruct Hleft. rewrite Hfifo, Hrunning. cbn [option_list].
      unfold current in Hcur. unfold pending.
      destruct (activation_of k (suspended s)); [discriminate|].
      rewrite !app_nil_r. reflexivity.
  - intros p outcome Hcur.
    destruct (unpark_current s k p Hinv Hcur)
      as (a & rest & Hunpark & Hact & Hkey & Hitem).
    destruct (unpark_unparked _ _ _ _ Hinv Hunpark)
      as [_ Hin _ _ _ _ _ _ Hgone _].
    destruct (inv_running _ Hinv a Hin) as [_ [q Hq]].
    eexists. split; [cbn [step]; rewrite Hunpark; reflexivity|].
    unfold pending at 1, queue_at. rewrite Hact, Hq. cbn [queue].
    assert (Hevents : forall es,
               finished_in k (trace s ++ Finished k p
                                :: settle_event p outcome :: es)
               = finished_in k (trace s) ++ p :: finished_in k es
               /\ enqueued_in k (trace s ++ Finished k p
                                   :: settle_event p outcome :: es)
                  = enqueued_in k (trace s) ++ enqueued_in k es
               /\ started_in k (trace s ++ Finished k p
                                  :: settle_event p outcome :: es)
                  = started_in k (trace s) ++ started_in k es).
    { intros es. unfold finished_in, enqueued_in, started_in.
      rewrite !omap_app. cbn [omap list_omap].
      rewrite decide_True by reflexivity.
      destruct outcome; cbn [settle_event]; auto. }
    rewrite Hkey in Hgone.
    destruct q as [|next q].
    + rewrite (resume_last a _ (set_suspended rest s) true Hq).
      unfold current. cbn [heap lanes suspended trace set_suspended].
      rewrite Hkey, Hitem, Hgone.
      destruct (Hevents []) as (-> & -> & ->). cbn. rewrite !app_nil_r. auto.
    + rewrite (resume_next a _ (set_suspended rest s) next q true Hq).
      unfold current, pending, queue_at.
      cbn [heap lanes suspended trace set_suspended].
      rewrite Hkey, Hitem.
      destruct (Hevents [Started k next]) as (-> & -> & ->).
      rewrite activation_of_app, Hgone. cbn [activation_of act_laneKey].
      rewrite decide_True by reflexivity. cbn [act_lane act_item fmap
        option_fmap option_map].
      rewrite lookup_insert_eq. cbn.
      rewrite decide_True by reflexivity. rewrite !app_nil_r. auto.
  - intros outcome.
    destruct (drain_all outcome _ s Hinv eq_refl)
      as (settles & s' & news & Hrun' & Hinv' & Hdone & [ext Hext] & Hnews
          & _ & Hall).
    exists settles, s'. split; [exact Hrun'|].
    destruct (monitor_sound _ _ _ _ (inv_monitor _ Hinv' k))
      as [Hfifo' Hrunning' _ _].
    unfold current, pending in Hfifo', Hrunning'.
    rewrite Hdone in Hfifo', Hrunning'. cbn in Hfifo', Hrunning'.
    rewrite app_nil_r in Hfifo', Hrunning'.
    split; [|split; [congruence|exists news; auto]].
    rewrite <- Hfifo', Hext. exists (enqueued_in k ext).
    unfold enqueued_in. apply omap_app.
Qed.

(** C5: when the task that a lane awaits throws, the error is handed
    to the promise of that task and to no other, and in the same step
    the next task of the lane, if one waits, is started (otherwise the
    lane is released).  And from every reachable state, whichever of
    the remaining tasks fail, the scheduler can run all of them: every
    task enqueued and not yet finished is started and its promise is
    settled with the outcome of that very task. *)
Theorem lane_failure_isolated (inputs : list (Input V)) s :
  run inputs initial = Some s ->
  (forall p a rest error,
     unpark p (suspended s) = Some (a, rest) ->
     exists s',
       step (Settle p (Throw error)) s = Some s'
       /\ act_item a = p
       /\ settlements (trace s')
          = settlements (trace s) ++ [(p, Throw error)]
       /\ match pending (act_laneKey a) s with
          | next :: waiting =>
              trace s'
              = trace s ++ [Finished (act_laneKey a) p; Rejected p error;
                            Started (act_laneKey a) next]
              /\ current (act_laneKey a) s' = Some next
              /\ pending (act_laneKey a) s' = waiting
          | [] =>
              trace s'
              = trace s ++ [Finished (act_laneKey a) p; Rejected p error]
              /\ lanes s' !! act_laneKey a = None
          end)
  /\ (forall outcome : nat -> Completion V,
        exists settles s',
          run settles s = Some s'
          /\ lanes s' = ∅
          /\ (forall k,
                started_in k (trace s') = enqueued_in k (trace s')
                /\ finished_in k (trace s') = started_in k (trace s'))
          /\ (forall k p,
                p ∈ enqueued_in k (trace s) ->
                p ∉ finished_in k (trace s) ->
                (p, outcome p) ∈ settlements (trace s'))
          /\ (forall p o,
                (p, o) ∈ settlements (trace s') ->
                (p, o) ∈ settlements (trace s) \/ o = outcome p)).
Proof.
  intros Hrun.
  pose proof (invariant_run inputs _ _ invariant_initial Hrun) as Hinv.
  split.
  - intros p a rest error Hunpark.
    destruct (unpark_unparked _ _ _ _ Hinv Hunpark)
      as [Hp Hin _ _ _ _ _ Hself Hgone _].
    destruct (inv_running _ Hinv a Hin) as [_ [q Hq]].
    eexists. split; [cbn [step]; rewrite Hunpark; reflexivity|].
    split; [exact Hp|].
    unfold pending at 1, queue_at. rewrite Hself, Hq. cbn [queue]. subst p.
    destruct q as [|next q].
    + rewrite (resume_last a _ (set_suspended rest s) true Hq).
      cbn [heap lanes suspended trace set_suspended].
      split; [rewrite settlements_snoc; reflexivity|].
      split; [reflexivity|]. apply lookup_delete_eq.
    + rewrite (resume_next a _ (set_suspended rest s) next q true Hq).
      unfold current, pending, queue_at.
      cbn [heap lanes suspended trace set_suspended].
      rewrite activation_of_app, Hgone. cbn [activation_of act_laneKey].
      rewrite decide_True by reflexivity. cbn [act_lane].
      rewrite lookup_insert_eq.
      split; [rewrite settlements_snoc; reflexivity|].
      split; [reflexivity|]. split; reflexivity.
  - intros outcome.
    destruct (drain_all outcome _ s Hinv eq_refl)
      as (settles & s' & news & Hrun' & Hinv' & Hdone & Hpre & Hset & Hall
          & Hown).
    exists settles, s'. split; [exact Hrun'|].
    split; [|split; [|split]].
    + apply map_empty. intros k. rewrite (inv_lanes _ Hinv' k), Hdone.
      reflexivity.
    + intros k.
      destruct (monitor_sound _ _ _ _ (inv_monitor _ Hinv' k))
        as [Hfifo Hrunning _ _].
      unfold current, pending in Hfifo, Hrunning.
      rewrite Hdone in Hfifo, Hrunning. cbn in Hfifo, Hrunning.
      rewrite app_nil_r in Hfifo, Hrunning. auto.
    + intros k p Henq Hfin. rewrite Hset. apply elem_of_app. right.
      apply Hall.
      destruct (monitor_sound _ _ _ _ (inv_monitor _ Hinv k))
        as [Hfifo Hrunning _ _].
      rewrite Hfifo, Hrunning in Henq. unfold current, pending, queue_at in Henq.
      destruct (activation_of k (suspended s)) as [a|] eqn:Ha.
      2:{ cbn in Henq. rewrite !app_nil_r in Henq. contradiction. }
      destruct (activation_of_Some _ _ _ Ha) as [Hin _].
      apply (unfinished_elem _ _ a); [exact Hin|].
      cbn in Henq. rewrite <- app_assoc in Henq.
      apply elem_of_app in Henq as [Henq|Henq]; [contradiction|].
      apply elem_of_cons in Henq as [->|Henq]; [left; reflexivity|].
      right. exact Henq.
    + intros p o Hpo. rewrite Hset in Hpo.
      apply elem_of_app in Hpo as [Hpo|Hpo]; [left; exact Hpo|right].
      rewrite Forall_forall in Hown. apply (Hown _ Hpo).
Qed.

End Steps.

End LanesFacts.

Module ScenarioFacts.

Import Runner RunnerSpec Daemon DaemonSpec RunnerFacts DaemonFacts LanesFacts
  Scenarios.

(** Against C2 as stated: the backend produces the text "working" with a
    tool call in each of the 25 iterations, and the turn returns the
    empty string, not that text. *)
Lemma capped_turn_returns_empty :
  exists w' result,
    runAnthropicAgentTurn busy_backend bare_context [] empty_world
      = (w', Normal result)
    /\ length (requests w') = 25%nat
    /\ content <$> turn_newMessages result !! 48%nat = Some (str "working")
    /\ response result = []
    /\ response result <> str "working".
Proof.
  eexists _, _. split; [vm_compute; reflexivity|].
  repeat split. discriminate.
Qed.

Lemma anthropic_turn_capped_witness :
  (forall i req, (i < 25)%nat -> keeps_going (busy_backend i req))
  /\ exists w' result new,
       runAnthropicAgentTurnWith 25 busy_backend bare_context [] empty_world
         = (w', Normal result)
       /\ requests w' = requests empty_world ++ new
       /\ length new = 25%nat
       /\ response result = []
       /\ length (turn_newMessages result) = (2 * 25)%nat
       /\ (forall k, (k < 25)%nat ->
             exists req results,
               new !! k = Some (k, req)
               /\ turn_newMessages result !! (2 * k)%nat
                  = Some (reply_message (busy_backend k req))
               /\ turn_newMessages result !! (2 * k + 1)%nat
                  = Some (carrier_message results)
               /\ length results = length (reply_calls (busy_backend k req)))
       /\ runAnthropicAgentTurn = runAnthropicAgentTurnWith 25.
Proof.
  assert (H : forall i req, (i < 25)%nat -> keeps_going (busy_backend i req)).
  { intros i req _. eexists. split; [reflexivity|].
    split; [discriminate|reflexivity]. }
  split; [exact H|].
  exact (anthropic_turn_capped 25 busy_backend bare_context [] empty_world H).
Defined.

(** Against C3 as stated: the backend fails the only request of a run in
    a new session, and the messages returned do not hold the user turn;
    it fails the second request of another run, after a round of tool
    calls, and the messages returned hold neither the user turn nor
    the two messages of that round. *)
Lemma failed_run_returns_stored_history :
  (exists result,
     run_hello down_backend
     = ({| observed := []; requests := [(0%nat, [user_message hello])];
           files := ∅; disk_error := None |},
        Normal result)
     /\ anthropic_failure (down_backend 0%nat [user_message hello])
        = Some (str "429 rate_limit_error")
     /\ (kind <$> r_error result) = Some (str "rate_limit")
     /\ r_messages result = []
     /\ user_message hello ∉ r_messages result)
  /\ (exists w' result,
        run_hello flaky_backend = (w', Normal result)
        /\ length (requests w') = 2%nat
        /\ (kind <$> r_error result) = Some (str "rate_limit")
        /\ r_messages result = []).
Proof.
  split.
  - eexists. split; [vm_compute; reflexivity|].
    split; [reflexivity|]. split; [reflexivity|]. split; [reflexivity|].
    intros H. inversion H.
  - eexists _, _. split; [vm_compute; reflexivity|]. repeat split.
Qed.

Lemma backend_failure_surfaces_witness :
  exists answered,
    requests (fst (run_hello down_backend))
    = requests empty_world ++ answered ++ [(0%nat, [user_message hello])]
    /\ Forall
         (fun entry =>
            call_failure (clients_with down_backend) (run_provider hello) entry
            = None)
         answered
    /\ snd (run_hello down_backend)
       = Normal
           {| r_response := [];
              r_messages := stored_messages join_with_slash hello empty_world;
              r_usage := None;
              r_error :=
                Some (classify (str "429 rate_limit_error") (run_model hello)
                        (run_provider hello)) |}.
Proof.
  apply (backend_failure_surfaces parse_any join_with_slash
           (clients_with down_backend) [] no_message hello empty_world
           0%nat [user_message hello] (str "429 rate_limit_error")).
  - vm_compute. left.
  - reflexivity.
Defined.

(** Against C4 as stated: the reply carries the finish reason [stop]
    together with a tool call; the OpenAI loop does not stop there but
    goes on to the next request, and does so until the cap. *)
Lemma openai_loop_ignores_finish_reason :
  chunk_finish_reason stop_chunk = Some (str "stop")
  /\ (exists w' st',
        openai_iteration parse_any stopping_backend bare_context []
          initial_loop_state empty_world
        = (w', Normal (Continue, st')))
  /\ (exists w' result,
        runOpenAIAgentTurn parse_any stopping_backend bare_context []
          empty_world
        = (w', Normal result)
        /\ length (requests w') = 25%nat
        /\ response result = []).
Proof.
  split; [reflexivity|]. split.
  - eexists _, _. vm_compute. reflexivity.
  - eexists _, _. split; [vm_compute; reflexivity|]. split; reflexivity.
Qed.

Lemma unknown_tool_recovered_witness :
  unregistered bare_context (tc_name nope_call)
  /\ (forall w,
        executeTool bare_context (tc_name nope_call) (tc_arguments nope_call) w
        = (w, Normal {| ter_content := unknown_tool_message (tc_name nope_call);
                        ter_isError := Some true |}))
  /\ exists w' st' toolResults text,
       anthropic_iteration busy_backend bare_context [] initial_loop_state
         empty_world
       = (w', Normal (Continue, st'))
       /\ toolResults !! 0%nat = Some (unknown_tool_result nope_call)
       /\ newMessages st'
          = [assistant_message text [nope_call]; carrier_message toolResults]
       /\ anthropic_loop busy_backend bare_context [] 25 initial_loop_state
            empty_world
          = anthropic_loop busy_backend bare_context [] 24 st' w'.
Proof.
  assert (H : unregistered bare_context (tc_name nope_call)).
  { intros t Ht. inversion Ht. }
  destruct (unknown_tool_recovered bare_context nope_call H)
    as (Hexec & _ & Hloop & _).
  split; [exact H|]. split; [exact Hexec|].
  exact (Hloop busy_backend [] initial_loop_state empty_world _ 0%nat 24%nat
           eq_refl eq_refl eq_refl).
Defined.

(** Against C6 as stated: a run of a session settles, the next run of
    the same session starts while the clock still reads the same
    millisecond, and it is given the id the first one had. *)
Lemma runId_collision :
  exists d1 d2 d3 id1 id2 result,
    run_begin plain_config quiet hello_options 1000 1000 Daemon.initial
      = (d1, Normal id1)
    /\ run_guarded quiet id1 (str "s1") (Eff.ret fine_result) d1
       = (d2, Normal result)
    /\ run_begin plain_config quiet hello_options 1000 1000 d2
       = (d3, Normal id2)
    /\ id1 = id2.
Proof.
  eexists _, _, _, _, _, _.
  split; [vm_compute; reflexivity|].
  split; [vm_compute; reflexivity|].
  split; [vm_compute; reflexivity|]. reflexivity.
Qed.

Lemma run_entry_lifecycle_witness :
  exists d1 runId,
    run_begin plain_config quiet hello_options 1000 1000 Daemon.initial
      = (d1, Normal runId)
    /\ runId = make_runId (o_sessionId hello_options) 1000
    /\ map_get runId (activeRuns d1)
       = Some (registered plain_config hello_options 1000)
    /\ forall agent,
         map_get runId
           (activeRuns
              (fst (run_task plain_config quiet hello_options 1000 1000
                      agent Daemon.initial)))
         = None.
Proof.
  eexists _, _. split; [vm_compute; reflexivity|].
  match goal with |- ?id = _ /\ _ =>
    destruct (run_entry_lifecycle plain_config quiet hello_options 1000 1000
                Daemon.initial _ id eq_refl) as (H1 & H2 & _ & H4 & _)
  end.
  split; [exact H1|]. split; [exact H2|exact H4].
Defined.

(** A run on a stored history of sixty messages: the request carries
    fifty of them and the prompt, and fifty-two messages are returned
    and saved. *)
Lemma history_limited_witness :
  2 <= 50
  /\ exists w' result rest session,
       runAgent parse_any join_with_slash (clients_with RunSpec.answering_backend) []
         no_message hello long_world
       = (w', Normal result)
       /\ length (stored_messages join_with_slash hello long_world) = 60%nat
       /\ requests w'
          = (0%nat,
             SessionManager.limitHistoryTurns no_message
               (stored_messages join_with_slash hello long_world) 50
             ++ [user_message hello]) :: rest
       /\ length (r_messages result) = 52%nat
       /\ files w' !! session_file join_with_slash hello
          = Some (Holds session)
       /\ sd_messages session = r_messages result.
Proof.
  split; [lia|].
  destruct (history_limited parse_any join_with_slash
              (clients_with RunSpec.answering_backend) [] no_message sixty_messages 50
              ltac:(lia)) as (_ & _ & _ & Hfirst & Hsaved).
  specialize (Hfirst hello long_world).
  specialize (Hsaved hello long_world). cbv zeta in Hfirst, Hsaved.
  destruct (runAgent parse_any join_with_slash (clients_with RunSpec.answering_backend) []
              no_message hello long_world) as [w' completion] eqn:Hrun.
  assert (Hload : load_failure join_with_slash hello long_world = None)
    by (vm_compute; reflexivity).
  rewrite Hload in Hfirst. destruct Hfirst as [rest Hrest].
  assert (Hok : exists result,
            completion = Normal result /\ r_error result = None
            /\ length (r_messages result) = 52%nat).
  { apply (f_equal snd) in Hrun. cbn [snd] in Hrun. rewrite <- Hrun.
    eexists. split; [vm_compute; reflexivity|]. split; reflexivity. }
  destruct Hok as (result & -> & Hnone & Hlen).
  destruct (Hsaved result eq_refl Hnone) as (new & session & _ & Hfile & Hmsgs).
  exists w', result, rest, session.
  split; [reflexivity|]. split; [vm_compute; reflexivity|].
  split; [exact Hrest|]. split; [exact Hlen|]. split; assumption.
Defined.

(** Two tasks in lane [a], the first of which has failed: the second
    is running, and the lane is done once it settles. *)
Lemma lane_fifo_serial_witness :
  exists s,
    Lanes.run lane_inputs Lanes.initial = Some s
    /\ Lanes.started_in (str "a") (Lanes.trace s)
       `prefix_of` Lanes.enqueued_in (str "a") (Lanes.trace s)
    /\ NoDup (Lanes.enqueued_in (str "a") (Lanes.trace s))
    /\ Lanes.no_overlap (str "a") (Lanes.trace s)
    /\ Lanes.current (str "a") s = Some 1%nat
    /\ exists s',
         Lanes.step (Lanes.Settle 1 (Normal 7%nat)) s = Some s'
         /\ Lanes.finished_in (str "a") (Lanes.trace s') = [0; 1]%nat
         /\ Lanes.current (str "a") s' = None.
Proof.
  eexists. split; [vm_compute; reflexivity|].
  match goal with |- context [Lanes.trace ?s] =>
    destruct (lane_fifo_serial lane_inputs s (str "a"))
      as (H1 & H2 & H3 & _ & _ & Hsettle & _)
  end.
  - vm_compute. reflexivity.
  - split; [exact H1|]. split; [exact H2|]. split; [exact H3|].
    split; [vm_compute; reflexivity|].
    destruct (Hsettle 1%nat (Normal 7%nat)) as (s' & Hstep & Hfin & _ & Hnext);
      [vm_compute; reflexivity|].
    exists s'. split; [exact Hstep|]. split; [rewrite Hfin; reflexivity|].
    exact (proj2 Hnext).
Defined.

Lemma lane_failure_isolated_witness :
  exists s,
    Lanes.run lane_inputs Lanes.initial = Some s
    /\ (exists s',
          Lanes.step (Lanes.Settle 1 (Throw (str "bang"))) s = Some s'
          /\ Lanes.settlements (Lanes.trace s')
             = Lanes.settlements (Lanes.trace s) ++ [(1%nat, Throw (str "bang"))])
    /\ forall outcome : nat -> Completion nat,
         exists settles s',
           Lanes.run settles s = Some s'
           /\ Lanes.lanes s' = ∅.
Proof.
  eexists. split; [vm_compute; reflexivity|].
  match goal with |- context [Lanes.run _ ?s] =>
    destruct (lane_failure_isolated lane_inputs s) as [Hfail Hdrain]
  end.
  - vm_compute. reflexivity.
  - split.
    + edestruct (Hfail 1%nat) as (s' & Hstep & _ & Hsettle & _);
        [vm_compute; reflexivity|].
      exists s'. split; [exact Hstep|exact Hsettle].
    + intros outcome.
      destruct (Hdrain outcome) as (settles & s' & Hrun & Hlanes & _).
      exists settles, s'. auto.
Defined.

(** The scenario of the witnesses, step by step: the second task of
    lane [a] waits for the first; the task of lane [b] starts while the
    first task of lane [a] is still running; the failure of that task is
    handed to its own promise and the second task of the lane starts. *)
Example lane_inputs_trace :
  Lanes.trace <$> Lanes.run lane_inputs Lanes.initial
  = Some [Lanes.Enqueued (str "a") 0; Lanes.Started (str "a") 0;
          Lanes.Enqueued (str "a") 1;
          Lanes.Enqueued (str "b") 2; Lanes.Started (str "b") 2;
          Lanes.Finished (str "a") 0; Lanes.Rejected 0 (str "boom");
          Lanes.Started (str "a") 1].
Proof. vm_compute. reflexivity. Qed.

(** C8 (where the code misses it): a subscriber of [run:start] throws.
    [emit] stands between [activeRuns.set] and the [try]: the lane task
    rejects with the error of the listener before [runAgent] is called,
    the [finally] block is never entered, and the entry of the run
    stays in the map.  Once the promise of [run] has been rejected and
    the lane released, the entry is still there and [getActiveRuns]
    still reports the run. *)
Theorem throwing_start_listener_leaves_entry :
  (forall agent,
     exists d,
       run_task plain_config start_hater hello_options 1000 1000 agent
         Daemon.initial
       = (d, Throw (str "listener failed"))
       /\ map_get (make_runId (str "s1") 1000) (activeRuns d)
          = Some (registered plain_config hello_options 1000)
       /\ emitted d = [RunStart (str "s1:1000") (str "s1") anthropic])
  /\ exists sys,
       Orchestrator.run_system plain_config start_hater
         [Orchestrator.CallRun hello_options 1000 1000;
          Orchestrator.TaskSettled 0 1001 1001]
         Orchestrator.initial_system
       = Some sys
       /\ Lanes.settlements (Lanes.trace (Orchestrator.sched sys))
          = [(0%nat, Throw (str "listener failed"))]
       /\ Lanes.lanes (Orchestrator.sched sys) = ∅
       /\ map_get (str "s1:1000") (activeRuns (Orchestrator.daemon sys))
          = Some (registered plain_config hello_options 1000)
       /\ DaemonQueries.getActiveRuns (Orchestrator.daemon sys)
          = [{| DaemonQueries.ri_runId := str "s1:1000";
                DaemonQueries.ri_sessionId := str "s1";
                DaemonQueries.ri_startedAt := 1000;
                DaemonQueries.ri_provider := anthropic |}].
Proof.
  split.
  - intros agent. eexists. split; [vm_compute; reflexivity|].
    split; vm_compute; reflexivity.
  - eexists. split; [vm_compute; reflexivity|].
    repeat split; vm_compute; reflexivity.
Qed.

End ScenarioFacts.

(** ** More on the lane scheduler *)

Module LaneStatsFacts.

Import Lanes LaneStats JSFacts LanesFacts.

Section Accounting.

Context {V : Type}.

Implicit Types (s : State V) (k : js_string) (a : Activation).

Lemma unfinished_split (h : gmap nat LaneState) (pre post : list Activation)
  a :
  unfinished h (pre ++ a :: post)
  = unfinished h pre
    ++ (act_item a ::
        match h !! act_lane a with Some lane => queue lane | None => [] end)
    ++ unfinished h post.
Proof. rewrite unfinished_app. reflexivity. Qed.

Lemma unfinished_length (h : gmap nat LaneState) (acts : list Activation) :
  length (unfinished h acts)
  = (length acts
     + sum_list_with
         (fun a => length (match h !! act_lane a with
                           | Some lane => queue lane
                           | None => []
                           end)) acts)%nat.
Proof.
  induction acts as [|a acts IH]; [reflexivity|].
  cbn [unfinished sum_list_with length]. rewrite length_app, IH.
  cbn [length]. lia.
Qed.

Lemma split_objects (pre post : list Activation) a :
  NoDup (act_lane <$> pre ++ a :: post) ->
  (act_lane a ∉ act_lane <$> pre) /\ (act_lane a ∉ act_lane <$> post).
Proof.
  rewrite fmap_app, fmap_cons. intros H.
  apply NoDup_app in H as (_ & Hpre & Hpost).
  apply NoDup_cons in Hpost as [Hpost _]. split; [|exact Hpost].
  intros Hin. apply (Hpre _ Hin). left.
Qed.

Lemma trace_counts (tr es : list (Event V)) :
  started_all (tr ++ es) = started_all tr ++ started_all es
  /\ finished_all (tr ++ es) = finished_all tr ++ finished_all es
  /\ settled (tr ++ es) = settled tr ++ settled es.
Proof.
  unfold started_all, finished_all, settled, settlements.
  rewrite !omap_app, fmap_app. auto.
Qed.

Lemma settled_event (p : nat) (outcome : Completion V) :
  settled [settle_event p outcome] = [p].
Proof. destruct outcome; reflexivity. Qed.

Lemma accounted_enqueue s k :
  invariant s -> conserved s /\ counted s ->
  conserved (snd (enqueueInLane k s)) /\ counted (snd (enqueueInLane k s)).
Proof.
  intros Hinv [Hcons [Hstart Hfin]]. unfold conserved, counted in *.
  destruct (lanes s !! k) as [l|] eqn:Hk.
  - destruct (live_lane s k l Hinv Hk) as (a & q & Ha & Hin & Hkey & Hl & Hq).
    rewrite (enqueue_busy s k l q Hk Hq).
    cbn [snd heap suspended next_promise trace].
    destruct (trace_counts (trace s) [Enqueued k (next_promise s)])
      as (-> & -> & ->).
    change (started_all [Enqueued k (next_promise s)]) with (@nil nat).
    change (finished_all [Enqueued k (next_promise s)]) with (@nil nat).
    change (settled [Enqueued k (next_promise s)]) with (@nil nat).
    rewrite !app_nil_r. split; [|auto].
    apply list_elem_of_split in Hin as (pre & post & Hsplit).
    pose proof (inv_objects _ Hinv) as Hobj. rewrite Hsplit in Hobj.
    apply split_objects in Hobj as [Hpre Hpost]. rewrite Hl in Hpre, Hpost.
    rewrite Hsplit in Hcons |- *. rewrite unfinished_split in Hcons |- *.
    rewrite !unfinished_insert by assumption.
    rewrite Hl, lookup_insert_eq. rewrite Hl, Hq in Hcons.
    cbn [queue] in *. rewrite seq_S, <- Hcons. cbn [Nat.add].
    solve_Permutation.
  - rewrite (enqueue_idle s k Hk).
    cbn [snd heap suspended next_promise trace].
    destruct (trace_counts (trace s)
                [Enqueued k (next_promise s); Started k (next_promise s)])
      as (-> & -> & ->).
    change (started_all [Enqueued k (next_promise s);
                         Started k (next_promise s)])
      with [next_promise s].
    change (finished_all [Enqueued k (next_promise s);
                          Started k (next_promise s)]) with (@nil nat).
    change (settled [Enqueued k (next_promise s);
                     Started k (next_promise s)]) with (@nil nat).
    rewrite !app_nil_r, !length_app. cbn [length]. split; [|split; lia].
    rewrite unfinished_app, unfinished_insert.
    2:{ intros Hin. apply list_elem_of_fmap in Hin as (a & Heq & Ha).
        destruct (inv_running _ Hinv a Ha) as [Hlt _]. lia. }
    cbn [unfinished act_item act_lane]. rewrite lookup_insert_eq.
    cbn [queue]. rewrite seq_S, <- Hcons. cbn [Nat.add].
    solve_Permutation.
Qed.

Lemma accounted_settle s (p : nat) (outcome : Completion V) a
  (rest : list Activation) :
  invariant s -> conserved s /\ counted s ->
  unpark p (suspended s) = Some (a, rest) ->
  conserved (resume a outcome (set_suspended rest s))
  /\ counted (resume a outcome (set_suspended rest s)).
Proof.
  intros Hinv [Hcons [Hstart Hfin]] Hunpark. unfold conserved, counted in *.
  destruct (unpark_spec _ _ _ _ Hunpark) as (Hp & pre & post & Hsplit & ->).
  pose proof (inv_objects _ Hinv) as Hobj. rewrite Hsplit in Hobj.
  apply split_objects in Hobj as [Hpre Hpost].
  assert (Hin : a ∈ suspended s).
  { rewrite Hsplit. apply elem_of_app. right. left. }
  destruct (inv_running _ Hinv a Hin) as [_ [q Hq]].
  rewrite Hsplit in Hcons, Hstart. rewrite unfinished_split, Hq in Hcons.
  cbn [queue] in Hcons. rewrite length_app in Hstart. cbn [length] in Hstart.
  destruct q as [|next q].
  - rewrite (resume_last a outcome (set_suspended (pre ++ post) s) true Hq).
    cbn [heap suspended next_promise trace set_suspended].
    destruct (trace_counts (trace s)
                [Finished (act_laneKey a) (act_item a);
                 settle_event (act_item a) outcome]) as (-> & -> & ->).
    change (settled [Finished (act_laneKey a) (act_item a);
                     settle_event (act_item a) outcome])
      with (settled [settle_event (act_item a) outcome]).
    rewrite settled_event.
    replace (started_all [_; _]) with (@nil nat)
      by (destruct outcome; reflexivity).
    replace (finished_all [_; _]) with [act_item a]
      by (destruct outcome; reflexivity).
    rewrite !app_nil_r, !length_app. cbn [length]. split; [|split; lia].
    rewrite unfinished_app, !unfinished_insert by assumption.
    rewrite <- Hcons. solve_Permutation.
  - rewrite (resume_next a outcome (set_suspended (pre ++ post) s) next q true
               Hq).
    cbn [heap suspended next_promise trace set_suspended].
    destruct (trace_counts (trace s)
                [Finished (act_laneKey a) (act_item a);
                 settle_event (act_item a) outcome;
                 Started (act_laneKey a) next]) as (-> & -> & ->).
    change (settled [Finished (act_laneKey a) (act_item a);
                     settle_event (act_item a) outcome;
                     Started (act_laneKey a) next])
      with (settled [settle_event (act_item a) outcome]).
    rewrite settled_event.
    replace (started_all [_; _; _]) with [next]
      by (destruct outcome; reflexivity).
    replace (finished_all [_; _; _]) with [act_item a]
      by (destruct outcome; reflexivity).
    rewrite !length_app. cbn [length]. split; [|split; lia].
    rewrite !unfinished_app, !unfinished_insert by assumption.
    cbn [unfinished act_item act_lane]. rewrite lookup_insert_eq.
    cbn [queue]. rewrite <- Hcons. solve_Permutation.
Qed.

Lemma accounted_run (inputs : list (Input V)) s s' :
  invariant s -> conserved s /\ counted s ->
  run inputs s = Some s' -> conserved s' /\ counted s'.
Proof.
  revert s. induction inputs as [|i inputs IH]; intros s Hinv Hacc H;
    cbn [run] in H.
  - injection H as <-. exact Hacc.
  - destruct (step i s) as [s1|] eqn:Hstep; [|discriminate].
    eapply IH; [eapply invariant_step; eauto| |exact H].
    destruct i as [k|p outcome]; cbn [step] in Hstep.
    + injection Hstep as <-. apply accounted_enqueue; assumption.
    + destruct (unpark p (suspended s)) as [[a rest]|] eqn:Hunpark;
        [|discriminate].
      injection Hstep as <-. eapply accounted_settle; eauto.
Qed.

Lemma accounted_initial : conserved (@initial V) /\ counted (@initial V).
Proof.
  split; [unfold conserved; cbn; reflexivity|]. split; reflexivity.
Qed.

(** X1: the promises handed out are numbered from 0 in the order of the
    calls; each of them is either settled, exactly once, or belongs to
    a task that is running or waiting, never both: no task is lost and
    no promise is settled twice. *)
Theorem promises_conserved (inputs : list (Input V)) s :
  run inputs initial = Some s ->
  promises_of (trace s) = seq 0 (next_promise s)
  /\ settled (trace s) ++ unfinished (heap s) (suspended s)
     ≡ₚ seq 0 (next_promise s)
  /\ NoDup (settled (trace s))
  /\ (forall p, p ∈ settled (trace s) ->
        p ∉ unfinished (heap s) (suspended s)).
Proof.
  intros Hrun.
  pose proof (invariant_run inputs _ _ invariant_initial Hrun) as Hinv.
  destruct (accounted_run inputs _ _ invariant_initial accounted_initial Hrun)
    as [Hcons _].
  unfold conserved in Hcons.
  assert (Hnd : NoDup (settled (trace s)
                       ++ unfinished (heap s) (suspended s))).
  { rewrite Hcons. apply NoDup_seq. }
  apply NoDup_app in Hnd as (Hnd & Hdisj & _).
  split; [apply (inv_promises _ Hinv)|]. split; [exact Hcons|]. auto.
Qed.

Lemma lanes_as_list s :
  invariant s ->
  lanes s
  = list_to_map ((fun a => (act_laneKey a, act_lane a)) <$> suspended s).
Proof.
  intros Hinv. apply map_eq. intros k. rewrite (inv_lanes _ Hinv).
  induction (suspended s) as [|a acts IH]; [reflexivity|].
  cbn [fmap list_fmap list_to_map activation_of foldr uncurry].
  destruct (decide (act_laneKey a = k)) as [->|Hne].
  - rewrite lookup_insert_eq. reflexivity.
  - rewrite lookup_insert_ne by exact Hne. exact IH.
Qed.

Lemma foldr_sum {A B} (f : A -> B -> nat) (l : list (A * B)) :
  foldr (uncurry (fun i x total => (total + f i x)%nat)) 0%nat l
  = sum_list_with (fun ix => f ix.1 ix.2) l.
Proof.
  induction l as [|[i x] l IH]; [reflexivity|].
  cbn [foldr uncurry sum_list_with fst snd]. rewrite IH. lia.
Qed.

Lemma sum_list_with_fmap {A B} (g : A -> B) (f : B -> nat) (l : list A) :
  sum_list_with f (g <$> l) = sum_list_with (fun x => f (g x)) l.
Proof.
  induction l as [|x l IH]; [reflexivity|].
  cbn [fmap list_fmap sum_list_with]. rewrite <- IH. reflexivity.
Qed.

(** X2: of the two numbers [getLaneStats] reports, the count of lanes is
    the number of tasks that have started and not finished, and the
    total of the queues is the number of tasks enqueued and not yet
    started. *)
Theorem lane_stats_count (inputs : list (Input V)) s :
  run inputs initial = Some s ->
  (activeLanes (getLaneStats s) + length (finished_all (trace s))
   = length (started_all (trace s)))%nat
  /\ (totalQueuedTasks (getLaneStats s) + length (started_all (trace s))
      = length (promises_of (trace s)))%nat.
Proof.
  intros Hrun.
  pose proof (invariant_run inputs _ _ invariant_initial Hrun) as Hinv.
  destruct (accounted_run inputs _ _ invariant_initial accounted_initial Hrun)
    as [Hcons [Hstart Hfin]].
  unfold conserved in Hcons. apply Permutation_length in Hcons.
  rewrite length_app, length_seq, unfinished_length in Hcons.
  assert (Hkeys : NoDup ((fun a => (act_laneKey a, act_lane a))
                           <$> suspended s).*1).
  { rewrite <- list_fmap_compose. apply (inv_keys _ Hinv). }
  unfold getLaneStats. cbn [activeLanes totalQueuedTasks].
  rewrite map_fold_foldr, (foldr_sum (fun _ l => length (queue_at l s))).
  rewrite (lanes_as_list s Hinv), map_size_list_to_map by exact Hkeys.
  rewrite (map_to_list_to_map _ Hkeys), sum_list_with_fmap, length_fmap.
  cbn [fst snd]. unfold queue_at.
  rewrite (inv_promises _ Hinv), length_seq. lia.
Qed.

(** X3: a key is in the lane map exactly while one of its tasks has not
    finished: a lane is created by the first task that arrives and
    removed when the last one ends.  The lane of a key in the map is
    marked running and its queue holds the tasks of the key that have
    not started, in the order of their arrival. *)
Theorem lane_map_lifecycle (inputs : list (Input V)) s k :
  run inputs initial = Some s ->
  (lanes s !! k = None <-> enqueued_in k (trace s) = finished_in k (trace s))
  /\ (forall l, lanes s !! k = Some l ->
        exists q,
          heap s !! l = Some {| queue := q; running := true |}
          /\ enqueued_in k (trace s) = started_in k (trace s) ++ q).
Proof.
  intros Hrun.
  pose proof (invariant_run inputs _ _ invariant_initial Hrun) as Hinv.
  destruct (monitor_sound _ _ _ _ (inv_monitor _ Hinv k))
    as [Hfifo Hrunning _ _].
  unfold current, pending, queue_at in Hfifo, Hrunning.
  split; [split|].
  - intros Hk. rewrite (inv_lanes _ Hinv) in Hk.
    destruct (activation_of k (suspended s)); [discriminate|].
    cbn in Hfifo, Hrunning. rewrite app_nil_r in Hfifo, Hrunning.
    congruence.
  - intros Hdone. rewrite Hfifo, Hrunning, <- app_assoc in Hdone.
    rewrite <- (app_nil_r (finished_in k (trace s))) in Hdone at 2.
    apply app_inv_head in Hdone. apply app_eq_nil in Hdone as [Hcur _].
    rewrite (inv_lanes _ Hinv).
    destruct (activation_of k (suspended s)); [discriminate|reflexivity].
  - intros l Hk.
    destruct (live_lane s k l Hinv Hk) as (a & q & Ha & _ & _ & Hl & Hq).
    exists q. split; [exact Hq|].
    rewrite Ha, Hl, Hq in Hfifo. exact Hfifo.
Qed.

End Accounting.

Lemma promises_conserved_witness :
  exists s : State nat,
    run Scenarios.lane_inputs initial = Some s
    /\ settled (trace s) ++ unfinished (heap s) (suspended s)
       ≡ₚ seq 0 (next_promise s).
Proof.
  eexists. split; [vm_compute; reflexivity|].
  match goal with |- context [trace ?s] =>
    destruct (promises_conserved Scenarios.lane_inputs s) as (_ & H & _)
  end.
  - vm_compute. reflexivity.
  - exact H.
Defined.

Lemma lane_stats_count_witness :
  exists s : State nat,
    run Scenarios.lane_inputs initial = Some s
    /\ (totalQueuedTasks (getLaneStats s) + length (started_all (trace s))
        = length (promises_of (trace s)))%nat.
Proof.
  eexists. split; [vm_compute; reflexivity|].
  match goal with |- context [trace ?s] =>
    destruct (lane_stats_count Scenarios.lane_inputs s) as [_ H]
  end.
  - vm_compute. reflexivity.
  - exact H.
Defined.

Lemma lane_map_lifecycle_witness :
  exists s : State nat,
    run Scenarios.lane_inputs initial = Some s
    /\ (lanes s !! str "a" = None
        <-> enqueued_in (str "a") (trace s) = finished_in (str "a") (trace s)).
Proof.
  eexists. split; [vm_compute; reflexivity|].
  match goal with |- context [trace ?s] =>
    destruct (lane_map_lifecycle Scenarios.lane_inputs s (str "a")) as [H _]
  end.
  - vm_compute. reflexivity.
  - exact H.
Defined.

End LaneStatsFacts.
(** ** More on the session manager *)

Module SessionHistoryFacts.

Import SessionManager JSFacts SessionManagerFacts.

Section Window.
Context {A : Type} (undefined : A).

(** X4: for a limit of at least two, [limitHistoryTurns] returns a
    subsequence of the history of length min(length, limit) that starts
    with the first message and whose remainder is the end of the
    history; limiting a second time changes nothing. *)
Theorem limitHistoryTurns_window (messages : list A) (maxTurns : Z) :
  2 <= maxTurns ->
  let limited := limitHistoryTurns undefined messages maxTurns in
  Z.of_nat (length limited) = Z.min (Z.of_nat (length messages)) maxTurns
  /\ limited `sublist_of` messages
  /\ head limited = head messages
  /\ drop 1 limited `suffix_of` messages
  /\ limitHistoryTurns undefined limited maxTurns = limited.
Proof.
  intros H2 limited. subst limited.
  destruct (Z.le_gt_cases (Z.of_nat (length messages)) maxTurns) as [Hshort|Hlong].
  - rewrite !limitHistoryTurns_short by
      (rewrite ?limitHistoryTurns_short by exact Hshort; exact Hshort).
    split; [lia|]. split; [reflexivity|]. split; [reflexivity|].
    split; [apply suffix_drop|reflexivity].
  - destruct (limitHistoryTurns_long undefined messages maxTurns H2 Hlong)
      as (first & rest & Hm & Hlim & Hlen).
    split; [rewrite Hlen; lia|].
    rewrite (limitHistoryTurns_short undefined
               (limitHistoryTurns undefined messages maxTurns)) by lia.
    rewrite Hlim.
    assert (Hk : exists k,
               (length messages - Z.to_nat (maxTurns - 1))%nat = S k).
    { exists (length messages - Z.to_nat (maxTurns - 1) - 1)%nat. lia. }
    destruct Hk as [k Hk].
    split; [|split; [|split; [|reflexivity]]].
    + rewrite Hk. rewrite Hm at 1 2. rewrite skipn_cons.
      apply sublist_skip, sublist_drop.
    + rewrite Hm. reflexivity.
    + rewrite skipn_cons, drop_0. apply suffix_drop.
Qed.

(** X5: below that the limit is not a bound.  With a limit of 1 and at
    least two messages the result is the whole history behind a second
    copy of its first message; with a limit of 0 a history that is not
    empty comes back unchanged. *)
Theorem limitHistoryTurns_degenerate (first second : A) (rest : list A) :
  limitHistoryTurns undefined (first :: second :: rest) 1
  = first :: first :: second :: rest
  /\ limitHistoryTurns undefined (first :: rest) 0 = first :: rest.
Proof.
  unfold limitHistoryTurns, slice_from. cbn [length nth].
  split.
  - destruct (Z.leb_spec (Z.of_nat (S (S (length rest)))) 1); [lia|].
    reflexivity.
  - destruct (Z.leb_spec (Z.of_nat (S (length rest))) 0); [lia|].
    change (- (0 - 1) <? 0) with false. cbn beta iota.
    replace (Z.to_nat (Z.min (- (0 - 1)) (Z.of_nat (S (length rest)))))
      with 1%nat by lia.
    reflexivity.
Qed.

End Window.

(** X6: sanitising a session id is idempotent, and an id made of
    letters, digits, [-] and [_] only is its own sanitised form.
    Provided [path.join] keeps apart, inside the sessions directory,
    the file names the session manager makes (a sanitised id followed
    by [.jsonl]), two ids resolve to the same session file exactly
    when they have the same sanitised form; ids made of these
    characters only never share a file. *)
Theorem sanitize_fixpoint (path_join : js_string -> js_string -> js_string)
  (sessionsDir a b : js_string) :
  (forall x y,
     path_join sessionsDir (sanitize x ++ str ".jsonl")
     = path_join sessionsDir (sanitize y ++ str ".jsonl") ->
     sanitize x = sanitize y) ->
  sanitize (sanitize a) = sanitize a
  /\ (Forall (fun c => safe_unit c = true) a -> sanitize a = a)
  /\ (sanitize a = a -> Forall (fun c => safe_unit c = true) a)
  /\ (resolveSessionFile path_join sessionsDir a
      = resolveSessionFile path_join sessionsDir b
      <-> sanitize a = sanitize b)
  /\ (Forall (fun c => safe_unit c = true) a ->
      Forall (fun c => safe_unit c = true) b ->
      resolveSessionFile path_join sessionsDir a
      = resolveSessionFile path_join sessionsDir b ->
      a = b).
Proof.
  intros Hinj.
  assert (Hid : forall s, Forall (fun c => safe_unit c = true) s ->
                          sanitize s = s).
  { intros s Hs. unfold sanitize.
    induction Hs as [|c s Hc _ IH]; [reflexivity|].
    cbn [map]. rewrite Hc, IH. reflexivity. }
  split; [apply Hid, sanitize_safe|].
  split; [apply Hid|].
  split; [intros <-; apply sanitize_safe|].
  split.
  - unfold resolveSessionFile. split; [apply Hinj|intros ->; reflexivity].
  - intros Ha Hb Heq. unfold resolveSessionFile in Heq. apply Hinj in Heq.
    rewrite !Hid in Heq by assumption. exact Heq.
Qed.

(** With a [path.join] that puts a separator between the directory and
    the name: the ids [a/b] and [a_b] share a file. *)
Lemma sanitize_fixpoint_witness :
  (forall x y,
     Scenarios.join_with_slash (str "/work/.agent/sessions")
       (sanitize x ++ str ".jsonl")
     = Scenarios.join_with_slash (str "/work/.agent/sessions")
         (sanitize y ++ str ".jsonl") ->
     sanitize x = sanitize y)
  /\ resolveSessionFile Scenarios.join_with_slash
       (str "/work/.agent/sessions") (str "a/b")
     = resolveSessionFile Scenarios.join_with_slash
         (str "/work/.agent/sessions") (str "a_b").
Proof.
  assert (Hinj : forall x y,
     Scenarios.join_with_slash (str "/work/.agent/sessions")
       (sanitize x ++ str ".jsonl")
     = Scenarios.join_with_slash (str "/work/.agent/sessions")
         (sanitize y ++ str ".jsonl") ->
     sanitize x = sanitize y).
  { intros x y H. unfold Scenarios.join_with_slash in H.
    apply app_inv_head in H. apply app_inv_head in H.
    apply app_inv_tail in H. exact H. }
  split; [exact Hinj|].
  apply (sanitize_fixpoint Scenarios.join_with_slash
           (str "/work/.agent/sessions") (str "a/b") (str "a_b") Hinj).
  vm_compute. reflexivity.
Defined.

Lemma limitHistoryTurns_window_witness :
  let limited :=
    limitHistoryTurns Scenarios.no_message Scenarios.three_messages 2 in
  Z.of_nat (length limited) = 2
  /\ limited `sublist_of` Scenarios.three_messages.
Proof.
  destruct (limitHistoryTurns_window Scenarios.no_message
              Scenarios.three_messages 2) as (H1 & H2 & _).
  - lia.
  - split; [exact H1|exact H2].
Defined.

End SessionHistoryFacts.

(** ** Cancelling, listing and the events of a run *)

Module DaemonQueriesFacts.

Import Runner Daemon DaemonQueries JSFacts SessionManagerFacts.

Lemma abort_first_none (sessionId : js_string)
  (runs : list (js_string * ActiveRun)) :
  Forall (fun entry => ar_sessionId entry.2 <> sessionId) runs ->
  abort_first sessionId runs = None.
Proof.
  induction 1 as [|[runId run] runs Hne _ IH]; [reflexivity|].
  cbn [abort_first]. cbn [snd] in Hne.
  destruct (eqb (ar_sessionId run) sessionId) eqn:E.
  - apply eqb_eq in E. contradiction.
  - rewrite IH. reflexivity.
Qed.

Lemma abort_first_some (sessionId runId : js_string) (run : ActiveRun)
  (before after : list (js_string * ActiveRun)) :
  Forall (fun entry => ar_sessionId entry.2 <> sessionId) before ->
  ar_sessionId run = sessionId ->
  abort_first sessionId (before ++ (runId, run) :: after)
  = Some (runId, before ++ (runId, aborted run) :: after).
Proof.
  intros Hbefore Hrun. subst sessionId.
  induction Hbefore as [|[k r] before Hne _ IH].
  - cbn [app abort_first]. rewrite eqb_refl. reflexivity.
  - cbn [app abort_first]. cbn [snd] in Hne.
    destruct (eqb (ar_sessionId r) (ar_sessionId run)) eqn:E.
    + apply eqb_eq in E. contradiction.
    + rewrite IH. reflexivity.
Qed.

(** X7: [cancelRun] returns false and changes nothing when no
    registered run is of the session.  Otherwise it triggers the abort
    controller of the first run of the session in the order the runs
    were registered, and of that one only, removes and reorders nothing,
    emits one [run:cancelled] event that names that run, and returns
    true unless a listener of the event throws. *)
Theorem cancelRun_first_match
  (listener_throws : DaemonEvent -> option js_string)
  (sessionId : js_string) (d : State) :
  (Forall (fun entry => ar_sessionId entry.2 <> sessionId) (activeRuns d) ->
   cancelRun listener_throws sessionId d = (d, Normal false))
  /\ (forall before runId run after,
        activeRuns d = before ++ (runId, run) :: after ->
        Forall (fun entry => ar_sessionId entry.2 <> sessionId) before ->
        ar_sessionId run = sessionId ->
        cancelRun listener_throws sessionId d
        = ({| activeRuns := before ++ (runId, aborted run) :: after;
              emitted := emitted d ++ [RunCancelled runId sessionId] |},
           match listener_throws (RunCancelled runId sessionId) with
           | Some message => Throw message
           | None => Normal true
           end)).
Proof.
  split.
  - intros Hnone. unfold cancelRun.
    rewrite (abort_first_none _ _ Hnone). reflexivity.
  - intros before runId run after Hruns Hbefore Hrun. unfold cancelRun.
    rewrite Hruns, (abort_first_some _ _ _ _ _ Hbefore Hrun).
    unfold bind, emit, ret. cbn [activeRuns emitted].
    destruct (listener_throws (RunCancelled runId sessionId)); reflexivity.
Qed.

(** X8: the abort flag is not part of what [getActiveRuns] reports, so
    the list of active runs is the same before and after a call of
    [cancelRun], whether a run was found or not. *)
Theorem cancelRun_not_reported
  (listener_throws : DaemonEvent -> option js_string)
  (sessionId : js_string) (d : State) :
  getActiveRuns (fst (cancelRun listener_throws sessionId d))
  = getActiveRuns d.
Proof.
  assert (H : forall runs found runs',
             abort_first sessionId runs = Some (found, runs') ->
             getActiveRuns {| activeRuns := runs'; emitted := [] |}
             = getActiveRuns {| activeRuns := runs; emitted := [] |}).
  { induction runs as [|[runId run] runs IH]; intros found runs' Hab.
    - discriminate Hab.
    - cbn [abort_first] in Hab.
      destruct (eqb (ar_sessionId run) sessionId).
      + injection Hab as <- <-. reflexivity.
      + destruct (abort_first sessionId runs) as [[found' rest']|] eqn:E;
          [|discriminate Hab].
        injection Hab as <- <-.
        unfold getActiveRuns in *. cbn [activeRuns map] in *.
        f_equal. exact (IH _ _ eq_refl). }
  unfold cancelRun.
  destruct (abort_first sessionId (activeRuns d)) as [[found runs']|] eqn:E;
    [|reflexivity].
  unfold bind, emit, ret. cbn [activeRuns emitted].
  specialize (H _ _ _ E). unfold getActiveRuns in *. cbn [activeRuns] in H.
  destruct (listener_throws (RunCancelled found sessionId)); exact H.
Qed.

(** X9: what the guarded part of a run emits and how it settles.  A
    call of [runAgent] that resolves is followed by [run:end] and the
    run resolves with the same result; a call that rejects is followed
    by [run:error] and the run rejects with the same error.  A listener
    of [run:end] that throws turns the run into a failed one: both
    events are emitted and the run rejects; and the run rejects with
    the error of a throwing [run:error] listener in place of its
    cause. *)
Theorem run_guarded_outcomes
  (listener_throws : DaemonEvent -> option js_string)
  (runId sessionId : js_string) (agent : D AgentRunResult) (d : State) :
  let after := fst (agent d) in
  let r := run_guarded listener_throws runId sessionId agent d in
  let rejection error :=
    match listener_throws (RunError runId sessionId error) with
    | Some message => message
    | None => error
    end in
  activeRuns (fst r) = map_delete runId (activeRuns after)
  /\ match snd (agent d) with
     | Normal result =>
         match listener_throws (RunEnd runId sessionId result) with
         | None =>
             emitted (fst r)
             = emitted after ++ [RunEnd runId sessionId result]
             /\ snd r = Normal result
         | Some message =>
             emitted (fst r)
             = emitted after ++ [RunEnd runId sessionId result;
                                 RunError runId sessionId message]
             /\ snd r = Throw (rejection message)
         end
     | Throw error =>
         emitted (fst r) = emitted after ++ [RunError runId sessionId error]
         /\ snd r = Throw (rejection error)
     end.
Proof.
  unfold run_guarded, try_finally, try_catch, bind, emit, ret, throw,
    modify_runs.
  destruct (agent d) as [d1 [result|error]]; cbn [fst snd].
  - destruct (listener_throws (RunEnd runId sessionId result)) as [message|];
      cbn [fst snd activeRuns emitted].
    + destruct (listener_throws (RunError runId sessionId message));
        cbn [fst snd activeRuns emitted]; rewrite <- app_assoc; auto.
    + auto.
  - destruct (listener_throws (RunError runId sessionId error));
      cbn [fst snd activeRuns emitted]; auto.
Qed.

Lemma endsWith_app (a suffix : js_string) : endsWith (a ++ suffix) suffix = true.
Proof.
  unfold endsWith. rewrite length_app.
  replace (length a + length suffix - length suffix)%nat with (length a) by lia.
  rewrite drop_app_length, eqb_refl.
  rewrite andb_true_r. apply Nat.leb_le. lia.
Qed.

Lemma remove_first_suffix (a : js_string) :
  46%N ∉ a -> remove_first (a ++ str ".jsonl") (str ".jsonl") = a.
Proof.
  induction a as [|c a IH]; intros Hdot; [reflexivity|].
  cbn [app remove_first].
  assert (Hc : c <> 46%N) by (intros ->; apply Hdot; left).
  assert (Hs : startsWith (c :: a ++ str ".jsonl") (46%N :: str "jsonl")
               = false).
  { cbn [startsWith]. destruct (N.eqb_spec 46 c) as [E|_]; [congruence|].
    reflexivity. }
  change (46%N :: str "jsonl") with (str ".jsonl") in Hs. rewrite Hs.
  rewrite IH; [reflexivity|].
  intros Hin. apply Hdot. right. exact Hin.
Qed.

Lemma sanitize_no_dot (sessionId : js_string) :
  46%N ∉ SessionManager.sanitize sessionId.
Proof.
  intros Hin. pose proof (sanitize_safe sessionId) as Hsafe.
  rewrite Forall_forall in Hsafe.
  destruct (safe_unit_not_separator _ (Hsafe _ Hin)) as (_ & _ & H).
  congruence.
Qed.

(** X10: [listSessions] gives the sanitised id of every session file in
    the directory, in the order of the listing: the name under which
    [resolveSessionFile] stores a session is listed as the sanitised
    form of its id, names that do not end in [.jsonl] are left out, and
    a directory that cannot be read gives the empty list. *)
Theorem listSessions_round_trip (before after : list js_string)
  (sessionId other message : js_string) :
  listSessions (inl (before ++ [session_file_name sessionId] ++ after))
  = listSessions (inl before) ++ [SessionManager.sanitize sessionId]
    ++ listSessions (inl after)
  /\ (endsWith other (str ".jsonl") = false ->
      listSessions (inl (before ++ [other] ++ after))
      = listSessions (inl before) ++ listSessions (inl after))
  /\ listSessions (inr message) = [].
Proof.
  unfold listSessions, session_file_name.
  split; [|split; [intros Hother|reflexivity]].
  - rewrite !List.filter_app, !map_app. cbn [List.filter].
    rewrite endsWith_app. cbn [map].
    rewrite remove_first_suffix by apply sanitize_no_dot. reflexivity.
  - rewrite !List.filter_app, !map_app. cbn [List.filter].
    rewrite Hother. reflexivity.
Qed.

End DaemonQueriesFacts.

(** ** The rounds of a turn *)

Module TurnFacts.

Import Runner RunnerSpec TurnSpec JSFacts EffFacts RunnerFacts.

Lemma executeTools_answers (ctx : RunContext) (calls : list ToolCall)
  (w : World) :
  exists w' toolResults,
    executeTools ctx calls w = (w', Normal toolResults)
    /\ after_tools ctx w w'
    /\ answers calls toolResults = true.
Proof.
  unfold answers. revert w. induction calls as [|c calls IH]; intros w.
  - exists w, []. split; [reflexivity|].
    split; [apply after_tools_same, same_outside_refl|].
    apply bool_decide_eq_true. reflexivity.
  - cbn [executeTools].
    destruct (executeTool_total ctx (tc_name c) (tc_arguments c) w)
      as (w1 & r & Hr & Hw1).
    erewrite bind_normal by exact Hr.
    destruct (IH w1) as (w2 & rs & Hrs & Hw2 & Hans).
    erewrite bind_normal by exact Hrs.
    eexists _, _. split; [reflexivity|].
    split; [eapply after_tools_trans; eauto|].
    apply bool_decide_eq_true. apply bool_decide_eq_true in Hans.
    cbn [map tr_toolCallId]. f_equal. exact Hans.
Qed.

Lemma requests_of_rounds_one (messages base : list Message) (i : nat)
  (rounds : list Round) :
  requests_of_rounds messages base i rounds [(i, messages ++ base)].
Proof.
  intros [|k] entry Hk; [|destruct k; discriminate Hk].
  injection Hk as <-. cbn [take flat_map]. rewrite app_nil_r, Nat.add_0_r.
  reflexivity.
Qed.

Lemma requests_of_rounds_cons (messages base : list Message) (i : nat)
  (round : Round) (rounds : list Round) (new : list (nat * list Message)) :
  requests_of_rounds messages (base ++ round_messages round) (S i) rounds new ->
  requests_of_rounds messages base i (round :: rounds)
    ((i, messages ++ base) :: new).
Proof.
  intros H [|k] entry Hk.
  - injection Hk as <-. cbn [take flat_map]. rewrite app_nil_r, Nat.add_0_r.
    reflexivity.
  - cbn [lookup list_lookup] in Hk. rewrite (H k entry Hk).
    cbn [take flat_map]. rewrite <- !app_assoc.
    f_equal. lia.
Qed.

Lemma total_cons {A} (f : A -> Z) (x : A) (l : list A) :
  total f (x :: l) = f x + total f l.
Proof. reflexivity. Qed.

Lemma loop_result_cons (usage_of : nat * list Message -> Usage)
  (st st1 st' : LoopState) (round : Round) (rounds : list Round)
  (entry : nat * list Message) (new : list (nat * list Message)) :
  newMessages st1 = newMessages st ++ round_messages round ->
  totalInputTokens st1 = totalInputTokens st + inputTokens (usage_of entry) ->
  totalOutputTokens st1 = totalOutputTokens st + outputTokens (usage_of entry) ->
  loop_result usage_of st1 rounds new st' ->
  loop_result usage_of st (round :: rounds) (entry :: new) st'.
Proof.
  intros Hm Hin Hout ((tail & Hnew & Htail) & Hi & Ho).
  split; [|rewrite !total_cons; lia].
  exists tail. split; [|exact Htail].
  rewrite Hnew, Hm. cbn [flat_map]. rewrite <- !app_assoc. reflexivity.
Qed.

Section AnthropicRounds.

Variables (client : AnthropicBackend) (ctx : RunContext)
  (messages : list Message).

Lemma anthropic_iteration_round (st : LoopState) (w : World) :
  let i := iterations st in
  let req := messages ++ newMessages st in
  let stream := client i req in
  exists w',
    requests w' = requests w ++ [(i, req)]
    /\ match final_message stream with
       | inr message =>
           anthropic_iteration client ctx messages st w = (w', Throw message)
       | inl response =>
           exists toolResults,
             answers (tool_use_calls (fm_content response)) toolResults = true
             /\ anthropic_iteration client ctx messages st w
                = (w', Normal (anthropic_outcome st
                                 (concat (text_events stream))
                                 response toolResults))
       end.
Proof.
  intros i req stream.
  unfold anthropic_iteration. fold i req.
  erewrite bind_normal by (unfold send_anthropic; reflexivity).
  fold stream.
  destruct (on_text_total (text_events stream) [] (add_request i req w))
    as (w1 & Htext & (Hr1 & _ & _)).
  erewrite bind_normal by exact Htext.
  simpl in Hr1. unfold await_final.
  destruct (final_message stream) as [response|message] eqn:Hfinal.
  2:{ exists w1. split; [exact Hr1|reflexivity]. }
  erewrite bind_normal by reflexivity.
  unfold anthropic_outcome.
  destruct (tool_use_calls (fm_content response)) as [|c calls] eqn:Hcalls.
  { exists w1. split; [exact Hr1|]. exists []. split; reflexivity. }
  destruct (executeTools_answers ctx (c :: calls) w1)
    as (w2 & rs & Hrs & (Hr2 & _ & _) & Hans).
  exists w2. erewrite bind_normal by exact Hrs.
  split; [congruence|]. exists rs. split; [exact Hans|].
  destruct (is_end_turn (fm_stop_reason response)); reflexivity.
Qed.

Lemma anthropic_loop_rounds (budget : nat) (st : LoopState) (w : World) :
  let r := anthropic_loop client ctx messages budget st w in
  exists new rounds,
    requests (fst r) = requests w ++ new
    /\ (length new <= budget)%nat
    /\ (Nat.min 1 budget <= length new)%nat
    /\ (length new <= S (length rounds))%nat
    /\ Forall round_ok rounds
    /\ requests_of_rounds messages (newMessages st) (iterations st) rounds new
    /\ match snd r with
       | Normal st' => loop_result (anthropic_usage client) st rounds new st'
       | Throw _ => True
       end.
Proof.
  revert st w. induction budget as [|budget IH]; intros st w r; subst r.
  - exists [], []. cbn [anthropic_loop ret fst snd length].
    split; [rewrite app_nil_r; reflexivity|]. split; [lia|]. split; [lia|]. split; [lia|].
    split; [constructor|]. split; [intros k entry Hk; discriminate Hk|].
    split; [|cbn; lia]. exists []. split; [|left; reflexivity].
    cbn [flat_map]. rewrite !app_nil_r. reflexivity.
  - cbn [anthropic_loop].
    destruct (anthropic_iteration_round st w) as (w1 & Hreq & Hit).
    set (entry := (iterations st, messages ++ newMessages st)) in *.
    assert (Hone : forall rounds,
               requests_of_rounds messages (newMessages st) (iterations st)
                 rounds [entry]) by (intros; apply requests_of_rounds_one).
    destruct (final_message (client (iterations st)
                               (messages ++ newMessages st)))
      as [response|message] eqn:Hfinal.
    2:{ erewrite bind_throw by exact Hit. exists [entry], [].
        cbn [fst snd length]. split; [exact Hreq|]. split; [lia|].
        split; [lia|]. split; [lia|].
        split; [constructor|]. split; [apply Hone|exact I]. }
    destruct Hit as (toolResults & Hans & Hit).
    erewrite bind_normal by exact Hit.
    assert (Huse : anthropic_usage client entry
                   = {| inputTokens := fm_input_tokens response;
                        outputTokens := fm_output_tokens response |}).
    { unfold anthropic_usage, entry. cbn [fst snd]. rewrite Hfinal.
      reflexivity. }
    unfold anthropic_outcome.
    destruct (tool_use_calls (fm_content response)) as [|c calls] eqn:Hcalls.
    { exists [entry], []. cbn [ret fst snd length].
      split; [exact Hreq|]. split; [lia|]. split; [lia|]. split; [lia|].
      split; [constructor|]. split; [apply Hone|].
      split; [|rewrite !total_cons, Huse; cbn; lia].
      eexists. split; [|right; eexists; reflexivity]. reflexivity. }
    set (round := {| rd_text := concat (text_events
                                 (client (iterations st)
                                    (messages ++ newMessages st)));
                     rd_calls := c :: calls; rd_results := toolResults |}).
    assert (Hok : round_ok round) by (split; [discriminate|exact Hans]).
    destruct (is_end_turn (fm_stop_reason response)).
    { exists [entry], [round]. cbn [ret fst snd length].
      split; [exact Hreq|]. split; [lia|]. split; [lia|]. split; [lia|].
      split; [constructor; [exact Hok|constructor]|].
      split; [apply Hone|].
      split; [|rewrite !total_cons, Huse; cbn; lia].
      exists []. split; [|left; reflexivity].
      cbn [newMessages flat_map]. rewrite !app_nil_r, <- app_assoc.
      reflexivity. }
    match goal with |- context [anthropic_loop _ _ _ _ ?s w1] =>
      set (st1 := s) end.
    destruct (IH st1 w1)
      as (new & rounds & Hn & Hlen & _ & Hlen' & Hrounds & Hreqs & Hres).
    exists (entry :: new), (round :: rounds). cbn [length].
    split; [rewrite Hn, Hreq, <- app_assoc; reflexivity|].
    split; [lia|]. split; [lia|]. split; [lia|]. split; [constructor; assumption|].
    split.
    { apply requests_of_rounds_cons.
      replace (newMessages st ++ round_messages round) with (newMessages st1)
        by (cbn [newMessages st1]; rewrite <- app_assoc; reflexivity).
      exact Hreqs. }
    destruct (snd (anthropic_loop client ctx messages budget st1 w1))
      as [st'|]; [|exact I].
    eapply loop_result_cons; [| | |exact Hres].
    + cbn [newMessages st1]. rewrite <- app_assoc. reflexivity.
    + rewrite Huse. reflexivity.
    + rewrite Huse. reflexivity.
Qed.

End AnthropicRounds.

Lemma on_chunk_tokens (chunk : Chunk) (ss ss' : StreamState) (w w' : World) :
  on_chunk chunk ss w = (w', Normal ss') ->
  ss_totalInputTokens ss'
  = ss_totalInputTokens ss + chunk_prompt_tokens chunk
  /\ ss_totalOutputTokens ss'
     = ss_totalOutputTokens ss + chunk_completion_tokens chunk.
Proof.
  unfold on_chunk, chunk_prompt_tokens, chunk_completion_tokens.
  destruct (chunk_usage chunk) as [u|];
    (destruct (chunk_delta chunk) as [delta|];
     [|intros [= _ <-]; cbn; lia]);
    unfold bind;
    repeat match goal with
           | |- match ?x with _ => _ end = _ -> _ =>
               destruct x as [? [?|?]]; [|discriminate]
           end;
    intros [= _ <-]; cbn; lia.
Qed.

Lemma on_chunks_tokens (cs : list Chunk) (ss ss' : StreamState)
  (w w' : World) :
  on_chunks cs ss w = (w', Normal ss') ->
  ss_totalInputTokens ss'
  = ss_totalInputTokens ss + total chunk_prompt_tokens cs
  /\ ss_totalOutputTokens ss'
     = ss_totalOutputTokens ss + total chunk_completion_tokens cs.
Proof.
  revert ss w. induction cs as [|chunk cs IH]; intros ss w.
  - intros [= _ <-]. cbn. lia.
  - cbn [on_chunks]. unfold bind.
    destruct (on_chunk chunk ss w) as [w1 [ss1|message]] eqn:Hchunk;
      [|discriminate].
    intros Hrest. destruct (on_chunk_tokens _ _ _ _ _ Hchunk) as [Hi Ho].
    destruct (IH _ _ Hrest) as [Hi' Ho']. rewrite !total_cons. lia.
Qed.

Lemma until_hole_not_nil {A} (x : option A) (xs : list (option A))
  (ys : list A) :
  until_hole (x :: xs) = (ys, false) -> ys <> [].
Proof.
  destruct x as [y|]; cbn [until_hole]; [|discriminate].
  destruct (until_hole xs) as [ys' hole]. intros [= <- _]. discriminate.
Qed.

Section OpenAIRounds.

Variable JSON_parse : js_string -> js_string + js_string.
Variables (client : OpenAIBackend) (ctx : RunContext)
  (messages : list Message).

Lemma openai_decide_round (st : LoopState) (ss : StreamState) (w : World) :
  match snd (openai_decide JSON_parse ctx st ss w) with
  | Normal (next, st') =>
      iterations st' = S (iterations st)
      /\ totalInputTokens st' = ss_totalInputTokens ss
      /\ totalOutputTokens st' = ss_totalOutputTokens ss
      /\ match next with
         | Break =>
             newMessages st'
             = newMessages st ++ [assistant_message (ss_currentText ss) []]
         | Continue =>
             exists round,
               round_ok round
               /\ newMessages st' = newMessages st ++ round_messages round
         end
  | Throw _ => True
  end.
Proof.
  unfold openai_decide, bind.
  destruct (parse_tool_calls JSON_parse (ss_toolCalls ss) w)
    as [w1 [parsed|message]]; [|exact I].
  destruct parsed as [|p parsed]; [cbn; auto|].
  destruct (until_hole (p :: parsed)) as [calls hole] eqn:Hhole.
  destruct (executeTools_answers ctx calls w1) as (w2 & rs & Hrs & _ & Hans).
  rewrite Hrs. destruct hole; [exact I|].
  cbn [ret snd iterations totalInputTokens totalOutputTokens newMessages].
  split; [reflexivity|]. split; [reflexivity|]. split; [reflexivity|].
  exists {| rd_text := ss_currentText ss; rd_calls := calls;
            rd_results := rs |}.
  split; [|reflexivity].
  split; [exact (until_hole_not_nil _ _ _ Hhole)|exact Hans].
Qed.

Lemma openai_loop_rounds (budget : nat) (st : LoopState) (w : World) :
  let r := openai_loop JSON_parse client ctx messages budget st w in
  exists new rounds,
    requests (fst r) = requests w ++ new
    /\ (length new <= budget)%nat
    /\ (Nat.min 1 budget <= length new)%nat
    /\ (length new <= S (length rounds))%nat
    /\ Forall round_ok rounds
    /\ requests_of_rounds messages (newMessages st) (iterations st) rounds new
    /\ match snd r with
       | Normal st' => loop_result (openai_usage client) st rounds new st'
       | Throw _ => True
       end.
Proof.
  revert st w. induction budget as [|budget IH]; intros st w r; subst r.
  - exists [], []. cbn [openai_loop ret fst snd length].
    split; [rewrite app_nil_r; reflexivity|]. split; [lia|]. split; [lia|]. split; [lia|].
    split; [constructor|]. split; [intros k entry Hk; discriminate Hk|].
    split; [|cbn; lia]. exists []. split; [|left; reflexivity].
    cbn [flat_map]. rewrite !app_nil_r. reflexivity.
  - cbn [openai_loop].
    set (entry := (iterations st, messages ++ newMessages st)).
    assert (Hone : forall rounds,
               requests_of_rounds messages (newMessages st) (iterations st)
                 rounds [entry]) by (intros; apply requests_of_rounds_one).
    assert (Hstop : forall w1 message,
               requests w1 = requests w ++ [entry] ->
               exists new rounds,
                 requests (fst (w1, @Throw LoopState message))
                 = requests w ++ new
                 /\ (length new <= S budget)%nat
                 /\ (Nat.min 1 (S budget) <= length new)%nat
                 /\ (length new <= S (length rounds))%nat
                 /\ Forall round_ok rounds
                 /\ requests_of_rounds messages (newMessages st)
                      (iterations st) rounds new
                 /\ match snd (w1, @Throw LoopState message) with
                    | Normal st' =>
                        loop_result (openai_usage client) st rounds new st'
                    | Throw _ => True
                    end).
    { intros w1 message Hreq. exists [entry], []. cbn [fst snd length].
      split; [exact Hreq|]. split; [lia|]. split; [lia|]. split; [lia|].
      split; [constructor|]. split; [apply Hone|exact I]. }
    pose proof (openai_iteration_unfold JSON_parse client ctx messages st w)
      as Hit. cbn zeta in Hit.
    destruct (client (iterations st) (messages ++ newMessages st))
      as [stream|message] eqn:Hclient.
    2:{ erewrite bind_throw by exact Hit. apply Hstop. reflexivity. }
    destruct Hit as (w1 & ss & Hchunks & (Hr1 & _ & _) & _ & _ & Hit).
    cbn [requests add_request] in Hr1.
    destruct (stream_error stream) as [message|] eqn:Herr.
    { erewrite bind_throw by exact Hit. apply Hstop. exact Hr1. }
    pose proof (openai_decide_world JSON_parse ctx st ss w1) as (Hr2 & _ & _).
    pose proof (openai_decide_round st ss w1) as Hround.
    destruct (on_chunks_tokens _ _ _ _ _ Hchunks) as [Hti Hto].
    cbn [fresh_stream ss_totalInputTokens ss_totalOutputTokens] in Hti, Hto.
    assert (Huse : openai_usage client entry
                   = {| inputTokens := total chunk_prompt_tokens (chunks stream);
                        outputTokens :=
                          total chunk_completion_tokens (chunks stream) |}).
    { unfold openai_usage, entry. cbn [fst snd]. rewrite Hclient.
      reflexivity. }
    destruct (openai_decide JSON_parse ctx st ss w1)
      as [w2 [[next st1]|message]] eqn:Hdecide; cbn [fst snd] in *.
    2:{ erewrite bind_throw by exact Hit. apply (Hstop w2 message).
        rewrite Hr2. exact Hr1. }
    erewrite bind_normal by exact Hit.
    destruct Hround as (Hiter & Hin & Hout & Hnext).
    destruct next.
    { exists [entry], []. cbn [ret fst snd length].
      split; [rewrite Hr2; exact Hr1|]. split; [lia|]. split; [lia|]. split; [lia|].
      split; [constructor|]. split; [apply Hone|].
      split; [|rewrite !total_cons, Huse; cbn; lia].
      eexists. split; [|right; eexists; reflexivity].
      rewrite Hnext. reflexivity. }
    destruct Hnext as (round & Hok & Hnew).
    destruct (IH st1 w2)
      as (new & rounds & Hn & Hlen & _ & Hlen' & Hrounds & Hreqs & Hres).
    exists (entry :: new), (round :: rounds). cbn [length].
    split; [rewrite Hn, Hr2, Hr1, <- app_assoc; reflexivity|].
    split; [lia|]. split; [lia|]. split; [lia|]. split; [constructor; assumption|].
    split.
    { apply requests_of_rounds_cons. rewrite <- Hnew, <- Hiter. exact Hreqs. }
    destruct (snd (openai_loop JSON_parse client ctx messages budget st1 w2))
      as [st'|]; [|exact I].
    eapply loop_result_cons; [exact Hnew| | |exact Hres].
    + rewrite Huse. cbn. lia.
    + rewrite Huse. cbn. lia.
Qed.

End OpenAIRounds.

Lemma paired_rounds (rounds : list Round) (tail : list Message) :
  Forall round_ok rounds ->
  tail = [] \/ (exists text, tail = [assistant_message text []]) ->
  paired (flat_map round_messages rounds ++ tail) = true.
Proof.
  intros Hrounds Htail.
  induction Hrounds as [|round rounds [Hcalls Hans] _ IH].
  - destruct Htail as [->|[text ->]]; reflexivity.
  - cbn [flat_map round_messages app paired assistant_message carrier_message
         role toolCalls toolResults].
    destruct (rd_calls round) as [|c calls]; [contradiction|].
    rewrite Hans, IH. reflexivity.
Qed.

Lemma length_rounds (rounds : list Round) :
  length (flat_map round_messages rounds) = (2 * length rounds)%nat.
Proof.
  induction rounds as [|round rounds IH]; [reflexivity|].
  cbn [flat_map round_messages app length]. rewrite IH. lia.
Qed.

Section TurnRounds.

Variable JSON_parse : js_string -> js_string + js_string.
Variable clients : Clients.

Lemma run_turn_rounds (provider : Provider) (ctx : RunContext)
  (messages : list Message) (w : World) :
  let r := run_turn JSON_parse clients provider ctx messages w in
  exists new rounds,
    requests (fst r) = requests w ++ new
    /\ (length new <= MAX_TOOL_ITERATIONS)%nat
    /\ (1 <= length new)%nat
    /\ (length new <= S (length rounds))%nat
    /\ Forall round_ok rounds
    /\ requests_of_rounds messages [] 0 rounds new
    /\ match snd r with
       | Normal result =>
           (exists tail,
              turn_newMessages result = flat_map round_messages rounds ++ tail
              /\ (tail = [] \/ exists text, tail = [assistant_message text []]))
           /\ inputTokens (usage result)
              = total (fun e => inputTokens (call_usage clients provider e)) new
           /\ outputTokens (usage result)
              = total (fun e => outputTokens (call_usage clients provider e)) new
       | Throw _ => True
       end.
Proof.
  intros r. subst r.
  assert (Hturn : forall (loop : M LoopState) usage_of,
    (exists new rounds,
       requests (fst (loop w)) = requests w ++ new
       /\ (length new <= MAX_TOOL_ITERATIONS)%nat
       /\ (Nat.min 1 MAX_TOOL_ITERATIONS <= length new)%nat
       /\ (length new <= S (length rounds))%nat
       /\ Forall round_ok rounds
       /\ requests_of_rounds messages (newMessages initial_loop_state)
            (iterations initial_loop_state) rounds new
       /\ match snd (loop w) with
          | Normal st' => loop_result usage_of initial_loop_state rounds new st'
          | Throw _ => True
          end) ->
    let r := (let* st := loop in ret (turn_result st)) w in
    exists new rounds,
      requests (fst r) = requests w ++ new
      /\ (length new <= MAX_TOOL_ITERATIONS)%nat
      /\ (1 <= length new)%nat
      /\ (length new <= S (length rounds))%nat
      /\ Forall round_ok rounds
      /\ requests_of_rounds messages [] 0 rounds new
      /\ match snd r with
         | Normal result =>
             (exists tail,
                turn_newMessages result
                = flat_map round_messages rounds ++ tail
                /\ (tail = [] \/ exists text, tail = [assistant_message text []]))
             /\ inputTokens (usage result)
                = total (fun e => inputTokens (usage_of e)) new
             /\ outputTokens (usage result)
                = total (fun e => outputTokens (usage_of e)) new
         | Throw _ => True
         end).
  { intros loop usage_of (new & rounds & Hreq & Hlen & Hmin & Hlen' & Hok & Hreqs & Hres).
    intros r. subst r. unfold bind, ret.
    exists new, rounds.
    destruct (loop w) as [w' [st'|message]]; cbn [fst snd] in *;
      (split; [exact Hreq|]); (split; [exact Hlen|]);
      (split; [exact Hmin|]); (split; [exact Hlen'|]);
      (split; [exact Hok|]); (split; [exact Hreqs|]); [|exact I].
    destruct Hres as (Hmsgs & Hin & Hout).
    cbn [turn_result turn_newMessages usage inputTokens outputTokens].
    split; [exact Hmsgs|]. cbn in Hin, Hout. split; assumption. }
  destruct provider; cbn [run_turn call_usage].
  - apply (Hturn _ (anthropic_usage (anthropic_api clients))).
    apply anthropic_loop_rounds.
  - apply (Hturn _ (openai_usage (openai_api clients))).
    apply openai_loop_rounds.
  - apply (Hturn _ (anthropic_usage (bedrock_api clients))).
    apply anthropic_loop_rounds.
Qed.

(** X11: the messages a turn returns are well paired, whatever the
    backend replies and whatever the tools do: every assistant message
    that holds tool calls is followed at once by one carrier message
    whose results bear the ids of these calls, one for one and in
    order, and a reply without tool calls is the last message. *)
Theorem turn_messages_paired (provider : Provider) (ctx : RunContext)
  (messages : list Message) (w w' : World) (result : TurnResult) :
  run_turn JSON_parse clients provider ctx messages w = (w', Normal result) ->
  paired (turn_newMessages result) = true.
Proof.
  intros Hrun.
  destruct (run_turn_rounds provider ctx messages w)
    as (new & rounds & _ & _ & _ & _ & Hok & _ & Hres).
  rewrite Hrun in Hres. cbn [snd] in Hres.
  destruct Hres as ((tail & -> & Htail) & _).
  apply paired_rounds; assumption.
Qed.

(** X12: a turn sends at least one and at most 25 requests, numbered
    from 0.  The
    conversation of each request starts with the conversation the turn
    was given and is two messages longer than that of the request
    before, which it extends: nothing once sent is dropped or
    rewritten. *)
Theorem turn_requests_grow (provider : Provider) (ctx : RunContext)
  (messages : list Message) (w : World) :
  let r := run_turn JSON_parse clients provider ctx messages w in
  exists new,
    requests (fst r) = requests w ++ new
    /\ (1 <= length new <= 25)%nat
    /\ (forall k entry,
          new !! k = Some entry ->
          fst entry = k
          /\ length (snd entry) = (length messages + 2 * k)%nat
          /\ messages `prefix_of` snd entry)
    /\ (forall j k e1 e2,
          (j <= k)%nat -> new !! j = Some e1 -> new !! k = Some e2 ->
          snd e1 `prefix_of` snd e2).
Proof.
  intros r. subst r.
  destruct (run_turn_rounds provider ctx messages w)
    as (new & rounds & Hreq & Hlen & Hmin & Hlen' & _ & Hreqs & _).
  exists new. split; [exact Hreq|]. split; [split; [exact Hmin|exact Hlen]|].
  split.
  - intros k entry Hk. rewrite (Hreqs k entry Hk). cbn [fst snd app].
    split; [reflexivity|].
    split; [|apply prefix_app_r; reflexivity].
    apply lookup_lt_Some in Hk.
    rewrite length_app, length_rounds, length_take. lia.
  - intros j k e1 e2 Hjk Hj Hk.
    rewrite (Hreqs j e1 Hj), (Hreqs k e2 Hk). cbn [fst snd app].
    apply prefix_app. 
    rewrite <- (take_drop j (take k rounds)), take_take.
    replace (j `min` k)%nat with j by lia.
    rewrite flat_map_app. apply prefix_app_r. reflexivity.
Qed.

(** X13: the usage a turn reports is the sum, over the requests it
    sent, of the token counts the backend reported in its replies. *)
Theorem turn_usage_is_sum (provider : Provider) (ctx : RunContext)
  (messages : list Message) (w w' : World) (result : TurnResult) :
  run_turn JSON_parse clients provider ctx messages w = (w', Normal result) ->
  exists new,
    requests w' = requests w ++ new
    /\ inputTokens (usage result)
       = total (fun e => inputTokens (call_usage clients provider e)) new
    /\ outputTokens (usage result)
       = total (fun e => outputTokens (call_usage clients provider e)) new.
Proof.
  intros Hrun.
  destruct (run_turn_rounds provider ctx messages w)
    as (new & rounds & Hreq & _ & _ & _ & _ & _ & Hres).
  rewrite Hrun in Hreq, Hres. cbn [fst snd] in Hreq, Hres.
  exists new. split; [exact Hreq|]. exact (proj2 Hres).
Qed.

End TurnRounds.

Lemma turn_messages_paired_witness :
  exists w' result,
    run_turn Scenarios.parse_any (Scenarios.clients_with Scenarios.busy_backend)
      anthropic Scenarios.bare_context [] Scenarios.empty_world
    = (w', Normal result)
    /\ paired (turn_newMessages result) = true.
Proof.
  eexists _, _. split; [vm_compute; reflexivity|].
  eapply (turn_messages_paired Scenarios.parse_any
            (Scenarios.clients_with Scenarios.busy_backend) anthropic
            Scenarios.bare_context [] Scenarios.empty_world).
  vm_compute. reflexivity.
Defined.

Lemma turn_usage_is_sum_witness :
  exists w' result,
    run_turn Scenarios.parse_any (Scenarios.clients_with Scenarios.busy_backend)
      anthropic Scenarios.bare_context [] Scenarios.empty_world
    = (w', Normal result)
    /\ exists new,
         requests w' = requests Scenarios.empty_world ++ new
         /\ inputTokens (usage result)
            = total (fun e => inputTokens
                       (call_usage
                          (Scenarios.clients_with Scenarios.busy_backend)
                          anthropic e)) new
         /\ outputTokens (usage result)
            = total (fun e => outputTokens
                       (call_usage
                          (Scenarios.clients_with Scenarios.busy_backend)
                          anthropic e)) new.
Proof.
  eexists _, _. split; [vm_compute; reflexivity|].
  apply (turn_usage_is_sum Scenarios.parse_any
           (Scenarios.clients_with Scenarios.busy_backend) anthropic
           Scenarios.bare_context [] Scenarios.empty_world).
  vm_compute. reflexivity.
Defined.

End TurnFacts.

(** ** A whole run and the session file *)

Module RunFacts.

Import Runner RunnerSpec TurnSpec RunSpec JSFacts EffFacts RunnerFacts.
Import TurnFacts.

Lemma classify_kind (err_message : js_string) (model : ModelValue)
  (provider : Provider) :
  kind (classify err_message model provider) ∈ error_kinds.
Proof.
  unfold classify, error_kinds.
  repeat match goal with
         | |- context [if ?b then _ else _] => destruct b
         end; cbn [kind]; repeat constructor.
Qed.

Section RunFacts.

Variable JSON_parse : js_string -> js_string + js_string.
Variable path_join : js_string -> js_string -> js_string.
Variable clients : Clients.
Variable codingTools : list Tool.
Variable undefined_message : Message.

Local Abbreviation run :=
  (runAgent JSON_parse path_join clients codingTools undefined_message).

Lemma end_session_messages (params : AgentRunParams) (w : World)
  (new : list Message) :
  sd_messages (end_session path_join undefined_message params w new)
  = run_conversation path_join undefined_message params w ++ new.
Proof.
  unfold end_session, run_conversation. cbn [sd_messages].
  rewrite <- app_assoc. reflexivity.
Qed.

(** [runAgent] in terms of the turn it runs. *)
Lemma runAgent_turn (params : AgentRunParams) (w : World) :
  let f := session_file path_join params in
  let turn :=
    run_turn JSON_parse clients (run_provider params)
      (run_context codingTools params)
      (run_conversation path_join undefined_message params w) w in
  let failed messages message :=
    Normal {| r_response := []; r_messages := messages; r_usage := None;
              r_error := Some (classify message (run_model params)
                                 (run_provider params)) |} in
  match load_failure path_join params w with
  | Some error => run params w = (w, Throw error)
  | None =>
      requests (fst (run params w)) = requests (fst turn)
      /\ disk_error (fst (run params w)) = disk_error w
      /\ match snd turn with
         | Throw message =>
             files (fst (run params w)) = files (fst turn)
             /\ snd (run params w)
                = failed (stored_messages path_join params w) message
         | Normal result =>
             let session :=
               end_session path_join undefined_message params w
                 (turn_newMessages result) in
             match disk_error w with
             | Some error =>
                 files (fst (run params w))
                 = failed_write f session error (files (fst turn))
                 /\ snd (run params w)
                    = failed (sd_messages session) (we_message error)
             | None =>
                 files (fst (run params w))
                 = <[f := Holds (written session)]> (files (fst turn))
                 /\ snd (run params w)
                    = Normal {| r_response := response result;
                                r_messages := sd_messages session;
                                r_usage := Some (usage result);
                                r_error := None |}
             end
         end
  end.
Proof.
  cbv zeta. rewrite runAgent_unfold. cbv zeta.
  destruct (load_failure path_join params w) as [error|]; [reflexivity|].
  unfold run_conversation, run_context.
  match goal with |- context [run_turn ?j ?c ?p ?x ?m ?w0] =>
    pose proof (run_turn_requests j c p x m w0) as H;
    set (turn := run_turn j c p x m w0) in *
  end.
  cbv zeta in H. destruct H as (new & Hr & _ & Hd & _).
  destruct (snd turn) as [result|message]; cbn [fst snd].
  - rewrite Hd. destruct (disk_error w) as [error|]; cbn [fst snd].
    + unfold set_files. cbn [requests disk_error files]. auto.
    + unfold write_file, set_files. cbn [requests disk_error files]. auto.
  - auto.
Qed.

Lemma failed_write_other (f f' : js_string) (session : SessionData)
  (error : WriteError) (fs : Files) :
  f' <> f -> failed_write f session error fs !! f' = fs !! f'.
Proof.
  intros Hne. unfold failed_write.
  destruct (remains_of _ _ _);
    [apply lookup_insert_ne|apply lookup_delete_ne]; congruence.
Qed.

Lemma failed_write_same (f : js_string) (session : SessionData)
  (error : WriteError) (fs : Files) :
  failed_write f session error fs !! f
  = remains_of session (we_remains error) (fs !! f).
Proof.
  unfold failed_write.
  destruct (remains_of _ _ _);
    [apply lookup_insert_eq|apply lookup_delete_eq].
Qed.

(** X14: once [createClient] has built the client, [runAgent] rejects
    in one case only, when the session file cannot be read:
    [loadSession] stands before the [try], and the run ends there,
    before any request is sent and with every file as it was.  In
    every other case it resolves with a result, the errors of the turn
    and of the save being [Error]s with a message.  A result with an
    error has an empty response, no usage and one of the five kinds of
    the taxonomy; a result without error comes with the usage, and the
    session file then holds the messages of the result.  When the
    tools write no file, every file but the session file is as it
    was. *)
Theorem runAgent_settles (params : AgentRunParams) (w : World) :
  match load_failure path_join params w with
  | Some error => run params w = (w, Throw error)
  | None =>
      exists result,
        snd (run params w) = Normal result
        /\ (quiet_tools (run_context codingTools params) ->
            forall f, f <> session_file path_join params ->
              files (fst (run params w)) !! f = files w !! f)
        /\ match r_error result with
           | Some e =>
               r_response result = []
               /\ r_usage result = None
               /\ kind e ∈ error_kinds
           | None =>
               disk_error w = None
               /\ is_Some (r_usage result)
               /\ exists session,
                    files (fst (run params w)) !! session_file path_join params
                    = Some (Holds session)
                    /\ sd_messages session = r_messages result
           end
  end.
Proof.
  pose proof (runAgent_turn params w) as H. cbv zeta in H.
  destruct (load_failure path_join params w) as [error|]; [exact H|].
  destruct H as (_ & _ & H).
  match type of H with context [run_turn ?j ?c ?p ?x ?m ?w0] =>
    destruct (run_turn_requests j c p x m w0) as (new & _ & Hquiet & _);
    cbv zeta in Hquiet
  end.
  destruct (snd (run_turn _ _ _ _ _ _)) as [result|message].
  - destruct (disk_error w) as [error|].
    + destruct H as [Hf ->]. eexists. split; [reflexivity|]. split.
      * intros Hq f Hne. rewrite Hf, failed_write_other by exact Hne.
        rewrite Hquiet by exact Hq. reflexivity.
      * cbn [r_error r_response r_usage]. repeat split. apply classify_kind.
    + destruct H as [Hf ->]. eexists. split; [reflexivity|]. split.
      * intros Hq f Hne. rewrite Hf, lookup_insert_ne by congruence.
        rewrite Hquiet by exact Hq. reflexivity.
      * cbn [r_error r_usage r_messages].
        split; [reflexivity|]. split; [eauto|].
        eexists. rewrite Hf, lookup_insert_eq. split; reflexivity.
  - destruct H as [Hf ->]. eexists. split; [reflexivity|]. split.
    + intros Hq f Hne. rewrite Hf, Hquiet by exact Hq. reflexivity.
    + cbn [r_error r_response r_usage]. repeat split. apply classify_kind.
Qed.

(** X15: what a run without error leaves is what the next run of the
    session starts from: the daemon's [getSession] returns the messages
    of the result, and the first request of the next run carries these
    messages within the bound of 50, followed by the new prompt. *)
Theorem conversation_carries_over (params next : AgentRunParams)
  (w w1 : World) (result : AgentRunResult) :
  run params w = (w1, Normal result) ->
  r_error result = None ->
  session_file path_join next = session_file path_join params ->
  (exists rest,
     requests (fst (run next w1))
     = requests w1
       ++ (0%nat,
           SessionManager.limitHistoryTurns undefined_message
             (r_messages result) MAX_HISTORY_TURNS
           ++ [user_message next]) :: rest)
  /\ (forall config options,
        params = Daemon.make_params config options ->
        exists session,
          DaemonQueries.getSession config path_join (Daemon.o_sessionId options)
            w1
          = (w1, Normal (Some session))
          /\ sd_messages session = r_messages result).
Proof.
  intros Hrun Hok Hfile.
  pose proof (runAgent_turn params w) as H. cbv zeta in H.
  rewrite Hrun in H.
  destruct (load_failure path_join params w) as [error|]; [discriminate H|].
  destruct H as (_ & _ & H). cbn [fst snd] in H.
  assert (Hstored : exists session,
             files w1 !! session_file path_join params = Some (Holds session)
             /\ sd_messages session = r_messages result).
  { destruct (snd (run_turn _ _ _ _ _ _)) as [tr|message].
    - destruct (disk_error w) as [error|].
      + destruct H as [_ [= ->]]. discriminate Hok.
      + destruct H as [Hf [= ->]].
        eexists. rewrite Hf, lookup_insert_eq. split; reflexivity.
    - destruct H as [_ [= ->]]. discriminate Hok. }
  destruct Hstored as (session & Hlookup & Hmessages).
  split.
  - pose proof (runAgent_turn next w1) as Hnext. cbv zeta in Hnext.
    unfold load_failure in Hnext. rewrite Hfile, Hlookup in Hnext.
    destruct Hnext as (Hreq & _). rewrite Hreq.
    match goal with |- context [run_turn ?j ?c ?p ?x ?m ?w0] =>
      destruct (run_turn_first j c p x m w0) as [rest Hr]
    end.
    exists rest. rewrite Hr.
    unfold run_conversation, stored_messages.
    rewrite Hfile, Hlookup, Hmessages. reflexivity.
  - intros config options ->.
    exists session. split; [|exact Hmessages].
    unfold DaemonQueries.getSession, loadSession.
    change (SessionManager.resolveSessionFile path_join
              (DaemonQueries.sessionsDir config) (Daemon.o_sessionId options))
      with (session_file path_join (Daemon.make_params config options)).
    rewrite Hlookup. reflexivity.
Qed.

(** X16: when the turn completes and saving the session fails, the run
    resolves with an error classified from the text of the file-system
    error, without the response and the usage of the turn; the messages
    it returns are those it failed to save.  The failed save touches no
    other file.  The session file is as the turn left it only when the
    write failed before the file was opened; past that point what the
    file held is gone, and the file holds the first lines of the new
    conversation, or nothing, or a broken line, on which the next
    [loadSession] rejects. *)
Theorem save_failure_returns_unsaved (params : AgentRunParams)
  (w w1 : World) (error : WriteError) (turn : TurnResult) :
  let f := session_file path_join params in
  let unsaved :=
    run_conversation path_join undefined_message params w
    ++ turn_newMessages turn in
  load_failure path_join params w = None ->
  disk_error w = Some error ->
  run_turn JSON_parse clients (run_provider params)
    (run_context codingTools params)
    (run_conversation path_join undefined_message params w) w
  = (w1, Normal turn) ->
  snd (run params w)
  = Normal {| r_response := [];
              r_messages := unsaved;
              r_usage := None;
              r_error := Some (classify (we_message error) (run_model params)
                                 (run_provider params)) |}
  /\ (forall f', f' <> f -> files (fst (run params w)) !! f' = files w1 !! f')
  /\ match we_remains error with
     | Untouched => files (fst (run params w)) !! f = files w1 !! f
     | CompleteLines n =>
         load_failure path_join params (fst (run params w)) = None
         /\ stored_messages path_join params (fst (run params w))
            = take (n - 1) unsaved
     | BrokenLine broken =>
         load_failure path_join params (fst (run params w)) = Some broken
     end.
Proof.
  intros f unsaved Hload Hdisk Hturn. subst f unsaved.
  pose proof (runAgent_turn params w) as H. cbv zeta in H.
  rewrite Hload, Hturn, Hdisk in H. cbn [fst snd] in H.
  destruct H as (_ & _ & Hf & Hs).
  rewrite end_session_messages in Hs.
  split; [exact Hs|]. split.
  - intros f' Hne. rewrite Hf. apply failed_write_other. exact Hne.
  - unfold load_failure, stored_messages.
    rewrite Hf, failed_write_same.
    destruct (we_remains error) as [|[|n]|broken];
      cbn [remains_of sd_messages]; try reflexivity.
    + split; reflexivity.
    + rewrite end_session_messages.
      replace (S n - 1)%nat with n by lia. split; reflexivity.
Qed.

End RunFacts.

Lemma conversation_carries_over_witness :
  exists w1 result,
    Scenarios.run_hello answering_backend = (w1, Normal result)
    /\ exists rest,
         requests
           (fst (runAgent Scenarios.parse_any Scenarios.join_with_slash
                   (Scenarios.clients_with answering_backend) []
                   Scenarios.no_message Scenarios.hello w1))
         = requests w1
           ++ (0%nat,
               SessionManager.limitHistoryTurns Scenarios.no_message
                 (r_messages result) MAX_HISTORY_TURNS
               ++ [user_message Scenarios.hello]) :: rest.
Proof.
  eexists _, _. split; [vm_compute; reflexivity|].
  apply (conversation_carries_over Scenarios.parse_any
           Scenarios.join_with_slash
           (Scenarios.clients_with answering_backend) []
           Scenarios.no_message Scenarios.hello Scenarios.hello
           Scenarios.empty_world).
  - vm_compute. reflexivity.
  - reflexivity.
  - reflexivity.
Defined.

(** The disk fills up when the session of sixty messages is saved: the
    run returns the fifty-two messages it could not save, and the file
    is left empty. *)
Lemma save_failure_returns_unsaved_witness :
  exists w1 turn result,
    run_turn Scenarios.parse_any (Scenarios.clients_with answering_backend)
      (run_provider Scenarios.hello) (run_context [] Scenarios.hello)
      (run_conversation Scenarios.join_with_slash Scenarios.no_message
         Scenarios.hello full_disk) full_disk
    = (w1, Normal turn)
    /\ length (stored_messages Scenarios.join_with_slash Scenarios.hello
                 full_disk) = 60%nat
    /\ snd (runAgent Scenarios.parse_any Scenarios.join_with_slash
              (Scenarios.clients_with answering_backend) []
              Scenarios.no_message Scenarios.hello full_disk)
       = Normal result
    /\ length (r_messages result) = 52%nat
    /\ stored_messages Scenarios.join_with_slash Scenarios.hello
         (fst (runAgent Scenarios.parse_any Scenarios.join_with_slash
                 (Scenarios.clients_with answering_backend) []
                 Scenarios.no_message Scenarios.hello full_disk))
       = [].
Proof.
  eexists _, _, _. split; [vm_compute; reflexivity|].
  split; [vm_compute; reflexivity|].
  edestruct (save_failure_returns_unsaved Scenarios.parse_any
               Scenarios.join_with_slash
               (Scenarios.clients_with answering_backend) []
               Scenarios.no_message Scenarios.hello full_disk)
    as (Hresult & _ & Hfile).
  - vm_compute. reflexivity.
  - reflexivity.
  - vm_compute. reflexivity.
  - cbn [we_remains no_space] in Hfile. destruct Hfile as [_ Hstored].
    split; [exact Hresult|]. split; [vm_compute; reflexivity|].
    rewrite Hstored. reflexivity.
Defined.

End RunFacts.

(** ** Models, fragments and the abort signal *)

Module RunnerMoreFacts.

Import Runner RunnerSpec SignalSpec JSFacts EffFacts RunnerFacts.

Lemma bedrock_entries (key mapped : js_string) :
  In (key, mapped) BEDROCK_MODEL_MAP ->
  mapped <> [] /\ includes mapped (str "anthropic.claude") = true.
Proof.
  intros Hin. unfold BEDROCK_MODEL_MAP in Hin.
  repeat (destruct Hin as [[= <- <-]|Hin];
          [split; [discriminate|vm_compute; reflexivity]|]).
  destruct Hin.
Qed.

Lemma inherited_entries (key : js_string) (inherited : ModelValue) :
  In (key, inherited) OBJECT_PROTOTYPE ->
  bedrock_lookup key = Some inherited
  /\ includes key (str "anthropic.claude") = false
  /\ key <> []
  /\ forall name, inherited <> ModelName name.
Proof.
  intros Hin. unfold OBJECT_PROTOTYPE in Hin.
  repeat (destruct Hin as [[= <- <-]|Hin];
          [split; [vm_compute; reflexivity|];
           split; [vm_compute; reflexivity|];
           split; discriminate|]).
  destruct Hin.
Qed.

Lemma bedrock_lookup_names (m : js_string) :
  m ∉ map fst OBJECT_PROTOTYPE ->
  match bedrock_lookup m with
  | Some (ModelName mapped) =>
      mapped <> [] /\ includes mapped (str "anthropic.claude") = true
  | Some _ => False
  | None => True
  end.
Proof.
  intros Hnot. unfold bedrock_lookup.
  destruct (find _ BEDROCK_MODEL_MAP) as [[key mapped]|] eqn:Hown.
  { apply find_some in Hown as [Hin _]. apply (bedrock_entries _ _ Hin). }
  destruct (find _ OBJECT_PROTOTYPE) as [[key inherited]|] eqn:Hproto;
    [|exact I].
  apply find_some in Hproto as [Hin Heq]. cbn [fst] in Heq.
  apply eqb_eq in Heq. subst key. destruct Hnot.
  apply list_elem_of_In, in_map_iff. exists (m, inherited). auto.
Qed.

(** X17: [resolveModel] never returns the empty string.  A name that is
    not one of the twelve properties every object inherits resolves to
    a string; whenever the result is a string, resolving it again
    changes nothing; and outside Bedrock a model name that is not empty
    is used as it is, the Bedrock short names included.  For Bedrock a
    name that is one of the inherited properties, [constructor] or
    [toString] for instance, resolves to the inherited function or
    object, which is not a string. *)
Theorem resolveModel_stable (model : option js_string) (provider : Provider) :
  resolveModel model provider <> ModelName []
  /\ (forall name,
        resolveModel model provider = ModelName name ->
        resolveModel (Some name) provider = ModelName name)
  /\ (forall m, provider <> bedrock -> m <> [] ->
        resolveModel (Some m) provider = ModelName m)
  /\ (forall m, m ∉ map fst OBJECT_PROTOTYPE ->
        exists name, resolveModel (Some m) provider = ModelName name)
  /\ (forall m inherited,
        (m, inherited) ∈ OBJECT_PROTOTYPE ->
        resolveModel (Some m) bedrock = inherited
        /\ forall name, inherited <> ModelName name).
Proof.
  assert (Hdefault : forall p,
             DEFAULT_MODELS p <> []
             /\ resolveModel (Some (DEFAULT_MODELS p)) p
                = ModelName (DEFAULT_MODELS p)).
  { intros []; split; try discriminate; vm_compute; reflexivity. }
  assert (Hlookup : forall m,
             bedrock_lookup m = None \/
             (exists mapped,
                bedrock_lookup m = Some (ModelName mapped) /\ mapped <> []
                /\ includes mapped (str "anthropic.claude") = true) \/
             (exists inherited,
                bedrock_lookup m = Some inherited
                /\ forall name, inherited <> ModelName name)).
  { intros m. unfold bedrock_lookup.
    destruct (find _ BEDROCK_MODEL_MAP) as [[key mapped]|] eqn:Hown.
    { apply find_some in Hown as [Hin _].
      destruct (bedrock_entries _ _ Hin). right. left. eauto. }
    destruct (find _ OBJECT_PROTOTYPE) as [[key inherited]|] eqn:Hproto;
      [|left; reflexivity].
    apply find_some in Hproto as [Hin _].
    destruct (inherited_entries _ _ Hin) as (_ & _ & _ & Hno).
    right. right. eauto. }
  split; [|split; [|split; [|split]]].
  - destruct model as [[|c m]|]; cbn [resolveModel or_empty];
      try (intros [= H]; apply (proj1 (Hdefault provider)); exact H).
    destruct provider; try discriminate.
    destruct (includes (c :: m) (str "anthropic.claude")); [discriminate|].
    destruct (Hlookup (c :: m))
      as [->|[(mapped & -> & Hne & _)|(inherited & -> & Hno)]];
      cbn [truthy]; try discriminate.
    + destruct mapped; [contradiction|]. intros [=].
    + destruct inherited as [[|d name]| |]; cbn [truthy]; discriminate.
  - intros name.
    destruct model as [[|c m]|]; cbn [resolveModel or_empty];
      try (intros [= <-]; apply (proj2 (Hdefault provider))).
    destruct provider; try (intros [= <-]; reflexivity).
    destruct (includes (c :: m) (str "anthropic.claude")) eqn:Hinc.
    { intros [= <-]. cbn [resolveModel or_empty]. rewrite Hinc. reflexivity. }
    destruct (Hlookup (c :: m))
      as [Hl|[(mapped & Hl & Hne & Hfull)|(inherited & Hl & Hno)]];
      rewrite Hl; cbn [truthy].
    + intros [= <-]. cbn [resolveModel or_empty]. rewrite Hinc, Hl.
      reflexivity.
    + destruct mapped as [|d mapped]; [contradiction|].
      intros [= <-].
      cbn [resolveModel or_empty]. rewrite Hfull. reflexivity.
    + destruct inherited as [[|d other]| |]; cbn [truthy];
        try discriminate.
      * destruct (Hno []). reflexivity.
      * destruct (Hno (d :: other)). reflexivity.
  - intros [|c m] Hp Hm; [contradiction|].
    destruct provider; try reflexivity. contradiction.
  - intros m Hnot. pose proof (bedrock_lookup_names m Hnot) as Hnames.
    destruct m as [|c m]; cbn [resolveModel or_empty]; [eauto|].
    destruct provider; eauto.
    destruct (includes (c :: m) (str "anthropic.claude")); [eauto|].
    destruct (bedrock_lookup (c :: m)) as [[mapped| |]|];
      cbn [truthy]; try contradiction; eauto.
    destruct mapped; eauto.
  - intros m inherited Hin. apply list_elem_of_In in Hin.
    destruct (inherited_entries _ _ Hin) as (Hl & Hinc & Hne & Hno).
    split; [|exact Hno].
    destruct m as [|c m]; [contradiction|].
    cbn [resolveModel or_empty]. rewrite Hinc, Hl.
    destruct inherited as [name| |]; cbn [truthy]; try reflexivity.
    destruct (Hno name). reflexivity.
Qed.

Lemma array_set_empty {A} (index : nat) (x : A) :
  array_set index x [] = replicate index None ++ [Some x].
Proof.
  unfold array_set. cbn [length]. rewrite Nat.sub_0_r.
  destruct (index <? 0)%nat eqn:E; [apply Nat.ltb_lt in E; lia|reflexivity].
Qed.

Lemma lookup_after_holes {A} (index : nat) (x : A) :
  (replicate index (@None A) ++ [Some x]) !! index = Some (Some x).
Proof.
  rewrite lookup_app_r by (rewrite length_replicate; lia).
  rewrite length_replicate, Nat.sub_diag. reflexivity.
Qed.

Lemma insert_after_holes {A} (index : nat) (x y : A) :
  <[index := Some y]> (replicate index (@None A) ++ [Some x])
  = replicate index None ++ [Some y].
Proof.
  rewrite insert_app_r_alt by (rewrite length_replicate; lia).
  rewrite length_replicate, Nat.sub_diag. reflexivity.
Qed.

Lemma fragments_accumulate (index : nat) (rest : list (js_string * js_string))
  (pc : PartialCall) (w : World) :
  on_tool_call_deltas (name_and_arguments index rest)
    (replicate index None ++ [Some pc], Some index) w
  = (w, Normal (replicate index None
                ++ [Some {| pc_id := pc_id pc;
                            pc_name := pc_name pc ++ concat (map fst rest);
                            pc_arguments :=
                              pc_arguments pc ++ concat (map snd rest) |}],
                Some index)).
Proof.
  revert pc. induction rest as [|[n a] rest IH]; intros pc.
  - cbn [name_and_arguments map on_tool_call_deltas concat ret].
    rewrite !app_nil_r. destruct pc; reflexivity.
  - cbn [name_and_arguments map on_tool_call_deltas].
    erewrite bind_normal.
    2:{ unfold on_tool_call_delta. cbn [tcd_index].
        rewrite bool_decide_eq_true_2 by reflexivity.
        rewrite lookup_after_holes. cbn [tcd_id or_empty ret].
        rewrite insert_after_holes. reflexivity. }
    fold (name_and_arguments index rest). rewrite IH.
    cbn [pc_id pc_name pc_arguments tcd_name tcd_arguments or_empty fst snd
         map concat].
    rewrite <- !app_assoc. reflexivity.
Qed.

(** X18: the fragments of a tool call are put together in the order
    they arrive.  When a reply streams one call at an index, the first
    fragment giving id, name and arguments and the later ones further
    pieces of name and arguments, the call accumulated at that index
    has the id of the first fragment and the concatenation of the
    pieces; the entries in front of the index are holes. *)
Theorem tool_call_fragments_concatenate (index : nat) (first : ToolCallDelta)
  (rest : list (js_string * js_string)) (w : World) :
  tcd_index first = Some index ->
  on_tool_call_deltas (first :: name_and_arguments index rest) ([], None) w
  = (w, Normal (replicate index None
                ++ [Some {| pc_id := or_empty (tcd_id first);
                            pc_name :=
                              or_empty (tcd_name first) ++ concat (map fst rest);
                            pc_arguments :=
                              or_empty (tcd_arguments first)
                              ++ concat (map snd rest) |}],
                Some index)).
Proof.
  intros Hindex. cbn [on_tool_call_deltas].
  erewrite bind_normal.
  2:{ unfold on_tool_call_delta. rewrite Hindex.
      rewrite bool_decide_eq_false_2 by discriminate.
      rewrite array_set_empty. reflexivity. }
  apply fragments_accumulate.
Qed.

(** X19: a fragment whose index differs from the index of the fragment
    before it starts its entry afresh: when the fragments of two calls
    are interleaved, what had been accumulated for a call is replaced
    by the fragment that returns to it. *)
Theorem interleaved_fragments_overwrite (a b : nat)
  (earlier other later : ToolCallDelta) (w : World) :
  a <> b ->
  tcd_index earlier = Some a -> tcd_index other = Some b ->
  tcd_index later = Some a ->
  exists toolCalls,
    on_tool_call_deltas [earlier; other; later] ([], None) w
    = (w, Normal (toolCalls, Some a))
    /\ toolCalls !! a = Some (Some (fragment later))
    /\ toolCalls !! b = Some (Some (fragment other)).
Proof.
  intros Hab Ha Hb Ha'.
  cbn [on_tool_call_deltas]. unfold bind, on_tool_call_delta, ret.
  rewrite Ha. rewrite bool_decide_eq_false_2 by discriminate.
  rewrite Hb. rewrite bool_decide_eq_false_2 by congruence.
  rewrite Ha'. rewrite bool_decide_eq_false_2 by congruence.
  eexists. split; [reflexivity|].
  split; [apply array_set_lookup|].
  fold (fragment earlier) (fragment other) (fragment later).
  assert (Hset : forall {A} i j (x : A) xs y,
             i <> j -> xs !! j = Some (Some y) ->
             array_set i x xs !! j = Some (Some y)).
  { intros A i j x xs y Hij Hj. unfold array_set.
    destruct (i <? length xs)%nat.
    - rewrite list_lookup_insert_ne by exact Hij. exact Hj.
    - apply lookup_app_l_Some. exact Hj. }
  apply Hset; [exact Hab|]. apply array_set_lookup.
Qed.

Section Signal.

Variable JSON_parse : js_string -> js_string + js_string.

Lemma executeTool_signal (ctx : RunContext) (signal : option bool)
  (toolName args : js_string) (w : World) :
  Forall ignores_signal (tools ctx) ->
  executeTool (with_context_signal signal ctx) toolName args w
  = executeTool ctx toolName args w.
Proof.
  intros Htools. unfold executeTool. cbn [tools with_context_signal].
  destruct (find _ (tools ctx)) as [tool|] eqn:Hfind; [|reflexivity].
  apply find_some in Hfind as [Hin _].
  rewrite Forall_forall in Htools.
  apply list_elem_of_In in Hin.
  cbn [toolContext with_context_signal].
  destruct (toolContext ctx) as [dir s].
  cbn [workspaceDir]. unfold call_tool, bind, observe.
  rewrite (Htools tool Hin args dir signal s). reflexivity.
Qed.

Lemma executeTools_signal (ctx : RunContext) (signal : option bool)
  (calls : list ToolCall) (w : World) :
  Forall ignores_signal (tools ctx) ->
  executeTools (with_context_signal signal ctx) calls w
  = executeTools ctx calls w.
Proof.
  intros Htools. revert w. induction calls as [|c calls IH]; intros w;
    [reflexivity|].
  cbn [executeTools]. unfold bind.
  rewrite executeTool_signal by exact Htools.
  destruct (executeTool ctx (tc_name c) (tc_arguments c) w)
    as [w1 [result|message]]; [|reflexivity].
  rewrite IH. reflexivity.
Qed.

Lemma anthropic_loop_signal (client : AnthropicBackend) (ctx : RunContext)
  (signal : option bool) (messages : list Message) (budget : nat)
  (st : LoopState) (w : World) :
  Forall ignores_signal (tools ctx) ->
  anthropic_loop client (with_context_signal signal ctx) messages budget st w
  = anthropic_loop client ctx messages budget st w.
Proof.
  intros Htools. revert st w. induction budget as [|budget IH]; intros st w;
    [reflexivity|].
  cbn [anthropic_loop].
  assert (Hit : anthropic_iteration client (with_context_signal signal ctx)
                  messages st w
                = anthropic_iteration client ctx messages st w).
  { unfold anthropic_iteration, bind.
    destruct (send_anthropic _ _ _ w) as [w1 [stream|message]]; [|reflexivity].
    destruct (on_text _ _ w1) as [w2 [text|message]]; [|reflexivity].
    destruct (await_final stream w2) as [w3 [response|message]];
      [|reflexivity].
    destruct (tool_use_calls (fm_content response)); [reflexivity|].
    rewrite executeTools_signal by exact Htools. reflexivity. }
  unfold bind. rewrite Hit.
  destruct (anthropic_iteration client ctx messages st w)
    as [w1 [[[|] st1]|message]]; try reflexivity.
  apply IH.
Qed.

Lemma openai_loop_signal (client : OpenAIBackend) (ctx : RunContext)
  (signal : option bool) (messages : list Message) (budget : nat)
  (st : LoopState) (w : World) :
  Forall ignores_signal (tools ctx) ->
  openai_loop JSON_parse client (with_context_signal signal ctx) messages
    budget st w
  = openai_loop JSON_parse client ctx messages budget st w.
Proof.
  intros Htools. revert st w. induction budget as [|budget IH]; intros st w;
    [reflexivity|].
  cbn [openai_loop].
  assert (Hit : openai_iteration JSON_parse client
                  (with_context_signal signal ctx) messages st w
                = openai_iteration JSON_parse client ctx messages st w).
  { unfold openai_iteration, bind.
    destruct (send_openai _ _ _ w) as [w1 [stream|message]]; [|reflexivity].
    destruct (consume_stream _ _ w1) as [w2 [ss|message]]; [|reflexivity].
    destruct (parse_tool_calls _ _ w2) as [w3 [parsed|message]];
      [|reflexivity].
    destruct parsed; [reflexivity|].
    destruct (until_hole _) as [calls hole].
    rewrite executeTools_signal by exact Htools. reflexivity. }
  unfold bind. rewrite Hit.
  destruct (openai_iteration JSON_parse client ctx messages st w)
    as [w1 [[[|] st1]|message]]; try reflexivity.
  apply IH.
Qed.

Variable path_join : js_string -> js_string -> js_string.
Variable clients : Clients.
Variable codingTools : list Tool.
Variable undefined_message : Message.

Lemma run_turn_signal (provider : Provider) (ctx : RunContext)
  (signal : option bool) (messages : list Message) (w : World) :
  Forall ignores_signal (tools ctx) ->
  run_turn JSON_parse clients provider (with_context_signal signal ctx)
    messages w
  = run_turn JSON_parse clients provider ctx messages w.
Proof.
  intros Htools.
  destruct provider; cbn [run_turn];
    unfold runAnthropicAgentTurn, runOpenAIAgentTurn,
      runAnthropicAgentTurnWith, runOpenAIAgentTurnWith, bind;
    rewrite ?anthropic_loop_signal, ?openai_loop_signal by exact Htools;
    reflexivity.
Qed.

(** X20: the runner hands the abort signal to the tools and never
    reads it itself: with tools that do not look at the signal, a run
    sends the same requests, makes the same calls and returns the same
    result whether the signal is absent, clear or already set. *)
Theorem abort_signal_not_consulted (params : AgentRunParams)
  (signal : option bool) (w : World) :
  Forall ignores_signal (default codingTools (p_tools params)) ->
  runAgent JSON_parse path_join clients codingTools undefined_message
    (with_signal signal params) w
  = runAgent JSON_parse path_join clients codingTools undefined_message
      params w.
Proof.
  intros Htools.
  rewrite (runAgent_unfold JSON_parse path_join clients codingTools
             undefined_message (with_signal signal params) w).
  rewrite (runAgent_unfold JSON_parse path_join clients codingTools
             undefined_message params w).
  cbv zeta.
  match goal with
  | |- ?lhs = ?rhs =>
      match lhs with
      | context [run_turn JSON_parse clients ?p1 ?c1 ?m1 w] =>
          match rhs with
          | context [run_turn JSON_parse clients ?p2 ?c2 ?m2 w] =>
              assert (Hturn : run_turn JSON_parse clients p1 c1 m1 w
                              = run_turn JSON_parse clients p2 c2 m2 w)
                by exact (run_turn_signal p2 c2 signal m2 w Htools);
              rewrite Hturn
          end
      end
  end.
  reflexivity.
Qed.

End Signal.

Lemma tool_call_fragments_concatenate_witness :
  on_tool_call_deltas
    ({| tcd_index := Some 1%nat; tcd_id := Some (str "c1");
        tcd_name := Some (str "re"); tcd_arguments := None |}
     :: name_and_arguments 1 [(str "ad", str "{"); ([], str "}")])
    ([], None) Scenarios.empty_world
  = (Scenarios.empty_world,
     Normal ([None; Some {| pc_id := str "c1"; pc_name := str "read";
                            pc_arguments := str "{}" |}], Some 1%nat)).
Proof.
  rewrite (tool_call_fragments_concatenate 1) by reflexivity.
  reflexivity.
Defined.

Lemma interleaved_fragments_overwrite_witness :
  exists toolCalls,
    on_tool_call_deltas
      [ {| tcd_index := Some 0%nat; tcd_id := Some (str "c0");
           tcd_name := Some (str "read"); tcd_arguments := Some (str "{") |};
        {| tcd_index := Some 1%nat; tcd_id := Some (str "c1");
           tcd_name := Some (str "ls"); tcd_arguments := None |};
        {| tcd_index := Some 0%nat; tcd_id := None; tcd_name := None;
           tcd_arguments := Some (str "}") |} ]
      ([], None) Scenarios.empty_world
    = (Scenarios.empty_world, Normal (toolCalls, Some 0%nat))
    /\ toolCalls !! 0%nat
       = Some (Some {| pc_id := []; pc_name := [];
                       pc_arguments := str "}" |}).
Proof.
  destruct (interleaved_fragments_overwrite 0 1
              {| tcd_index := Some 0%nat; tcd_id := Some (str "c0");
                 tcd_name := Some (str "read");
                 tcd_arguments := Some (str "{") |}
              {| tcd_index := Some 1%nat; tcd_id := Some (str "c1");
                 tcd_name := Some (str "ls"); tcd_arguments := None |}
              {| tcd_index := Some 0%nat; tcd_id := None; tcd_name := None;
                 tcd_arguments := Some (str "}") |}
              Scenarios.empty_world)
    as (toolCalls & Hrun & Ha & _); try reflexivity; try lia.
  exists toolCalls. split; [exact Hrun|exact Ha].
Defined.

Lemma abort_signal_not_consulted_witness :
  runAgent Scenarios.parse_any Scenarios.join_with_slash
    (Scenarios.clients_with Scenarios.busy_backend) [echo_tool]
    Scenarios.no_message
    (with_signal (Some true)
       {| p_sessionId := str "s1"; p_prompt := str "hi";
          p_sessionFile := None; p_workspaceDir := str "/work";
          p_model := None; p_provider := None; p_tools := None;
          p_abortSignal := Some false |})
    Scenarios.empty_world
  = runAgent Scenarios.parse_any Scenarios.join_with_slash
      (Scenarios.clients_with Scenarios.busy_backend) [echo_tool]
      Scenarios.no_message
      {| p_sessionId := str "s1"; p_prompt := str "hi";
         p_sessionFile := None; p_workspaceDir := str "/work";
         p_model := None; p_provider := None; p_tools := None;
         p_abortSignal := Some false |}
      Scenarios.empty_world.
Proof.
  apply abort_signal_not_consulted.
  cbn. constructor; [|constructor]. intros args dir s s'. reflexivity.
Defined.

End RunnerMoreFacts.

(** ** What the backends are sent *)

Module WireFacts.

Import Runner TurnSpec Wire JSFacts.

Lemma paired_ind (P : list Message -> Prop) :
  P [] ->
  (forall text,
     P [{| role := assistant; content := text; toolCalls := None;
           toolResults := None |}]) ->
  (forall text c calls text' results rest,
     answers (c :: calls) results = true ->
     paired rest = true ->
     P rest ->
     P ({| role := assistant; content := text;
           toolCalls := Some (c :: calls); toolResults := None |}
        :: {| role := user; content := text'; toolCalls := None;
              toolResults := Some results |}
        :: rest)) ->
  forall ms, paired ms = true -> P ms.
Proof.
  intros Hnil Hfinal Hround ms.
  remember (length ms) as n eqn:Hn. revert ms Hn.
  induction n as [n IH] using lt_wf_ind. intros ms Hn Hp.
  destruct ms as [|[r text tc trs] rest]; [exact Hnil|].
  cbn [paired role toolCalls toolResults] in Hp.
  destruct r; try discriminate Hp.
  destruct tc as [[|c calls]|]; try discriminate Hp.
  - destruct trs; [discriminate Hp|].
    destruct rest as [|[r' text' tc' trs'] rest']; [discriminate Hp|].
    cbn [role toolCalls toolResults] in Hp.
    destruct r'; try discriminate Hp.
    destruct tc'; [discriminate Hp|].
    destruct trs' as [results|]; [|discriminate Hp].
    apply andb_true_iff in Hp as [Hans Hrest].
    apply Hround; [exact Hans|exact Hrest|].
    apply (IH (length rest')); [subst n; cbn [length]; lia|reflexivity|].
    exact Hrest.
  - destruct trs; [discriminate Hp|].
    destruct rest; [|discriminate Hp]. apply Hfinal.
Qed.

Lemma answers_ids (calls : list ToolCall) (results : list ToolResult) :
  answers calls results = true ->
  map tr_toolCallId results = map tc_id calls
  /\ length results = length calls.
Proof.
  unfold answers. intros H. apply bool_decide_eq_true in H.
  split; [exact H|]. apply (f_equal length) in H.
  rewrite !length_map in H. exact H.
Qed.

Lemma toAnthropicMessages_app (a b : list Message) :
  toAnthropicMessages (a ++ b)
  = toAnthropicMessages a ++ toAnthropicMessages b.
Proof.
  unfold toAnthropicMessages. rewrite List.filter_app, map_app. reflexivity.
Qed.

Lemma use_ids_calls (prefix : list AnthropicBlock) (calls : list ToolCall) :
  (forall b, b ∈ prefix -> exists text, b = WireText text) ->
  use_ids {| ap_role := assistant;
             ap_content :=
               inr (prefix
                    ++ map (fun toolCall =>
                              WireToolUse (tc_id toolCall) (tc_name toolCall)
                                (tc_arguments toolCall)) calls) |}
  = map tc_id calls.
Proof.
  intros Hprefix. unfold use_ids. cbn [ap_content].
  rewrite omap_app.
  replace (omap _ prefix) with (@nil js_string).
  - cbn [app]. induction calls as [|c calls IH]; [reflexivity|].
    simpl. f_equal. exact IH.
  - induction prefix as [|b prefix IH]; [reflexivity|].
    destruct (Hprefix b) as [text ->]; [left|].
    simpl. apply IH. intros b' Hb'. apply Hprefix. right. exact Hb'.
Qed.

Lemma result_ids_results (results : list ToolResult) :
  result_ids {| ap_role := user;
                ap_content :=
                  inr (map (fun tr =>
                              WireToolResult (tr_toolCallId tr) (tr_content tr)
                                (tr_isError tr)) results) |}
  = Some (map tr_toolCallId results).
Proof.
  unfold result_ids. cbn [ap_role ap_content].
  induction results as [|r results IH]; [reflexivity|].
  cbn [map mapM]. rewrite IH. reflexivity.
Qed.

Lemma use_ids_results (results : list ToolResult) :
  use_ids {| ap_role := user;
             ap_content :=
               inr (map (fun tr =>
                           WireToolResult (tr_toolCallId tr) (tr_content tr)
                             (tr_isError tr)) results) |}
  = [].
Proof.
  unfold use_ids. cbn [ap_content].
  induction results as [|r results IH]; [reflexivity|].
  cbn [map omap]. exact IH.
Qed.

Lemma openai_answered_tools (results : list ToolResult)
  (rest : list OpenAIParam) :
  openai_answered
    (map (fun tr => ToolParam (tr_toolCallId tr) (tr_content tr)) results
     ++ rest)
  = openai_answered rest.
Proof.
  induction results as [|r results IH]; [reflexivity|]. exact IH.
Qed.

Lemma tool_ids_results (results : list ToolResult) :
  mapM tool_id
    (map (fun tr => ToolParam (tr_toolCallId tr) (tr_content tr)) results)
  = Some (map tr_toolCallId results).
Proof.
  induction results as [|r results IH]; [reflexivity|].
  cbn [map mapM tool_id]. rewrite IH. reflexivity.
Qed.

Lemma anthropic_keeps_answers (ms : list Message) :
  paired ms = true -> anthropic_answered (toAnthropicMessages ms) = true.
Proof.
  revert ms.
  apply (paired_ind
           (fun ms => anthropic_answered (toAnthropicMessages ms) = true));
    [reflexivity|reflexivity|].
  intros text c calls text' results rest Hans _ IH.
  destruct (answers_ids _ _ Hans) as [Hids Hlen].
  destruct results as [|r results]; [discriminate Hlen|].
  unfold toAnthropicMessages in *.
  cbn [List.filter role is_system negb map].
  match goal with
  | |- anthropic_answered (anthropic_param ?a :: anthropic_param ?b :: ?l)
       = true =>
      assert (Ha : use_ids (anthropic_param a) = map tc_id (c :: calls));
      [|assert (Hb : result_ids (anthropic_param b)
                     = Some (map tr_toolCallId (r :: results))
                     /\ use_ids (anthropic_param b) = [])]
  end.
  { unfold anthropic_param. cbn [role toolCalls content].
    apply use_ids_calls. intros b Hb. destruct text; [inversion Hb|].
    apply list_elem_of_singleton in Hb. eauto. }
  { unfold anthropic_param. cbn [role toolCalls toolResults].
    split; [apply result_ids_results|apply use_ids_results]. }
  destruct Hb as [Hb Hb'].
  cbn [anthropic_answered]. rewrite Ha. cbn [map].
  rewrite Hb, Hb', Hids. cbn [map].
  rewrite bool_decide_eq_true_2 by reflexivity. exact IH.
Qed.

Lemma openai_keeps_answers (JSON_stringify : js_string -> js_string)
  (systemPrompt : js_string) (ms : list Message) :
  paired ms = true ->
  openai_answered (toOpenAIMessages JSON_stringify ms systemPrompt) = true.
Proof.
  unfold toOpenAIMessages. cbn [openai_answered]. revert ms.
  apply (paired_ind
           (fun ms =>
              openai_answered (flat_map (openai_params JSON_stringify) ms)
              = true));
    [reflexivity|reflexivity|].
  intros text c calls text' results rest Hans _ IH.
  destruct (answers_ids _ _ Hans) as [Hids Hlen].
  destruct results as [|r results]; [discriminate Hlen|].
  cbn [flat_map].
  unfold openai_params at 1 2.
  cbn [role is_system toolCalls toolResults content app].
  cbn [openai_answered].
  rewrite length_map, <- Hlen.
  rewrite <- (length_map (fun tr => ToolParam (tr_toolCallId tr)
                                      (tr_content tr)) (r :: results)).
  rewrite take_app_length, tool_ids_results, Hids.
  rewrite map_map. cbn [otc_id].
  rewrite bool_decide_eq_true_2 by reflexivity.
  rewrite bool_decide_eq_true_2 by (rewrite length_app; lia).
  cbn [andb]. rewrite openai_answered_tools. exact IH.
Qed.

(** X21: the translations to the two wire formats keep every tool call
    next to its answer.  For well-paired messages, every Anthropic
    message with [tool_use] blocks is followed at once by a user message
    made of the [tool_result] blocks for the same ids in the same
    order, and every OpenAI assistant message with tool calls is
    followed at once by one [tool] message per call, with the ids of
    the calls in order.  The Anthropic translation of a conversation is
    the translation of its parts put together. *)
Theorem wire_keeps_answers (JSON_stringify : js_string -> js_string)
  (ms : list Message) (systemPrompt : js_string) :
  paired ms = true ->
  anthropic_answered (toAnthropicMessages ms) = true
  /\ openai_answered (toOpenAIMessages JSON_stringify ms systemPrompt) = true
  /\ forall history,
       toAnthropicMessages (history ++ ms)
       = toAnthropicMessages history ++ toAnthropicMessages ms.
Proof.
  intros Hp. split; [|split; [|intros; apply toAnthropicMessages_app]].
  - apply anthropic_keeps_answers, Hp.
  - apply openai_keeps_answers, Hp.
Qed.

Lemma wire_keeps_answers_witness :
  anthropic_answered
    (toAnthropicMessages
       [assistant_message (str "a") [Scenarios.nope_call];
        carrier_message [RunnerSpec.unknown_tool_result Scenarios.nope_call];
        assistant_message (str "done") []])
  = true.
Proof.
  apply (wire_keeps_answers (fun text => text)
           [assistant_message (str "a") [Scenarios.nope_call];
            carrier_message [RunnerSpec.unknown_tool_result Scenarios.nope_call];
            assistant_message (str "done") []] []).
  reflexivity.
Defined.

End WireFacts.

(** ** The daemon on top of the lanes *)

Module OrchestratorFacts.

Import Runner Daemon Orchestrator JSFacts LanesFacts.

Lemma map_set_fresh {V} (k : js_string) (v : V) (m : list (js_string * V)) :
  k ∉ m.*1 -> map_set k v m = m ++ [(k, v)].
Proof.
  induction m as [|[k' v'] m IH]; intros Hk; [reflexivity|].
  rewrite fmap_cons in Hk. apply not_elem_of_cons in Hk as [Hne Hk].
  cbn [map_set app]. destruct (eqb k' k) eqn:E.
  - apply eqb_eq in E. cbn [fst] in Hne. congruence.
  - rewrite IH by exact Hk. reflexivity.
Qed.

Lemma map_delete_absent {V} (k : js_string) (m : list (js_string * V)) :
  k ∉ m.*1 -> map_delete k m = m.
Proof.
  induction m as [|[k' v'] m IH]; intros Hk; [reflexivity|].
  rewrite fmap_cons in Hk. apply not_elem_of_cons in Hk as [Hne Hk].
  cbn [map_delete]. destruct (eqb k' k) eqn:E.
  - apply eqb_eq in E. cbn [fst] in Hne. congruence.
  - rewrite IH by exact Hk. reflexivity.
Qed.

Lemma map_delete_middle {V} (k : js_string) (v : V)
  (pre post : list (js_string * V)) :
  k ∉ pre.*1 -> k ∉ post.*1 ->
  map_delete k (pre ++ (k, v) :: post) = pre ++ post.
Proof.
  intros Hpre Hpost.
  induction pre as [|[k' v'] pre IH].
  - cbn [app map_delete]. rewrite eqb_refl. apply map_delete_absent, Hpost.
  - rewrite fmap_cons in Hpre. apply not_elem_of_cons in Hpre as [Hne Hpre].
    cbn [app map_delete]. destruct (eqb k' k) eqn:E.
    + apply eqb_eq in E. cbn [fst] in Hne. congruence.
    + rewrite IH by exact Hpre. reflexivity.
Qed.

Lemma getSessionLaneKey_inj (a b : js_string) :
  Lanes.getSessionLaneKey a = Lanes.getSessionLaneKey b -> a = b.
Proof. unfold Lanes.getSessionLaneKey. apply app_inv_head. Qed.

Lemma omap_ext_in {A B} (f g : A -> option B) (l : list A) :
  (forall x, x ∈ l -> f x = g x) -> omap f l = omap g l.
Proof.
  induction l as [|x l IH]; intros H; [reflexivity|].
  cbn [omap list_omap]. rewrite (H x) by left.
  rewrite IH by (intros y Hy; apply H; right; exact Hy). reflexivity.
Qed.

Lemma omap_length_le {A B} (f : A -> option B) (l : list A) :
  (length (omap f l) <= length l)%nat.
Proof.
  induction l as [|x l IH]; [reflexivity|].
  cbn [omap list_omap length]. destruct (f x); cbn [length]; lia.
Qed.

Lemma started_by_events (s s' : Lanes.State AgentRunResult)
  (es : list (Lanes.Event AgentRunResult)) :
  Lanes.trace s' = Lanes.trace s ++ es ->
  started_by s s'
  = head (omap (fun e => match e with
                         | Lanes.Started _ p => Some p
                         | _ => None
                         end) es).
Proof.
  intros H. unfold started_by. rewrite H, drop_app_length. reflexivity.
Qed.

Lemma awaited_insert_ne (ts : gmap nat Task) (p : nat) (t : Task)
  (a : Lanes.Activation) :
  Lanes.act_item a <> p -> awaited (<[p := t]> ts) a = awaited ts a.
Proof.
  intros Hne. unfold awaited. rewrite lookup_insert_ne by congruence.
  reflexivity.
Qed.

Lemma awaited_delete_ne (ts : gmap nat Task) (p : nat)
  (a : Lanes.Activation) :
  Lanes.act_item a <> p -> awaited (delete p ts) a = awaited ts a.
Proof.
  intros Hne. unfold awaited. rewrite lookup_delete_ne by congruence.
  reflexivity.
Qed.

Lemma awaited_elem (ts : gmap nat Task) (acts : list Lanes.Activation)
  (runId sessionId : js_string) :
  (runId, sessionId) ∈ omap (awaited ts) acts ->
  exists a task,
    a ∈ acts /\ ts !! Lanes.act_item a = Some task
    /\ t_status task = Awaiting runId
    /\ sessionId = o_sessionId (t_options task).
Proof.
  intros Hin. apply list_elem_of_omap in Hin as (a & Ha & Haw).
  unfold awaited in Haw.
  destruct (ts !! Lanes.act_item a) as [task|] eqn:Ht; [|discriminate].
  destruct (t_status task) as [|rid|] eqn:Hs; try discriminate.
  injection Haw as <- <-. eauto 10.
Qed.

Section Keys.

Variable ts : gmap nat Task.
Variable acts : list Lanes.Activation.

Hypothesis Hrunning :
  forall a, a ∈ acts ->
    exists task,
      ts !! Lanes.act_item a = Some task
      /\ Lanes.act_laneKey a = lane_key task.

Hypothesis Hids :
  forall p task runId,
    ts !! p = Some task -> t_status task = Awaiting runId ->
    exists now, runId = make_runId (o_sessionId (t_options task)) now.

Lemma awaited_key (runId sessionId : js_string) :
  (runId, sessionId) ∈ omap (awaited ts) acts ->
  Lanes.getSessionLaneKey sessionId ∈ Lanes.act_laneKey <$> acts
  /\ exists now, runId = make_runId sessionId now.
Proof.
  intros Hin.
  destruct (awaited_elem _ _ _ _ Hin) as (a & task & Ha & Ht & Hs & ->).
  destruct (Hrunning a Ha) as (task' & Ht' & Hkey).
  assert (task' = task) as -> by congruence.
  split; [|eapply Hids; eauto].
  apply list_elem_of_fmap. exists a. split; [|exact Ha].
  rewrite Hkey. reflexivity.
Qed.

Lemma fresh_run_id (sessionId : js_string) (now : N) :
  Lanes.getSessionLaneKey sessionId ∉ Lanes.act_laneKey <$> acts ->
  make_runId sessionId now ∉ (omap (awaited ts) acts).*1.
Proof.
  intros Hkey Hin. apply list_elem_of_fmap in Hin as ([rid sid] & Heq & Hin).
  cbn [fst] in Heq. subst rid.
  destruct (awaited_key _ _ Hin) as [Hk [now' Hid]].
  apply DaemonFacts.make_runId_inj in Hid as [-> _]. contradiction.
Qed.

Lemma awaited_sessions :
  NoDup (Lanes.act_laneKey <$> acts) -> NoDup (omap (awaited ts) acts).*2.
Proof.
  clear Hids. revert Hrunning.
  induction acts as [|a acts' IH]; intros Hrun Hnd; [constructor|].
  rewrite fmap_cons in Hnd. apply NoDup_cons in Hnd as [Hnotin Hnd].
  assert (Hrun' : forall b, b ∈ acts' ->
             exists task, ts !! Lanes.act_item b = Some task
                          /\ Lanes.act_laneKey b = lane_key task).
  { intros b Hb. apply Hrun. right. exact Hb. }
  specialize (IH Hrun' Hnd).
  cbn [omap list_omap].
  destruct (awaited ts a) as [[rid sid]|] eqn:Haw; [|exact IH].
  rewrite fmap_cons. apply NoDup_cons. split; [|exact IH].
  cbn [snd]. intros Hin.
  apply list_elem_of_fmap in Hin as ([rid' sid'] & Heq & Hin).
  cbn [snd] in Heq. subst sid'.
  destruct (awaited_elem _ _ _ _ Hin) as (b & task & Hb & Ht & _ & Hsid).
  destruct (Hrun' b Hb) as (task' & Ht' & Hkey).
  assert (task' = task) as -> by congruence.
  unfold awaited in Haw. destruct (Hrun a) as (ta & Hta & Hka); [left|].
  rewrite Hta in Haw. destruct (t_status ta); try discriminate.
  injection Haw as _ Hsid'.
  apply Hnotin. apply list_elem_of_fmap. exists b. split; [|exact Hb].
  rewrite Hka, Hkey. unfold lane_key. congruence.
Qed.

End Keys.

Section Preservation.

Variable config : DaemonConfig.
Variable listener_throws : DaemonEvent -> option js_string.
Hypothesis Hquiet : quiet_start listener_throws.

Lemma run_begin_quiet (options : RunOptions) (now startedAt : N)
  (d : Daemon.State) :
  run_begin config listener_throws options now startedAt d
  = ({| activeRuns :=
          map_set (make_runId (o_sessionId options) now)
            (DaemonSpec.registered config options startedAt) (activeRuns d);
        emitted :=
          emitted d ++ [RunStart (make_runId (o_sessionId options) now)
                          (o_sessionId options)
                          (effective_provider config options)] |},
     Normal (make_runId (o_sessionId options) now)).
Proof.
  unfold run_begin, Eff.bind, modify_runs, emit, Eff.ret.
  cbn [activeRuns emitted]. rewrite Hquiet. reflexivity.
Qed.

Lemma run_guarded_runs (runId sessionId : js_string)
  (outcome : Completion AgentRunResult) (d : Daemon.State) :
  activeRuns (fst (run_guarded listener_throws runId sessionId
                     (fun d => (d, outcome)) d))
  = map_delete runId (activeRuns d).
Proof.
  unfold run_guarded, Eff.try_finally, Eff.try_catch, Eff.bind, emit, Eff.ret,
    Eff.throw, modify_runs.
  destruct outcome as [result|error]; cbn [fst snd].
  - destruct (listener_throws (RunEnd runId sessionId result)) as [message|];
      cbn [fst snd activeRuns emitted]; [|reflexivity].
    destruct (listener_throws (RunError runId sessionId message));
      reflexivity.
  - destruct (listener_throws (RunError runId sessionId error)); reflexivity.
Qed.

Lemma cancelRun_registered (sessionId : js_string) (d : Daemon.State) :
  registered_runs (fst (cancelRun listener_throws sessionId d))
  = registered_runs d.
Proof.
  assert (H : forall runs found runs',
             abort_first sessionId runs = Some (found, runs') ->
             (fun entry => (entry.1, ar_sessionId entry.2)) <$> runs'
             = (fun entry => (entry.1, ar_sessionId entry.2)) <$> runs).
  { induction runs as [|[runId run] runs IH]; intros found runs' Hab.
    - discriminate Hab.
    - cbn [abort_first] in Hab.
      destruct (eqb (ar_sessionId run) sessionId).
      + injection Hab as <- <-. reflexivity.
      + destruct (abort_first sessionId runs) as [[found' rest']|] eqn:E;
          [|discriminate Hab].
        injection Hab as <- <-. rewrite !fmap_cons. f_equal.
        exact (IH _ _ eq_refl). }
  unfold cancelRun, registered_runs.
  destruct (abort_first sessionId (activeRuns d)) as [[found runs']|] eqn:E;
    [|reflexivity].
  unfold Eff.bind, emit, Eff.ret. cbn [activeRuns emitted].
  specialize (H _ _ _ E).
  destruct (listener_throws (RunCancelled found sessionId)); exact H.
Qed.

Lemma running_keys (sys : System) :
  consistent sys ->
  forall a, a ∈ Lanes.suspended (sched sys) ->
    exists task,
      tasks sys !! Lanes.act_item a = Some task
      /\ Lanes.act_laneKey a = lane_key task.
Proof.
  intros Hc a Ha. destruct (con_running _ Hc a Ha) as (task & ? & ? & _).
  eauto.
Qed.

(** Two parked activations do not await the same task. *)
Lemma item_in_split (sys : System) (pre post : list Lanes.Activation)
  (a b : Lanes.Activation) :
  consistent sys ->
  Lanes.suspended (sched sys) = pre ++ a :: post ->
  b ∈ pre ++ post -> Lanes.act_item b <> Lanes.act_item a.
Proof.
  intros Hc Hsplit Hb Heq.
  pose proof (Lanes.inv_keys _ (con_lanes _ Hc)) as Hnd.
  rewrite Hsplit in Hnd.
  assert (Hkey : Lanes.act_laneKey b = Lanes.act_laneKey a).
  { destruct (running_keys sys Hc a) as (ta & Hta & Hka);
      [rewrite Hsplit; apply elem_of_app; right; left|].
    destruct (running_keys sys Hc b) as (tb & Htb & Hkb).
    { rewrite Hsplit. apply elem_of_app in Hb as [Hb|Hb];
        apply elem_of_app; [left|right; right]; exact Hb. }
    rewrite Heq in Htb. congruence. }
  rewrite fmap_app, fmap_cons in Hnd.
  apply NoDup_app in Hnd as (_ & Hcross & Hpost).
  apply NoDup_cons in Hpost as [Hnotin _].
  apply elem_of_app in Hb as [Hb|Hb].
  - apply (Hcross (Lanes.act_laneKey a)); [|left].
    rewrite <- Hkey. apply list_elem_of_fmap. eauto.
  - apply Hnotin. rewrite <- Hkey. apply list_elem_of_fmap. eauto.
Qed.

Lemma item_fresh (sys : System) (a : Lanes.Activation) :
  consistent sys -> a ∈ Lanes.suspended (sched sys) ->
  Lanes.act_item a <> Lanes.next_promise (sched sys).
Proof.
  intros Hc Ha. destruct (con_running _ Hc a Ha) as (task & Ht & _).
  pose proof (con_fresh _ Hc _ _ Ht). lia.
Qed.

Lemma queued_fresh (sys : System) (a : Lanes.Activation) (q : nat) :
  consistent sys -> a ∈ Lanes.suspended (sched sys) ->
  q ∈ Lanes.queue_at (Lanes.act_lane a) (sched sys) ->
  q <> Lanes.next_promise (sched sys).
Proof.
  intros Hc Ha Hq. destruct (con_queued _ Hc a q Ha Hq) as (task & Ht & _).
  pose proof (con_fresh _ Hc _ _ Ht). lia.
Qed.

Lemma expected_unchanged (sys : System) (ts : gmap nat Task)
  (acts : list Lanes.Activation) :
  (forall a, a ∈ acts -> awaited ts a = awaited (tasks sys) a) ->
  omap (awaited ts) acts = omap (awaited (tasks sys)) acts.
Proof. apply omap_ext_in. Qed.

Lemma consistent_run_busy (sys : System) (options : RunOptions) (l : nat) :
  consistent sys ->
  Lanes.lanes (sched sys)
    !! Lanes.getSessionLaneKey (o_sessionId options) = Some l ->
  forall now startedAt sys',
    step config listener_throws (CallRun options now startedAt) sys
    = Some sys' ->
    consistent sys'.
Proof.
  intros Hc Hk now startedAt sys' Hstep.
  pose proof (con_lanes _ Hc) as Hinv.
  pose proof (invariant_enqueue (sched sys)
                (Lanes.getSessionLaneKey (o_sessionId options)) Hinv) as Hinv'.
  destruct (live_lane _ _ l Hinv Hk) as (a0 & q & Ha0 & Hin0 & Hkey0 & Hl0 & Hq).
  cbn [step] in Hstep. unfold Lanes.enqueueInSessionLane in Hstep.
  rewrite (enqueue_busy _ _ l q Hk Hq) in Hstep, Hinv'.
  unfold after_lanes in Hstep. cbn [sched] in Hstep.
  erewrite started_by_events in Hstep by (cbn [Lanes.trace]; reflexivity).
  cbn [omap list_omap head] in Hstep. injection Hstep as <-.
  set (p := Lanes.next_promise (sched sys)) in *.
  assert (Hqueue : forall a, a ∈ Lanes.suspended (sched sys) ->
            Lanes.act_lane a <> l ->
            Lanes.queue_at (Lanes.act_lane a)
              {| Lanes.heap :=
                   <[l := {| Lanes.queue := q ++ [p]; Lanes.running := true |}]>
                     (Lanes.heap (sched sys));
                 Lanes.next_lane := Lanes.next_lane (sched sys);
                 Lanes.lanes := Lanes.lanes (sched sys);
                 Lanes.suspended := Lanes.suspended (sched sys);
                 Lanes.next_promise := S p;
                 Lanes.trace :=
                   Lanes.trace (sched sys)
                   ++ [Lanes.Enqueued
                         (Lanes.getSessionLaneKey (o_sessionId options)) p] |}
            = Lanes.queue_at (Lanes.act_lane a) (sched sys)).
  { intros a Ha Hne. unfold Lanes.queue_at. cbn [Lanes.heap].
    rewrite lookup_insert_ne by congruence. reflexivity. }
  assert (Hsame : forall a, a ∈ Lanes.suspended (sched sys) ->
            Lanes.act_lane a = l -> a = a0).
  { intros a Ha Hl. apply (same_object (Lanes.suspended (sched sys)));
      [apply (Lanes.inv_objects _ Hinv)|exact Ha|exact Hin0|congruence]. }
  assert (Hq0 : Lanes.queue_at l (sched sys) = q).
  { unfold Lanes.queue_at. rewrite Hq. reflexivity. }
  constructor; cbn [sched daemon tasks Lanes.suspended Lanes.next_promise].
  - exact Hinv'.
  - intros a Ha. rewrite lookup_insert_ne by (apply not_eq_sym, item_fresh; auto).
    apply (con_running _ Hc a Ha).
  - intros a q' Ha Hq'.
    destruct (decide (Lanes.act_lane a = l)) as [Hl|Hl].
    + rewrite (Hsame a Ha Hl) in *. rewrite Hl0 in Hq'.
      unfold Lanes.queue_at in Hq'. cbn [Lanes.heap] in Hq'.
      rewrite lookup_insert_eq in Hq'. cbn [Lanes.queue] in Hq'.
      apply elem_of_app in Hq' as [Hq'|Hq'].
      * rewrite lookup_insert_ne.
        -- apply (con_queued _ Hc a0 q' Hin0). rewrite Hl0, Hq0. exact Hq'.
        -- apply not_eq_sym. apply (queued_fresh sys a0); auto.
           rewrite Hl0, Hq0. exact Hq'.
      * apply list_elem_of_singleton in Hq' as ->.
        rewrite lookup_insert_eq. eexists. split; [reflexivity|].
        split; [exact Hkey0|reflexivity].
    + rewrite Hqueue in Hq' by auto.
      rewrite lookup_insert_ne
        by (apply not_eq_sym; apply (queued_fresh sys a); auto).
      apply (con_queued _ Hc a q' Ha Hq').
  - intros a Ha.
    destruct (decide (Lanes.act_lane a = l)) as [Hl|Hl].
    + rewrite Hl. unfold Lanes.queue_at. cbn [Lanes.heap].
      rewrite lookup_insert_eq. cbn [Lanes.queue].
      apply NoDup_app. split; [|split; [|apply NoDup_singleton]].
      * rewrite <- Hq0, <- Hl0. apply (con_queues _ Hc a0 Hin0).
      * intros x Hx Hxp. apply list_elem_of_singleton in Hxp as ->.
        apply (queued_fresh sys a0 p Hc Hin0); [|reflexivity].
        rewrite Hl0, Hq0. exact Hx.
    + rewrite Hqueue by auto. apply (con_queues _ Hc a Ha).
  - rewrite (con_runs _ Hc). unfold expected_runs. cbn [tasks sched Lanes.suspended].
    symmetry. apply omap_ext_in. intros a Ha.
    apply awaited_insert_ne, item_fresh; auto.
  - intros p' task runId Ht Hs.
    destruct (decide (p' = p)) as [->|Hne].
    + rewrite lookup_insert_eq in Ht. injection Ht as <-. discriminate Hs.
    + rewrite lookup_insert_ne in Ht by congruence.
      apply (con_ids _ Hc p' task runId Ht Hs).
  - intros p' task Ht Hs.
    destruct (decide (p' = p)) as [->|Hne].
    + rewrite lookup_insert_eq in Ht. injection Ht as <-. contradiction.
    + rewrite lookup_insert_ne in Ht by congruence.
      apply (con_started _ Hc p' task Ht Hs).
  - intros p' task Ht.
    destruct (decide (p' = p)) as [->|Hne]; [lia|].
    rewrite lookup_insert_ne in Ht by congruence.
    pose proof (con_fresh _ Hc _ _ Ht). fold p in H. lia.
Qed.

Lemma start_task_quiet (p : nat) (now startedAt : N) (sys : System)
  (task : Task) :
  tasks sys !! p = Some task ->
  start_task config listener_throws p now startedAt sys
  = {| sched := sched sys;
       daemon :=
         {| activeRuns :=
              map_set (make_runId (o_sessionId (t_options task)) now)
                (DaemonSpec.registered config (t_options task) startedAt)
                (activeRuns (daemon sys));
            emitted :=
              emitted (daemon sys)
              ++ [RunStart (make_runId (o_sessionId (t_options task)) now)
                    (o_sessionId (t_options task))
                    (effective_provider config (t_options task))] |};
       tasks :=
         <[p := {| t_options := t_options task;
                   t_status :=
                     Awaiting (make_runId (o_sessionId (t_options task)) now) |}]>
           (tasks sys) |}.
Proof.
  intros Ht. unfold start_task. rewrite Ht, run_begin_quiet. reflexivity.
Qed.

(** Registering the run of a session none of whose tasks is parked
    appends an entry to the map. *)
Lemma register_fresh (d : Daemon.State) (ts : gmap nat Task)
  (acts : list Lanes.Activation) (sessionId : js_string) (now : N)
  (run : ActiveRun) :
  registered_runs d = omap (awaited ts) acts ->
  (forall a, a ∈ acts ->
     exists task, ts !! Lanes.act_item a = Some task
                  /\ Lanes.act_laneKey a = lane_key task) ->
  (forall p task runId,
     ts !! p = Some task -> t_status task = Awaiting runId ->
     exists now, runId = make_runId (o_sessionId (t_options task)) now) ->
  Lanes.getSessionLaneKey sessionId ∉ Lanes.act_laneKey <$> acts ->
  ar_sessionId run = sessionId ->
  (fun entry => (entry.1, ar_sessionId entry.2))
    <$> map_set (make_runId sessionId now) run (activeRuns d)
  = omap (awaited ts) acts ++ [(make_runId sessionId now, sessionId)].
Proof.
  intros Hruns Hrunning Hids Hkey Hrun.
  rewrite map_set_fresh.
  - rewrite fmap_app. unfold registered_runs in Hruns. rewrite Hruns.
    cbn [fmap list_fmap fst snd]. rewrite Hrun. reflexivity.
  - replace ((activeRuns d).*1) with ((registered_runs d).*1).
    + rewrite Hruns. apply fresh_run_id; assumption.
    + unfold registered_runs. rewrite <- list_fmap_compose. reflexivity.
Qed.

Lemma consistent_run_idle (sys : System) (options : RunOptions) :
  consistent sys ->
  Lanes.lanes (sched sys)
    !! Lanes.getSessionLaneKey (o_sessionId options) = None ->
  forall now startedAt sys',
    step config listener_throws (CallRun options now startedAt) sys
    = Some sys' ->
    consistent sys'.
Proof.
  intros Hc Hk now startedAt sys' Hstep.
  pose proof (con_lanes _ Hc) as Hinv.
  pose proof (invariant_enqueue (sched sys)
                (Lanes.getSessionLaneKey (o_sessionId options)) Hinv) as Hinv'.
  cbn [step] in Hstep. unfold Lanes.enqueueInSessionLane in Hstep.
  rewrite (enqueue_idle _ _ Hk) in Hstep, Hinv'.
  unfold after_lanes in Hstep. cbn [sched] in Hstep.
  erewrite started_by_events in Hstep by (cbn [Lanes.trace]; reflexivity).
  cbn [omap list_omap head] in Hstep.
  erewrite start_task_quiet in Hstep
    by (cbn [tasks]; apply lookup_insert_eq).
  cbn [sched daemon tasks t_options] in Hstep.
  rewrite insert_insert_eq in Hstep. injection Hstep as <-.
  set (p := Lanes.next_promise (sched sys)) in *.
  set (k := Lanes.getSessionLaneKey (o_sessionId options)) in *.
  assert (Hnokey : k ∉ Lanes.act_laneKey <$> Lanes.suspended (sched sys)).
  { apply activation_of_None.
    pose proof (Lanes.inv_lanes _ Hinv k) as Hl. rewrite Hk in Hl.
    destruct (Lanes.activation_of k (Lanes.suspended (sched sys)));
      [discriminate|reflexivity]. }
  assert (Hqueue : forall a, a ∈ Lanes.suspended (sched sys) ->
            Lanes.heap (sched sys) !! Lanes.act_lane a
            = <[Lanes.next_lane (sched sys) :=
                  {| Lanes.queue := []; Lanes.running := true |}]>
                (Lanes.heap (sched sys)) !! Lanes.act_lane a).
  { intros a Ha. destruct (Lanes.inv_running _ Hinv a Ha) as [Hlt _].
    rewrite lookup_insert_ne by lia. reflexivity. }
  constructor; cbn [sched daemon tasks Lanes.suspended Lanes.next_promise].
  - exact Hinv'.
  - intros a Ha. apply elem_of_app in Ha as [Ha|Ha].
    + rewrite lookup_insert_ne by (apply not_eq_sym, item_fresh; auto).
      apply (con_running _ Hc a Ha).
    + apply list_elem_of_singleton in Ha as ->. cbn [Lanes.act_item].
      rewrite lookup_insert_eq. eexists. split; [reflexivity|].
      split; [reflexivity|discriminate].
  - intros a q' Ha Hq'. apply elem_of_app in Ha as [Ha|Ha].
    + unfold Lanes.queue_at in Hq'. cbn [Lanes.heap] in Hq'.
      rewrite <- Hqueue in Hq' by exact Ha.
      rewrite lookup_insert_ne
        by (apply not_eq_sym; apply (queued_fresh sys a); auto).
      apply (con_queued _ Hc a q' Ha Hq').
    + apply list_elem_of_singleton in Ha as ->.
      unfold Lanes.queue_at in Hq'. cbn [Lanes.heap Lanes.act_lane] in Hq'.
      rewrite lookup_insert_eq in Hq'. inversion Hq'.
  - intros a Ha. apply elem_of_app in Ha as [Ha|Ha].
    + unfold Lanes.queue_at. cbn [Lanes.heap].
      rewrite <- Hqueue by exact Ha. apply (con_queues _ Hc a Ha).
    + apply list_elem_of_singleton in Ha as ->.
      unfold Lanes.queue_at. cbn [Lanes.heap Lanes.act_lane].
      rewrite lookup_insert_eq. constructor.
  - unfold registered_runs, expected_runs.
    cbn [activeRuns sched tasks Lanes.suspended].
    rewrite omap_app. cbn [omap list_omap]. unfold awaited at 2.
    cbn [Lanes.act_item]. rewrite lookup_insert_eq. cbn [t_status t_options].
    rewrite (omap_ext_in _ (awaited (tasks sys)))
      by (intros a Ha; apply awaited_insert_ne, item_fresh; auto).
    apply register_fresh; auto.
    + apply (con_runs _ Hc).
    + apply running_keys, Hc.
    + apply (con_ids _ Hc).
  - intros p' task runId Ht Hs.
    destruct (decide (p' = p)) as [->|Hne].
    + rewrite lookup_insert_eq in Ht. injection Ht as <-.
      cbn [t_status t_options] in *. injection Hs as <-. eauto.
    + rewrite lookup_insert_ne in Ht by congruence.
      apply (con_ids _ Hc p' task runId Ht Hs).
  - intros p' task Ht Hs.
    destruct (decide (p' = p)) as [->|Hne].
    + eexists. split; [apply elem_of_app; right; left|reflexivity].
    + rewrite lookup_insert_ne in Ht by congruence.
      destruct (con_started _ Hc p' task Ht Hs) as (a & Ha & Hp).
      exists a. split; [apply elem_of_app; left; exact Ha|exact Hp].
  - intros p' task Ht.
    destruct (decide (p' = p)) as [->|Hne]; [lia|].
    rewrite lookup_insert_ne in Ht by congruence.
    pose proof (con_fresh _ Hc _ _ Ht). fold p in H. lia.
Qed.

Lemma split_keys (pre post : list Lanes.Activation) (a : Lanes.Activation) :
  NoDup (Lanes.act_laneKey <$> pre ++ a :: post) ->
  Lanes.act_laneKey a ∉ Lanes.act_laneKey <$> pre ++ post.
Proof.
  rewrite !fmap_app, fmap_cons. intros H.
  apply NoDup_app in H as (_ & Hcross & Hpost).
  apply NoDup_cons in Hpost as [Hnotin _].
  intros Hin. apply elem_of_app in Hin as [Hin|Hin].
  - apply (Hcross _ Hin). left.
  - contradiction.
Qed.

Lemma consistent_agent (sys : System) (p : nat)
  (outcome : Completion AgentRunResult) (sys' : System) :
  consistent sys ->
  step config listener_throws (AgentSettles p outcome) sys = Some sys' ->
  consistent sys'.
Proof.
  intros Hc Hstep. cbn [step] in Hstep.
  destruct (tasks sys !! p) as [task|] eqn:Ht; [|discriminate].
  destruct (t_status task) as [|runId|] eqn:Hs; try discriminate.
  pose proof (run_guarded_runs runId (o_sessionId (t_options task)) outcome
                (daemon sys)) as Hruns.
  destruct (run_guarded _ _ _ _ _) as [d completion]. cbn [fst] in Hruns.
  injection Hstep as <-.
  pose proof (con_lanes _ Hc) as Hinv.
  destruct (con_started _ Hc p task Ht) as (a & Ha & Hp);
    [rewrite Hs; discriminate|].
  destruct (list_elem_of_split _ _ Ha) as (pre & post & Hsplit).
  assert (Hothers : forall b, b ∈ pre ++ post -> Lanes.act_item b <> p).
  { intros b Hb. rewrite <- Hp. eapply item_in_split; eauto. }
  destruct (con_running _ Hc a Ha) as (task' & Ht' & Hkey & _).
  rewrite Hp, Ht in Ht'. injection Ht' as <-.
  constructor; cbn [sched daemon tasks].
  - exact Hinv.
  - intros b Hb. destruct (decide (Lanes.act_item b = p)) as [Hbp|Hbp].
    + rewrite Hbp, lookup_insert_eq. eexists. split; [reflexivity|].
      split; [|discriminate].
      destruct (con_running _ Hc b Hb) as (tb & Htb & Hkb & _).
      rewrite Hbp, Ht in Htb. injection Htb as <-. exact Hkb.
    + rewrite lookup_insert_ne by congruence. apply (con_running _ Hc b Hb).
  - intros b q Hb Hq.
    destruct (con_queued _ Hc b q Hb Hq) as (tq & Htq & Hkq & Hsq).
    rewrite lookup_insert_ne; [eauto|].
    intros <-. rewrite Ht in Htq. injection Htq as <-. congruence.
  - apply (con_queues _ Hc).
  - pose proof (con_runs _ Hc) as Hold. unfold registered_runs, expected_runs in *.
    cbn [sched tasks]. rewrite Hsplit in *.
    rewrite omap_app in *. cbn [omap list_omap] in *.
    assert (Ha' : awaited (tasks sys) a
                  = Some (runId, o_sessionId (t_options task))).
    { unfold awaited. rewrite Hp, Ht, Hs. reflexivity. }
    assert (Ha'' : awaited (<[p := {| t_options := t_options task;
                                      t_status := Settled completion |}]>
                              (tasks sys)) a = None).
    { unfold awaited. rewrite Hp, lookup_insert_eq. reflexivity. }
    rewrite Ha' in Hold. rewrite Ha''.
    rewrite (omap_ext_in _ (awaited (tasks sys)) pre)
      by (intros b Hb; apply awaited_insert_ne, Hothers, elem_of_app; auto).
    rewrite (omap_ext_in _ (awaited (tasks sys)) post)
      by (intros b Hb; apply awaited_insert_ne, Hothers, elem_of_app; auto).
    apply fmap_app_inv in Hold as (rpre & rrest & Hpre & Hrest & Hall).
    symmetry in Hrest.
    apply fmap_cons_inv in Hrest as ([rid run] & rpost & Hentry & Hpost & ->).
    cbn [fst snd] in Hentry. injection Hentry as <- Hsid.
    rewrite Hruns, Hall.
    destruct (con_ids _ Hc p task runId Ht Hs) as [now ->].
    pose proof (split_keys pre post a) as Hnokey.
    rewrite <- Hsplit in Hnokey. specialize (Hnokey (Lanes.inv_keys _ Hinv)).
    rewrite Hkey in Hnokey. unfold lane_key in Hnokey.
    rewrite fmap_app in Hnokey.
    assert (Hrunning : forall b, b ∈ Lanes.suspended (sched sys) ->
              exists tb, tasks sys !! Lanes.act_item b = Some tb
                         /\ Lanes.act_laneKey b = lane_key tb)
      by (apply running_keys, Hc).
    rewrite map_delete_middle.
    + rewrite fmap_app, <- Hpre, <- Hpost. reflexivity.
    + replace (rpre.*1) with
        (((fun entry : js_string * ActiveRun =>
             (entry.1, ar_sessionId entry.2)) <$> rpre).*1)
        by (rewrite <- list_fmap_compose; reflexivity).
      rewrite <- Hpre. apply fresh_run_id.
      * intros b Hb. apply Hrunning. rewrite Hsplit.
        apply elem_of_app. left. exact Hb.
      * apply (con_ids _ Hc).
      * intros Hin. apply Hnokey, elem_of_app. left. exact Hin.
    + replace (rpost.*1) with
        (((fun entry : js_string * ActiveRun =>
             (entry.1, ar_sessionId entry.2)) <$> rpost).*1)
        by (rewrite <- list_fmap_compose; reflexivity).
      rewrite <- Hpost. apply fresh_run_id.
      * intros b Hb. apply Hrunning. rewrite Hsplit.
        apply elem_of_app. right. right. exact Hb.
      * apply (con_ids _ Hc).
      * intros Hin. apply Hnokey, elem_of_app. right. exact Hin.
  - intros p' task' runId' Ht' Hs'.
    destruct (decide (p' = p)) as [->|Hne].
    + rewrite lookup_insert_eq in Ht'. injection Ht' as <-. discriminate Hs'.
    + rewrite lookup_insert_ne in Ht' by congruence.
      apply (con_ids _ Hc p' task' runId' Ht' Hs').
  - intros p' task' Ht' Hs'.
    destruct (decide (p' = p)) as [->|Hne]; [eauto|].
    rewrite lookup_insert_ne in Ht' by congruence.
    apply (con_started _ Hc p' task' Ht' Hs').
  - intros p' task' Ht'.
    destruct (decide (p' = p)) as [->|Hne].
    + apply (con_fresh _ Hc _ _ Ht).
    + rewrite lookup_insert_ne in Ht' by congruence.
      apply (con_fresh _ Hc _ _ Ht').
Qed.

Lemma consistent_cancel (sys : System) (sessionId : js_string)
  (sys' : System) :
  consistent sys ->
  step config listener_throws (CallCancel sessionId) sys = Some sys' ->
  consistent sys'.
Proof.
  intros Hc Hstep. cbn [step] in Hstep. injection Hstep as <-.
  destruct Hc. constructor; cbn [sched daemon tasks]; try assumption.
  rewrite cancelRun_registered. assumption.
Qed.

Lemma consistent_settled (sys : System) (p : nat) (now startedAt : N)
  (sys' : System) :
  consistent sys ->
  step config listener_throws (TaskSettled p now startedAt) sys = Some sys' ->
  consistent sys'.
Proof.
  intros Hc Hstep. cbn [step] in Hstep.
  destruct (tasks sys !! p) as [task|] eqn:Ht; [|discriminate].
  destruct (t_status task) as [| |completion] eqn:Hs; try discriminate.
  cbn [Lanes.step] in Hstep.
  destruct (Lanes.unpark p (Lanes.suspended (sched sys))) as [[a rest]|]
    eqn:Hunpark; [|discriminate].
  pose proof (con_lanes _ Hc) as Hinv.
  pose proof (invariant_settle _ _ completion _ _ Hinv Hunpark) as Hinv'.
  destruct (unpark_spec _ _ _ _ Hunpark) as (Hp & pre & post & Hsplit & ->).
  assert (Ha : a ∈ Lanes.suspended (sched sys)).
  { rewrite Hsplit. apply elem_of_app. right. left. }
  assert (Hrest : forall b, b ∈ pre ++ post -> b ∈ Lanes.suspended (sched sys)).
  { intros b Hb. rewrite Hsplit. apply elem_of_app in Hb as [Hb|Hb];
      apply elem_of_app; [left|right; right]; exact Hb. }
  assert (Hothers : forall b, b ∈ pre ++ post -> Lanes.act_item b <> p).
  { intros b Hb. rewrite <- Hp. eapply item_in_split; eauto. }
  assert (Hobjects : forall b, b ∈ pre ++ post ->
            Lanes.act_lane b <> Lanes.act_lane a).
  { intros b Hb Heq.
    pose proof (Lanes.inv_objects _ Hinv) as Hnd. rewrite Hsplit in Hnd.
    destruct (LaneStatsFacts.split_objects pre post a Hnd) as [H1 H2].
    apply elem_of_app in Hb as [Hb|Hb]; [apply H1|apply H2];
      rewrite <- Heq; apply list_elem_of_fmap; eauto. }
  pose proof (split_keys pre post a) as Hnokey.
  rewrite <- Hsplit in Hnokey. specialize (Hnokey (Lanes.inv_keys _ Hinv)).
  destruct (Lanes.inv_running _ Hinv a Ha) as [_ [q Hq]].
  assert (Hsettled : awaited (tasks sys) a = None).
  { unfold awaited. rewrite Hp, Ht, Hs. reflexivity. }
  assert (Hexpected : expected_runs sys
                      = omap (awaited (tasks sys)) (pre ++ post)).
  { unfold expected_runs. rewrite Hsplit, !omap_app. cbn [omap list_omap].
    rewrite Hsettled. reflexivity. }
  assert (Hrunning : forall b, b ∈ pre ++ post ->
            exists tb, tasks sys !! Lanes.act_item b = Some tb
                       /\ Lanes.act_laneKey b = lane_key tb).
  { intros b Hb. apply (running_keys sys Hc), Hrest, Hb. }
  destruct q as [|next q].
  - rewrite (resume_last a completion _ true) in Hstep, Hinv' by exact Hq.
    unfold after_lanes in Hstep. cbn [sched] in Hstep.
    erewrite started_by_events in Hstep
      by (cbn [Lanes.trace Lanes.set_suspended]; reflexivity).
    replace (head _) with (@None nat) in Hstep
      by (destruct completion; reflexivity).
    injection Hstep as <-.
    constructor;
      cbn [sched daemon tasks Lanes.suspended Lanes.next_promise
           Lanes.set_suspended Lanes.heap].
    + exact Hinv'.
    + intros b Hb. rewrite lookup_delete_ne by (apply not_eq_sym; auto).
      apply (con_running _ Hc b), Hrest, Hb.
    + intros b x Hb Hx. unfold Lanes.queue_at in Hx. cbn [Lanes.heap] in Hx.
      rewrite lookup_insert_ne in Hx by (apply not_eq_sym; auto).
      destruct (con_queued _ Hc b x (Hrest b Hb) Hx) as (tx & Htx & Hkx & Hsx).
      rewrite lookup_delete_ne; [eauto|].
      intros <-. rewrite Ht in Htx. injection Htx as <-. congruence.
    + intros b Hb. unfold Lanes.queue_at. cbn [Lanes.heap].
      rewrite lookup_insert_ne by (apply not_eq_sym; auto).
      apply (con_queues _ Hc b), Hrest, Hb.
    + rewrite (con_runs _ Hc), Hexpected. unfold expected_runs.
      cbn [sched tasks Lanes.suspended]. symmetry.
      apply omap_ext_in. intros b Hb. apply awaited_delete_ne. auto.
    + intros p' task' runId' Ht' Hs'.
      destruct (decide (p' = p)) as [->|Hne].
      * rewrite lookup_delete_eq in Ht'. discriminate.
      * rewrite lookup_delete_ne in Ht' by congruence.
        apply (con_ids _ Hc p' task' runId' Ht' Hs').
    + intros p' task' Ht' Hs'.
      destruct (decide (p' = p)) as [->|Hne].
      * rewrite lookup_delete_eq in Ht'. discriminate.
      * rewrite lookup_delete_ne in Ht' by congruence.
        destruct (con_started _ Hc p' task' Ht' Hs') as (b & Hb & Hbp).
        exists b. split; [|exact Hbp].
        rewrite Hsplit in Hb. apply elem_of_app in Hb as [Hb|Hb];
          [apply elem_of_app; left; exact Hb|].
        apply elem_of_cons in Hb as [->|Hb]; [congruence|].
        apply elem_of_app. right. exact Hb.
    + intros p' task' Ht'.
      destruct (decide (p' = p)) as [->|Hne].
      * rewrite lookup_delete_eq in Ht'. discriminate.
      * rewrite lookup_delete_ne in Ht' by congruence.
        apply (con_fresh _ Hc _ _ Ht').
  - assert (Hnext : next ∈ Lanes.queue_at (Lanes.act_lane a) (sched sys)).
    { unfold Lanes.queue_at. rewrite Hq. left. }
    destruct (con_queued _ Hc a next Ha Hnext) as (tn & Htn & Hkn & Hsn).
    assert (Hnp : next <> p).
    { intros ->. rewrite Ht in Htn. injection Htn as <-. congruence. }
    pose proof (con_queues _ Hc a Ha) as Hnd.
    unfold Lanes.queue_at in Hnd. rewrite Hq in Hnd. cbn [Lanes.queue] in Hnd.
    apply NoDup_cons in Hnd as [Hnotin Hnd].
    rewrite (resume_next a completion _ next q true) in Hstep, Hinv'
      by exact Hq.
    unfold after_lanes in Hstep. cbn [sched] in Hstep.
    erewrite started_by_events in Hstep
      by (cbn [Lanes.trace Lanes.set_suspended]; reflexivity).
    replace (head _) with (Some next) in Hstep
      by (destruct completion; reflexivity).
    erewrite start_task_quiet in Hstep
      by (cbn [tasks]; rewrite lookup_delete_ne by congruence; exact Htn).
    cbn [sched daemon tasks] in Hstep. injection Hstep as <-.
    assert (Hwaits : forall b, b ∈ pre ++ post -> Lanes.act_item b <> next).
    { intros b Hb Heq.
      destruct (con_running _ Hc b (Hrest b Hb)) as (tb & Htb & _ & Hsb).
      rewrite Heq, Htn in Htb. injection Htb as <-. contradiction. }
    constructor;
      cbn [sched daemon tasks Lanes.suspended Lanes.next_promise
           Lanes.set_suspended Lanes.heap].
    + exact Hinv'.
    + intros b Hb. apply elem_of_app in Hb as [Hb|Hb].
      * rewrite lookup_insert_ne by (apply not_eq_sym; auto).
        rewrite lookup_delete_ne by (apply not_eq_sym; auto).
        apply (con_running _ Hc b), Hrest, Hb.
      * apply list_elem_of_singleton in Hb as ->. cbn [Lanes.act_item].
        rewrite lookup_insert_eq. eexists. split; [reflexivity|].
        split; [exact Hkn|discriminate].
    + intros b x Hb Hx. apply elem_of_app in Hb as [Hb|Hb].
      * unfold Lanes.queue_at in Hx. cbn [Lanes.heap] in Hx.
        rewrite lookup_insert_ne in Hx by (apply not_eq_sym; auto).
        destruct (con_queued _ Hc b x (Hrest b Hb) Hx)
          as (tx & Htx & Hkx & Hsx).
        rewrite lookup_insert_ne, lookup_delete_ne; [eauto| |].
        -- intros <-. rewrite Ht in Htx. injection Htx as <-. congruence.
        -- intros <-. rewrite Htn in Htx. injection Htx as <-.
           apply Hnokey. rewrite Hkn, <- Hkx.
           apply list_elem_of_fmap. eauto.
      * apply list_elem_of_singleton in Hb as ->.
        unfold Lanes.queue_at in Hx. cbn [Lanes.heap Lanes.act_lane] in Hx.
        rewrite lookup_insert_eq in Hx. cbn [Lanes.queue] in Hx.
        assert (Hx' : x ∈ Lanes.queue_at (Lanes.act_lane a) (sched sys)).
        { unfold Lanes.queue_at. rewrite Hq. right. exact Hx. }
        destruct (con_queued _ Hc a x Ha Hx') as (tx & Htx & Hkx & Hsx).
        cbn [Lanes.act_laneKey].
        rewrite lookup_insert_ne, lookup_delete_ne; [eauto| |].
        -- intros <-. rewrite Ht in Htx. injection Htx as <-. congruence.
        -- intros <-. contradiction.
    + intros b Hb. apply elem_of_app in Hb as [Hb|Hb].
      * unfold Lanes.queue_at. cbn [Lanes.heap].
        rewrite lookup_insert_ne by (apply not_eq_sym; auto).
        apply (con_queues _ Hc b), Hrest, Hb.
      * apply list_elem_of_singleton in Hb as ->.
        unfold Lanes.queue_at. cbn [Lanes.heap Lanes.act_lane].
        rewrite lookup_insert_eq. exact Hnd.
    + unfold registered_runs, expected_runs.
      cbn [activeRuns sched tasks Lanes.suspended].
      rewrite omap_app. cbn [omap list_omap]. unfold awaited at 2.
      cbn [Lanes.act_item]. rewrite lookup_insert_eq. cbn [t_status t_options].
      rewrite (omap_ext_in _ (awaited (tasks sys)) (pre ++ post)).
      2:{ intros b Hb. rewrite awaited_insert_ne by auto.
          apply awaited_delete_ne. auto. }
      apply register_fresh; auto.
      * rewrite <- Hexpected. apply (con_runs _ Hc).
      * apply (con_ids _ Hc).
      * unfold lane_key in Hkn. rewrite <- Hkn. exact Hnokey.
    + intros p' task' runId' Ht' Hs'.
      destruct (decide (p' = next)) as [->|Hne].
      * rewrite lookup_insert_eq in Ht'. injection Ht' as <-.
        cbn [t_status t_options] in *. injection Hs' as <-. eauto.
      * rewrite lookup_insert_ne in Ht' by congruence.
        destruct (decide (p' = p)) as [->|Hne'].
        -- rewrite lookup_delete_eq in Ht'. discriminate.
        -- rewrite lookup_delete_ne in Ht' by congruence.
           apply (con_ids _ Hc p' task' runId' Ht' Hs').
    + intros p' task' Ht' Hs'.
      destruct (decide (p' = next)) as [->|Hne].
      * eexists. split; [apply elem_of_app; right; left|reflexivity].
      * rewrite lookup_insert_ne in Ht' by congruence.
        destruct (decide (p' = p)) as [->|Hne'].
        -- rewrite lookup_delete_eq in Ht'. discriminate.
        -- rewrite lookup_delete_ne in Ht' by congruence.
           destruct (con_started _ Hc p' task' Ht' Hs') as (b & Hb & Hbp).
           exists b. split; [|exact Hbp]. apply elem_of_app. left.
           rewrite Hsplit in Hb. apply elem_of_app in Hb as [Hb|Hb];
             [apply elem_of_app; left; exact Hb|].
           apply elem_of_cons in Hb as [->|Hb]; [congruence|].
           apply elem_of_app. right. exact Hb.
    + intros p' task' Ht'.
      destruct (decide (p' = next)) as [->|Hne].
      * apply (con_fresh _ Hc _ _ Htn).
      * rewrite lookup_insert_ne in Ht' by congruence.
        destruct (decide (p' = p)) as [->|Hne'].
        -- rewrite lookup_delete_eq in Ht'. discriminate.
        -- rewrite lookup_delete_ne in Ht' by congruence.
           apply (con_fresh _ Hc _ _ Ht').
Qed.

Lemma consistent_step (c : Call) (sys sys' : System) :
  consistent sys -> step config listener_throws c sys = Some sys' ->
  consistent sys'.
Proof.
  intros Hc Hstep. destruct c as [options now startedAt|p outcome|p now startedAt|sessionId].
  - destruct (Lanes.lanes (sched sys)
                !! Lanes.getSessionLaneKey (o_sessionId options)) as [l|] eqn:Hk.
    + eapply consistent_run_busy; eauto.
    + eapply consistent_run_idle; eauto.
  - eapply consistent_agent; eauto.
  - eapply consistent_settled; eauto.
  - eapply consistent_cancel; eauto.
Qed.

Lemma consistent_run_system (calls : list Call) (sys sys' : System) :
  consistent sys -> run_system config listener_throws calls sys = Some sys' ->
  consistent sys'.
Proof.
  revert sys. induction calls as [|c calls IH]; intros sys Hc Hrun;
    cbn [run_system] in Hrun.
  - injection Hrun as <-. exact Hc.
  - destruct (step config listener_throws c sys) as [sys1|] eqn:Hstep;
      [|discriminate].
    eapply IH; [eapply consistent_step; eauto|exact Hrun].
Qed.

Lemma consistent_initial : consistent initial_system.
Proof.
  constructor; cbn [initial_system sched daemon tasks Lanes.initial
                    Lanes.suspended].
  - apply invariant_initial.
  - intros a Ha. inversion Ha.
  - intros a q Ha. inversion Ha.
  - intros a Ha. inversion Ha.
  - reflexivity.
  - intros p task runId Ht. rewrite lookup_empty in Ht. discriminate.
  - intros p task Ht. rewrite lookup_empty in Ht. discriminate.
  - intros p task Ht. rewrite lookup_empty in Ht. discriminate.
Qed.

(** X22: with [run] called any number of times for any sessions, with
    the calls of [runAgent] settling in any order and [cancelRun] called
    at any time, and provided no listener of [run:start] throws: the
    registered runs are of pairwise distinct sessions; each of them is
    the run of the task that the lane of its session is executing, parked
    at its call of [runAgent]; and [getStats] never reports more active
    runs than active lanes. *)
Theorem one_run_per_session (calls : list Call) (sys : System) :
  run_system config listener_throws calls initial_system = Some sys ->
  NoDup ((fun entry => ar_sessionId entry.2) <$> activeRuns (daemon sys))
  /\ (forall runId run,
        (runId, run) ∈ activeRuns (daemon sys) ->
        exists p task,
          Lanes.current (Lanes.getSessionLaneKey (ar_sessionId run))
            (sched sys) = Some p
          /\ tasks sys !! p = Some task
          /\ t_status task = Awaiting runId
          /\ o_sessionId (t_options task) = ar_sessionId run)
  /\ (DaemonQueries.st_activeRuns
        (DaemonQueries.getStats config (daemon sys) (sched sys))
      <= DaemonQueries.st_activeLanes
           (DaemonQueries.getStats config (daemon sys) (sched sys)))%nat.
Proof.
  intros Hrun.
  pose proof (consistent_run_system _ _ _ consistent_initial Hrun) as Hc.
  pose proof (con_lanes _ Hc) as Hinv.
  pose proof (con_runs _ Hc) as Hruns.
  unfold registered_runs, expected_runs in Hruns.
  split; [|split].
  - replace ((fun entry : js_string * ActiveRun => ar_sessionId entry.2)
               <$> activeRuns (daemon sys))
      with (((fun entry : js_string * ActiveRun =>
                (entry.1, ar_sessionId entry.2))
               <$> activeRuns (daemon sys)).*2)
      by (rewrite <- list_fmap_compose; reflexivity).
    rewrite Hruns. apply awaited_sessions.
    + apply running_keys, Hc.
    + apply (Lanes.inv_keys _ Hinv).
  - intros runId run Hin.
    assert (Hin' : (runId, ar_sessionId run)
                   ∈ omap (awaited (tasks sys)) (Lanes.suspended (sched sys))).
    { rewrite <- Hruns. apply list_elem_of_fmap.
      exists (runId, run). split; [reflexivity|exact Hin]. }
    destruct (awaited_elem _ _ _ _ Hin') as (a & task & Ha & Ht & Hs & Hsid).
    exists (Lanes.act_item a), task.
    split; [|split; [exact Ht|split; [exact Hs|congruence]]].
    destruct (con_running _ Hc a Ha) as (task' & Ht' & Hkey & _).
    assert (task' = task) as -> by congruence.
    unfold Lanes.current. rewrite Hsid. unfold lane_key in Hkey.
    rewrite <- Hkey.
    rewrite (activation_of_elem _ _ (Lanes.inv_keys _ Hinv) Ha). reflexivity.
  - unfold DaemonQueries.getStats, LaneStats.getLaneStats.
    cbn [DaemonQueries.st_activeRuns DaemonQueries.st_activeLanes
         LaneStats.activeLanes].
    rewrite (LaneStatsFacts.lanes_as_list _ Hinv).
    rewrite map_size_list_to_map
      by (rewrite <- list_fmap_compose; apply (Lanes.inv_keys _ Hinv)).
    rewrite length_fmap.
    rewrite <- (length_fmap (fun entry : js_string * ActiveRun =>
                               (entry.1, ar_sessionId entry.2))).
    rewrite Hruns. apply omap_length_le.
Qed.

End Preservation.

Lemma one_run_per_session_witness :
  exists sys,
    run_system Scenarios.plain_config Scenarios.quiet
      [CallRun Scenarios.hello_options 5 5;
       CallRun Scenarios.hello_options 6 6;
       CallRun {| o_sessionId := str "s2"; o_prompt := str "hi";
                  o_model := None; o_provider := None |} 6 6;
       CallCancel (str "s1");
       AgentSettles 0 (Normal Scenarios.fine_result);
       TaskSettled 0 9 9]
      initial_system
    = Some sys
    /\ NoDup ((fun entry => ar_sessionId entry.2) <$> activeRuns (daemon sys)).
Proof.
  eexists. split; [vm_compute; reflexivity|].
  match goal with |- context [daemon ?sys] =>
    destruct (one_run_per_session Scenarios.plain_config Scenarios.quiet
                (fun _ _ _ => eq_refl)
                [CallRun Scenarios.hello_options 5 5;
                 CallRun Scenarios.hello_options 6 6;
                 CallRun {| o_sessionId := str "s2"; o_prompt := str "hi";
                            o_model := None; o_provider := None |} 6 6;
                 CallCancel (str "s1");
                 AgentSettles 0 (Normal Scenarios.fine_result);
                 TaskSettled 0 9 9]
                sys) as [H _]
  end.
  - vm_compute. reflexivity.
  - exact H.
Defined.

End OrchestratorFacts.

(** ** The events of the daemon and the promises of its runs *)

Module AnnouncedFacts.

Import Runner Daemon Orchestrator OrchestratorSpec JSFacts LanesFacts.

Section Announced.

Variable config : DaemonConfig.
Variable listener_throws : DaemonEvent -> option js_string.

Lemma sublist_pair {A} (a b : A) (l rest : list A) :
  a ∈ l -> [a; b] `sublist_of` l ++ b :: rest.
Proof.
  intros Ha. apply list_elem_of_split in Ha as (l1 & l2 & ->).
  rewrite <- app_assoc. apply sublist_inserts_l. cbn [app].
  apply sublist_skip. apply sublist_inserts_l. apply sublist_skip.
  apply sublist_nil_l.
Qed.

Lemma justified_mono (d d' : Daemon.State) (sessionId : js_string) (now : N)
  (outcome : Completion AgentRunResult) :
  emitted d `prefix_of` emitted d' ->
  justified listener_throws d sessionId now outcome ->
  justified listener_throws d' sessionId now outcome.
Proof.
  intros [ext Hext] (provider & H). exists provider.
  cbv zeta in *. rewrite Hext.
  destruct outcome as [result|error].
  - apply sublist_inserts_r, H.
  - destruct H as [[Hin Hthrow]|(cause & Hsub & Hcause)].
    + left. split; [apply elem_of_app; left; exact Hin|exact Hthrow].
    + right. exists cause. split; [apply sublist_inserts_r, Hsub|exact Hcause].
Qed.

Lemma run_begin_emitted (options : RunOptions) (now startedAt : N)
  (d : Daemon.State) :
  let runId := make_runId (o_sessionId options) now in
  let start :=
    RunStart runId (o_sessionId options) (effective_provider config options) in
  let r := run_begin config listener_throws options now startedAt d in
  emitted (fst r) = emitted d ++ [start]
  /\ snd r = match listener_throws start with
             | Some message => Throw message
             | None => Normal runId
             end.
Proof.
  unfold run_begin, Eff.bind, modify_runs, emit, Eff.ret.
  cbn [activeRuns emitted fst snd].
  destruct (listener_throws _) as [message|]; cbn [fst snd emitted];
    split; reflexivity.
Qed.

Lemma run_guarded_emitted (now : N) (sessionId : js_string)
  (provider : Provider) (outcome : Completion AgentRunResult)
  (d : Daemon.State) :
  let runId := make_runId sessionId now in
  let r := run_guarded listener_throws runId sessionId
             (fun d => (d, outcome)) d in
  RunStart runId sessionId provider ∈ emitted d ->
  emitted d `prefix_of` emitted (fst r)
  /\ justified listener_throws (fst r) sessionId now (snd r).
Proof.
  intros runId r Hstart. subst r.
  unfold run_guarded, Eff.try_finally, Eff.try_catch, Eff.bind, emit, Eff.ret,
    Eff.throw, modify_runs, justified.
  fold runId.
  destruct outcome as [result|error]; cbn [fst snd].
  - destruct (listener_throws (RunEnd runId sessionId result))
      as [message|] eqn:Hend; cbn [fst snd activeRuns emitted].
    + destruct (listener_throws (RunError runId sessionId message))
        as [other|] eqn:Herr; cbn [fst snd emitted];
        (split; [rewrite <- app_assoc; eexists; reflexivity|]);
        exists provider; fold runId; right; exists message;
        (split; [apply sublist_pair, elem_of_app; left; exact Hstart|]);
        [right; exact Herr|left; reflexivity].
    + cbn [fst snd emitted]. split; [eexists; reflexivity|].
      exists provider. fold runId. apply sublist_pair, Hstart.
  - destruct (listener_throws (RunError runId sessionId error))
      as [other|] eqn:Herr; cbn [fst snd emitted];
      (split; [eexists; reflexivity|]);
      exists provider; fold runId; right; exists error;
      (split; [apply sublist_pair, Hstart|]);
      [right; exact Herr|left; reflexivity].
Qed.

Lemma cancelRun_emitted (sessionId : js_string) (d : Daemon.State) :
  emitted d `prefix_of` emitted (fst (cancelRun listener_throws sessionId d)).
Proof.
  unfold cancelRun.
  destruct (abort_first sessionId (activeRuns d)) as [[found runs']|];
    [|reflexivity].
  unfold Eff.bind, emit, Eff.ret. cbn [activeRuns emitted].
  destruct (listener_throws (RunCancelled found sessionId));
    cbn [fst emitted]; eexists; reflexivity.
Qed.

(** The tasks started are known for good. *)
Lemma announced_more (started more : list (nat * N)) (sys : System) :
  announced config listener_throws started sys ->
  announced config listener_throws (started ++ more) sys.
Proof.
  intros [Hlanes Hsession Hawait Hsettled Htrace]. constructor.
  - exact Hlanes.
  - exact Hsession.
  - intros p task runId Ht Hs.
    destruct (Hawait p task runId Ht Hs) as (now & Hid & Hlog & Hstart).
    exists now. split; [exact Hid|].
    split; [apply elem_of_app; left; exact Hlog|exact Hstart].
  - intros p task outcome Ht Hs.
    destruct (Hsettled p task outcome Ht Hs) as (now & Hlog & Hj).
    exists now. split; [apply elem_of_app; left; exact Hlog|exact Hj].
  - intros p outcome Hin.
    destruct (Htrace p outcome Hin) as (sid & now & Hrun & Hlog & Hj).
    exists sid, now. split; [exact Hrun|].
    split; [apply elem_of_app; left; exact Hlog|exact Hj].
Qed.

Lemma start_task_announced (p : nat) (now startedAt : N)
  (started : list (nat * N)) (sys : System) :
  announced config listener_throws started sys ->
  announced config listener_throws (started ++ [(p, now)])
    (start_task config listener_throws p now startedAt sys).
Proof.
  intros Hann.
  pose proof (announced_more started [(p, now)] sys Hann)
    as [Hlanes Hsession Hawait Hsettled Htrace].
  assert (Hlast : (p, now) ∈ started ++ [(p, now)])
    by (apply elem_of_app; right; left).
  unfold start_task.
  destruct (tasks sys !! p) as [task|] eqn:Ht; [|constructor; assumption].
  destruct (run_begin_emitted (t_options task) now startedAt (daemon sys))
    as [Hemit Hsnd]. cbv zeta in Hemit, Hsnd.
  destruct (run_begin _ _ _ _ _ _) as [d completion]. cbn [fst snd] in *.
  assert (Hpre : emitted (daemon sys) `prefix_of` emitted d)
    by (rewrite Hemit; eexists; reflexivity).
  assert (Hstart : RunStart (make_runId (o_sessionId (t_options task)) now)
                     (o_sessionId (t_options task))
                     (effective_provider config (t_options task))
                   ∈ emitted d).
  { rewrite Hemit. apply elem_of_app. right. left. }
  constructor; cbn [sched daemon tasks].
  - exact Hlanes.
  - intros p' task' Ht'. unfold run_of. cbn [sched].
    destruct (decide (p' = p)) as [->|Hne].
    + rewrite lookup_insert_eq in Ht'. injection Ht' as <-.
      cbn [t_options]. apply (Hsession p task Ht).
    + rewrite lookup_insert_ne in Ht' by congruence.
      apply (Hsession p' task' Ht').
  - intros p' task' runId Ht' Hs'.
    destruct (decide (p' = p)) as [->|Hne].
    + rewrite lookup_insert_eq in Ht'. injection Ht' as <-.
      cbn [t_status t_options] in *.
      destruct (listener_throws _); subst completion; [discriminate|].
      injection Hs' as <-. exists now.
      split; [reflexivity|]. split; [exact Hlast|exact Hstart].
    + rewrite lookup_insert_ne in Ht' by congruence.
      destruct (Hawait p' task' runId Ht' Hs') as (now' & Hid & Hlog & Hin).
      exists now'. split; [exact Hid|]. split; [exact Hlog|].
      destruct Hpre as [ext ->]. apply elem_of_app. left. exact Hin.
  - intros p' task' outcome Ht' Hs'.
    destruct (decide (p' = p)) as [->|Hne].
    + rewrite lookup_insert_eq in Ht'. injection Ht' as <-.
      cbn [t_status t_options] in *.
      destruct (listener_throws _) as [message|] eqn:Hthrow;
        subst completion; [|discriminate].
      injection Hs' as <-. exists now. split; [exact Hlast|].
      exists (effective_provider config (t_options task)). cbv zeta.
      left. split; [exact Hstart|exact Hthrow].
    + rewrite lookup_insert_ne in Ht' by congruence.
      destruct (Hsettled p' task' outcome Ht' Hs') as (now' & Hlog & Hj).
      exists now'. split; [exact Hlog|].
      eapply justified_mono; [exact Hpre|exact Hj].
  - intros p' outcome Hin.
    destruct (Htrace p' outcome Hin) as (sid & now' & Hrun & Hlog & Hjust).
    exists sid, now'. split; [exact Hrun|]. split; [exact Hlog|].
    eapply justified_mono; [exact Hpre|exact Hjust].
Qed.

Lemma sched_after_lanes (before : Lanes.State AgentRunResult)
  (now startedAt : N) (sys : System) :
  sched (after_lanes config listener_throws before now startedAt sys)
  = sched sys.
Proof.
  unfold after_lanes, start_task.
  destruct (started_by before (sched sys)) as [p|]; [|reflexivity].
  destruct (tasks sys !! p); [|reflexivity].
  destruct (run_begin _ _ _ _ _ _). reflexivity.
Qed.

Lemma after_lanes_announced (before : Lanes.State AgentRunResult)
  (now startedAt : N) (started : list (nat * N)) (sys : System) :
  announced config listener_throws started sys ->
  announced config listener_throws
    (started ++ begun (Some now) before (sched sys))
    (after_lanes config listener_throws before now startedAt sys).
Proof.
  intros H. unfold after_lanes, begun.
  destruct (started_by before (sched sys)) as [p|].
  - apply start_task_announced, H.
  - rewrite app_nil_r. exact H.
Qed.

Lemma enqueue_trace (s : Lanes.State AgentRunResult) (k : js_string) :
  Lanes.invariant s ->
  fst (Lanes.enqueueInLane k s) = Lanes.next_promise s
  /\ exists started,
       Lanes.trace (snd (Lanes.enqueueInLane k s))
       = Lanes.trace s ++ Lanes.Enqueued k (Lanes.next_promise s) :: started
       /\ Lanes.settlements started = [].
Proof.
  intros Hinv. destruct (Lanes.lanes s !! k) as [l|] eqn:Hk.
  - destruct (live_lane s k l Hinv Hk) as (a & q & _ & _ & _ & _ & Hq).
    rewrite (enqueue_busy s k l q Hk Hq). cbn [fst snd Lanes.trace].
    split; [reflexivity|]. exists []. split; reflexivity.
  - rewrite (enqueue_idle s k Hk). cbn [fst snd Lanes.trace].
    split; [reflexivity|]. eexists. split; reflexivity.
Qed.

Lemma settle_trace (s s' : Lanes.State AgentRunResult) (p : nat)
  (outcome : Completion AgentRunResult) :
  Lanes.invariant s ->
  Lanes.step (Lanes.Settle p outcome) s = Some s' ->
  Lanes.trace s `prefix_of` Lanes.trace s'
  /\ Lanes.settlements (Lanes.trace s')
     = Lanes.settlements (Lanes.trace s) ++ [(p, outcome)].
Proof.
  intros Hinv Hstep. cbn [Lanes.step] in Hstep.
  destruct (Lanes.unpark p (Lanes.suspended s)) as [[a rest]|] eqn:Hunpark;
    [|discriminate].
  injection Hstep as <-.
  destruct (unpark_spec _ _ _ _ Hunpark) as (Hp & pre & post & Hsplit & ->).
  assert (Ha : a ∈ Lanes.suspended s).
  { rewrite Hsplit. apply elem_of_app. right. left. }
  destruct (Lanes.inv_running _ Hinv a Ha) as [_ [q Hq]].
  destruct q as [|next q].
  - rewrite (resume_last a outcome _ true) by exact Hq.
    cbn [Lanes.trace Lanes.set_suspended].
    split; [eexists; reflexivity|]. rewrite settlements_snoc.
    rewrite Hp. destruct outcome; reflexivity.
  - rewrite (resume_next a outcome _ next q true) by exact Hq.
    cbn [Lanes.trace Lanes.set_suspended].
    split; [eexists; reflexivity|]. rewrite settlements_snoc.
    rewrite Hp. destruct outcome; reflexivity.
Qed.

Lemma announced_step (c : Call) (started : list (nat * N))
  (sys sys' : System) :
  announced config listener_throws started sys ->
  step config listener_throws c sys = Some sys' ->
  announced config listener_throws
    (started ++ begun (clock c) (sched sys) (sched sys')) sys'.
Proof.
  intros Hann Hstep.
  pose proof Hann as [Hlanes Hsession Hawait Hsettled Htrace].
  destruct c as [options now startedAt|p outcome|p now startedAt|sessionId];
    cbn [step] in Hstep; cbn [clock].
  - unfold Lanes.enqueueInSessionLane in Hstep.
    pose proof (invariant_enqueue (sched sys)
                  (Lanes.getSessionLaneKey (o_sessionId options)) Hlanes)
      as Hinv'.
    destruct (enqueue_trace (sched sys)
                (Lanes.getSessionLaneKey (o_sessionId options)) Hlanes)
      as (Hfst & began & Htr & Hnone).
    destruct (Lanes.enqueueInLane _ (sched sys)) as [p s].
    cbn [fst snd] in Hinv', Hfst, Htr. subst p. injection Hstep as <-.
    rewrite sched_after_lanes.
    apply after_lanes_announced. constructor; cbn [sched daemon tasks].
    + exact Hinv'.
    + intros p' task Ht. unfold run_of. cbn [sched]. rewrite Htr.
      destruct (decide (p' = Lanes.next_promise (sched sys))) as [->|Hne].
      * rewrite lookup_insert_eq in Ht. injection Ht as <-.
        cbn [t_options]. apply elem_of_app. right. left.
      * rewrite lookup_insert_ne in Ht by congruence.
        apply elem_of_app. left. apply (Hsession p' task Ht).
    + intros p' task runId Ht Hs.
      destruct (decide (p' = Lanes.next_promise (sched sys))) as [->|Hne].
      * rewrite lookup_insert_eq in Ht. injection Ht as <-. discriminate Hs.
      * rewrite lookup_insert_ne in Ht by congruence. eauto.
    + intros p' task outcome Ht Hs.
      destruct (decide (p' = Lanes.next_promise (sched sys))) as [->|Hne].
      * rewrite lookup_insert_eq in Ht. injection Ht as <-. discriminate Hs.
      * rewrite lookup_insert_ne in Ht by congruence. eauto.
    + intros p' outcome Hin. rewrite Htr, settlements_snoc in Hin.
      change (Lanes.settlements (Lanes.Enqueued _ _ :: began))
        with (Lanes.settlements began) in Hin.
      rewrite Hnone, app_nil_r in Hin.
      destruct (Htrace p' outcome Hin) as (sid & now' & Hrun & Hlog & Hjust).
      exists sid, now'. split; [|split; [exact Hlog|exact Hjust]].
      unfold run_of in *. cbn [sched]. rewrite Htr.
      apply elem_of_app. left. exact Hrun.
  - destruct (tasks sys !! p) as [task|] eqn:Ht; [|discriminate].
    destruct (t_status task) as [|runId|] eqn:Hs; try discriminate.
    destruct (Hawait p task runId Ht Hs) as (now & -> & Hbegan & Hstart).
    destruct (run_guarded_emitted now (o_sessionId (t_options task))
                (effective_provider config (t_options task)) outcome
                (daemon sys) Hstart) as [Hpre Hjust].
    destruct (run_guarded _ _ _ _ _) as [d completion]. cbn [fst snd] in *.
    injection Hstep as <-. unfold begun. rewrite app_nil_r.
    constructor; cbn [sched daemon tasks].
    + exact Hlanes.
    + intros p' task' Ht'. unfold run_of. cbn [sched].
      destruct (decide (p' = p)) as [->|Hne].
      * rewrite lookup_insert_eq in Ht'. injection Ht' as <-.
        cbn [t_options]. apply (Hsession p task Ht).
      * rewrite lookup_insert_ne in Ht' by congruence.
        apply (Hsession p' task' Ht').
    + intros p' task' runId' Ht' Hs'.
      destruct (decide (p' = p)) as [->|Hne].
      * rewrite lookup_insert_eq in Ht'. injection Ht' as <-.
        discriminate Hs'.
      * rewrite lookup_insert_ne in Ht' by congruence.
        destruct (Hawait p' task' runId' Ht' Hs')
          as (now' & Hid & Hlog & Hin).
        exists now'. split; [exact Hid|]. split; [exact Hlog|].
        destruct Hpre as [ext ->]. apply elem_of_app. left. exact Hin.
    + intros p' task' outcome' Ht' Hs'.
      destruct (decide (p' = p)) as [->|Hne].
      * rewrite lookup_insert_eq in Ht'. injection Ht' as <-.
        cbn [t_status t_options] in *. injection Hs' as <-.
        exists now. split; [exact Hbegan|exact Hjust].
      * rewrite lookup_insert_ne in Ht' by congruence.
        destruct (Hsettled p' task' outcome' Ht' Hs') as (now' & Hlog & Hj).
        exists now'. split; [exact Hlog|].
        eapply justified_mono; [exact Hpre|exact Hj].
    + intros p' outcome' Hin.
      destruct (Htrace p' outcome' Hin) as (sid & now' & Hrun & Hlog & Hj).
      exists sid, now'. split; [exact Hrun|]. split; [exact Hlog|].
      eapply justified_mono; [exact Hpre|exact Hj].
  - destruct (tasks sys !! p) as [task|] eqn:Ht; [|discriminate].
    destruct (t_status task) as [| |completion] eqn:Hs; try discriminate.
    destruct (Lanes.step _ (sched sys)) as [s|] eqn:Hlane; [|discriminate].
    injection Hstep as <-.
    destruct (settle_trace _ _ _ _ Hlanes Hlane) as [[ext Hext] Hset].
    rewrite sched_after_lanes.
    apply after_lanes_announced. constructor; cbn [sched daemon tasks].
    + eapply invariant_step; eauto.
    + intros p' task' Ht'. unfold run_of. cbn [sched]. rewrite Hext.
      apply elem_of_app. left.
      destruct (decide (p' = p)) as [->|Hne].
      * rewrite lookup_delete_eq in Ht'. discriminate.
      * rewrite lookup_delete_ne in Ht' by congruence.
        apply (Hsession p' task' Ht').
    + intros p' task' runId' Ht' Hs'.
      destruct (decide (p' = p)) as [->|Hne].
      * rewrite lookup_delete_eq in Ht'. discriminate.
      * rewrite lookup_delete_ne in Ht' by congruence. eauto.
    + intros p' task' outcome' Ht' Hs'.
      destruct (decide (p' = p)) as [->|Hne].
      * rewrite lookup_delete_eq in Ht'. discriminate.
      * rewrite lookup_delete_ne in Ht' by congruence. eauto.
    + intros p' outcome' Hin. rewrite Hset in Hin.
      assert (Hgrow : forall sid, run_of sys p' sid ->
                Lanes.Enqueued (Lanes.getSessionLaneKey sid) p'
                ∈ Lanes.trace s).
      { intros sid Hrun. rewrite Hext. apply elem_of_app. left. exact Hrun. }
      apply elem_of_app in Hin as [Hin|Hin].
      * destruct (Htrace p' outcome' Hin) as (sid & now' & Hrun & Hlog & Hj).
        exists sid, now'. split; [apply Hgrow, Hrun|].
        split; [exact Hlog|exact Hj].
      * apply list_elem_of_singleton in Hin. injection Hin as -> ->.
        destruct (Hsettled p task completion Ht Hs) as (now' & Hlog & Hj).
        exists (o_sessionId (t_options task)), now'.
        split; [apply Hgrow, (Hsession p task Ht)|].
        split; [exact Hlog|exact Hj].
  - injection Hstep as <-. unfold begun. rewrite app_nil_r.
    constructor; cbn [sched daemon tasks].
    + exact Hlanes.
    + exact Hsession.
    + intros p' task' runId' Ht' Hs'.
      destruct (Hawait p' task' runId' Ht' Hs') as (now' & Hid & Hlog & Hin).
      exists now'. split; [exact Hid|]. split; [exact Hlog|].
      destruct (cancelRun_emitted sessionId (daemon sys)) as [ext ->].
      apply elem_of_app. left. exact Hin.
    + intros p' task' outcome' Ht' Hs'.
      destruct (Hsettled p' task' outcome' Ht' Hs') as (now' & Hlog & Hj).
      exists now'. split; [exact Hlog|].
      eapply justified_mono; [apply cancelRun_emitted|exact Hj].
    + intros p' outcome' Hin.
      destruct (Htrace p' outcome' Hin) as (sid & now' & Hrun & Hlog & Hj).
      exists sid, now'. split; [exact Hrun|]. split; [exact Hlog|].
      eapply justified_mono; [apply cancelRun_emitted|exact Hj].
Qed.

Lemma announced_run (calls : list Call) (started : list (nat * N))
  (sys0 sys : System) :
  announced config listener_throws started sys0 ->
  run_system config listener_throws calls sys0 = Some sys ->
  announced config listener_throws
    (started ++ starts config listener_throws calls sys0) sys.
Proof.
  revert started sys0.
  induction calls as [|c calls IH]; intros started sys0 H0 Hrun;
    cbn [run_system starts] in *.
  - injection Hrun as <-. rewrite app_nil_r. exact H0.
  - destruct (step config listener_throws c sys0) as [sys1|] eqn:Hstep;
      [|discriminate].
    rewrite app_assoc. eapply IH; [|exact Hrun].
    eapply announced_step; eauto.
Qed.

(** *** A task starts once *)

Lemma started_all_app (tr tr' : list (Lanes.Event AgentRunResult)) :
  started_all (tr ++ tr') = started_all tr ++ started_all tr'.
Proof. apply omap_app. Qed.

Lemma started_in_cons (e : Lanes.Event AgentRunResult)
  (tr : list (Lanes.Event AgentRunResult)) k (p : nat) :
  p ∈ Lanes.started_in k tr -> p ∈ Lanes.started_in k (e :: tr).
Proof.
  intros Hp. unfold Lanes.started_in in *.
  destruct e; cbn [omap list_omap]; try exact Hp.
  case_decide; [right|]; exact Hp.
Qed.

Lemma started_all_elem (tr : list (Lanes.Event AgentRunResult)) (p : nat) :
  p ∈ started_all tr -> exists k, p ∈ Lanes.started_in k tr.
Proof.
  induction tr as [|e tr IH]; intros Hp; [inversion Hp|].
  assert (Htail : p ∈ started_all tr ->
                  exists k, p ∈ Lanes.started_in k (e :: tr)).
  { intros Hin. destruct (IH Hin) as [k Hk]. exists k.
    apply started_in_cons, Hk. }
  destruct e as [key q|key q|key q|q v|q err]; try (apply Htail, Hp).
  change (started_all (Lanes.Started key q :: tr))
    with (q :: started_all tr) in Hp.
  apply elem_of_cons in Hp as [->|Hp]; [|apply Htail, Hp].
  exists key. unfold Lanes.started_in. cbn [omap list_omap].
  rewrite decide_True by reflexivity. left.
Qed.

Lemma started_all_NoDup (tr : list (Lanes.Event AgentRunResult)) :
  (forall k, NoDup (Lanes.started_in k tr)) ->
  (forall k k' p,
     p ∈ Lanes.started_in k tr -> p ∈ Lanes.started_in k' tr -> k = k') ->
  NoDup (started_all tr).
Proof.
  induction tr as [|e tr IH]; intros Hnd Hone; [constructor|].
  assert (Htail : NoDup (started_all tr)).
  { apply IH.
    - intros k. specialize (Hnd k). unfold Lanes.started_in in *.
      destruct e; cbn [omap list_omap] in Hnd; try exact Hnd.
      case_decide; [apply NoDup_cons in Hnd as [_ Hnd]|]; exact Hnd.
    - intros k k' p Hk Hk'.
      apply (Hone k k' p); apply started_in_cons; assumption. }
  destruct e as [key q|key q|key q|q v|q err]; try exact Htail.
  change (started_all (Lanes.Started key q :: tr)) with (q :: started_all tr).
  apply NoDup_cons. split; [|exact Htail].
  intros Hq. destruct (started_all_elem tr q Hq) as [k' Hk'].
  assert (Hhead : q ∈ Lanes.started_in key (Lanes.Started key q :: tr)).
  { unfold Lanes.started_in. cbn [omap list_omap].
    rewrite decide_True by reflexivity. left. }
  assert (key = k') as <-
      by (apply (Hone key k' q); [exact Hhead|apply started_in_cons, Hk']).
  specialize (Hnd key). unfold Lanes.started_in in Hnd, Hk'.
  cbn [omap list_omap] in Hnd. rewrite decide_True in Hnd by reflexivity.
  apply NoDup_cons in Hnd as [Hnot _]. exact (Hnot Hk').
Qed.

(** In a state the lanes can reach, no task has started twice. *)
Lemma lanes_started_once (s : Lanes.State AgentRunResult) :
  Lanes.invariant s -> NoDup (started_all (Lanes.trace s)).
Proof.
  intros Hinv.
  assert (Hpromises : NoDup (Lanes.promises_of (Lanes.trace s)))
    by (rewrite (Lanes.inv_promises _ Hinv); apply NoDup_seq).
  assert (Hfifo : forall k, exists rest,
             Lanes.enqueued_in k (Lanes.trace s)
             = Lanes.started_in k (Lanes.trace s) ++ rest).
  { intros k.
    destruct (monitor_sound _ _ _ _ (Lanes.inv_monitor _ Hinv k))
      as [Hfifo _ _ _].
    eexists. exact Hfifo. }
  apply started_all_NoDup.
  - intros k. destruct (Hfifo k) as [rest Hk].
    assert (Hnd : NoDup (Lanes.enqueued_in k (Lanes.trace s)))
      by (eapply sublist_NoDup; [exact Hpromises|apply enqueued_sublist]).
    rewrite Hk in Hnd. apply NoDup_app in Hnd as [Hnd _]. exact Hnd.
  - intros k k' p Hk Hk'.
    eapply enqueued_one_lane; [exact Hpromises| |].
    + destruct (Hfifo k) as [rest ->]. apply elem_of_app. left. exact Hk.
    + destruct (Hfifo k') as [rest ->]. apply elem_of_app. left. exact Hk'.
Qed.

Lemma begun_trace (now : N) (before after : Lanes.State AgentRunResult)
  (ext : list (Lanes.Event AgentRunResult)) :
  Lanes.trace after = Lanes.trace before ++ ext ->
  (length (started_all ext) <= 1)%nat ->
  started_all (Lanes.trace after)
  = started_all (Lanes.trace before) ++ (begun (Some now) before after).*1.
Proof.
  intros Hext Hlen. rewrite Hext, started_all_app.
  unfold begun, started_by. rewrite Hext, drop_app_length.
  unfold started_all in *.
  destruct (omap _ ext) as [|p [|q rest]]; cbn in *; [reflexivity..|lia].
Qed.

Lemma enqueue_starts (s : Lanes.State AgentRunResult) (k : js_string) :
  Lanes.invariant s ->
  exists ext,
    Lanes.trace (snd (Lanes.enqueueInLane k s)) = Lanes.trace s ++ ext
    /\ (length (started_all ext) <= 1)%nat.
Proof.
  intros Hinv. destruct (Lanes.lanes s !! k) as [l|] eqn:Hk.
  - destruct (live_lane s k l Hinv Hk) as (a & q & _ & _ & _ & _ & Hq).
    rewrite (enqueue_busy s k l q Hk Hq). cbn [fst snd Lanes.trace].
    eexists. split; [reflexivity|]. cbn. lia.
  - rewrite (enqueue_idle s k Hk). cbn [fst snd Lanes.trace].
    eexists. split; [reflexivity|]. cbn. lia.
Qed.

Lemma settle_starts (s s' : Lanes.State AgentRunResult) (p : nat)
  (outcome : Completion AgentRunResult) :
  Lanes.invariant s ->
  Lanes.step (Lanes.Settle p outcome) s = Some s' ->
  exists ext,
    Lanes.trace s' = Lanes.trace s ++ ext
    /\ (length (started_all ext) <= 1)%nat.
Proof.
  intros Hinv Hstep. cbn [Lanes.step] in Hstep.
  destruct (Lanes.unpark p (Lanes.suspended s)) as [[a rest]|] eqn:Hunpark;
    [|discriminate].
  injection Hstep as <-.
  destruct (unpark_spec _ _ _ _ Hunpark) as (Hp & pre & post & Hsplit & ->).
  assert (Ha : a ∈ Lanes.suspended s).
  { rewrite Hsplit. apply elem_of_app. right. left. }
  destruct (Lanes.inv_running _ Hinv a Ha) as [_ [q Hq]].
  destruct q as [|next q].
  - rewrite (resume_last a outcome _ true) by exact Hq.
    cbn [Lanes.trace Lanes.set_suspended].
    eexists. split; [reflexivity|]. destruct outcome; cbn; lia.
  - rewrite (resume_next a outcome _ next q true) by exact Hq.
    cbn [Lanes.trace Lanes.set_suspended].
    eexists. split; [reflexivity|]. destruct outcome; cbn; lia.
Qed.

Lemma step_starts (c : Call) (sys sys' : System) :
  Lanes.invariant (sched sys) ->
  step config listener_throws c sys = Some sys' ->
  Lanes.invariant (sched sys')
  /\ started_all (Lanes.trace (sched sys'))
     = started_all (Lanes.trace (sched sys))
       ++ (begun (clock c) (sched sys) (sched sys')).*1.
Proof.
  intros Hinv Hstep.
  destruct c as [options now startedAt|p outcome|p now startedAt|sessionId];
    cbn [step] in Hstep; cbn [clock].
  - unfold Lanes.enqueueInSessionLane in Hstep.
    pose proof (invariant_enqueue (sched sys)
                  (Lanes.getSessionLaneKey (o_sessionId options)) Hinv)
      as Hinv'.
    destruct (enqueue_starts (sched sys)
                (Lanes.getSessionLaneKey (o_sessionId options)) Hinv)
      as (ext & Hext & Hlen).
    destruct (Lanes.enqueueInLane _ (sched sys)) as [q s].
    cbn [fst snd] in Hinv', Hext. injection Hstep as <-.
    rewrite sched_after_lanes. cbn [sched].
    split; [exact Hinv'|]. apply (begun_trace now _ _ ext Hext Hlen).
  - destruct (tasks sys !! p) as [task|]; [|discriminate].
    destruct (t_status task); try discriminate.
    destruct (run_guarded _ _ _ _ _) as [d completion].
    injection Hstep as <-. cbn [sched]. unfold begun. cbn [fmap list_fmap].
    rewrite app_nil_r. split; [exact Hinv|reflexivity].
  - destruct (tasks sys !! p) as [task|]; [|discriminate].
    destruct (t_status task) as [| |completion]; try discriminate.
    destruct (Lanes.step _ (sched sys)) as [s|] eqn:Hlane; [|discriminate].
    injection Hstep as <-.
    destruct (settle_starts _ _ _ _ Hinv Hlane) as (ext & Hext & Hlen).
    rewrite sched_after_lanes. cbn [sched].
    split; [eapply invariant_step; eauto|].
    apply (begun_trace now _ _ ext Hext Hlen).
  - injection Hstep as <-. cbn [sched]. unfold begun. cbn [fmap list_fmap].
    rewrite app_nil_r. split; [exact Hinv|reflexivity].
Qed.

Lemma run_starts (calls : list Call) (sys0 sys : System) :
  Lanes.invariant (sched sys0) ->
  run_system config listener_throws calls sys0 = Some sys ->
  started_all (Lanes.trace (sched sys))
  = started_all (Lanes.trace (sched sys0))
    ++ (starts config listener_throws calls sys0).*1.
Proof.
  revert sys0. induction calls as [|c calls IH]; intros sys0 Hinv Hrun;
    cbn [run_system starts] in *.
  - injection Hrun as <-. cbn [fmap list_fmap]. rewrite app_nil_r. reflexivity.
  - destruct (step config listener_throws c sys0) as [sys1|] eqn:Hstep;
      [|discriminate].
    destruct (step_starts c sys0 sys1 Hinv Hstep) as [Hinv1 Hgrow].
    rewrite (IH sys1 Hinv1 Hrun), Hgrow, fmap_app, app_assoc. reflexivity.
Qed.

(** X23: whatever the listeners do, the promise that [run] returns for
    a session settles only after the daemon has announced the run of
    its own task.  A task starts once, in one call, and the id of its
    run is made of the session and of what [Date.now()] read in that
    call.  When the promise resolves, the [run:start] of that run was
    emitted and, after it, its [run:end] with the very result.  When
    it rejects, the [run:start] of that run was emitted, and either
    one of its listeners threw the error, or the [run:error] of that
    run was emitted after it and the promise rejects with the cause
    announced or with the error a listener of that [run:error]
    threw. *)
Theorem settled_runs_announced (calls : list Call) (sys : System) (p : nat)
  (outcome : Completion AgentRunResult) :
  run_system config listener_throws calls initial_system = Some sys ->
  (p, outcome) ∈ Lanes.settlements (Lanes.trace (sched sys)) ->
  NoDup (starts config listener_throws calls initial_system).*1
  /\ exists sessionId now provider,
       let runId := make_runId sessionId now in
       let start := RunStart runId sessionId provider in
       run_of sys p sessionId
       /\ (p, now) ∈ starts config listener_throws calls initial_system
       /\ match outcome with
          | Normal result =>
              [start; RunEnd runId sessionId result]
              `sublist_of` emitted (daemon sys)
          | Throw error =>
              (start ∈ emitted (daemon sys)
               /\ listener_throws start = Some error)
              \/ (exists cause,
                    [start; RunError runId sessionId cause]
                    `sublist_of` emitted (daemon sys)
                    /\ (cause = error
                        \/ listener_throws (RunError runId sessionId cause)
                           = Some error))
          end.
Proof.
  intros Hrun Hin.
  assert (Hinit : announced config listener_throws [] initial_system).
  { constructor; cbn [initial_system sched daemon tasks Lanes.initial
                      Lanes.trace].
    - apply invariant_initial.
    - intros p' task Ht. rewrite lookup_empty in Ht. discriminate.
    - intros p' task runId Ht. rewrite lookup_empty in Ht. discriminate.
    - intros p' task o Ht. rewrite lookup_empty in Ht. discriminate.
    - intros p' o Hin'. inversion Hin'. }
  pose proof (announced_run calls [] _ _ Hinit Hrun) as Hann.
  cbn [app] in Hann. split.
  - pose proof (run_starts calls initial_system sys invariant_initial Hrun)
      as Hgrow.
    cbn [initial_system sched Lanes.initial Lanes.trace] in Hgrow.
    change (started_all []) with (@nil nat) in Hgrow. cbn [app] in Hgrow.
    rewrite <- Hgrow. apply lanes_started_once, (ann_lanes _ _ _ _ Hann).
  - destruct (ann_trace _ _ _ _ Hann p outcome Hin)
      as (sessionId & now & Hof & Hlog & provider & Hjust).
    exists sessionId, now, provider. cbv zeta.
    split; [exact Hof|]. split; [exact Hlog|exact Hjust].
Qed.

End Announced.

(** A run of session [s1] whose [runAgent] call resolves: the task
    started once, at the clock reading 5, and the promise resolves
    after [run:start] and [run:end] of the run [s1:5]. *)
Lemma settled_runs_announced_witness :
  exists sys,
    run_system Scenarios.plain_config Scenarios.quiet
      [CallRun Scenarios.hello_options 5 5;
       AgentSettles 0 (Normal Scenarios.fine_result);
       TaskSettled 0 9 9]
      initial_system
    = Some sys
    /\ (0%nat, Normal Scenarios.fine_result)
       ∈ Lanes.settlements (Lanes.trace (sched sys))
    /\ emitted (daemon sys)
       = [RunStart (str "s1:5") (str "s1") anthropic;
          RunEnd (str "s1:5") (str "s1") Scenarios.fine_result]
    /\ starts Scenarios.plain_config Scenarios.quiet
         [CallRun Scenarios.hello_options 5 5;
          AgentSettles 0 (Normal Scenarios.fine_result);
          TaskSettled 0 9 9]
         initial_system
       = [(0%nat, 5%N)]
    /\ exists sessionId now provider,
         run_of sys 0 sessionId
         /\ (0%nat, now)
            ∈ starts Scenarios.plain_config Scenarios.quiet
                [CallRun Scenarios.hello_options 5 5;
                 AgentSettles 0 (Normal Scenarios.fine_result);
                 TaskSettled 0 9 9]
                initial_system
         /\ [RunStart (make_runId sessionId now) sessionId provider;
             RunEnd (make_runId sessionId now) sessionId Scenarios.fine_result]
            `sublist_of` emitted (daemon sys).
Proof.
  eexists. split; [vm_compute; reflexivity|].
  split; [vm_compute; left|]. split; [vm_compute; reflexivity|].
  split; [vm_compute; reflexivity|].
  match goal with |- context [daemon ?sys] =>
    apply (settled_runs_announced Scenarios.plain_config Scenarios.quiet
             [CallRun Scenarios.hello_options 5 5;
              AgentSettles 0 (Normal Scenarios.fine_result);
              TaskSettled 0 9 9]
             sys 0%nat (Normal Scenarios.fine_result))
  end.
  - vm_compute. reflexivity.
  - vm_compute. left.
Defined.

End AnnouncedFacts.

(** ** Context files *)

Module SystemPromptFacts.

Import SystemPrompt JSFacts.

Section LoadFacts.

Variable readFile : js_string -> option js_string.
Variable workspaceDir : js_string.

Lemma has_elem (names : list js_string) (name : js_string) :
  has names name = true <-> name ∈ names.
Proof.
  unfold has. rewrite existsb_exists. split.
  - intros (n & Hin & Heq). apply eqb_eq in Heq as <-.
    apply list_elem_of_In. exact Hin.
  - intros Hin. exists name. split; [apply list_elem_of_In, Hin|apply eqb_refl].
Qed.

Lemma load_loop_kinds (kinds : list js_string)
  (files : list (js_string * js_string)) (acc : list ContextFile)
  (names : list js_string) :
  (forall path name, (path, name) ∈ files -> name ∈ kinds) ->
  NoDup names -> (forall name, name ∈ names -> name ∈ kinds) ->
  (length (load_loop readFile workspaceDir files acc names) + length names
   <= length acc + length kinds)%nat.
Proof.
  revert acc names. induction files as [|[path name] rest IH];
    intros acc names Hfiles Hnd Hsub.
  - cbn [load_loop].
    pose proof (submseteq_length _ _ (NoDup_submseteq _ _ Hnd Hsub)). lia.
  - assert (Hrest : forall p n, (p, n) ∈ rest -> n ∈ kinds).
    { intros p n Hin. apply (Hfiles p n). right. exact Hin. }
    cbn [load_loop]. destruct (has names name) eqn:Hhas; [apply IH; auto|].
    destruct (readFile _) as [content|]; [|apply IH; auto].
    destruct (trim content) as [|c trimmed]; [apply IH; auto|].
    assert (Hnew : name ∉ names).
    { intros Hin. apply has_elem in Hin. congruence. }
    specialize (IH (acc ++ [{| cf_path := path; cf_content := c :: trimmed |}])
                  (name :: names) Hrest).
    rewrite length_app in IH. cbn [length] in IH.
    assert (NoDup (name :: names)) by (constructor; assumption).
    assert (forall n, n ∈ name :: names -> n ∈ kinds).
    { intros n Hn. apply elem_of_cons in Hn as [->|Hn]; [|auto].
      apply (Hfiles path name). left. }
    specialize (IH H H0). lia.
Qed.

Lemma load_loop_spec (files : list (js_string * js_string))
  (acc : list ContextFile) (names : list js_string) (f : ContextFile) :
  f ∈ load_loop readFile workspaceDir files acc names
  <-> f ∈ acc
      \/ exists i path name content,
           files !! i = Some (path, name)
           /\ readFile (workspaceDir ++ str "/" ++ path) = Some content
           /\ trim content <> []
           /\ f = {| cf_path := path; cf_content := trim content |}
           /\ (name ∉ names)
           /\ forall j path', (j < i)%nat ->
                files !! j = Some (path', name) ->
                ~ usable readFile workspaceDir path'.
Proof.
  revert acc names. induction files as [|[path name] rest IH];
    intros acc names.
  - cbn [load_loop]. split; [auto|].
    intros [H|(i & p & n & c & Hi & _)]; [exact H|discriminate Hi].
  - cbn [load_loop].
    assert (Hskip :
      (has names name = true \/ ~ usable readFile workspaceDir path) ->
      (f ∈ load_loop readFile workspaceDir rest acc names
       <-> f ∈ acc
           \/ exists i path0 name0 content,
                ((path, name) :: rest) !! i = Some (path0, name0)
                /\ readFile (workspaceDir ++ str "/" ++ path0) = Some content
                /\ trim content <> []
                /\ f = {| cf_path := path0; cf_content := trim content |}
                /\ (name0 ∉ names)
                /\ forall j path', (j < i)%nat ->
                     ((path, name) :: rest) !! j = Some (path', name0) ->
                     ~ usable readFile workspaceDir path')).
    { intros Hhead. rewrite IH. split.
      - intros [H|(i & p & n & c & Hi & Hr & Ht & Hf & Hn & Hearlier)];
          [left; exact H|].
        right. exists (S i), p, n, c.
        repeat (split; [assumption|]).
        intros [|j] p' Hj Hlook.
        + cbn in Hlook. injection Hlook as <- <-.
          destruct Hhead as [Hhas|Hun]; [|exact Hun].
          apply has_elem in Hhas. contradiction.
        + apply (Hearlier j p'); [lia|exact Hlook].
      - intros [H|(i & p & n & c & Hi & Hr & Ht & Hf & Hn & Hearlier)];
          [left; exact H|].
        destruct i as [|i].
        + cbn in Hi. injection Hi as <- <-.
          destruct Hhead as [Hhas|Hun].
          * apply has_elem in Hhas. contradiction.
          * exfalso. apply Hun. exists c. auto.
        + right. exists i, p, n, c. repeat (split; [assumption|]).
          intros j p' Hj Hlook. apply (Hearlier (S j) p'); [lia|exact Hlook]. }
    destruct (has names name) eqn:Hhas; [apply Hskip; left; reflexivity|].
    assert (Hnew : name ∉ names).
    { intros Hin. apply has_elem in Hin. congruence. }
    destruct (readFile (workspaceDir ++ str "/" ++ path)) as [content|]
      eqn:Hread.
    2:{ apply Hskip. right. intros (c & Hc & _). congruence. }
    destruct (trim content) as [|c trimmed] eqn:Htrim.
    { apply Hskip. right. intros (c & Hc & Hne).
      rewrite Hread in Hc. injection Hc as <-. contradiction. }
    assert (Husable : usable readFile workspaceDir path).
    { exists content. rewrite Htrim. split; [exact Hread|discriminate]. }
    rewrite IH. split.
    + intros [H|(i & p & n & c' & Hi & Hr & Ht & Hf & Hn & Hearlier)].
      * apply elem_of_app in H as [H|H]; [left; exact H|].
        apply list_elem_of_singleton in H. right.
        exists 0%nat, path, name, content.
        split; [reflexivity|]. split; [exact Hread|].
        split; [rewrite Htrim; discriminate|].
        split; [rewrite Htrim; exact H|].
        split; [exact Hnew|]. intros j p' Hj. lia.
      * right. exists (S i), p, n, c'.
        repeat (split; [assumption|]).
        apply not_elem_of_cons in Hn as [Hne Hn].
        split; [exact Hn|].
        intros [|j] p' Hj Hlook.
        -- cbn in Hlook. injection Hlook as _ Heq. congruence.
        -- apply (Hearlier j p'); [lia|exact Hlook].
    + intros [H|(i & p & n & c' & Hi & Hr & Ht & Hf & Hn & Hearlier)].
      * left. apply elem_of_app. left. exact H.
      * destruct i as [|i].
        -- cbn in Hi. injection Hi as <- <-. left.
           apply elem_of_app. right. apply list_elem_of_singleton.
           rewrite Hread in Hr. injection Hr as <-.
           rewrite Hf, Htrim. reflexivity.
        -- right. exists i, p, n, c'. repeat (split; [assumption|]).
           split.
           ++ apply not_elem_of_cons. split; [|exact Hn].
              intros ->. apply (Hearlier 0%nat path); [lia|reflexivity|].
              exact Husable.
           ++ intros j p' Hj Hlook.
              apply (Hearlier (S j) p'); [lia|exact Hlook].
Qed.

(** X24: [loadContextFiles] returns at most three files, and for each
    kind the first file of the list that can be read and is not blank:
    a file is returned exactly when it is readable and not blank and no
    file of its kind placed before it in the list is; so the file in
    [.mini-owl] is used only when the one at the root of the workspace
    is missing or blank.  What is returned for a file is its content
    without the white space at both ends. *)
Theorem loadContextFiles_first_wins (f : ContextFile) :
  (length (loadContextFiles readFile workspaceDir) <= 3)%nat
  /\ (f ∈ loadContextFiles readFile workspaceDir
      <-> exists i path name content,
            filesToLoad !! i = Some (path, name)
            /\ readFile (workspaceDir ++ str "/" ++ path) = Some content
            /\ trim content <> []
            /\ f = {| cf_path := path; cf_content := trim content |}
            /\ forall j path', (j < i)%nat ->
                 filesToLoad !! j = Some (path', name) ->
                 ~ usable readFile workspaceDir path').
Proof.
  split.
  - pose proof (load_loop_kinds
                  [str "INSTRUCTIONS"; str "SOUL"; str "MEMORY"]
                  filesToLoad [] []) as H.
    cbn [length] in H. unfold loadContextFiles.
    rewrite Nat.add_0_r in H. apply H.
    + intros path name Hin. unfold filesToLoad in Hin.
      repeat (apply elem_of_cons in Hin as [[= -> ->]|Hin];
              [repeat constructor|]).
      inversion Hin.
    + constructor.
    + intros name Hin. inversion Hin.
  - unfold loadContextFiles. rewrite load_loop_spec. split.
    + intros [H|(i & p & n & c & Hi & Hr & Ht & Hf & _ & Hearlier)];
        [inversion H|]. exists i, p, n, c. auto.
    + intros (i & p & n & c & Hi & Hr & Ht & Hf & Hearlier).
      right. exists i, p, n, c. repeat (split; [assumption|]).
      split; [intros H; inversion H|exact Hearlier].
Qed.

End LoadFacts.

End SystemPromptFacts.

(** ** The session file *)

Module SessionFileFacts.

Import SystemPrompt SessionFile JSFacts.

Lemma trimStart_clean (s : js_string) :
  (forall c, head s = Some c -> is_space c = false) -> trimStart s = s.
Proof.
  destruct s as [|c s]; [reflexivity|]. intros H. cbn [trimStart].
  rewrite (H c eq_refl). reflexivity.
Qed.

Lemma head_rev {A} (s : list A) : head (rev s) = last s.
Proof.
  induction s as [|x s _] using rev_ind; [reflexivity|].
  rewrite rev_unit, last_snoc. reflexivity.
Qed.

Lemma trim_line_feed (s : js_string) :
  (forall c, head s = Some c -> is_space c = false) ->
  (forall c, last s = Some c -> is_space c = false) ->
  s <> [] ->
  trim (s ++ [10%N]) = s.
Proof.
  intros Hhead Hlast Hne. unfold trim, trimEnd.
  rewrite (trimStart_clean (s ++ [10%N])).
  - rewrite rev_unit. cbn [trimStart].
    change (is_space 10%N) with true. cbn iota.
    rewrite (trimStart_clean (rev s)); [apply rev_involutive|].
    intros c Hc. apply Hlast. rewrite head_rev in Hc. exact Hc.
  - intros c Hc. apply Hhead. destruct s; [contradiction|exact Hc].
Qed.

Lemma split_lines_line (line : js_string) :
  10%N ∉ line -> split_lines line = [line].
Proof.
  induction line as [|c line IH]; intros Hnl; [reflexivity|].
  apply not_elem_of_cons in Hnl as [Hc Hnl]. cbn [split_lines].
  destruct (N.eqb_spec c 10) as [->|_]; [contradiction|].
  rewrite IH by exact Hnl. reflexivity.
Qed.

Lemma split_lines_app (line rest : js_string) :
  10%N ∉ line ->
  split_lines (line ++ [10%N] ++ rest) = line :: split_lines rest.
Proof.
  induction line as [|c line IH]; intros Hnl; [reflexivity|].
  apply not_elem_of_cons in Hnl as [Hc Hnl]. cbn [app split_lines].
  destruct (N.eqb_spec c 10) as [->|_]; [contradiction|].
  cbn [app] in IH. rewrite IH by exact Hnl. reflexivity.
Qed.

Lemma split_join (lines : list js_string) :
  lines <> [] -> Forall (fun line => 10%N ∉ line) lines ->
  split_lines (join_lines lines) = lines.
Proof.
  intros Hne Hall. induction Hall as [|line rest Hline Hrest IH];
    [contradiction|].
  destruct rest as [|line' rest].
  - cbn [join_lines]. apply split_lines_line, Hline.
  - change (join_lines (line :: line' :: rest))
      with (line ++ [10%N] ++ join_lines (line' :: rest)).
    rewrite split_lines_app by exact Hline.
    rewrite IH by discriminate. reflexivity.
Qed.

Lemma join_lines_snoc (lines : list js_string) (line : js_string) :
  lines <> [] ->
  join_lines (lines ++ [line]) = join_lines lines ++ [10%N] ++ line.
Proof.
  induction lines as [|l lines IH]; intros Hne; [contradiction|].
  destruct lines as [|l' lines]; [reflexivity|].
  change (join_lines ((l :: l' :: lines) ++ [line]))
    with (l ++ [10%N] ++ join_lines ((l' :: lines) ++ [line])).
  rewrite IH by discriminate.
  change (join_lines (l :: l' :: lines))
    with (l ++ [10%N] ++ join_lines (l' :: lines)).
  rewrite <- !app_assoc. reflexivity.
Qed.

Lemma appended_lines (lines : list js_string) (line : js_string) :
  lines <> [] ->
  (join_lines lines ++ [10%N]) ++ (line ++ [10%N])
  = join_lines (lines ++ [line]) ++ [10%N].
Proof.
  intros Hne. rewrite join_lines_snoc by exact Hne.
  rewrite <- !app_assoc. reflexivity.
Qed.

Lemma join_lines_ends (lines : list js_string) :
  lines <> [] -> Forall clean lines ->
  join_lines lines <> []
  /\ (forall c, head (join_lines lines) = Some c -> is_space c = false)
  /\ (forall c, last (join_lines lines) = Some c -> is_space c = false).
Proof.
  intros Hne Hall. induction Hall as [|line rest Hline Hrest IH];
    [contradiction|].
  destruct Hline as (Hl & _ & Hhead & Hlast).
  destruct rest as [|line' rest]; [cbn [join_lines]; auto|].
  change (join_lines (line :: line' :: rest))
    with (line ++ [10%N] ++ join_lines (line' :: rest)).
  destruct IH as (Hne' & _ & Hlast'); [discriminate|].
  split; [|split].
  - destruct line; [contradiction|discriminate].
  - intros c Hc. apply Hhead. destruct line; [contradiction|exact Hc].
  - intros c Hc. apply Hlast'.
    rewrite app_assoc, last_app in Hc.
    destruct (last (join_lines (line' :: rest))) eqn:E; [exact Hc|].
    apply last_None in E. contradiction.
Qed.

Section Codec.

Context {Msg : Type}.
Variable stringify_metadata : Metadata -> js_string.
Variable stringify_message : Msg -> js_string.
Variable parse_metadata : js_string -> Completion Metadata.
Variable parse_message : js_string -> Completion Msg.

Lemma parse_messages_printed (ms : list Msg) :
  Forall (prints_message stringify_message parse_message) ms ->
  parse_messages parse_message (map stringify_message ms) = Normal ms.
Proof.
  induction 1 as [|m ms [_ Hm] _ IH]; [reflexivity|].
  cbn [map parse_messages]. rewrite Hm, IH. reflexivity.
Qed.

Lemma parse_lines (metadata : Metadata) (ms : list Msg) :
  prints_metadata stringify_metadata parse_metadata metadata ->
  Forall (prints_message stringify_message parse_message) ms ->
  parse_session parse_metadata parse_message
    (join_lines (stringify_metadata metadata :: map stringify_message ms)
     ++ [10%N])
  = Normal (Some {| sessionId := md_sessionId metadata;
                    messages := ms;
                    createdAt := md_createdAt metadata;
                    updatedAt := md_updatedAt metadata;
                    model := md_model metadata;
                    provider := md_provider metadata |}).
Proof.
  intros [Hclean Hparse] Hms.
  assert (Hlines : Forall clean (stringify_metadata metadata
                                 :: map stringify_message ms)).
  { constructor; [exact Hclean|]. apply Forall_map.
    eapply Forall_impl; [exact Hms|]. intros m [H _]. exact H. }
  assert (Hsome : stringify_metadata metadata :: map stringify_message ms
                  <> []) by discriminate.
  destruct (join_lines_ends _ Hsome Hlines) as (Hne & Hhead & Hlast).
  unfold parse_session. rewrite trim_line_feed by assumption.
  rewrite split_join.
  2:{ discriminate. }
  2:{ eapply Forall_impl; [exact Hlines|]. intros l (_ & H & _). exact H. }
  assert (Hkeep : forall ls, Forall clean ls -> List.filter nonempty ls = ls).
  { induction 1 as [|l ls [Hl _] _ IH]; [reflexivity|].
    cbn [List.filter]. destruct l; [contradiction|].
    cbn [nonempty]. rewrite IH. reflexivity. }
  rewrite (Hkeep _ Hlines), Hparse, parse_messages_printed by exact Hms.
  reflexivity.
Qed.

(** X25: what [saveSession] writes, [loadSession] reads back: the
    session with the time of the save as its update time; and after
    [appendMessage] it reads the same session with the message added at
    the end, the update time unchanged.  This holds when the lines are
    what [JSON.stringify] prints for objects (no line feed, no white
    space at the ends) and [JSON.parse] reads them back.  A file that
    is missing and a file that is blank both load as no session, and
    any other read error is thrown again. *)
Theorem session_file_round_trip (session : SessionData Msg) (now : js_string)
  (message : Msg) :
  prints_metadata stringify_metadata parse_metadata
    {| md_sessionId := sessionId session; md_createdAt := createdAt session;
       md_updatedAt := now; md_model := model session;
       md_provider := provider session |} ->
  Forall (prints_message stringify_message parse_message) (messages session) ->
  prints_message stringify_message parse_message message ->
  let saved := session_content stringify_metadata stringify_message session
                 now in
  let load := loadSession parse_metadata parse_message in
  load (inl saved)
  = Normal (Some {| sessionId := sessionId session;
                    messages := messages session;
                    createdAt := createdAt session; updatedAt := now;
                    model := model session; provider := provider session |})
  /\ load (inl (appended_content stringify_message saved message))
     = Normal (Some {| sessionId := sessionId session;
                       messages := messages session ++ [message];
                       createdAt := createdAt session; updatedAt := now;
                       model := model session;
                       provider := provider session |})
  /\ (forall content, trim content = [] -> load (inl content) = Normal None)
  /\ (forall error,
        load (inr error)
        = if eqb (fe_code error) (str "ENOENT") then Normal None
          else Throw (fe_message error)).
Proof.
  intros Hmd Hms Hm saved load. subst saved load.
  split; [|split; [|split]].
  - unfold loadSession, session_content.
    rewrite (parse_lines _ _ Hmd Hms). reflexivity.
  - unfold loadSession, session_content, appended_content.
    rewrite appended_lines by discriminate.
    rewrite <- app_comm_cons.
    change [stringify_message message] with (map stringify_message [message]).
    rewrite <- map_app.
    rewrite (parse_lines _ (messages session ++ [message]) Hmd).
    + reflexivity.
    + apply Forall_app. split; [exact Hms|]. constructor; [exact Hm|constructor].
  - intros content Hblank. unfold loadSession, parse_session.
    rewrite Hblank. reflexivity.
  - intros error. reflexivity.
Qed.

End Codec.

Lemma brace_clean (s : js_string) :
  10%N ∉ s -> clean (ToyCodec.brace s).
Proof.
  intros Hs. unfold clean, ToyCodec.brace. split; [discriminate|].
  split; [|split].
  - intros Hin. apply elem_of_cons in Hin as [Hin|Hin]; [discriminate|].
    apply elem_of_app in Hin as [Hin|Hin]; [contradiction|].
    apply list_elem_of_singleton in Hin. discriminate.
  - intros c [= <-]. reflexivity.
  - intros c Hc. cbn [app] in Hc. rewrite app_comm_cons, last_snoc in Hc.
    injection Hc as <-. reflexivity.
Qed.

Lemma unbrace_brace (s : js_string) :
  ToyCodec.unbrace (ToyCodec.brace s) = Normal s.
Proof.
  unfold ToyCodec.unbrace, ToyCodec.brace. cbn [app].
  rewrite rev_unit, rev_involutive. reflexivity.
Qed.

Lemma session_file_round_trip_witness :
  loadSession ToyCodec.read_metadata ToyCodec.unbrace
    (inl (appended_content ToyCodec.brace
            (session_content ToyCodec.print_metadata ToyCodec.brace
               ToyCodec.example_session (str "t1"))
            (str "bye")))
  = Normal (Some {| sessionId := str "s1";
                    messages := [str "hello"; str "bye"];
                    createdAt := str "t0"; updatedAt := str "t1";
                    model := None; provider := None |}).
Proof.
  assert (Hline : forall s : string, 10%N ∉ str s ->
            prints_message ToyCodec.brace ToyCodec.unbrace (str s)).
  { intros s Hs. split; [apply brace_clean, Hs|apply unbrace_brace]. }
  assert (Hno : forall s : js_string,
            forallb (fun c => negb (c =? 10)%N) s = true -> 10%N ∉ s).
  { intros s Hall Hin. rewrite forallb_forall in Hall.
    apply list_elem_of_In in Hin. specialize (Hall _ Hin).
    discriminate Hall. }
  apply (session_file_round_trip ToyCodec.print_metadata ToyCodec.brace
           ToyCodec.read_metadata ToyCodec.unbrace ToyCodec.example_session
           (str "t1") (str "bye")).
  - split; [apply brace_clean, Hno; reflexivity|].
    unfold ToyCodec.read_metadata, ToyCodec.print_metadata.
    rewrite unbrace_brace. reflexivity.
  - constructor; [|constructor]. apply Hline, Hno. reflexivity.
  - apply Hline, Hno. reflexivity.
Defined.

End SessionFileFacts.

(** ** The coding tools *)

Module CodingToolsFacts.

Import Runner RunnerSpec CodingTools JSFacts.

Lemma set_has_elem (names : list js_string) (name : js_string) :
  set_has names name = true <-> name ∈ names.
Proof.
  unfold set_has. rewrite existsb_exists. split.
  - intros (n & Hin & Heq). apply eqb_eq in Heq as <-.
    apply list_elem_of_In. exact Hin.
  - intros Hin. exists name. split; [apply list_elem_of_In, Hin|apply eqb_refl].
Qed.

Lemma filter_sublist {A} (f : A -> bool) (l : list A) :
  List.filter f l `sublist_of` l.
Proof.
  induction l as [|x l IH]; [constructor|].
  cbn [List.filter]. destruct (f x); [apply sublist_skip|apply sublist_cons];
    exact IH.
Qed.

Lemma filter_elem {A} (f : A -> bool) (l : list A) (x : A) :
  x ∈ List.filter f l <-> x ∈ l /\ f x = true.
Proof. rewrite !list_elem_of_In. apply filter_In. Qed.

Section CodingToolsFacts.

Variable toLowerCase : js_string -> js_string.
Variables read_execute write_execute edit_execute exec_execute ls_execute
  grep_execute : js_string -> ToolContext -> Files ->
                 Files * (ToolExecutionResult + js_string).

Local Abbreviation all :=
  (allTools read_execute write_execute edit_execute exec_execute ls_execute
     grep_execute).
Local Abbreviation create :=
  (createCodingTools toLowerCase read_execute write_execute edit_execute
     exec_execute ls_execute grep_execute).

(** X26: [createCodingTools] only ever selects among the six tools and
    keeps their order: without options it returns all of them; a tool is
    returned exactly when its lower-cased name is in the allow list, if
    one is given, and not in the deny list, if one is given, so a name
    in both lists is left out.  The six names are distinct, and with
    the tools it returns any other name is answered by the unknown-tool
    error. *)
Theorem createCodingTools_selects (options : option ToolOptions) :
  create None = all
  /\ create options `sublist_of` all
  /\ NoDup (name <$> all)
  /\ (forall t,
        t ∈ create options
        <-> t ∈ all
            /\ (forall names, options ≫= allowlist = Some names ->
                  toLowerCase (name t) ∈ map toLowerCase names)
            /\ (forall names, options ≫= denylist = Some names ->
                  toLowerCase (name t) ∉ map toLowerCase names))
  /\ (forall ctx toolName args w,
        tools ctx = create options ->
        toolName ∉ name <$> all ->
        executeTool ctx toolName args w
        = (w, Normal {| ter_content := unknown_tool_message toolName;
                        ter_isError := Some true |})).
Proof.
  assert (Hsub : create options `sublist_of` all).
  { unfold createCodingTools.
    destruct (options ≫= allowlist), (options ≫= denylist); cbv zeta.
    - etransitivity; apply filter_sublist.
    - apply filter_sublist.
    - apply filter_sublist.
    - reflexivity. }
  split; [reflexivity|]. split; [exact Hsub|]. split; [|split].
  - unfold allTools. cbn [fmap list_fmap name readTool writeTool editTool
                               execTool lsTool grepTool].
    apply (bool_decide_eq_true (NoDup _)). vm_compute. reflexivity.
  - intros t. unfold createCodingTools.
    destruct (options ≫= allowlist) as [allow|],
             (options ≫= denylist) as [deny|]; cbv zeta;
      rewrite ?filter_elem.
    + rewrite negb_true_iff, <- not_true_iff_false, !set_has_elem.
      split.
      * intros [[Ht Ha] Hd]. split; [exact Ht|].
        split; intros names [= <-]; assumption.
      * intros (Ht & Ha & Hd). auto.
    + rewrite set_has_elem. split.
      * intros [Ht Ha]. split; [exact Ht|].
        split; [intros names [= <-]; exact Ha|intros names H; discriminate H].
      * intros (Ht & Ha & _). auto.
    + rewrite negb_true_iff, <- not_true_iff_false, set_has_elem. split.
      * intros [Ht Hd]. split; [exact Ht|].
        split; [intros names H; discriminate H|intros names [= <-]; exact Hd].
      * intros (Ht & _ & Hd). auto.
    + split; [intros Ht|intros [Ht _]; exact Ht].
      split; [exact Ht|]. split; intros names H; discriminate H.
  - intros ctx toolName args w Htools Hname.
    apply RunnerFacts.executeTool_unknown. intros t Ht Heq.
    rewrite Htools in Ht. apply Hname. rewrite <- Heq.
    apply list_elem_of_fmap. exists t. split; [reflexivity|].
    eapply elem_of_sublist; eauto.
Qed.

End CodingToolsFacts.

End CodingToolsFacts.
